(** * simple-backup: the backup execution engine, embedded and verified

    A shallow embedding of the Go program [simple-backup] (package main:
    configuration validation, include/exclude filtering, the tree copy, the
    per-item failure policy of [runBackup], the progress callback and the
    retention cleanup), with the properties of its specification stated and
    settled against the embedded code.

    Go strings are byte strings: they are modelled as [string] (lists of
    8-bit [ascii]).  Fixed-width integers are [Z] with the wrap-around
    written out. *)

From Stdlib Require Import ZArith List Bool Ascii String Lia.
From Stdlib Require Import Floats.SpecFloat.
From Stdlib Require Import Sorting.Sorted Sorting.Permutation.
Import ListNotations.

Local Open Scope string_scope.
Local Open Scope Z_scope.

(** ** Go library primitives on byte strings *)

Module GoStrings.

Definition byte (c : ascii) : Z := Z.of_N (N_of_ascii c).

Definition chr (z : Z) : ascii := ascii_of_N (Z.to_N z).

Definition len (s : string) : Z := Z.of_nat (String.length s).

(** utf8.RuneSelf: bytes below it are single-byte (ASCII) runes. *)
Definition RuneSelf : Z := 128.

Fixpoint isASCII (s : string) : bool :=
  match s with
  | EmptyString => true
  | String c s' => (byte c <? RuneSelf) && isASCII s'
  end.

Definition isUpper (c : ascii) : bool := (65 <=? byte c) && (byte c <=? 90).

Definition lowerByte (c : ascii) : ascii :=
  if isUpper c then chr (byte c + 32) else c.

(** strings.ToLower, the ASCII path ([c += 'a' - 'A'] on 'A'..'Z').  On a
    string with a byte >= RuneSelf Go maps unicode.ToLower over the runes;
    the Unicode case tables are not modelled, such bytes are left as they
    are, and the theorems that depend on it assume [isASCII]. *)
Fixpoint ToLower (s : string) : string :=
  match s with
  | EmptyString => EmptyString
  | String c s' => String (lowerByte c) (ToLower s')
  end.

(** The asciiSpace table of package strings: '\t' '\n' '\v' '\f' '\r' ' '. *)
Definition asciiSpace (c : ascii) : bool :=
  let b := byte c in
  (b =? 9) || (b =? 10) || (b =? 11) || (b =? 12) || (b =? 13) || (b =? 32).

Fixpoint trimLeft (s : string) : string :=
  match s with
  | EmptyString => EmptyString
  | String c s' => if asciiSpace c then trimLeft s' else s
  end.

(** Drops the trailing white space: the scan from the right end of
    strings.TrimSpace, written as a right fold. *)
Fixpoint trimRight (s : string) : string :=
  match s with
  | EmptyString => EmptyString
  | String c s' =>
      match trimRight s' with
      | EmptyString => if asciiSpace c then EmptyString else String c EmptyString
      | t => String c t
      end
  end.

(** strings.TrimSpace on ASCII input. *)
Definition TrimSpace (s : string) : string := trimRight (trimLeft s).

Fixpoint HasPrefix (s prefix : string) : bool :=
  match prefix, s with
  | EmptyString, _ => true
  | String p prefix', String c s' => Ascii.eqb c p && HasPrefix s' prefix'
  | String _ _, EmptyString => false
  end.

Definition dropBytes (n : nat) (s : string) : string :=
  String.substring n (String.length s - n) s.

Definition takeBytes (n : nat) (s : string) : string := String.substring 0 n s.

(** strings.HasSuffix: [len(s) >= len(suffix) && s[len(s)-len(suffix):] == suffix]. *)
Definition HasSuffix (s suffix : string) : bool :=
  (String.length suffix <=? String.length s)%nat &&
  String.eqb (dropBytes (String.length s - String.length suffix) s) suffix.

(** strings.TrimSuffix. *)
Definition TrimSuffix (s suffix : string) : string :=
  if HasSuffix s suffix
  then takeBytes (String.length s - String.length suffix) s
  else s.

(** strings.Contains for a one-byte substring. *)
Fixpoint ContainsByte (s : string) (b : ascii) : bool :=
  match s with
  | EmptyString => false
  | String c s' => Ascii.eqb c b || ContainsByte s' b
  end.

End GoStrings.

(** ** Errors

    Go [error] values as the program builds them: [fmt.Errorf] with a [%w]
    verb wraps its cause, without one it makes a fresh error. *)

Inductive error : Type :=
| ErrSyntax                       (* strconv.ErrSyntax *)
| ErrRange                        (* strconv.ErrRange *)
| ErrBadPattern                   (* filepath.ErrBadPattern *)
| ErrNotExist                     (* os.ErrNotExist *)
| ErrIO (what : string)           (* any other error of the operating system *)
| Errorf (msg : string)           (* fmt.Errorf without %w *)
| Wrapf (msg : string) (cause : error).  (* fmt.Errorf("msg: %w", cause) *)

(** errors.Unwrap iterated: the innermost cause. *)
Fixpoint rootCause (e : error) : error :=
  match e with
  | Wrapf _ c => rootCause c
  | _ => e
  end.

(** ** strconv.ParseInt(s, 10, 64) *)

Module Strconv.
Import GoStrings.

Definition maxUint64 : Z := 2 ^ 64 - 1.

Definition isDigit (c : ascii) : bool := (48 <=? byte c) && (byte c <=? 57).

(** The digit loop of strconv.ParseUint for base 10, bitSize 64:
    [cutoff = maxUint64/10 + 1]; [n*10] cannot wrap below the cutoff and the
    addition of the digit is checked through the wrapped sum [n1 < n]. *)
Fixpoint parseUintLoop (s : string) (n : Z) : error + Z :=
  match s with
  | EmptyString => inr n
  | String c s' =>
      if isDigit c then
        let d := byte c - 48 in
        if n >=? maxUint64 / 10 + 1 then inl ErrRange
        else
          let n10 := n * 10 in
          let n1 := (n10 + d) mod 2 ^ 64 in
          if (n1 <? n10) || (n1 >? maxUint64) then inl ErrRange
          else parseUintLoop s' n1
      else inl ErrSyntax
  end.

Definition ParseUint (s : string) : error + Z :=
  match s with
  | EmptyString => inl ErrSyntax
  | _ => parseUintLoop s 0
  end.

(** strconv.ParseInt(s, 10, 64): an optional sign, then ParseUint, then the
    range check against [cutoff = 1 << 63]. *)
Definition ParseInt (s : string) : error + Z :=
  match s with
  | EmptyString => inl ErrSyntax
  | String c s' =>
      let neg := Ascii.eqb c "-" in
      let body := if Ascii.eqb c "+" || neg then s' else s in
      match ParseUint body with
      | inl e => inl e
      | inr un =>
          let cutoff := 2 ^ 63 in
          if negb neg && (un >=? cutoff) then inl ErrRange
          else if neg && (un >? cutoff) then inl ErrRange
          else inr (if neg then - un else un)
      end
  end.

End Strconv.

(** ** Configuration: limits, records, parseDiskSize, validate *)

Module Config.
Import GoStrings Strconv.

(** LIMITS AND DEFAULTS *)
Definition Prefix : string := "smbkp".
Definition BackupDestDirDefault : string := "smbkp".
Definition LimitMinBackupsToKeep : Z := 1.
Definition LimitMinFreeSpace : string := "10mb".
Definition LimitMinFreeSpaceParsed : Z := 10485760.

Definition MB : Z := 1024 * 1024.
Definition GB : Z := 1024 * 1024 * 1024.

(** OBJECT FOR EACH ENTRY UNDER 'BKP_ITEMS' *)
Record BackupItem : Type := mkBackupItem {
  Source : string;
  Destination : string;
  Include : list string;
  Exclude : list string
}.

(** The [Retention] struct of [Config]: [BackupsToKeep] is a uint16,
    [minFreeSpaceParsed] a uint64. *)
Record RetentionCfg : Type := mkRetention {
  BackupsToKeep : Z;
  MinFreeSpace : string;
  minFreeSpaceParsed : Z
}.

(** BACKUP CONFIG OBJECT *)
Record Config : Type := mkConfig {
  BkpDestDir : string;
  Retention : RetentionCfg;
  BkpItems : list BackupItem
}.

(** INIT CONFIG STRUCT WITH DEFAULT VALUES *)
Definition NewConfig : Config :=
  mkConfig BackupDestDirDefault
           (mkRetention LimitMinBackupsToKeep LimitMinFreeSpace LimitMinFreeSpaceParsed)
           [].

(** Parse disk size string that is formatted for human readability.
    [uint64(num) * multiplier] is computed modulo 2^64. *)
Definition parseDiskSize (sizeStr : string) : error + Z :=
  let sizeStr := ToLower (TrimSpace sizeStr) in
  let parse (multiplier : Z) (valueStr : string) : error + Z :=
    match ParseInt (TrimSpace valueStr) with
    | inl err => inl (Wrapf "invalid number value" err)
    | inr num => inr (((num mod 2 ^ 64) * multiplier) mod 2 ^ 64)
    end in
  if HasSuffix sizeStr "mb" then parse (1024 * 1024) (TrimSuffix sizeStr "mb")
  else if HasSuffix sizeStr "gb" then parse (1024 * 1024 * 1024) (TrimSuffix sizeStr "gb")
  else inl (Errorf "invalid format: must end with 'mb' or 'gb'").

Fixpoint dropDigits (s : string) : string :=
  match s with
  | String c s' => if isDigit c then dropDigits s' else s
  | EmptyString => EmptyString
  end.

(** [regexp.MustCompile(MinFreeSpacePattern).MatchString] for the pattern
    [^\d+(mb|gb)$]: one or more ASCII digits, then "mb" or "gb", and nothing
    else. *)
Definition MinFreeSpacePattern_MatchString (s : string) : bool :=
  let rest := dropDigits s in
  (String.length rest <? String.length s)%nat &&
  (String.eqb rest "mb" || String.eqb rest "gb").

Section Validate.

(** [filepath.Base], a function of the Go library that depends on the
    platform (volume names, separators). *)
Variable filepath_Base : string -> string.

Definition defaultDestination (it : BackupItem) : BackupItem :=
  if String.eqb (Destination it) ""
  then mkBackupItem (Source it) (filepath_Base (Source it)) (Include it) (Exclude it)
  else it.

(** VALIDATE MAIN APP CONFIG.  The method mutates the receiver: the result
    is the configuration as it is left, with the returned error. *)
Definition validate (c : Config) : Config * option error :=
  (* Validate backups_to_keep *)
  let keep :=
    if BackupsToKeep (Retention c) <? LimitMinBackupsToKeep
    then LimitMinBackupsToKeep else BackupsToKeep (Retention c) in
  let c1 := mkConfig (BkpDestDir c)
              (mkRetention keep (MinFreeSpace (Retention c))
                           (minFreeSpaceParsed (Retention c)))
              (BkpItems c) in
  (* Validate min_free_space format *)
  if negb (MinFreeSpacePattern_MatchString (ToLower (MinFreeSpace (Retention c1))))
  then (c1, Some (Errorf "min_free_space value has invalid format"))
  else
    (* Validate min_free_space value *)
    match parseDiskSize (MinFreeSpace (Retention c1)) with
    | inl err => (c1, Some err)
    | inr parsed =>
        let r2 :=
          if parsed <? LimitMinFreeSpaceParsed
          then mkRetention keep LimitMinFreeSpace LimitMinFreeSpaceParsed
          else Retention c1 in
        (* c.Retention.minFreeSpaceParsed = minFreeSpaceParsed *)
        let r3 := mkRetention (BackupsToKeep r2) (MinFreeSpace r2) parsed in
        (mkConfig (BkpDestDir c1) r3 (map defaultDestination (BkpItems c1)), None)
    end.

End Validate.

End Config.

(** ** path/filepath.Match

    The glob matcher of the Go library, as the program calls it.  It is not
    part of the repository; it is transcribed here from the library
    (scanChunk, matchChunk, getEsc, utf8.DecodeRuneInString) so that the
    filter can be run.  The loops that consume the pattern are given the
    length of the pattern as fuel. *)

Module Filepath.
Import GoStrings.

(** runtime.GOOS, as far as package filepath cares. *)
Inductive GOOS : Type := Unix | Windows.

Definition isWindows (os : GOOS) : bool :=
  match os with Windows => true | Unix => false end.

(** filepath.Separator *)
Definition Separator (os : GOOS) : ascii :=
  match os with Windows => "\"%char | Unix => "/"%char end.

Definition sep (os : GOOS) : string := String (Separator os) EmptyString.

Definition RuneError : Z := 65533.

(** The [first] table of package utf8 for a leading byte: the size of the
    sequence and the range accepted for its second byte; [None] for ASCII
    and for the invalid leading bytes. *)
Definition first (b : Z) : option (nat * Z * Z) :=
  if (194 <=? b) && (b <=? 223) then Some (2%nat, 128, 191)
  else if b =? 224 then Some (3%nat, 160, 191)
  else if ((225 <=? b) && (b <=? 236)) || (b =? 238) || (b =? 239) then Some (3%nat, 128, 191)
  else if b =? 237 then Some (3%nat, 128, 159)
  else if b =? 240 then Some (4%nat, 144, 191)
  else if (241 <=? b) && (b <=? 243) then Some (4%nat, 128, 191)
  else if b =? 244 then Some (4%nat, 128, 143)
  else None.

Definition cont (b : Z) : bool := (128 <=? b) && (b <=? 191).

(** utf8.DecodeRuneInString: the rune and its width in bytes. *)
Definition DecodeRuneInString (s : string) : Z * nat :=
  match s with
  | EmptyString => (RuneError, 0%nat)
  | String c0 t0 =>
      let s0 := byte c0 in
      match first s0 with
      | None => (if s0 <? RuneSelf then s0 else RuneError, 1%nat)
      | Some (sz, lo, hi) =>
          if (String.length s <? sz)%nat then (RuneError, 1%nat)
          else
            match t0 with
            | EmptyString => (RuneError, 1%nat)
            | String c1 t1 =>
                let s1 := byte c1 in
                if (s1 <? lo) || (hi <? s1) then (RuneError, 1%nat)
                else if (sz <=? 2)%nat
                then (Z.lor (Z.shiftl (Z.land s0 31) 6) (Z.land s1 63), 2%nat)
                else
                  match t1 with
                  | EmptyString => (RuneError, 1%nat)
                  | String c2 t2 =>
                      let s2 := byte c2 in
                      if negb (cont s2) then (RuneError, 1%nat)
                      else if (sz <=? 3)%nat
                      then (Z.lor (Z.lor (Z.shiftl (Z.land s0 15) 12)
                                         (Z.shiftl (Z.land s1 63) 6))
                                  (Z.land s2 63), 3%nat)
                      else
                        match t2 with
                        | EmptyString => (RuneError, 1%nat)
                        | String c3 _ =>
                            let s3 := byte c3 in
                            if negb (cont s3) then (RuneError, 1%nat)
                            else (Z.lor (Z.lor (Z.lor (Z.shiftl (Z.land s0 7) 18)
                                                      (Z.shiftl (Z.land s1 63) 12))
                                               (Z.shiftl (Z.land s2 63) 6))
                                        (Z.land s3 63), 4%nat)
                        end
                  end
            end
      end
  end.

Definition tailBytes (s : string) : string :=
  match s with EmptyString => EmptyString | String _ t => t end.

Fixpoint skipBytes (n : nat) (s : string) : string :=
  match n with
  | O => s
  | S n' => skipBytes n' (tailBytes s)
  end.

Section Match.

Variable os : GOOS.

(** scanChunk, after the leading stars: the scan for the end of the chunk. *)
Fixpoint scanLoop (pattern : string) (inrange : bool) : string * string :=
  match pattern with
  | EmptyString => (EmptyString, EmptyString)
  | String c p' =>
      if Ascii.eqb c "\" && negb (isWindows os) then
        match p' with
        | EmptyString => (String c EmptyString, EmptyString)
        | String d p'' =>
            let (chunk, rest) := scanLoop p'' inrange in
            (String c (String d chunk), rest)
        end
      else if Ascii.eqb c "*" && negb inrange then (EmptyString, pattern)
      else
        let inrange' :=
          if Ascii.eqb c "[" then true
          else if Ascii.eqb c "]" then false else inrange in
        let (chunk, rest) := scanLoop p' inrange' in
        (String c chunk, rest)
  end.

Fixpoint dropStars (pattern : string) : string :=
  match pattern with
  | String c p' => if Ascii.eqb c "*" then dropStars p' else pattern
  | EmptyString => EmptyString
  end.

(** scanChunk gets the next segment of pattern, which is a non-star string
    possibly preceded by a star. *)
Definition scanChunk (pattern : string) : bool * string * string :=
  let star := HasPrefix pattern "*" in
  let (chunk, rest) := scanLoop (dropStars pattern) false in
  (star, chunk, rest).

(** getEsc gets a possibly-escaped character from chunk, for a character
    class: [None] is ErrBadPattern. *)
Definition getEsc (chunk : string) : option (Z * string) :=
  match chunk with
  | EmptyString => None
  | String c chunk' =>
      if Ascii.eqb c "-" || Ascii.eqb c "]" then None
      else
        let body := if Ascii.eqb c "\" && negb (isWindows os) then chunk' else chunk in
        match body with
        | EmptyString => None
        | _ =>
            let (r, n) := DecodeRuneInString body in
            if (r =? RuneError) && (n =? 1)%nat then None
            else
              match skipBytes n body with
              | EmptyString => None
              | nchunk => Some (r, nchunk)
              end
        end
  end.

(** The ranges of a character class, up to its closing bracket: whether the
    rune [r] is in one of them, and what is left of the chunk. *)
Fixpoint classLoop (fuel : nat) (chunk : string) (r : Z) (nrange : nat) (matched : bool)
  : option (bool * string) :=
  match fuel with
  | O => None
  | S fuel' =>
      match chunk with
      | String c chunk' =>
          if Ascii.eqb c "]" && (0 <? nrange)%nat then Some (matched, chunk')
          else classRange fuel' chunk r nrange matched
      | EmptyString => classRange fuel' chunk r nrange matched
      end
  end
with classRange (fuel : nat) (chunk : string) (r : Z) (nrange : nat) (matched : bool)
  : option (bool * string) :=
  match fuel with
  | O => None
  | S fuel' =>
      match getEsc chunk with
      | None => None
      | Some (lo, chunk1) =>
          let next (hi : Z) (chunk2 : string) :=
            classLoop fuel' chunk2 r (S nrange)
                      (matched || ((lo <=? r) && (r <=? hi))) in
          match chunk1 with
          | String d chunk1' =>
              if Ascii.eqb d "-" then
                match getEsc chunk1' with
                | None => None
                | Some (hi, chunk2) => next hi chunk2
                end
              else next lo chunk1
          | EmptyString => None
          end
      end
  end.

Inductive chunkResult : Type :=
| BadPattern                 (* err == ErrBadPattern *)
| NoMatch                    (* ok == false, err == nil *)
| Matched (rest : string).   (* ok == true *)

(** matchChunk checks whether chunk matches the beginning of s.  After the
    match has failed the loop goes on over the chunk, checking that the
    pattern is well formed but no longer reading s. *)
Fixpoint matchChunkLoop (fuel : nat) (chunk s : string) (failed : bool) : chunkResult :=
  match fuel with
  | O => match chunk with
         | EmptyString => if failed then NoMatch else Matched s
         | _ => BadPattern
         end
  | S fuel' =>
      match chunk with
      | EmptyString => if failed then NoMatch else Matched s
      | String c chunk' =>
          let failed := failed || (String.length s =? 0)%nat in
          let literal (lit : ascii) (chunkAfter : string) :=
            if failed then matchChunkLoop fuel' chunkAfter s failed
            else
              match s with
              | String c0 s' =>
                  matchChunkLoop fuel' chunkAfter s' (negb (Ascii.eqb lit c0))
              | EmptyString => matchChunkLoop fuel' chunkAfter s true
              end in
          if Ascii.eqb c "[" then
            let (r, s1) :=
              if failed then (0, s)
              else let (r, n) := DecodeRuneInString s in (r, skipBytes n s) in
            let negated := HasPrefix chunk' "^" in
            let chunk1 := if negated then tailBytes chunk' else chunk' in
            match classLoop (2 * String.length chunk1 + 2) chunk1 r 0 false with
            | None => BadPattern
            | Some (matched, chunk2) =>
                matchChunkLoop fuel' chunk2 s1 (failed || Bool.eqb matched negated)
            end
          else if Ascii.eqb c "?" then
            if failed then matchChunkLoop fuel' chunk' s failed
            else
              let isSep := HasPrefix s (sep os) in
              let (_, n) := DecodeRuneInString s in
              matchChunkLoop fuel' chunk' (skipBytes n s) isSep
          else if Ascii.eqb c "\" && negb (isWindows os) then
            match chunk' with
            | EmptyString => BadPattern
            | String e chunk'' => literal e chunk''
            end
          else literal c chunk'
      end
  end.

Definition matchChunk (chunk s : string) : chunkResult :=
  matchChunkLoop (String.length chunk) chunk s false.

Inductive starResult : Type :=
| StarErr                    (* return false, err *)
| StarFail                   (* the loop ends without a match *)
| StarOk (rest : string).    (* name = t; continue Pattern *)

(** [for i := 0; i < len(name) && name[i] != Separator; i++]: look for a
    match skipping i+1 bytes; a star cannot skip the separator. *)
Fixpoint starLoop (chunk name : string) (lastChunk : bool) : starResult :=
  match name with
  | EmptyString => StarFail
  | String c name' =>
      if Ascii.eqb c (Separator os) then StarFail
      else
        match matchChunk chunk name' with
        | Matched t =>
            if lastChunk && (0 <? String.length t)%nat
            then starLoop chunk name' lastChunk
            else StarOk t
        | BadPattern => StarErr
        | NoMatch => starLoop chunk name' lastChunk
        end
  end.

(** Before returning false with no error, check that the remainder of the
    pattern is syntactically valid. *)
Fixpoint checkRemainder (fuel : nat) (pattern : string) : option error :=
  match fuel with
  | O => None
  | S fuel' =>
      match pattern with
      | EmptyString => None
      | _ =>
          let '(_, chunk, rest) := scanChunk pattern in
          match matchChunk chunk EmptyString with
          | BadPattern => Some ErrBadPattern
          | _ => checkRemainder fuel' rest
          end
      end
  end.

(** The [Pattern:] loop of Match. *)
Fixpoint matchLoop (fuel : nat) (pattern name : string) : error + bool :=
  match fuel with
  | O => inr (String.length name =? 0)%nat
  | S fuel' =>
      match pattern with
      | EmptyString => inr (String.length name =? 0)%nat
      | _ =>
          let '(star, chunk, rest) := scanChunk pattern in
          if star && (String.length chunk =? 0)%nat
          then inr (negb (ContainsByte name (Separator os)))
          else
            let lastChunk := (String.length rest =? 0)%nat in
            let fallback (bad : bool) : error + bool :=
              if bad then inl ErrBadPattern
              else
                let giveUp : error + bool :=
                  match checkRemainder fuel' rest with
                  | Some e => inl e
                  | None => inr false
                  end in
                if star then
                  match starLoop chunk name lastChunk with
                  | StarOk t => matchLoop fuel' rest t
                  | StarErr => inl ErrBadPattern
                  | StarFail => giveUp
                  end
                else giveUp in
            match matchChunk chunk name with
            | Matched t =>
                if (String.length t =? 0)%nat || negb lastChunk
                then matchLoop fuel' rest t
                else fallback false
            | BadPattern => fallback true
            | NoMatch => fallback false
            end
      end
  end.

(** filepath.Match(pattern, name) *)
Definition Match (pattern name : string) : error + bool :=
  matchLoop (String.length pattern) pattern name.

(** [matched, _ := filepath.Match(pattern, path)]: the caller drops the
    error, and Match returns false with it. *)
Definition matched (pattern name : string) : bool :=
  match Match pattern name with
  | inr b => b
  | inl _ => false
  end.

End Match.

End Filepath.

(** ** The progress callback of runBackup

    [percentage := int(float64(processedItems) * 100 / float64(totalItems))]
    is computed in IEEE 754 binary64; the float operations are those of
    [SpecFloat] at precision 53, and the conversions are written out. *)

Module Progress.

Definition float64 : Type := spec_float.

Definition prec : Z := 53.
Definition emax : Z := 1024.

(** The conversion [float64(n)] of an int: round to nearest even. *)
Definition float64_of_int (n : Z) : float64 := binary_normalize prec emax n 0 false.

Definition mul (x y : float64) : float64 := SFmul prec emax x y.
Definition div (x y : float64) : float64 := SFdiv prec emax x y.

Definition minInt64 : Z := - 2 ^ 63.

(** The integer part of [m * 2^e], for [m >= 0]. *)
Definition floorValue (m e : Z) : Z := if 0 <=? e then m * 2 ^ e else m / 2 ^ (- e).

(** The conversion [int(f)]: the fraction is discarded (truncation towards
    zero).  For a NaN, an infinity or a value outside int64 the result is
    that of amd64, the smallest int64. *)
Definition int_of_float64 (f : float64) : Z :=
  match f with
  | S754_zero _ => 0
  | S754_finite s m e =>
      let a := floorValue (Z.pos m) e in
      let v := if s then - a else a in
      if (minInt64 <=? v) && (v <? 2 ^ 63) then v else minInt64
  | _ => minInt64
  end.

(** [int(float64(processedItems) * 100 / float64(totalItems))] *)
Definition percentageOf (processedItems totalItems : Z) : Z :=
  int_of_float64
    (div (mul (float64_of_int processedItems) (float64_of_int 100))
         (float64_of_int totalItems)).

(** [completed := int(float64(percentage) / 100.0 * float64(progressBarLength))] *)
Definition completedOf (percentage : Z) : Z :=
  int_of_float64
    (mul (div (float64_of_int percentage) (float64_of_int 100)) (float64_of_int 50)).

(** The variables the closure captures, and what it has drawn: the
    percentage of each progress bar printed, in order. *)
Record Bar : Type := mkBar {
  processedItems : Z;
  lastUpdate : Z;
  drawn : list Z
}.

(** [var processedItems int; lastUpdate := -1] *)
Definition start : Bar := mkBar 0 (-1) [].

(** The closure [progressCb] for an item of [totalItems] entries. *)
Definition progressCb (totalItems : Z) (b : Bar) : Bar :=
  let processed := processedItems b + 1 in
  if totalItems >? 0 then
    let percentage := percentageOf processed totalItems in
    if percentage >? lastUpdate b
    then mkBar processed percentage (drawn b ++ [percentage])
    else mkBar processed (lastUpdate b) (drawn b)
  else mkBar processed (lastUpdate b) (drawn b).

(** The callback after [n] created entries. *)
Fixpoint after (totalItems : Z) (n : nat) : Bar :=
  match n with
  | O => start
  | S n' => progressCb totalItems (after totalItems n')
  end.

End Progress.

(** ** Helpers: formatBytes

    [formatBytes] prints through package fmt.  The verb [%d] is the digit
    loop of fmt's fmtInteger; the verb [%.1f] is
    [strconv.FormatFloat(f, 'f', 1, 64)], which prints the exact decimal
    expansion of the float rounded to one digit after the point, a tie
    going to the even digit. *)

Module Helpers.
Import GoStrings Config Progress.

(** The loop of fmtInteger for base 10, which fills the buffer from its
    end: [for u >= 10 { i--; next := u / 10; buf[i] = byte('0' + u - next*10);
    u = next }; i--; buf[i] = digits[u]].  [buf] is what is written so far. *)
Fixpoint fmtIntegerLoop (fuel : nat) (u : Z) (buf : string) : string :=
  match fuel with
  | O => buf
  | S fuel' =>
      if u >=? 10 then
        let next := u / 10 in
        fmtIntegerLoop fuel' next (String (chr (48 + u - next * 10)) buf)
      else String (chr (48 + u)) buf
  end.

(** The decimal numeral of [u >= 0]; the loop runs once per digit, and a
    number has no more decimal digits than binary ones. *)
Definition fmtInteger (u : Z) : string :=
  fmtIntegerLoop (S (Z.to_nat (Z.log2 u))) u "".

(** The integer nearest to [num / den], for [den > 0]; a tie goes to the
    even one. *)
Definition roundHalfEven (num den : Z) : Z :=
  let q := num / den in
  let r2 := 2 * (num mod den) in
  if r2 <? den then q
  else if den <? r2 then q + 1
  else if Z.even q then q else q + 1.

(** The number of tenths nearest to [m * 2^e]. *)
Definition tenths (m e : Z) : Z :=
  if 0 <=? e then m * 2 ^ e * 10 else roundHalfEven (m * 10) (2 ^ (- e)).

(** fmt.Sprintf("%.1f", f) *)
Definition Sprintf_1f (f : float64) : string :=
  match f with
  | S754_nan => "NaN"
  | S754_infinity s => if s then "-Inf" else "+Inf"
  | S754_zero s => if s then "-0.0" else "0.0"
  | S754_finite s m e =>
      let t := tenths (Z.pos m) e in
      (if s then "-" else "") ++ fmtInteger (t / 10) ++ "." ++ fmtInteger (t mod 10)
  end.

(** strings.Replace(s, old, new, 1) for one-byte [old] and [new]: the
    first [old] is replaced. *)
Fixpoint replaceFirst (s : string) (old new : ascii) : string :=
  match s with
  | EmptyString => EmptyString
  | String c s' => if Ascii.eqb c old then String new s' else String c (replaceFirst s' old new)
  end.

(** formatBytes converts a size in bytes to a human-readable string in MB
    or GB. *)
Definition formatBytes (bytes : Z) : string :=
  if bytes <? GB then
    let mb := bytes / MB in
    fmtInteger mb ++ "mb"
  else
    let gb := div (float64_of_int bytes) (float64_of_int GB) in
    (* Format with one decimal place and replace '.' with ',' *)
    replaceFirst (Sprintf_1f gb ++ "gb") "." ",".

End Helpers.

(** ** runBackup: the line that announces an item

    Before an item is copied, [runBackup] prints its number, its source
    and its patterns, cut to the width of the terminal.  The cut is made
    on runes: the message is converted to [[]rune], sliced, and converted
    back. *)

Module Utf8.
Import GoStrings Filepath.

Definition MaxRune : Z := 1114111.   (* U+10FFFF *)
Definition surrogateMin : Z := 55296.
Definition surrogateMax : Z := 57343.
Definition rune1Max : Z := 127.
Definition rune2Max : Z := 2047.
Definition rune3Max : Z := 65535.

(** [[]rune(s)]: the runes of [s] one after the other, as
    [DecodeRuneInString] reads them, an invalid byte giving [RuneError].
    Every round consumes at least one byte. *)
Fixpoint runesLoop (fuel : nat) (s : string) : list Z :=
  match fuel with
  | O => []
  | S fuel' =>
      match s with
      | EmptyString => []
      | _ =>
          let '(r, size) := DecodeRuneInString s in
          r :: runesLoop fuel' (skipBytes size s)
      end
  end.

Definition runes (s : string) : list Z := runesLoop (String.length s) s.

Definition byteOf (z : Z) : ascii := chr (z mod 256).

(** The encoding of one rune ([encoderune] of the runtime): a rune out
    of range or a surrogate half is written as [RuneError]. *)
Definition encoderune (r : Z) : string :=
  let three (r : Z) : string :=
    String (byteOf (Z.lor 224 (Z.shiftr r 12)))
      (String (byteOf (Z.lor 128 (Z.land (Z.shiftr r 6) 63)))
         (String (byteOf (Z.lor 128 (Z.land r 63))) "")) in
  if (0 <=? r) && (r <=? rune1Max) then String (byteOf r) ""
  else if (0 <=? r) && (r <=? rune2Max) then
    String (byteOf (Z.lor 192 (Z.shiftr r 6)))
      (String (byteOf (Z.lor 128 (Z.land r 63))) "")
  else if (r <? 0) || (MaxRune <? r) || ((surrogateMin <=? r) && (r <=? surrogateMax))
  then three RuneError
  else if r <=? rune3Max then three r
  else
    String (byteOf (Z.lor 240 (Z.shiftr r 18)))
      (String (byteOf (Z.lor 128 (Z.land (Z.shiftr r 12) 63)))
         (String (byteOf (Z.lor 128 (Z.land (Z.shiftr r 6) 63)))
            (String (byteOf (Z.lor 128 (Z.land r 63))) ""))).

(** [string(runes)] *)
Fixpoint stringOfRunes (rs : list Z) : string :=
  match rs with
  | [] => ""
  | r :: rs' => encoderune r ++ stringOfRunes rs'
  end.

End Utf8.

Module Announce.
Import GoStrings Filepath Config Helpers Utf8.

(** "\n" *)
Definition LF : string := String (ascii_of_nat 10) "".

(** strings.Join *)
Fixpoint Join (elems : list string) (sep : string) : string :=
  match elems with
  | [] => ""
  | [e] => e
  | e :: rest => e ++ sep ++ Join rest sep
  end.

(** The message for item number [i] (from 0) of [total]. *)
Definition message (i total : nat) (item : BackupItem) : string :=
  let cur_item_message :=
    LF ++ "[" ++ fmtInteger (Z.of_nat i + 1) ++ "/" ++ fmtInteger (Z.of_nat total)
      ++ "] Backing up: " ++ Source item in
  match Include item with
  | _ :: _ =>
      cur_item_message ++ "  (Include: " ++ Join (Include item) ", " ++ ")" ++ LF
  | [] =>
      cur_item_message ++ "  (Exclude: " ++ Join (Exclude item) ", " ++ ")" ++ LF
  end.

(** What becomes of the message: it is handed to the logger, or the
    slice expression panics. *)
Inductive fitted : Type :=
| Shown (text : string)
| Panics.

(** Fit the log message into the terminal.  [width] is what
    [getTerminalWidth()] returns, taken to be the same at its two calls.
    [runes[:k]] panics for a negative [k]. *)
Definition fit (width : Z) (cur_item_message : string) : fitted :=
  let rs := runes cur_item_message in
  if Z.of_nat (List.length rs) >=? width then
    if width - 6 <? 0 then Panics
    else Shown (stringOfRunes (firstn (Z.to_nat (width - 6)) rs) ++ "... )" ++ LF)
  else Shown cur_item_message.

Definition announcement (width : Z) (i total : nat) (item : BackupItem) : fitted :=
  fit width (message i total item).

End Announce.

(** ** The orchestrator: reviewBackupConfig, runBackup, main

    The program talks to the operating system; what the operating system
    answers is gathered in a [World], and what the program asks of it is
    recorded, in order, as a trace of [event]s.  The operator's terminal is
    the list of the entries that the successive reads find.
    [reader.ReadString('\n')], in the run, stores the entry it finds as it
    is.  [fmt.Scanln(&response)], in the review, reads the entry it finds
    byte by byte: it stores the first word of the line, and what it has not
    read stays on the terminal for the next read.  A read past the end of
    the input stores the empty string. *)

Module Run.
Import GoStrings Config Helpers Announce.

(** BACKUP OUTCOME TRACKING OBJECT *)
Record BackupResult : Type := mkBackupResult {
  Item : BackupItem;
  Success : bool;
  Error : option error;
  Elapsed : Z
}.

(** MAIN APPLICATION OBJECT *)
Record BackupApp : Type := mkBackupApp {
  configFile : string;
  BkpConfig : Config;
  bkpDest : string;
  bkpDestFullPath : string;
  exitOnError : bool;
  nonInteractive : bool
}.

Record World : Type := mkWorld {
  timestamp : string;                         (* startTime.Format("20060102-150405") *)
  filepath_Join : string -> string -> string; (* filepath.Join *)
  getFreeSpace : string -> error + Z;         (* the free-space probe *)
  os_MkdirAll : string -> option error;       (* os.MkdirAll(path, 0755) *)
  countTotalItems : nat -> BackupItem -> error + Z;  (* at the i-th iteration *)
  backupItem : nat -> BackupItem -> option error;    (* at the i-th iteration *)
  elapsed : nat -> Z;                         (* time.Since(itemStart) *)
  (* getTerminalWidth(), whose declaration is not among the sources: what it
     returns at the i-th iteration, the same at its two calls there *)
  getTerminalWidth : nat -> Z
}.

Inductive prompt : Type :=
| AskProceed      (* "Proceed with backup?" *)
| AskExitNow      (* "exitOnError is set to True. Exit now?" *)
| AskCleanup.     (* "Cleanup old backups now?" *)

Inductive event : Type :=
| EvGetFreeSpace (path : string)
| EvMkdirAll (path : string)
| EvCount (i : nat)
| EvBackup (i : nat)
| EvPrompt (p : prompt) (response : string)
| EvCleanup.

(** The console and the trace. *)
Record Io : Type := mkIo {
  stdin : list string;
  trace : list event
}.

Definition emit (e : event) (io : Io) : Io := mkIo (stdin io) (trace io ++ [e]).

(** One read of the operator's answer with [reader.ReadString('\n')],
    followed by [strings.TrimSpace(strings.ToLower(response))]. *)
Definition ask (p : prompt) (io : Io) : string * Io :=
  let raw := match stdin io with [] => "" | r :: _ => r end in
  (TrimSpace (ToLower raw), mkIo (tl (stdin io)) (trace io ++ [EvPrompt p raw])).

Definition isNewline (c : ascii) : bool := Ascii.eqb c (ascii_of_nat 10).

(** [(s *ss) SkipSpace()] of package fmt for Scanln, where a newline is
    not a space: the spaces before the word are read; [false] when the
    line or the input ends there ("unexpected newline", EOF), and then
    nothing is stored.  Of [isSpace] the ASCII part is modelled (the bytes
    of [asciiSpace]); a byte >= RuneSelf is taken as a byte of a word. *)
Fixpoint SkipSpace (s : string) : bool * string :=
  match s with
  | EmptyString => (false, EmptyString)
  | String c s' =>
      if isNewline c then (false, s')
      else if asciiSpace c then SkipSpace s'
      else (true, s)
  end.

(** [s.token(true, notSpace)]: the bytes up to the next space, which is
    not read. *)
Fixpoint token (s : string) : string * string :=
  match s with
  | EmptyString => (EmptyString, EmptyString)
  | String c s' =>
      if asciiSpace c then (EmptyString, s)
      else let (word, rest) := token s' in (String c word, rest)
  end.

(** What is left to read once the newline of a line has been read: the
    entry is a line of the terminal, given with or without its newline,
    so that nothing is left, unless the entry goes on. *)
Definition pastNewline (s : string) : option string :=
  match s with
  | EmptyString => None
  | _ => Some s
  end.

(** The check for the end of the line after the last operand of Scanln:
    spaces are read up to the newline; any other byte is read too, and is
    the error "expected newline", what follows it on the line staying
    unread, be it only the newline. *)
Fixpoint endOfLine (s : string) : option string :=
  match s with
  | EmptyString => None
  | String c s' =>
      if isNewline c then pastNewline s'
      else if asciiSpace c then endOfLine s'
      else Some s'
  end.

(** [fmt.Scanln(&response)] on an entry: what it stores in [response]
    (the variable keeps its value, the empty string, on an error before
    the word), and what it leaves unread of the entry, [None] when the
    line was read to its end.  Its error is not looked at. *)
Definition Scanln (entry : string) : string * option string :=
  match SkipSpace entry with
  | (false, rest) => (EmptyString, pastNewline rest)
  | (true, s) => let (word, rest) := token s in (word, endOfLine rest)
  end.

(** One read of the operator's answer with [fmt.Scanln(&response)],
    followed by [strings.TrimSpace(strings.ToLower(response))]. *)
Definition scan (p : prompt) (io : Io) : string * Io :=
  let raw := match stdin io with [] => "" | r :: _ => r end in
  let (response, unread) := Scanln raw in
  (TrimSpace (ToLower response),
   mkIo (match unread with
         | None => tl (stdin io)
         | Some rest => rest :: tl (stdin io)
         end)
        (trace io ++ [EvPrompt p raw])).

(** How a function ends: it returns, or the process exits. *)
Inductive ending (A : Type) : Type :=
| Returns (a : A)
| Exits (code : Z).
Arguments Returns {A} a.
Arguments Exits {A} code.

(** Modelled from the spec: [exitApp(nonInteractive, code)], whose
    declaration is not among the sources, ends the process with the exit
    code it is given (0 = success; nonzero = a setup or validation failure,
    or one or more item failures).  The value is that exit code. *)
Definition exitApp (nonInteractive : bool) (code : Z) : Z := code.

Section Orchestrator.

Variable w : World.

(** REVIEW BACKUP CONFIGURATION BEFORE PROCEEDING *)
Definition reviewBackupConfig (app : BackupApp) (io : Io) : ending (option error) * Io :=
  let io := emit (EvGetFreeSpace (bkpDest app)) io in
  match getFreeSpace w (bkpDest app) with
  | inl err => (Returns (Some (Wrapf "reading free space" err)), io)
  | inr availableFreeSpace =>
      if availableFreeSpace <? minFreeSpaceParsed (Retention (BkpConfig app))
      then (Returns (Some (Errorf "available free space is less than required minimum")), io)
      else
        match BkpItems (BkpConfig app) with
        | [] => (Exits (exitApp (nonInteractive app) 0), io)
        | _ =>
            if nonInteractive app then (Returns None, io)
            else
              let (response, io) := scan AskProceed io in
              if negb (String.eqb response "yes")
              then (Exits 0, io)                     (* os.Exit(0) *)
              else (Returns None, io)
        end
  end.

(** The accumulators of the loop of runBackup. *)
Record Tally : Type := mkTally {
  results : list BackupResult;
  failedCount : Z;
  successCount : Z;
  totalCount : Z
}.

(** How runBackup ends before its last line: it returns an error, or it
    panics. *)
Inductive stop : Type :=
| Failed (err : error)     (* return fmt.Errorf(...) *)
| Panicked.                (* runes[:k] with a negative k *)

(** The exit-on-error halt after a failed item: [Some err] is the early
    return of runBackup, [None] lets the loop go on. *)
Definition haltOnError (app : BackupApp) (msgAsk msgNo : string) (err : error) (io : Io)
  : option error * Io :=
  if exitOnError app then
    if negb (nonInteractive app) then
      let (response, io) := ask AskExitNow io in
      if negb (String.eqb response "no")
      then (Some (Wrapf msgAsk err), io)
      else (None, io)
    else (Some (Wrapf msgNo err), io)
  else (None, io).

(** The body of [for i, item := range app.BkpConfig.BkpItems].  The
    announcement of the item comes first, after [totalCount++]; when its
    slice expression panics nothing more is done. *)
Fixpoint backupLoop (app : BackupApp) (i : nat) (items : list BackupItem)
                    (t : Tally) (io : Io) : Tally * option stop * Io :=
  match items with
  | [] => (t, None, io)
  | item :: rest =>
      let total := totalCount t + 1 in
      match announcement (getTerminalWidth w i) i
                         (List.length (BkpItems (BkpConfig app))) item with
      | Panics =>
          (mkTally (results t) (failedCount t) (successCount t) total, Some Panicked, io)
      | Shown _ =>
          let io := emit (EvCount i) io in
          match countTotalItems w i item with
          | inl err =>
              let t := mkTally (results t ++ [mkBackupResult item false (Some err) 0])
                               (failedCount t + 1) (successCount t) total in
              match haltOnError app "backup stopped (with user consent) due to error"
                                ("backup stopped (" ++ LF ++ "exitOnError" ++ LF
                                   ++ " is True) due to error") err io with
              | (Some e, io) => (t, Some (Failed e), io)
              | (None, io) => backupLoop app (S i) rest t io
              end
          | inr totalItems =>
              let io := emit (EvBackup i) io in
              let err := backupItem w i item in
              let result := mkBackupResult item
                              (match err with None => true | Some _ => false end)
                              err (elapsed w i) in
              match err with
              | Some e =>
                  let t := mkTally (results t ++ [result]) (failedCount t + 1)
                                   (successCount t) total in
                  match haltOnError app "backup stopped due to error"
                                    "backup stopped due to error" e io with
                  | (Some e', io) => (t, Some (Failed e'), io)
                  | (None, io) => backupLoop app (S i) rest t io
                  end
              | None =>
                  let t := mkTally (results t ++ [result]) (failedCount t)
                                   (successCount t + 1) total in
                  backupLoop app (S i) rest t io
              end
          end
      end
  end.

(** EXECUTE BACKUP.  Besides the way it ends the model gives the local
    [results] and counters as they are at that moment. *)
Definition runBackup (app : BackupApp) (io : Io) : Tally * option stop * Io :=
  let runDir := filepath_Join w (bkpDestFullPath app)
                  (Prefix ++ "-" ++ timestamp w)%string in
  let io := emit (EvMkdirAll runDir) io in
  match os_MkdirAll w runDir with
  | Some err =>
      (mkTally [] 0 0 0, Some (Failed (Wrapf "creating backup directory" err)), io)
  | None =>
      match backupLoop app 0 (BkpItems (BkpConfig app)) (mkTally [] 0 0 0) io with
      | (t, Some s, io) => (t, Some s, io)
      | (t, None, io) =>
          (* Cleanup old backups *)
          let io :=
            if failedCount t =? 0 then emit EvCleanup io
            else if nonInteractive app then io
            else
              let (response, io) := ask AskCleanup io in
              if String.eqb response "yes" then emit EvCleanup io else io in
          if failedCount t >? 0
          then (t, Some (Failed (Errorf ("backup completed with "
                                           ++ fmtInteger (failedCount t) ++ " failures"))), io)
          else (t, None, io)
      end
  end.

(** ENTRY POINT, from the call of reviewBackupConfig on: the exit code of
    the process, and the console and the trace as it leaves them.  A panic
    that nothing recovers ends a Go process with exit code 2. *)
Definition main (app : BackupApp) (io : Io) : Z * Io :=
  match reviewBackupConfig app io with
  | (Exits code, io) => (code, io)
  | (Returns (Some _), io) => (exitApp (nonInteractive app) 1, io)
  | (Returns None, io) =>
      match runBackup app io with
      | (_, Some (Failed _), io) => (exitApp (nonInteractive app) 2, io)
      | (_, Some Panicked, io) => (2, io)
      | (_, None, io) => (exitApp (nonInteractive app) 0, io)
      end
  end.

End Orchestrator.

End Run.

(** ** The include/exclude filter *)

Module Filter.
Import GoStrings Filepath.

Section ShouldInclude.

Variable os : GOOS.

(** One turn of either loop of shouldInclude: the glob over the whole path,
    or the path under the directory the pattern names. *)
Definition hits (pattern path : string) : bool :=
  if matched os pattern path then true
  else HasPrefix path (pattern ++ sep os).

(** [for _, pattern := range include { ... included = true; break ... }] *)
Fixpoint includedBy (include : list string) (path : string) : bool :=
  match include with
  | [] => false
  | pattern :: rest => if hits pattern path then true else includedBy rest path
  end.

(** [for _, pattern := range exclude { ... return false ... }]; true when
    the loop falls through. *)
Fixpoint passesExclude (exclude : list string) (path : string) : bool :=
  match exclude with
  | [] => true
  | pattern :: rest => if hits pattern path then false else passesExclude rest path
  end.

(** EVALUATE INCLUDE/EXCLUDE PATTERNS *)
Definition shouldInclude (path : string) (include exclude : list string) : bool :=
  if (0 <? List.length include)%nat && negb (includedBy include path) then false
  else passesExclude exclude path.

End ShouldInclude.

End Filter.

(** ** The source tree and filepath.Walk *)

Module Tree.
Import GoStrings Filepath Filter.

(** What lstat and readDirNames report of a source tree.  The entries of a
    directory are listed in the order readDirNames gives them. *)
#[warnings="-register-all"]
Inductive node : Type :=
| File (mode : Z)                     (* a regular file *)
| SymlinkToFile (mode : Z)            (* os.Stat follows it to a file *)
| SymlinkToDir (target : string)      (* os.Stat follows it to a directory *)
| SymlinkBroken (err : error)         (* os.Stat on it fails *)
| Inaccessible (err : error)          (* lstat or readDirNames fails on it *)
| Dir (mode : Z) (entries : list (string * node)).

Definition IsDir (n : node) : bool :=
  match n with Dir _ _ => true | _ => false end.

(** What a WalkFunc returns. *)
Inductive walkRet : Type :=
| WalkNil
| SkipDir
| WalkErr (err : error).

(** The relative path of the entry reached through the names [ns]:
    [filepath.Rel(src, path)] for the [path] that Walk builds with
    [filepath.Join]; the root is ".". *)
Fixpoint joinNames (os : GOOS) (ns : list string) : string :=
  match ns with
  | [] => EmptyString
  | [n] => n
  | n :: rest => n ++ sep os ++ joinNames os rest
  end.

Definition relPath (os : GOOS) (ns : list string) : string :=
  match ns with
  | [] => "."
  | _ => joinNames os ns
  end.

Section Walk.

Variable St : Type.

(** The callback: the names from the root to the entry, what lstat said,
    the error Walk met on it, the state of the caller. *)
Variable walkFn : list string -> node -> option error -> St -> walkRet * St.

(** The function [walk] of package filepath.  A callback that returns
    SkipDir on a directory prunes it; on anything else SkipDir ends the
    listing of the directory that holds it. *)
Fixpoint walk (ns : list string) (n : node) (st : St) : walkRet * St :=
  match n with
  | Dir _ entries =>
      match walkFn ns n None st with
      | (WalkNil, st1) =>
          (fix walkNames (es : list (string * node)) (st : St) : walkRet * St :=
             match es with
             | [] => (WalkNil, st)
             | (name, child) :: rest =>
                 match child with
                 | Inaccessible _ =>
                     match walk (ns ++ [name]) child st with
                     | (WalkErr e, st') => (WalkErr e, st')
                     | (_, st') => walkNames rest st'
                     end
                 | _ =>
                     match walk (ns ++ [name]) child st with
                     | (WalkNil, st') => walkNames rest st'
                     | (SkipDir, st') =>
                         if IsDir child then walkNames rest st' else (SkipDir, st')
                     | (WalkErr e, st') => (WalkErr e, st')
                     end
                 end
             end) entries st1
      | other => other
      end
  | Inaccessible err => walkFn ns n (Some err) st
  | _ => walkFn ns n None st
  end.

(** [for _, name := range names], the loop of [walk] over the entries of
    the directory reached through [ns], on its own. *)
Definition walkNames (ns : list string) : list (string * node) -> St -> walkRet * St :=
  fix walkNames (es : list (string * node)) (st : St) : walkRet * St :=
    match es with
    | [] => (WalkNil, st)
    | (name, child) :: rest =>
        match child with
        | Inaccessible _ =>
            match walk (ns ++ [name]) child st with
            | (WalkErr e, st') => (WalkErr e, st')
            | (_, st') => walkNames rest st'
            end
        | _ =>
            match walk (ns ++ [name]) child st with
            | (WalkNil, st') => walkNames rest st'
            | (SkipDir, st') =>
                if IsDir child then walkNames rest st' else (SkipDir, st')
            | (WalkErr e, st') => (WalkErr e, st')
            end
        end
    end.

(** filepath.Walk(root, fn) *)
Definition Walk (root : node) (st : St) : option error * St :=
  match walk [] root st with
  | (WalkErr e, st') => (Some e, st')
  | (_, st') => (None, st')
  end.

End Walk.

(** What the copy leaves behind: the entries made under the destination,
    each named by the names from the source root (its place is
    [filepath.Join(dest, relPath)]), and the calls of [progressCb]. *)
Record CopyState : Type := mkCopyState {
  created : list (list string);
  processed : nat
}.

Definition make (ns : list string) (st : CopyState) : CopyState :=
  mkCopyState (created st ++ [ns]) (processed st).

Definition progressCb (st : CopyState) : CopyState :=
  mkCopyState (created st) (S (processed st)).

(** How far copyFile gets. *)
Inductive copyEnd : Type :=
| CopyDone                          (* os.Chmod returned nil *)
| FailsBeforeCreate (err : error)   (* MkdirAll, Open or Create fails *)
| FailsInReadFrom (err : error)     (* the destination exists, no progress *)
| FailsAfterProgress (err : error). (* Stat or Chmod fails *)

(** The answers of the operating system during a copy.  The predicate
    [isWindowsProtectedPath] of the program, whose declaration is not among
    the sources, is one of them. *)
Record CopyWorld : Type := mkCopyWorld {
  isWindowsProtectedPath : list string -> error -> bool;
  os_MkdirAll : list string -> option error;
  os_Symlink : list string -> option error;
  copyFileEnd : list string -> copyEnd
}.

Section Copy.

Variable os : GOOS.
Variable cw : CopyWorld.

(** COPY FILE *)
Definition copyFile (ns : list string) (st : CopyState) : option error * CopyState :=
  match copyFileEnd cw ns with
  | CopyDone => (None, progressCb (make ns st))
  | FailsBeforeCreate e => (Some e, st)
  | FailsInReadFrom e => (Some e, make ns st)
  | FailsAfterProgress e => (Some e, progressCb (make ns st))
  end.

Definition ofError (r : option error * CopyState) : walkRet * CopyState :=
  match r with
  | (None, st) => (WalkNil, st)
  | (Some e, st) => (WalkErr e, st)
  end.

(** The function literal that copyDirectory hands to filepath.Walk. *)
Definition copyWalkFn (include exclude : list string)
    (ns : list string) (info : node) (err : option error) (st : CopyState)
  : walkRet * CopyState :=
  match err with
  | Some e =>
      if isWindowsProtectedPath cw ns e then (WalkNil, st) else (WalkErr e, st)
  | None =>
      let rel := relPath os ns in
      (* Skip root directory *)
      if String.eqb rel "." then (WalkNil, st)
      (* Check include/exclude patterns *)
      else if negb (shouldInclude os rel include exclude)
      then (if IsDir info then SkipDir else WalkNil, st)
      else
        match info with
        | Dir _ _ =>
            match os_MkdirAll cw ns with
            | None => (WalkNil, progressCb (make ns st))
            | Some e => (WalkErr e, st)
            end
        | SymlinkBroken e => (WalkErr e, st)
        | SymlinkToDir _ =>
            match os_Symlink cw ns with
            | None => (WalkNil, make ns st)
            | Some e => (WalkErr e, st)
            end
        | _ => ofError (copyFile ns st)
        end
  end.

(** COPY DIRECTORY *)
Definition copyDirectory (src : node) (include exclude : list string) (st : CopyState)
  : option error * CopyState :=
  Walk CopyState (copyWalkFn include exclude) src st.

(** The function literal of countTotalItems. *)
Definition countWalkFn (include exclude : list string)
    (ns : list string) (info : node) (err : option error) (totalItems : nat)
  : walkRet * nat :=
  match err with
  | Some e =>
      if isWindowsProtectedPath cw ns e then (WalkNil, totalItems)
      else (WalkErr e, totalItems)
  | None =>
      let rel := relPath os ns in
      if String.eqb rel "." then (WalkNil, totalItems)
      else if negb (shouldInclude os rel include exclude)
      then (if IsDir info then SkipDir else WalkNil, totalItems)
      else (WalkNil, S totalItems)
  end.

(** COUNT TOTAL NUMBER OF ITEMS TO BACKUP, for a source that is a directory. *)
Definition countTotalItems (src : node) (include exclude : list string)
  : option error * nat :=
  Walk nat (countWalkFn include exclude) src 0%nat.

End Copy.

End Tree.

(** ** Retention: cleanupOldBackups

    The destination file system is the list of the paths that exist, each a
    list of names from the top, with what [IsDir] says of it. *)

Module Retention.
Import GoStrings Config.

Definition path : Type := list string.

Definition fileSystem : Type := list (path * bool).

(** os.DirEntry, as far as the program looks at it: [Name()] and [IsDir()]. *)
Definition DirEntry : Type := (string * bool)%type.
Definition Name (e : DirEntry) : string := fst e.
Definition IsDir (e : DirEntry) : bool := snd e.

Fixpoint stripPrefix (dir q : path) : option path :=
  match dir, q with
  | [], _ => Some q
  | d :: dir', n :: q' => if String.eqb d n then stripPrefix dir' q' else None
  | _ :: _, [] => None
  end.

(** [q] is [dir] or lies under it. *)
Definition under (dir q : path) : bool :=
  match stripPrefix dir q with Some _ => true | None => false end.

(** The entries directly in [dir]. *)
Fixpoint childrenOf (dir : path) (fs : fileSystem) : list DirEntry :=
  match fs with
  | [] => []
  | (q, d) :: rest =>
      match stripPrefix dir q with
      | Some [name] => (name, d) :: childrenOf dir rest
      | _ => childrenOf dir rest
      end
  end.

(** [strings.Compare(a.Name(), b.Name()) <= 0]: the byte-wise order. *)
Definition nameLeb (a b : DirEntry) : bool := String.leb (Name a) (Name b).

Definition nameLe (a b : DirEntry) : Prop := nameLeb a b = true.

Fixpoint insertByName (e : DirEntry) (l : list DirEntry) : list DirEntry :=
  match l with
  | [] => [e]
  | x :: rest => if nameLeb e x then e :: l else x :: insertByName e rest
  end.

(** The sort of os.ReadDir, by filename. *)
Fixpoint sortByName (l : list DirEntry) : list DirEntry :=
  match l with
  | [] => []
  | e :: rest => insertByName e (sortByName rest)
  end.

(** What os.RemoveAll does to a path: gone with all below it, or an error
    after a part of it, told by [survives], is left. *)
Inductive removal : Type :=
| Removed
| RemoveFails (err : error) (survives : path -> bool).

Record World : Type := mkWorld {
  readDirError : path -> option error;
  os_RemoveAll : path -> removal
}.

(** What cleanupOldBackups writes to the log and asks for. *)
Inductive logged : Type :=
| LogCleanupFailed (err : error)
| LogRemoving (dirPath : path)
| LogRemoveFailed (dirPath : path).

Section Cleanup.

Variable w : World.

(** os.ReadDir: all the directory entries sorted by filename. *)
Definition os_ReadDir (dir : path) (fs : fileSystem) : error + list DirEntry :=
  match readDirError w dir with
  | Some err => inl err
  | None => inr (sortByName (childrenOf dir fs))
  end.

Definition RemoveAll (dirPath : path) (fs : fileSystem) : option error * fileSystem :=
  match os_RemoveAll w dirPath with
  | Removed => (None, filter (fun e => negb (under dirPath (fst e))) fs)
  | RemoveFails err survives =>
      (Some err, filter (fun e => negb (under dirPath (fst e)) || survives (fst e)) fs)
  end.

Definition isBackupDir (e : DirEntry) : bool :=
  IsDir e && HasPrefix (Name e) (Prefix ++ "-").

(** [for i := 0; i < toDelete; i++], over [backupDirs[:toDelete]]. *)
Fixpoint removeOldest (backupRoot : path) (dirs : list DirEntry)
                      (fs : fileSystem) (log : list logged) : fileSystem * list logged :=
  match dirs with
  | [] => (fs, log)
  | d :: rest =>
      let dirPath := (backupRoot ++ [Name d])%list in
      let log := (log ++ [LogRemoving dirPath])%list in
      match RemoveAll dirPath fs with
      | (Some _, fs') => removeOldest backupRoot rest fs' (log ++ [LogRemoveFailed dirPath])
      | (None, fs') => removeOldest backupRoot rest fs' log
      end
  end.

(** REMOVE OLDEST BACKUP(S).  [backupRoot] is
    [filepath.Dir(app.bkpDestFullPath)], [keep] is
    [int(app.BkpConfig.Retention.BackupsToKeep)]. *)
Definition cleanupOldBackups (backupRoot : path) (keep : Z) (fs : fileSystem)
  : option error * fileSystem * list logged :=
  match os_ReadDir backupRoot fs with
  | inl err => (None, fs, [LogCleanupFailed err])
  | inr entries =>
      let backupDirs := filter isBackupDir entries in
      if Z.of_nat (List.length backupDirs) <=? keep then (None, fs, [])
      else
        let toDelete := Z.of_nat (List.length backupDirs) - keep in
        let (fs', log) :=
          removeOldest backupRoot (firstn (Z.to_nat toDelete) backupDirs) fs [] in
        (None, fs', log)
  end.

(** The paths handed to os.RemoveAll, in order. *)
Fixpoint removalsOf (log : list logged) : list path :=
  match log with
  | [] => []
  | LogRemoving p :: rest => p :: removalsOf rest
  | _ :: rest => removalsOf rest
  end.

End Cleanup.

End Retention.

(** ** Vocabulary of the statements *)

Module Vocabulary.
Import GoStrings Strconv.

(** A string of ASCII digits and the number it writes in base ten. *)
Fixpoint allDigits (s : string) : bool :=
  match s with
  | EmptyString => true
  | String c s' => isDigit c && allDigits s'
  end.

Fixpoint decimalFrom (n : Z) (s : string) : Z :=
  match s with
  | EmptyString => n
  | String c s' => decimalFrom (n * 10 + (byte c - 48)) s'
  end.

Definition decimalValue (s : string) : Z := decimalFrom 0 s.

(** No byte of the string is ASCII white space. *)
Fixpoint noSpace (s : string) : bool :=
  match s with
  | EmptyString => true
  | String c s' => negb (asciiSpace c) && noSpace s'
  end.

(** Every byte of the string is ASCII white space. *)
Fixpoint allSpace (s : string) : bool :=
  match s with
  | EmptyString => true
  | String c s' => asciiSpace c && allSpace s'
  end.

(** The response spells [word]: around it only white space, and its
    letters in either case. *)
Definition spells (word raw : string) : Prop :=
  exists l core r,
    raw = l ++ core ++ r /\ allSpace l = true /\ allSpace r = true /\
    ToLower core = word.

Section Paths.
Import Filepath Filter Tree.

Variable os : GOOS.
Variables include exclude : list string.

(** The entry reached through [ds] is the root of the walk, or passes the
    filter. *)
Definition passes (ds : list string) : bool :=
  String.eqb (relPath os ds) "." || shouldInclude os (relPath os ds) include exclude.

(** The entry reached through [ns] and every directory above it pass. *)
Definition passesAllTheWay (ns : list string) : Prop :=
  forall ds rest, ns = (ds ++ rest)%list -> passes ds = true.

End Paths.

Section Items.
Import Config Run.

Variable w : World.

(** The error the [i]-th turn of the loop meets on [item], from the count
    or from the copy. *)
Definition itemError (i : nat) (item : BackupItem) : option error :=
  match countTotalItems w i item with
  | inl e => Some e
  | inr _ => backupItem w i item
  end.

Definition itemFails (i : nat) (item : BackupItem) : bool :=
  match itemError i item with Some _ => true | None => false end.

(** The items, from the [i]-th turn on, all succeed. *)
Fixpoint allSucceedFrom (i : nat) (items : list BackupItem) : bool :=
  match items with
  | [] => true
  | item :: rest => negb (itemFails i item) && allSucceedFrom (S i) rest
  end.

(** How many of the items, from the [i]-th turn on, fail. *)
Fixpoint failuresFrom (i : nat) (items : list BackupItem) : Z :=
  match items with
  | [] => 0
  | item :: rest => (if itemFails i item then 1 else 0) + failuresFrom (S i) rest
  end.

(** The count and the copy of every item, from the [i]-th turn on. *)
Fixpoint attemptsFrom (i : nat) (items : list BackupItem) : list event :=
  match items with
  | [] => []
  | item :: rest =>
      (EvCount i ::
       match countTotalItems w i item with
       | inl _ => []
       | inr _ => [EvBackup i]
       end) ++ attemptsFrom (S i) rest
  end.

(** The [Success] flags the loop is to record for the items, from the
    [i]-th turn on. *)
Fixpoint verdictsFrom (i : nat) (items : list BackupItem) : list bool :=
  match items with
  | [] => []
  | item :: rest => negb (itemFails i item) :: verdictsFrom (S i) rest
  end.

(** The tally after a turn on an item that fails with [e], before the halt
    is considered. *)
Definition failedTally (i : nat) (item : BackupItem) (e : error) (t : Tally) : Tally :=
  mkTally
    (results t ++
       [mkBackupResult item false (Some e)
          (match countTotalItems w i item with inl _ => 0 | inr _ => elapsed w i end)])
    (failedCount t + 1) (successCount t) (totalCount t + 1).

(** The events of the loop of runBackup: counts, copies and the
    exit-on-error question. *)
Definition loopEvent (ev : event) : bool :=
  match ev with
  | EvCount _ | EvBackup _ | EvPrompt AskExitNow _ => true
  | _ => false
  end.

(** The terminal is wide enough for the announcements of the items from
    the [i]-th to the [j]-th, the last one left out. *)
Definition wideFrom (i j : nat) : Prop :=
  forall k, (i <= k < j)%nat -> 6 <= getTerminalWidth w k.

(** The run directory [<bkpDestFullPath>/<Prefix>-<timestamp>]. *)
Definition runDir (app : BackupApp) : string :=
  filepath_Join w (bkpDestFullPath app) (Prefix ++ "-" ++ timestamp w)%string.

End Items.

Section Lines.
Import Run.



(** The terminal after a read with Scanln of the entry [raw], before the
    entries [more]. *)
Definition afterScanln (raw : string) (more : list string) : list string :=
  match snd (Scanln raw) with
  | None => more
  | Some unread => unread :: more
  end.

End Lines.

End Vocabulary.

(** ** Scenarios of the specification, as concrete worlds *)

Module Scenario.
Import Config Run.

Definition itemA : BackupItem := mkBackupItem "/home/u/a" "a" [] [].
Definition itemB : BackupItem := mkBackupItem "/home/u/b" "b" ["*.pdf"] ["temp*"].
Definition itemC : BackupItem := mkBackupItem "/home/u/c" "c" [] [].

(** Three items; the copy of the second one fails; the probe reports
    5,000,000,000 bytes available. *)
Definition secondFails : World :=
  mkWorld "20240105-210000"
          (fun a b => a ++ "/" ++ b)%string
          (fun _ => inr 5000000000)
          (fun _ => None)
          (fun _ _ => inr 4)
          (fun i _ => match i with 1%nat => Some (ErrIO "read error") | _ => None end)
          (fun _ => 7)
          (fun _ => 80).

(** The same, on a terminal for which [getTerminalWidth()] returns 0. *)
Definition narrowTerminal : World :=
  mkWorld (timestamp secondFails) (filepath_Join secondFails) (getFreeSpace secondFails)
          (os_MkdirAll secondFails) (countTotalItems secondFails) (backupItem secondFails)
          (elapsed secondFails) (fun _ => 0).

Definition appWith (minFreeSpace : string) (parsed : Z) (exitOnError nonInteractive : bool)
  : BackupApp :=
  mkBackupApp "/mnt/bk/.smbkp.yaml"
              (mkConfig "smbkp" (mkRetention 3 minFreeSpace parsed) [itemA; itemB; itemC])
              "/mnt/bk" "/mnt/bk/smbkp" exitOnError nonInteractive.

Definition console (answers : list string) : Io := mkIo answers [].

(** A source tree [Documents/{a.txt, sub/b.txt}, Other], and one
    [a.pdf, b.txt, tempdir/x.pdf]. *)
Definition documents : Tree.node :=
  Tree.Dir 493
    [("Documents", Tree.Dir 493 [("a.txt", Tree.File 420);
                                 ("sub", Tree.Dir 493 [("b.txt", Tree.File 420)])]);
     ("Other", Tree.File 420)].

(** The first of them after a file [Notes] has been added to it. *)
Definition documentsLater : Tree.node :=
  Tree.Dir 493
    [("Documents", Tree.Dir 493 [("a.txt", Tree.File 420);
                                 ("sub", Tree.Dir 493 [("b.txt", Tree.File 420)])]);
     ("Notes", Tree.File 420);
     ("Other", Tree.File 420)].

Definition papers : Tree.node :=
  Tree.Dir 493
    [("a.pdf", Tree.File 420); ("b.txt", Tree.File 420);
     ("tempdir", Tree.Dir 493 [("x.pdf", Tree.File 420)])].

(** An operating system on which every operation of the copy succeeds. *)
Definition quiet : Tree.CopyWorld :=
  Tree.mkCopyWorld (fun _ _ => false) (fun _ => None) (fun _ => None)
                   (fun _ => Tree.CopyDone).

Definition fresh : Tree.CopyState := Tree.mkCopyState [] 0.

(** A backup root [/bk] with five run directories, listed out of order, a
    file and an unrelated directory; and a directory outside the root. *)
Definition fiveRuns : Retention.fileSystem :=
  [ (["bk"], true);
    (["bk"; "smbkp-20240103-210000"], true);
    (["bk"; "smbkp-20240101-210000"], true);
    (["bk"; "smbkp-20240101-210000"; "a"], false);
    (["bk"; "smbkp-20240105-210000"], true);
    (["bk"; "smbkp-20240105-210000"; "a"], false);
    (["bk"; "smbkp-20240102-210000"], true);
    (["bk"; "smbkp-20240104-210000"], true);
    (["bk"; "smbkp-notes.txt"], false);
    (["bk"; "other"], true);
    (["home"; "smbkp-20230101-000000"], true) ].

(** An operating system that lists and removes without error, and one on
    which the first removal fails and leaves everything in place. *)
Definition obliging : Retention.World :=
  Retention.mkWorld (fun _ => None) (fun _ => Retention.Removed).

Definition stubborn : Retention.World :=
  Retention.mkWorld
    (fun _ => None)
    (fun p => if list_eq_dec string_dec p ["bk"; "smbkp-20240101-210000"]
              then Retention.RemoveFails (ErrIO "busy") (fun _ => true)
              else Retention.Removed).

End Scenario.

Module Summary.
Import Config Run.

(** The counters that the summary of runBackup prints agree with the
    [results] it lists. *)
Definition successes (rs : list BackupResult) : list BackupResult := filter Success rs.

Definition failures (rs : list BackupResult) : list BackupResult :=
  filter (fun r => negb (Success r)) rs.

Definition agrees (t : Tally) : Prop :=
  totalCount t = Z.of_nat (List.length (results t)) /\
  successCount t = Z.of_nat (List.length (successes (results t))) /\
  failedCount t = Z.of_nat (List.length (failures (results t))) /\
  Forall (fun r => Success r = true <-> Error r = None) (results t).

(** What [main] adds to the trace. *)
Definition isPrompt (ev : event) : bool :=
  match ev with EvPrompt _ _ => true | _ => false end.

Definition isMkdirAll (ev : event) : bool :=
  match ev with EvMkdirAll _ => true | _ => false end.

End Summary.

(** ** path/filepath on a Unix system: Base

    [filepath.Base] as it is built for a Unix system, transcribed from the
    library: the separator is '/', there are no volume names. *)

Module FilepathUnix.
Import GoStrings.

(** os.IsPathSeparator *)
Definition IsPathSeparator (c : ascii) : bool := Ascii.eqb c "/".

(** [for len(path) > 0 && os.IsPathSeparator(path[len(path)-1]) {
       path = path[0 : len(path)-1] }]: the length that is left, from the
    length [n]. *)
Fixpoint stripTrailing (path : string) (n : nat) : nat :=
  match n with
  | O => O
  | S i =>
      match String.get i path with
      | Some c => if IsPathSeparator c then stripTrailing path i else n
      | None => n
      end
  end.

(** [i := len(path) - 1; for i >= 0 && !os.IsPathSeparator(path[i]) { i-- }]:
    the value of [i+1] when the loop ends, from [i+1 = n]. *)
Fixpoint lastElementAt (path : string) (n : nat) : nat :=
  match n with
  | O => O
  | S i =>
      match String.get i path with
      | Some c => if IsPathSeparator c then n else lastElementAt path i
      | None => n
      end
  end.

(** filepath.Base returns the last element of path.  Trailing path
    separators are removed before extracting the last element.  If the
    path is empty, Base returns ".".  If the path consists entirely of
    separators, Base returns a single separator. *)
Definition Base (path : string) : string :=
  if String.eqb path "" then "."
  else
    (* Strip trailing slashes. *)
    let path := takeBytes (stripTrailing path (String.length path)) path in
    (* Find the last element *)
    let path := dropBytes (lastElementAt path (String.length path)) path in
    (* If empty now, it had only slashes. *)
    if String.eqb path "" then "/" else path.

End FilepathUnix.

(** ** Vocabulary of the statements on sizes *)

Module SizeSyntax.
Import GoStrings Strconv Config Vocabulary.

(** [u] spells the unit "mb" or "gb", in either case, of [mult] bytes. *)
Definition spellsUnit (u : string) (mult : Z) : Prop :=
  (ToLower u = "mb" /\ mult = MB) \/ (ToLower u = "gb" /\ mult = GB).

(** [s] writes the size [n] units of [mult] bytes: a decimal numeral, then
    the unit, and nothing else. *)
Definition writesSize (s : string) (n mult : Z) : Prop :=
  exists ds u,
    s = ds ++ u /\ ds <> "" /\ allDigits ds = true /\ decimalValue ds = n /\
    spellsUnit u mult.

End SizeSyntax.

(** ** One item: the count, then the copy

    For each item runBackup calls countTotalItems and then backupItem.
    Each of the two asks [os.Stat(item.Source)] and then walks the source
    with [filepath.Walk], which starts from [os.Lstat(item.Source)] and
    lists a directory when it reaches it.  What the operating system
    answers is given to each of them on its own: the answer of [os.Stat]
    (the error, or [IsDir()]), and, as a [node], what [os.Lstat] and the
    listings report to the walk, from its root on.  The answers to the
    copy differ from the answers to the count when the source changes in
    between, and when the copy writes into the source (a destination
    inside the source): the walk of the copy then finds entries that the
    copy has made.  The root is what [os.Lstat] reports for the path
    [item.Source] as it is written: for a path to a link to a directory
    that is the link, or the directory when the operating system resolves
    the path through the link (as for a path that ends in a separator). *)

Module ItemCopy.
Import GoStrings Filepath Filter Tree.

Section OneItem.

Variable os : GOOS.
Variable cw : CopyWorld.

(** COUNT TOTAL NUMBER OF ITEMS TO BACKUP *)
Definition countTotalItems (stat : error + bool) (src : node)
    (include exclude : list string) : error + nat :=
  match stat with
  | inl err => inl err
  | inr false => inr 1%nat          (* A single file *)
  | inr true =>
      match Tree.countTotalItems os cw src include exclude with
      | (Some err, _) => inl err
      | (None, totalItems) => inr totalItems
      end
  end.

(** BACKUP EACH INDIVIDUAL ITEM.  The destination [destPath] is the entry
    named by no name at all; [os.MkdirAll(destPath, srcInfo.Mode())] makes
    it for a directory, and it is not listed among the entries made under
    it. *)
Definition backupItem (stat : error + bool) (src : node)
    (include exclude : list string) (st : CopyState) : option error * CopyState :=
  match stat with
  | inl err => (Some (Wrapf "accessing source path" err), st)
  | inr true =>
      match os_MkdirAll cw [] with
      | Some err => (Some (Wrapf "creating destination directory" err), st)
      | None => copyDirectory os cw src include exclude st
      end
  | inr false => copyFile cw [] st
  end.

End OneItem.

(** No entry of the tree is a broken link or unreadable. *)
Fixpoint healthy (n : node) : bool :=
  match n with
  | SymlinkBroken _ | Inaccessible _ => false
  | Dir _ entries => forallb (fun e => healthy (snd e)) entries
  | _ => true
  end.

(** No entry of the tree is a link to a directory. *)
Fixpoint noDirLinks (n : node) : bool :=
  match n with
  | SymlinkToDir _ => false
  | Dir _ entries => forallb (fun e => noDirLinks (snd e)) entries
  | _ => true
  end.

(** Every operation of the copy succeeds. *)
Definition cooperative (cw : CopyWorld) : Prop :=
  (forall ns, os_MkdirAll cw ns = None) /\
  (forall ns, os_Symlink cw ns = None) /\
  (forall ns, copyFileEnd cw ns = CopyDone).

(** The progress reported is within what was made, and what was made is
    within what was counted. *)
Definition within (st : CopyState) (c : nat) : Prop :=
  (processed st <= List.length (created st) <= c)%nat.

(** The copy ends as the count does, unless it stops on an error. *)
Definition follows (r1 r2 : walkRet) : Prop :=
  match r1 with WalkErr _ => True | _ => r1 = r2 end.

(** When nothing fails the copy makes what the count counts, and reports
    it when [links] says that no link to a directory is met. *)
Definition inStep (links : bool) (st : CopyState) (c : nat) : Prop :=
  List.length (created st) = c /\ (links = true -> processed st = c).

End ItemCopy.

(** ** The progress bar that is printed *)

Module ProgressBar.
Import Progress.

(** strings.Repeat(s, count), which panics on a negative count: [None]. *)
Definition Repeat (s : string) (count : Z) : option string :=
  if count <? 0 then None
  else Some (Nat.iter (Z.to_nat count) (fun acc => s ++ acc) "").

(** The filled cell, U+25A0 in UTF-8. *)
Definition cell : string :=
  String (ascii_of_nat 226) (String (ascii_of_nat 150) (String (ascii_of_nat 160) "")).

Definition progressBarLength : Z := 50.

(** The text between the brackets of [fmt.Printf("\r[%s]", progressBar)],
    for the percentage that is drawn. *)
Definition progressBar (percentage : Z) : option string :=
  let completed := completedOf percentage in
  let remaining := progressBarLength - completed in
  let remaining := if remaining <? 0 then 0 else remaining in
  match Repeat cell completed, Repeat "." remaining with
  | Some filled, Some rest => Some (filled ++ rest)
  | _, _ => None
  end.

(** The bar of [n] filled cells out of 50. *)
Definition barOf (n : Z) : string :=
  Nat.iter (Z.to_nat n) (fun acc => cell ++ acc) ""
  ++ Nat.iter (Z.to_nat (50 - n)) (fun acc => "." ++ acc) "".

End ProgressBar.

Module RetentionTerms.
Import Config Retention.

(** The backup directories that cleanupOldBackups finds in the root, in
    the order of os.ReadDir. *)
Definition backupDirsOf (root : path) (fs : fileSystem) : list DirEntry :=
  filter isBackupDir (sortByName (childrenOf root fs)).

(** Every listing and every removal succeeds. *)
Definition reliable (w : World) : Prop :=
  (forall dir, readDirError w dir = None) /\ (forall p, os_RemoveAll w p = Removed).

End RetentionTerms.

(** ** Vocabulary of the statements on patterns *)

Module PatternTerms.
Import GoStrings Filepath.

(** A byte that filepath.Match takes for itself: not '*', '?', '[' nor,
    where it escapes, '\'. *)
Definition literalByte (os : GOOS) (c : ascii) : bool :=
  negb (Ascii.eqb c "*" || Ascii.eqb c "?" || Ascii.eqb c "["
        || (Ascii.eqb c "\" && negb (isWindows os))).

(** A pattern that is a plain name: a path written out. *)
Fixpoint literal (os : GOOS) (pattern : string) : bool :=
  match pattern with
  | EmptyString => true
  | String c p' => literalByte os c && literal os p'
  end.

(** The path is the entry that [p] names, or lies under it. *)
Definition atOrUnder (os : GOOS) (p path : string) : Prop :=
  path = p \/ HasPrefix path (p ++ sep os) = true.

(** What is left of [s] after the prefix [p], when it has it. *)
Fixpoint afterPrefix (p s : string) : option string :=
  match p, s with
  | EmptyString, _ => Some s
  | String a p', String b s' => if Ascii.eqb a b then afterPrefix p' s' else None
  | String _ _, EmptyString => None
  end.

End PatternTerms.

(** ** Initialisation: getAvailableDrives, loadConfig, NewBackupApp

    The program looks at the file system through [os.Stat], [os.ReadFile]
    and [os.ReadDir], and reads the configuration with [yaml.Unmarshal];
    their answers are gathered in a [World], and the calls are recorded, in
    order.  A computation is a function of the trace so far that gives an
    error or a value, and the trace as it leaves it. *)

Module Init.
Import GoStrings Config Run.

Definition ConfigFileDefault : string := ".smbkp.yaml".

(** A double quote, as the verb [%q] writes it around a flag name. *)
Definition dq : string := String (ascii_of_nat 34) "".

(** [fmt.Errorf("%q is not provided, but it is required when %q is
    specified", "-bkp-dest", "-config")] *)
Definition errNoDestinationForConfig : error :=
  Errorf (dq ++ "-bkp-dest" ++ dq ++ " is not provided, but it is required when "
             ++ dq ++ "-config" ++ dq ++ " is specified").

(** [fmt.Errorf("no backup destination found. Place '.smbkp.yaml' in the
    root of the destination drive or use the -bkp-dest flag")] *)
Definition errNoDestination : error :=
  Errorf ("no backup destination found. Place '.smbkp.yaml' in the root of "
            ++ "the destination drive or use the -bkp-dest flag").

(** What [os.Stat] and [os.ReadFile] fail with: a [*os.PathError], which
    the program takes apart, or some other error. *)
Inductive osError : Type :=
| PathError (Path : string) (Err : error)
| OtherError (err : error).

Record World : Type := mkWorld {
  GOOS : string;                                      (* runtime.GOOS *)
  os_Stat : string -> option osError;
  os_ReadFile : string -> osError + string;
  os_ReadDir : string -> option (list (string * bool)); (* Name(), IsDir(); None: an error *)
  (* yaml.Unmarshal(data, &app.BkpConfig): the struct as it is left, and the error *)
  yaml_Unmarshal : string -> Config -> Config * option error;
  filepath_Join : string -> string -> string;
  filepath_Base : string -> string;
  (* fmt.Sprintf("%q: %v", perr.Path, perr.Err) *)
  fmt_quoted : string -> error -> string
}.

Inductive event : Type :=
| EvStat (path : string)
| EvReadFile (path : string)
| EvReadDir (path : string).

Definition M (A : Type) : Type := list event -> (error + A) * list event.

Definition ret {A : Type} (a : A) : M A := fun tr => (inr a, tr).

Definition fail {A : Type} (e : error) : M A := fun tr => (inl e, tr).

Definition bind {A B : Type} (m : M A) (k : A -> M B) : M B :=
  fun tr =>
    match m tr with
    | (inl e, tr') => (inl e, tr')
    | (inr a, tr') => k a tr'
    end.

Notation "x <- m ;; k" := (bind m (fun x => k))
  (at level 61, m at next level, right associativity).

Section Init.

Variable w : World.

Definition Stat (path : string) : M (option osError) :=
  fun tr => (inr (os_Stat w path), (tr ++ [EvStat path])%list).

Definition ReadFile (path : string) : M (osError + string) :=
  fun tr => (inr (os_ReadFile w path), (tr ++ [EvReadFile path])%list).

Definition ReadDir (path : string) : M (option (list (string * bool))) :=
  fun tr => (inr (os_ReadDir w path), (tr ++ [EvReadDir path])%list).

(** [for _, drive := range "ABCDEFGHIJKLMNOPQRSTUVWXYZ"] *)
Definition driveLetters : list ascii :=
  list_ascii_of_string "ABCDEFGHIJKLMNOPQRSTUVWXYZ".

Fixpoint windowsDrives (letters : list ascii) (drives : list string) : M (list string) :=
  match letters with
  | [] => ret drives
  | drive :: rest =>
      let path := String drive ":\" in
      r <- Stat path ;;
      match r with
      | None => windowsDrives rest (drives ++ [path])%list
      | Some _ => windowsDrives rest drives
      end
  end.

(** [for _, entry := range entries { if entry.IsDir() { drives = append(...) } }] *)
Fixpoint mounted (mountPoint : string) (entries : list (string * bool)) (drives : list string)
  : list string :=
  match entries with
  | [] => drives
  | (name, isDir) :: rest =>
      if isDir
      then mounted mountPoint rest (drives ++ [filepath_Join w mountPoint name])%list
      else mounted mountPoint rest drives
  end.

Fixpoint mountPoints (points : list string) (drives : list string) : M (list string) :=
  match points with
  | [] => ret drives
  | mountPoint :: rest =>
      r <- ReadDir mountPoint ;;
      match r with
      | Some entries => mountPoints rest (mounted mountPoint entries drives)
      | None => mountPoints rest drives
      end
  end.

(** Provide os-specific common drives or mount points.  The error it
    returns is always nil. *)
Definition getAvailableDrives : M (list string) :=
  if String.eqb (GOOS w) "windows" then windowsDrives driveLetters []
  else if String.eqb (GOOS w) "darwin" || String.eqb (GOOS w) "linux"
  then mountPoints ["/mnt"; "/media"; "/Volumes"] []
  else ret [].

Definition withConfig (app : BackupApp) (c : Config) : BackupApp :=
  mkBackupApp (configFile app) c (bkpDest app) (bkpDestFullPath app)
              (exitOnError app) (nonInteractive app).

Definition withConfigFile (app : BackupApp) (f : string) : BackupApp :=
  mkBackupApp f (BkpConfig app) (bkpDest app) (bkpDestFullPath app)
              (exitOnError app) (nonInteractive app).

Definition withBkpDest (app : BackupApp) (d : string) : BackupApp :=
  mkBackupApp (configFile app) (BkpConfig app) d (bkpDestFullPath app)
              (exitOnError app) (nonInteractive app).

Definition withFullPath (app : BackupApp) (p : string) : BackupApp :=
  mkBackupApp (configFile app) (BkpConfig app) (bkpDest app) p
              (exitOnError app) (nonInteractive app).

(** The error made of a [*os.PathError] with [fmt.Errorf("%q: %v", ...)]:
    it does not wrap its cause. *)
Definition pathErrorf (Path : string) (Err : error) : error :=
  Errorf (fmt_quoted w Path Err).

(** LOAD MAIN CONFIG FROM FILE *)
Definition loadConfig (app : BackupApp) (configFile : string) : M BackupApp :=
  r <- ReadFile configFile ;;
  match r with
  | inl (PathError p e) => fail (pathErrorf p e)
  | inl (OtherError e) => fail (Wrapf "reading config file" e)
  | inr data =>
      match yaml_Unmarshal w data (BkpConfig app) with
      | (_, Some e) => fail (Wrapf "parsing config file" e)
      | (c, None) =>
          match validate (filepath_Base w) c with
          | (_, Some e) => fail (Wrapf "invalid configuration" e)
          | (c', None) => ret (withConfigFile (withConfig app c') configFile)
          end
      end
  end.

(** Search for the first destination with default backup config file in
    its root. *)
Fixpoint searchDrives (app : BackupApp) (drives : list string) : M BackupApp :=
  match drives with
  | [] => ret app
  | drive :: rest =>
      let configFile := filepath_Join w drive ConfigFileDefault in
      r <- Stat configFile ;;
      match r with
      | None =>
          (* Found a backup destination candidate *)
          app <- loadConfig app configFile ;;
          ret (withBkpDest app drive)          (* break *)
      | Some _ => searchDrives app rest
      end
  end.

(** Whether the drive holds the default configuration file. *)
Definition holdsConfig (drive : string) : bool :=
  match os_Stat w (filepath_Join w drive ConfigFileDefault) with
  | None => true
  | Some _ => false
  end.

(** MAIN APP INIT *)
Definition NewBackupApp (bkpDest configFile : string) (exitOnError nonInteractive : bool)
  : M BackupApp :=
  let app := mkBackupApp "" NewConfig bkpDest "" exitOnError nonInteractive in
  (* Case: Backup Destination explicitly specified by user *)
  app <- (if negb (String.eqb bkpDest "") then
            r <- Stat bkpDest ;;
            match r with
            | Some (PathError p e) => fail (pathErrorf p e)
            | Some (OtherError e) => fail (Wrapf "accessing backup destination" e)
            | None => ret (withBkpDest app bkpDest)
            end
          else ret app) ;;
  (* Case: Config File explicitly specified by user *)
  app <- (if negb (String.eqb configFile "") then
            if String.eqb (Run.bkpDest app) ""
            then fail errNoDestinationForConfig
            else loadConfig app configFile
          else ret app) ;;
  (* Case: Backup Destination is NOT specified *)
  app <- (if String.eqb (Run.bkpDest app) "" then
            drives <- getAvailableDrives ;;
            app <- searchDrives app drives ;;
            if String.eqb (Run.bkpDest app) ""
            then fail errNoDestination
            else ret app
          else ret app) ;;
  (* Case: Backup Destination is explicitly specified by user, but Config File is NOT *)
  app <- (if String.eqb (Run.configFile app) ""
          then loadConfig app (filepath_Join w (Run.bkpDest app) ConfigFileDefault)
          else ret app) ;;
  ret (withFullPath app (filepath_Join w (Run.bkpDest app) (BkpDestDir (BkpConfig app)))).

End Init.

(** A Linux host with two volumes under /media, the second of which holds
    a configuration file. *)
Definition mediaHost : World :=
  mkWorld "linux"
          (fun p => if String.eqb p "/media/b/.smbkp.yaml" || String.eqb p "/media/b"
                    then None else Some (PathError p ErrNotExist))
          (fun p => if String.eqb p "/media/b/.smbkp.yaml"
                    then inr "retention: {backups_to_keep: 0}"
                    else inl (PathError p ErrNotExist))
          (fun p => if String.eqb p "/media" then Some [("a", true); ("b", true); ("c", false)]
                    else None)
          (fun data c => (mkConfig (BkpDestDir c)
                            (mkRetention 0 (MinFreeSpace (Retention c))
                                         (minFreeSpaceParsed (Retention c)))
                            (BkpItems c), None))
          (fun a b => a ++ "/" ++ b)%string
          FilepathUnix.Base
          (fun p _ => dq ++ p ++ dq ++ ": no such file or directory")%string.

(** The application that NewBackupApp makes on [mediaHost] for the
    destination "/media/b". *)
Definition mediaApp : BackupApp :=
  mkBackupApp "/media/b/.smbkp.yaml"
              (mkConfig "smbkp" (mkRetention 1 "10mb" 10485760) [])
              "/media/b" "/media/b/smbkp" true false.

(** The configuration files read, in order. *)
Fixpoint filesRead (tr : list event) : list string :=
  match tr with
  | [] => []
  | EvReadFile p :: rest => p :: filesRead rest
  | _ :: rest => filesRead rest
  end.

End Init.

(** ** Package style: how a message is printed and logged

    [Style.print] writes the message to the screen with its colour and
    weight, and hands the plain text to the logger.  The model gives both
    texts: what goes to [s.out], and the argument of [s.logger.Print]. *)

Module Style.
Import GoStrings.

Record options : Type := mkOptions {
  bold : bool;
  noLabel : bool
}.

(** Option configures how a Style method behaves. *)
Definition Option : Type := options -> options.

(** Bold makes the message bold on the screen. *)
Definition Bold : Option := fun o => mkOptions true (noLabel o).

(** NoLabel suppresses the default label (e.g. [INFO]). *)
Definition NoLabel : Option := fun o => mkOptions (bold o) true.

Definition ESC : ascii := ascii_of_nat 27.

Definition ansiReset : string := String ESC "[0m".
Definition ansiBold : string := String ESC "[1m".
Definition ansiFgCyan : string := String ESC "[36m".
Definition ansiFgYellow : string := String ESC "[33m".
Definition ansiFgRed : string := String ESC "[31m".
Definition ansiFgGreen : string := String ESC "[32m".
Definition ansiSubGray : string := String ESC "[38;2;150;150;150m".
Definition ansiSignature : string := String ESC "[38;2;242;103;18m".

Definition newline : ascii := ascii_of_nat 10.

(** strings.TrimLeft(text, "\n") *)
Fixpoint TrimLeftNewlines (text : string) : string :=
  match text with
  | String c t => if Ascii.eqb c newline then TrimLeftNewlines t else text
  | EmptyString => EmptyString
  end.

(** What a call of [print] leaves on the screen and hands to the logger. *)
Record printed : Type := mkPrinted {
  screen : string;
  logged : string
}.

(** core printing helper; NEVER appends newline.  [isNil] is [s == nil];
    [None] is the return without printing. *)
Definition print (isNil : bool) (msg color defaultLabel : string) (opts : list Option)
  : option printed :=
  if isNil then None
  else
    let cfg := fold_left (fun cfg opt => opt cfg) opts (mkOptions false false) in
    let text :=
      if negb (String.eqb defaultLabel "") && negb (noLabel cfg)
      then defaultLabel ++ " " ++ msg
      else msg in
    let '(prefix, suffix) :=
      if negb (String.eqb color "") then (color, ansiReset) else ("", "") in
    let '(prefix, suffix) :=
      if bold cfg
      then (ansiBold ++ prefix, if String.eqb suffix "" then ansiReset else suffix)
      else (prefix, suffix) in
    Some (mkPrinted (prefix ++ text ++ suffix) (TrimLeftNewlines text)).

Definition Plain (msg : string) (opts : list Option) := print false msg "" "" opts.
Definition Sub (msg : string) (opts : list Option) := print false msg ansiSubGray "" opts.
Definition Info (msg : string) (opts : list Option) := print false msg ansiFgCyan "[INFO]" opts.
Definition Warn (msg : string) (opts : list Option) :=
  print false msg ansiFgYellow "[WARNING]" opts.
Definition Err (msg : string) (opts : list Option) := print false msg ansiFgRed "[ERROR]" opts.
Definition Fatal (msg : string) (opts : list Option) := print false msg ansiFgRed "[FATAL]" opts.
Definition Ok (msg : string) (opts : list Option) := print false msg ansiFgGreen "[OK]" opts.
Definition Signature (msg : string) (opts : list Option) :=
  print false msg ansiSignature "" opts.

(** The options of the package. *)
Definition known (opt : Option) : Prop := opt = Bold \/ opt = NoLabel.

(** The text is [newlines] followed by [rest], which does not start with
    a newline. *)
Definition afterNewlines (text rest : string) : Prop :=
  exists n, text = Nat.iter n (String newline) rest /\
            forall t, rest <> String newline t.

End Style.

(** * Properties *)

(** ** Byte strings *)

Module StringFacts.
Import GoStrings Strconv Vocabulary.

Lemma length_append (a b : string) :
  String.length (a ++ b) = (String.length a + String.length b)%nat.
Proof. induction a as [|c a IH]; simpl; [reflexivity | now rewrite IH]. Qed.

Lemma append_assoc (a b c : string) : ((a ++ b) ++ c = a ++ (b ++ c))%string.
Proof. induction a as [|x a IH]; simpl; [reflexivity | now rewrite IH]. Qed.

Lemma substring_all (s : string) : substring 0 (String.length s) s = s.
Proof. induction s as [|c s IH]; simpl; [reflexivity | now rewrite IH]. Qed.

Lemma substring_skip_app (a b : string) (n : nat) :
  substring (String.length a) n (a ++ b) = substring 0 n b.
Proof. induction a as [|c a IH]; simpl; [reflexivity | exact IH]. Qed.

Lemma substring_take_app (a b : string) :
  substring 0 (String.length a) (a ++ b) = a.
Proof.
  induction a as [|c a IH]; simpl.
  - destruct b; reflexivity.
  - now rewrite IH.
Qed.

Lemma dropBytes_app (a b : string) : dropBytes (String.length a) (a ++ b) = b.
Proof.
  unfold dropBytes. rewrite substring_skip_app, length_append.
  replace (String.length a + String.length b - String.length a)%nat
    with (String.length b) by lia.
  apply substring_all.
Qed.

Lemma HasSuffix_app (a b : string) : HasSuffix (a ++ b) b = true.
Proof.
  unfold HasSuffix. rewrite length_append.
  replace (String.length a + String.length b - String.length b)%nat
    with (String.length a) by lia.
  rewrite dropBytes_app, String.eqb_refl.
  rewrite andb_true_r. apply Nat.leb_le. lia.
Qed.

Lemma HasSuffix_app_other (a b b' : string) :
  String.length b = String.length b' -> b <> b' -> HasSuffix (a ++ b) b' = false.
Proof.
  intros Hlen Hne. unfold HasSuffix. rewrite length_append, <- Hlen.
  replace (String.length a + String.length b - String.length b)%nat
    with (String.length a) by lia.
  rewrite dropBytes_app.
  destruct (String.eqb_spec b b') as [E|_]; [contradiction | apply andb_false_r].
Qed.

Lemma TrimSuffix_app (a b : string) : TrimSuffix (a ++ b) b = a.
Proof.
  unfold TrimSuffix. rewrite HasSuffix_app, length_append. unfold takeBytes.
  replace (String.length a + String.length b - String.length b)%nat
    with (String.length a) by lia.
  apply substring_take_app.
Qed.

Lemma noSpace_app (a b : string) : noSpace (a ++ b) = noSpace a && noSpace b.
Proof.
  induction a as [|c a IH]; simpl; [reflexivity|].
  now rewrite IH, andb_assoc.
Qed.

Lemma trimLeft_noSpace (s : string) : noSpace s = true -> trimLeft s = s.
Proof.
  destruct s as [|c s]; simpl; [reflexivity|].
  intros H. apply andb_prop in H as [H _].
  now destruct (asciiSpace c).
Qed.

Lemma trimLeft_noSpace_head (c : ascii) (s : string) :
  asciiSpace c = false -> trimLeft (String c s) = String c s.
Proof. intros H. simpl. now rewrite H. Qed.

Lemma trimRight_noSpace (s : string) : noSpace s = true -> trimRight s = s.
Proof.
  induction s as [|c s IH]; simpl; [reflexivity|].
  intros H. apply andb_prop in H as [Hc Hs]. rewrite (IH Hs).
  destruct s; [|reflexivity].
  now destruct (asciiSpace c).
Qed.

Lemma TrimSpace_noSpace (s : string) : noSpace s = true -> TrimSpace s = s.
Proof.
  intros H. unfold TrimSpace. rewrite (trimLeft_noSpace s H).
  now apply trimRight_noSpace.
Qed.

Lemma byte_range (c : ascii) : 0 <= byte c < 256.
Proof.
  unfold byte. pose proof (N_ascii_bounded c) as H. lia.
Qed.

Lemma isDigit_spec (c : ascii) : isDigit c = true <-> 48 <= byte c <= 57.
Proof. unfold isDigit. rewrite andb_true_iff, !Z.leb_le. tauto. Qed.

Lemma digit_not_space (c : ascii) : isDigit c = true -> asciiSpace c = false.
Proof.
  rewrite isDigit_spec. intros H. unfold asciiSpace.
  repeat match goal with
         | |- context [?a =? ?b] => destruct (Z.eqb_spec a b); [lia|]
         end.
  reflexivity.
Qed.

Lemma digit_not_upper (c : ascii) : isDigit c = true -> lowerByte c = c.
Proof.
  rewrite isDigit_spec. intros H. unfold lowerByte, isUpper.
  destruct (Z.leb_spec 65 (byte c)); [lia | reflexivity].
Qed.

Lemma allDigits_noSpace (s : string) : allDigits s = true -> noSpace s = true.
Proof.
  induction s as [|c s IH]; simpl; [reflexivity|].
  intros H. apply andb_prop in H as [Hc Hs].
  now rewrite (digit_not_space c Hc), (IH Hs).
Qed.

Lemma ToLower_app (a b : string) : ToLower (a ++ b) = ToLower a ++ ToLower b.
Proof. induction a as [|c a IH]; simpl; [reflexivity | now rewrite IH]. Qed.

Lemma ToLower_digits (s : string) : allDigits s = true -> ToLower s = s.
Proof.
  induction s as [|c s IH]; simpl; [reflexivity|].
  intros H. apply andb_prop in H as [Hc Hs].
  now rewrite (digit_not_upper c Hc), (IH Hs).
Qed.

Lemma decimalFrom_ge (s : string) :
  forall n, allDigits s = true -> 0 <= n -> n <= decimalFrom n s.
Proof.
  induction s as [|c s IH]; simpl; intros n H Hn; [lia|].
  apply andb_prop in H as [Hc Hs]. apply isDigit_spec in Hc.
  specialize (IH (n * 10 + (byte c - 48)) Hs). lia.
Qed.

Lemma parseUintLoop_digits (s : string) :
  forall n, allDigits s = true -> 0 <= n -> decimalFrom n s < 2 ^ 64 ->
            parseUintLoop s n = inr (decimalFrom n s).
Proof.
  induction s as [|c s IH]; simpl; intros n H Hn Hlt; [reflexivity|].
  apply andb_prop in H as [Hc Hs]. rewrite Hc.
  pose proof (proj1 (isDigit_spec c) Hc) as Hd.
  pose proof (decimalFrom_ge s (n * 10 + (byte c - 48)) Hs ltac:(lia)) as Hge.
  unfold maxUint64.
  change (2 ^ 64) with 18446744073709551616 in *.
  change ((18446744073709551616 - 1) / 10 + 1) with 1844674407370955162.
  destruct (Z.geb_spec n 1844674407370955162) as [Hbig|Hsmall]; [lia|].
  rewrite Z.mod_small by lia.
  destruct (Z.ltb_spec (n * 10 + (byte c - 48)) (n * 10)) as [Hw|_]; [lia|].
  destruct (Z.gtb_spec (n * 10 + (byte c - 48)) (18446744073709551616 - 1)) as [Hw|_]; [lia|].
  simpl. apply IH; [assumption | lia | assumption].
Qed.

Lemma ParseInt_digits (s : string) :
  s <> EmptyString -> allDigits s = true -> decimalValue s < 2 ^ 63 ->
  ParseInt s = inr (decimalValue s).
Proof.
  intros Hne Hd Hlt. destruct s as [|c s]; [contradiction|].
  unfold ParseInt.
  assert (Hc : isDigit c = true) by (simpl in Hd; now apply andb_prop in Hd as [Hc _]).
  apply isDigit_spec in Hc.
  assert (Hplus : Ascii.eqb c "+" = false).
  { destruct (Ascii.eqb_spec c "+") as [->|_]; [change (byte "+") with 43 in Hc; lia | reflexivity]. }
  assert (Hminus : Ascii.eqb c "-" = false).
  { destruct (Ascii.eqb_spec c "-") as [->|_]; [change (byte "-") with 45 in Hc; lia | reflexivity]. }
  rewrite Hplus, Hminus. cbn [orb].
  unfold ParseUint.
  assert (H0 : 0 <= decimalValue (String c s))
    by (apply (decimalFrom_ge (String c s) 0 Hd); lia).
  rewrite (parseUintLoop_digits (String c s) 0 Hd) by (fold (decimalValue (String c s)); lia).
  fold (decimalValue (String c s)). cbn [negb andb].
  destruct (Z.geb_spec (decimalValue (String c s)) (2 ^ 63)) as [Hbig|_]; [lia|reflexivity].
Qed.

(** *** Trimming and case folding *)

Lemma trimLeft_decompose (s : string) :
  exists l, s = l ++ trimLeft s /\ allSpace l = true.
Proof.
  induction s as [|c s [l [Hs Hl]]]; simpl.
  - now exists EmptyString.
  - destruct (asciiSpace c) eqn:Hc.
    + exists (String c l). simpl. now rewrite Hc, Hl, <- Hs.
    + now exists EmptyString.
Qed.

Lemma trimRight_decompose (s : string) :
  exists r, s = trimRight s ++ r /\ allSpace r = true.
Proof.
  induction s as [|c s [r [Hs Hr]]]; simpl.
  - now exists EmptyString.
  - destruct (trimRight s) as [|d t] eqn:Ht.
    + simpl in Hs. subst r. destruct (asciiSpace c) eqn:Hc.
      * exists (String c s). simpl. now rewrite Hc, Hr.
      * now exists s.
    + exists r. simpl. now rewrite Hs at 1.
Qed.

Lemma TrimSpace_decompose (s : string) :
  exists l r, s = l ++ TrimSpace s ++ r /\ allSpace l = true /\ allSpace r = true.
Proof.
  destruct (trimLeft_decompose s) as [l [Hs Hl]].
  destruct (trimRight_decompose (trimLeft s)) as [r [Ht Hr]].
  exists l, r. unfold TrimSpace. now rewrite <- Ht.
Qed.

Lemma trimLeft_allSpace (l s : string) :
  allSpace l = true -> trimLeft (l ++ s) = trimLeft s.
Proof.
  induction l as [|c l IH]; simpl; [reflexivity|].
  intros H. apply andb_prop in H as [Hc Hl]. now rewrite Hc, IH.
Qed.

Lemma trimRight_allSpace (r : string) : allSpace r = true -> trimRight r = EmptyString.
Proof.
  induction r as [|c r IH]; simpl; [reflexivity|].
  intros H. apply andb_prop in H as [Hc Hr]. now rewrite (IH Hr), Hc.
Qed.

Lemma trimRight_word (word r : string) :
  noSpace word = true -> allSpace r = true -> trimRight (word ++ r) = word.
Proof.
  induction word as [|c word IH]; simpl; intros Hw Hr.
  - now apply trimRight_allSpace.
  - apply andb_prop in Hw as [Hc Hw]. apply negb_true_iff in Hc.
    rewrite (IH Hw Hr). destruct word; [now rewrite Hc | reflexivity].
Qed.

Lemma TrimSpace_word (l word r : string) :
  allSpace l = true -> allSpace r = true -> noSpace word = true ->
  TrimSpace (l ++ word ++ r) = word.
Proof.
  intros Hl Hr Hw. unfold TrimSpace. rewrite (trimLeft_allSpace l _ Hl).
  destruct word as [|c word].
  - simpl. destruct (trimLeft_decompose r) as [l' [Hr' _]].
    assert (Ht : allSpace (trimLeft r) = true).
    { clear - Hr. induction r as [|d r IH]; simpl in *; [reflexivity|].
      apply andb_prop in Hr as [Hd Hr]. rewrite Hd. now apply IH. }
    now apply trimRight_allSpace.
  - change (String c word ++ r) with (String c (word ++ r)).
    rewrite trimLeft_noSpace_head.
    + change (String c (word ++ r)) with (String c word ++ r).
      now apply trimRight_word.
    + simpl in Hw. apply andb_prop in Hw as [Hc _]. now apply negb_true_iff in Hc.
Qed.

Lemma byte_chr (z : Z) : 0 <= z < 256 -> byte (chr z) = z.
Proof.
  intros H. unfold byte, chr. rewrite N_ascii_embedding by lia. lia.
Qed.

Lemma asciiSpace_lowerByte (c : ascii) : asciiSpace (lowerByte c) = asciiSpace c.
Proof.
  unfold lowerByte, isUpper.
  destruct (Z.leb_spec 65 (byte c)) as [Hlo|Hlo]; [|reflexivity].
  destruct (Z.leb_spec (byte c) 90) as [Hhi|Hhi]; [|reflexivity].
  cbn [andb]. unfold asciiSpace. rewrite byte_chr by lia.
  repeat match goal with
         | |- context [?a =? ?b] => destruct (Z.eqb_spec a b); [lia|]
         end.
  reflexivity.
Qed.

Lemma allSpace_ToLower (s : string) : allSpace (ToLower s) = allSpace s.
Proof.
  induction s as [|c s IH]; simpl; [reflexivity|].
  now rewrite asciiSpace_lowerByte, IH.
Qed.

Lemma ToLower_split (a b : string) :
  forall s, ToLower s = a ++ b ->
            exists x y, s = x ++ y /\ ToLower x = a /\ ToLower y = b.
Proof.
  induction a as [|c a IH]; intros s H.
  - now exists EmptyString, s.
  - destruct s as [|d s]; [discriminate|]. simpl in H.
    injection H as Hc Hs. destruct (IH s Hs) as [x [y [-> [Hx Hy]]]].
    exists (String d x), y. simpl. now rewrite Hc, Hx.
Qed.

(** Lower-casing and trimming a response gives [word] exactly when the
    response spells it. *)
Lemma normalised_spells (word raw : string) :
  noSpace word = true ->
  TrimSpace (ToLower raw) = word <-> spells word raw.
Proof.
  intros Hw. split.
  - intros Hn.
    destruct (TrimSpace_decompose (ToLower raw)) as [l' [r' [Hraw [Hl Hr]]]].
    rewrite Hn in Hraw.
    destruct (ToLower_split l' (word ++ r') raw Hraw) as [l [rest [-> [Hl' Hrest]]]].
    destruct (ToLower_split word r' rest Hrest) as [core [r [-> [Hcore Hr']]]].
    exists l, core, r. subst l' r'. rewrite allSpace_ToLower in Hl, Hr.
    now repeat split.
  - intros [l [core [r [-> [Hl [Hr Hcore]]]]]].
    rewrite !ToLower_app, Hcore.
    apply TrimSpace_word; [now rewrite allSpace_ToLower | now rewrite allSpace_ToLower | exact Hw].
Qed.

End StringFacts.

(** ** Configuration *)

Module ConfigFacts.
Import GoStrings Strconv Config Vocabulary StringFacts.

Lemma decimalValue_nonneg (ds : string) : allDigits ds = true -> 0 <= decimalValue ds.
Proof. intros H. apply (decimalFrom_ge ds 0 H). lia. Qed.

Lemma normalise_digits_unit (ds unit : string) :
  allDigits ds = true -> noSpace unit = true -> ToLower unit = unit ->
  ToLower (TrimSpace (ds ++ unit)) = ds ++ unit.
Proof.
  intros Hd Hs Hl.
  rewrite TrimSpace_noSpace
    by (rewrite noSpace_app, (allDigits_noSpace ds Hd), Hs; reflexivity).
  now rewrite ToLower_app, (ToLower_digits ds Hd), Hl.
Qed.

(** "<N>mb" is N mebibytes, as long as the product fits in a uint64. *)
Lemma parseDiskSize_mb (ds : string) :
  ds <> EmptyString -> allDigits ds = true -> decimalValue ds * 1048576 < 2 ^ 64 ->
  parseDiskSize (ds ++ "mb") = inr (decimalValue ds * 1048576).
Proof.
  intros Hne Hd Hlt. pose proof (decimalValue_nonneg ds Hd) as H0.
  unfold parseDiskSize.
  rewrite (normalise_digits_unit ds "mb" Hd eq_refl eq_refl).
  rewrite HasSuffix_app, TrimSuffix_app.
  rewrite (TrimSpace_noSpace ds (allDigits_noSpace ds Hd)).
  change (2 ^ 64) with 18446744073709551616 in *.
  rewrite (ParseInt_digits ds Hne Hd)
    by (change (2 ^ 63) with 9223372036854775808; lia).
  change (1024 * 1024) with 1048576.
  rewrite (Z.mod_small (decimalValue ds)) by lia.
  rewrite Z.mod_small by lia. reflexivity.
Qed.

(** "<N>gb" is N gibibytes, as long as the product fits in a uint64. *)
Lemma parseDiskSize_gb (ds : string) :
  ds <> EmptyString -> allDigits ds = true -> decimalValue ds * 1073741824 < 2 ^ 64 ->
  parseDiskSize (ds ++ "gb") = inr (decimalValue ds * 1073741824).
Proof.
  intros Hne Hd Hlt. pose proof (decimalValue_nonneg ds Hd) as H0.
  unfold parseDiskSize.
  rewrite (normalise_digits_unit ds "gb" Hd eq_refl eq_refl).
  rewrite (HasSuffix_app_other ds "gb" "mb" eq_refl) by discriminate.
  rewrite HasSuffix_app, TrimSuffix_app.
  rewrite (TrimSpace_noSpace ds (allDigits_noSpace ds Hd)).
  change (2 ^ 64) with 18446744073709551616 in *.
  rewrite (ParseInt_digits ds Hne Hd)
    by (change (2 ^ 63) with 9223372036854775808; lia).
  change (1024 * 1024 * 1024) with 1073741824.
  rewrite (Z.mod_small (decimalValue ds)) by lia.
  rewrite Z.mod_small by lia. reflexivity.
Qed.

Section Validate.

Variable filepath_Base : string -> string.

(** The floor of [backups_to_keep] holds after a successful validation. *)
Lemma validate_backups_to_keep (c c' : Config) :
  validate filepath_Base c = (c', None) ->
  LimitMinBackupsToKeep <= BackupsToKeep (Retention c').
Proof.
  unfold validate. cbn [Retention MinFreeSpace BackupsToKeep].
  destruct (negb _); [discriminate|].
  destruct (parseDiskSize _) as [e|parsed]; [discriminate|].
  intros H. injection H as <-. cbn [Retention BackupsToKeep].
  destruct (parsed <? LimitMinFreeSpaceParsed); cbn [BackupsToKeep];
    destruct (Z.ltb_spec (BackupsToKeep (Retention c)) LimitMinBackupsToKeep); lia.
Qed.

(** After a successful validation [minFreeSpaceParsed] is what
    parseDiskSize made of the configured string, below the floor or not:
    the assignment after the clamp overwrites the clamped value. *)
Lemma validate_stores_parsed_value (c c' : Config) :
  validate filepath_Base c = (c', None) ->
  parseDiskSize (MinFreeSpace (Retention c)) = inr (minFreeSpaceParsed (Retention c')).
Proof.
  unfold validate. cbn [Retention MinFreeSpace BackupsToKeep].
  destruct (negb _); [discriminate|].
  destruct (parseDiskSize _) as [e|parsed]; [discriminate|].
  intros H. injection H as <-. reflexivity.
Qed.

(** C1 (the code at the failing input): a configuration with
    [min_free_space: "5mb"] passes validation, the displayed string is
    raised to "10mb", and the effective [minFreeSpaceParsed] is 5242880,
    half of the floor 10485760: the value is not clamped up. *)
Theorem validate_5mb_is_not_clamped :
  let c := mkConfig BackupDestDirDefault (mkRetention 0 "5mb" 0) [] in
  let c' := fst (validate filepath_Base c) in
  snd (validate filepath_Base c) = None /\
  BackupsToKeep (Retention c') = 1 /\
  MinFreeSpace (Retention c') = LimitMinFreeSpace /\
  minFreeSpaceParsed (Retention c') = 5242880 /\
  minFreeSpaceParsed (Retention c') < LimitMinFreeSpaceParsed.
Proof. vm_compute. repeat split. Qed.

End Validate.

End ConfigFacts.

(** ** The loops of filepath.Match have fuel enough *)

Module FilepathFacts.
Import GoStrings Filepath.

Lemma length_skipBytes (n : nat) :
  forall s, String.length (skipBytes n s) = (String.length s - n)%nat.
Proof.
  induction n as [|n IH]; intros s; cbn [skipBytes]; [lia|].
  rewrite IH. destruct s; cbn [tailBytes String.length]; lia.
Qed.

Lemma DecodeRuneInString_width (s : string) :
  s <> EmptyString -> (1 <= snd (DecodeRuneInString s))%nat.
Proof.
  intros Hs. unfold DecodeRuneInString. destruct s as [|c0 t0]; [contradiction|].
  repeat match goal with
         | |- context [match ?x with _ => _ end] => destruct x
         | |- context [if ?x then _ else _] => destruct x
         end; cbn [snd]; lia.
Qed.

Section Fuel.

Variable os : GOOS.

Lemma getEsc_shorter (chunk : string) (r : Z) (nchunk : string) :
  getEsc os chunk = Some (r, nchunk) ->
  (String.length nchunk < String.length chunk)%nat.
Proof.
  unfold getEsc. destruct chunk as [|c chunk']; [discriminate|].
  destruct (Ascii.eqb c "-" || Ascii.eqb c "]"); [discriminate|].
  set (body := if Ascii.eqb c "\" && negb (isWindows os) then chunk' else String c chunk').
  assert (Hlen : (String.length body <= String.length (String c chunk'))%nat).
  { unfold body. destruct (_ && _); cbn; lia. }
  destruct body as [|b body'] eqn:Hbody; [discriminate|].
  pose proof (DecodeRuneInString_width (String b body') ltac:(discriminate)) as Hw.
  destruct (DecodeRuneInString (String b body')) as [r0 n]. cbn [snd] in Hw.
  destruct ((r0 =? RuneError) && (n =? 1)%nat); [discriminate|].
  pose proof (length_skipBytes n (String b body')) as Hskip.
  destruct (skipBytes n (String b body')) as [|x rest]; [discriminate|].
  intros [= <- <-]. cbn [String.length] in *. lia.
Qed.

(** What a character class leaves of the chunk is shorter than the chunk. *)
Lemma classLoop_shorter (fuel : nat) :
  (forall chunk r nrange m res c2,
     classLoop os fuel chunk r nrange m = Some (res, c2) ->
     (String.length c2 < String.length chunk)%nat) /\
  (forall chunk r nrange m res c2,
     classRange os fuel chunk r nrange m = Some (res, c2) ->
     (String.length c2 < String.length chunk)%nat).
Proof.
  induction fuel as [|fuel [IHl IHr]]; [split; discriminate|]. split.
  - intros chunk r nrange m res c2. cbn [classLoop].
    destruct chunk as [|c chunk']; [apply IHr|].
    destruct (Ascii.eqb c "]" && (0 <? nrange)%nat); [|apply IHr].
    intros [= _ <-]. cbn. lia.
  - intros chunk r nrange m res c2. cbn [classRange].
    destruct (getEsc os chunk) as [[lo chunk1]|] eqn:H1; [|discriminate].
    apply getEsc_shorter in H1.
    destruct chunk1 as [|d chunk1']; [discriminate|].
    destruct (Ascii.eqb d "-").
    + destruct (getEsc os chunk1') as [[hi chunk2]|] eqn:H2; [|discriminate].
      apply getEsc_shorter in H2. intros H. apply IHl in H. cbn [String.length] in *. lia.
    + intros H. apply IHl in H. lia.
Qed.

(** From twice the length of the chunk on, more fuel changes nothing in
    the scan of a character class. *)
Lemma classLoop_more_fuel (fuel : nat) :
  (forall chunk r nrange m,
     (2 * String.length chunk + 2 <= fuel)%nat ->
     classLoop os fuel chunk r nrange m = classLoop os (S fuel) chunk r nrange m) /\
  (forall chunk r nrange m,
     (2 * String.length chunk + 1 <= fuel)%nat ->
     classRange os fuel chunk r nrange m = classRange os (S fuel) chunk r nrange m).
Proof.
  induction fuel as [|fuel [IHl IHr]]; [split; intros; lia|]. split.
  - intros chunk r nrange m Hf.
    change (classLoop os (S (S fuel)) chunk r nrange m)
      with (match chunk with
            | String c chunk' =>
                if Ascii.eqb c "]" && (0 <? nrange)%nat then Some (m, chunk')
                else classRange os (S fuel) chunk r nrange m
            | EmptyString => classRange os (S fuel) chunk r nrange m
            end).
    cbn [classLoop]. rewrite (IHr chunk r nrange m) by lia. reflexivity.
  - intros chunk r nrange m Hf.
    change (classRange os (S (S fuel)) chunk r nrange m)
      with (match getEsc os chunk with
            | None => None
            | Some (lo, chunk1) =>
                let next (hi : Z) (chunk2 : string) :=
                  classLoop os (S fuel) chunk2 r (S nrange)
                            (m || ((lo <=? r) && (r <=? hi))) in
                match chunk1 with
                | String d chunk1' =>
                    if Ascii.eqb d "-" then
                      match getEsc os chunk1' with
                      | None => None
                      | Some (hi, chunk2) => next hi chunk2
                      end
                    else next lo chunk1
                | EmptyString => None
                end
            end).
    cbn [classRange].
    destruct (getEsc os chunk) as [[lo chunk1]|] eqn:H1; [|reflexivity].
    apply getEsc_shorter in H1. cbv zeta.
    destruct chunk1 as [|d chunk1']; [reflexivity|].
    destruct (Ascii.eqb d "-").
    + destruct (getEsc os chunk1') as [[hi chunk2]|] eqn:H2; [|reflexivity].
      apply getEsc_shorter in H2. apply IHl. cbn [String.length] in *. lia.
    + apply IHl. lia.
Qed.

Lemma length_tailBytes (s : string) : (String.length (tailBytes s) <= String.length s)%nat.
Proof. destruct s; cbn; lia. Qed.

(** With the length of the chunk as fuel matchChunk has fuel enough: any
    more gives the same result. *)
Lemma matchChunkLoop_fuel (fuel : nat) :
  forall fuel' chunk s failed,
    (String.length chunk <= fuel)%nat -> (String.length chunk <= fuel')%nat ->
    matchChunkLoop os fuel chunk s failed = matchChunkLoop os fuel' chunk s failed.
Proof.
  induction fuel as [|fuel IH]; intros fuel' chunk s failed Hf Hf'.
  - destruct chunk; [|cbn in Hf; lia]. now destruct fuel'.
  - destruct fuel' as [|fuel']; [destruct chunk; [reflexivity | cbn in Hf'; lia]|].
    destruct chunk as [|c chunk']; [reflexivity|].
    cbn [String.length] in Hf, Hf'. cbn [matchChunkLoop].
    pose proof (length_tailBytes chunk') as Htail.
    repeat match goal with
           | |- context [if ?b then _ else _] => destruct b eqn:?
           | |- context [match ?x with _ => _ end] => destruct x eqn:?
           end;
      try reflexivity;
      try match goal with
          | H : classLoop os _ _ _ _ _ = Some (_, _) |- _ =>
              apply (proj1 (classLoop_shorter _)) in H
          end;
      apply IH; cbn [String.length] in *; lia.
Qed.

Lemma matchChunk_fuel (fuel : nat) (chunk s : string) :
  (String.length chunk <= fuel)%nat ->
  matchChunkLoop os fuel chunk s false = matchChunk os chunk s.
Proof. intros Hf. unfold matchChunk. apply matchChunkLoop_fuel; lia. Qed.

Lemma classLoop_fuel (fuel : nat) (chunk : string) (r : Z) (nrange : nat) (m : bool) :
  (2 * String.length chunk + 2 <= fuel)%nat ->
  classLoop os fuel chunk r nrange m =
  classLoop os (2 * String.length chunk + 2) chunk r nrange m.
Proof.
  intros Hf. induction Hf as [|fuel Hf IH]; [reflexivity|].
  rewrite <- IH. symmetry. now apply (proj1 (classLoop_more_fuel fuel)).
Qed.

(** scanChunk takes at least one byte off a pattern that is not empty. *)
Lemma scanLoop_rest (n : nat) :
  forall pattern inrange,
    (String.length pattern <= n)%nat ->
    (String.length (snd (scanLoop os pattern inrange)) <= String.length pattern)%nat /\
    (forall c p', pattern = String c p' -> Ascii.eqb c "*" && negb inrange = false ->
                  (String.length (snd (scanLoop os pattern inrange)) <= String.length p')%nat).
Proof.
  induction n as [|n IH]; intros pattern inrange Hn.
  - destruct pattern; [|cbn in Hn; lia]. split; [cbn; lia | discriminate].
  - destruct pattern as [|c p']; [split; [cbn; lia | discriminate]|].
    cbn [String.length] in Hn.
    assert (Hgen : Ascii.eqb c "*" && negb inrange = false ->
                   (String.length (snd (scanLoop os (String c p') inrange))
                    <= String.length p')%nat).
    { intros Hstar. cbn [scanLoop]. rewrite Hstar.
      destruct (Ascii.eqb c "\" && negb (isWindows os)).
      - destruct p' as [|d p'']; [cbn; lia|].
        destruct (IH p'' inrange ltac:(cbn in Hn; lia)) as [Hle _].
        destruct (scanLoop os p'' inrange) as [chunk rest]. cbn [snd String.length] in *. lia.
      - match goal with
        | |- context [scanLoop os p' ?b] =>
            destruct (IH p' b ltac:(lia)) as [Hle _];
            destruct (scanLoop os p' b) as [chunk rest]
        end.
        cbn [snd] in *. lia. }
    split.
    + destruct (Ascii.eqb c "*" && negb inrange) eqn:Hstar.
      * cbn [scanLoop]. rewrite Hstar.
        destruct (Ascii.eqb c "\" && negb (isWindows os)).
        -- destruct p' as [|d p'']; [cbn; lia|].
           destruct (IH p'' inrange ltac:(cbn in Hn; lia)) as [Hle _].
           destruct (scanLoop os p'' inrange) as [chunk rest].
           cbn [snd String.length] in *. lia.
        -- cbn. lia.
      * specialize (Hgen eq_refl). cbn [String.length]. lia.
    + intros c0 p0 [= <- <-]. exact Hgen.
Qed.

Lemma dropStars_spec (pattern : string) :
  (String.length (dropStars pattern) <= String.length pattern)%nat /\
  (HasPrefix pattern "*" = true ->
   (String.length (dropStars pattern) < String.length pattern)%nat) /\
  (forall c p', dropStars pattern = String c p' -> Ascii.eqb c "*" = false).
Proof.
  induction pattern as [|c p [IHle [_ IHhd]]]; [repeat split; cbn; try lia; discriminate|].
  cbn [dropStars]. destruct (Ascii.eqb c "*") eqn:Hc.
  - cbn [String.length]. repeat split; try lia. exact IHhd.
  - repeat split; try lia.
    + cbn. rewrite Hc. discriminate.
    + now intros c0 p0 [= <- <-].
Qed.

Lemma scanChunk_rest (pattern : string) :
  pattern <> EmptyString ->
  (String.length (snd (scanChunk os pattern)) < String.length pattern)%nat.
Proof.
  intros Hne. unfold scanChunk.
  destruct (dropStars_spec pattern) as [Hle [Hstar Hhd]].
  destruct (dropStars pattern) as [|c p'] eqn:Hd.
  - cbn. destruct pattern; [contradiction | cbn; lia].
  - destruct (scanLoop_rest (String.length (String c p')) (String c p') false (le_n _))
      as [_ Hrest].
    specialize (Hrest c p' eq_refl). rewrite (Hhd c p' eq_refl) in Hrest.
    specialize (Hrest eq_refl).
    destruct (scanLoop os (String c p') false) as [chunk rest].
    cbn [snd String.length] in *. lia.
Qed.

Lemma checkRemainder_fuel (fuel : nat) :
  forall fuel' pattern,
    (String.length pattern <= fuel)%nat -> (String.length pattern <= fuel')%nat ->
    checkRemainder os fuel pattern = checkRemainder os fuel' pattern.
Proof.
  induction fuel as [|fuel IH]; intros fuel' pattern Hf Hf'.
  - destruct pattern; [|cbn in Hf; lia]. now destruct fuel'.
  - destruct fuel' as [|fuel']; [destruct pattern; [reflexivity | cbn in Hf'; lia]|].
    destruct pattern as [|c p]; [reflexivity|].
    pose proof (scanChunk_rest (String c p) ltac:(discriminate)) as Hrest.
    cbn [checkRemainder].
    destruct (scanChunk os (String c p)) as [[star chunk] rest]. cbn [snd] in Hrest.
    destruct (matchChunk os chunk EmptyString); try reflexivity;
      apply IH; cbn [String.length] in *; lia.
Qed.

(** With the length of the pattern as fuel Match has fuel enough: any more
    gives the same result. *)
Lemma matchLoop_fuel (fuel : nat) :
  forall fuel' pattern name,
    (String.length pattern <= fuel)%nat -> (String.length pattern <= fuel')%nat ->
    matchLoop os fuel pattern name = matchLoop os fuel' pattern name.
Proof.
  induction fuel as [|fuel IH]; intros fuel' pattern name Hf Hf'.
  - destruct pattern; [|cbn in Hf; lia]. now destruct fuel'.
  - destruct fuel' as [|fuel']; [destruct pattern; [reflexivity | cbn in Hf'; lia]|].
    destruct pattern as [|c p]; [reflexivity|].
    pose proof (scanChunk_rest (String c p) ltac:(discriminate)) as Hrest.
    cbn [matchLoop].
    destruct (scanChunk os (String c p)) as [[star chunk] rest]. cbn [snd] in Hrest.
    cbn [String.length] in Hf, Hf', Hrest.
    rewrite (checkRemainder_fuel fuel fuel' rest) by lia.
    destruct (star && (String.length chunk =? 0)%nat); [reflexivity|].
    assert (Hrec : forall t, matchLoop os fuel rest t = matchLoop os fuel' rest t)
      by (intros t; apply IH; lia).
    destruct (matchChunk os chunk name) as [| |t]; cbv zeta;
      repeat match goal with
             | |- context [if ?b then _ else _] => destruct b
             | |- context [match starLoop os ?a ?b ?c with _ => _ end] =>
                 destruct (starLoop os a b c)
             end; try reflexivity; apply Hrec.
Qed.

Lemma Match_fuel (fuel : nat) (pattern name : string) :
  (String.length pattern <= fuel)%nat ->
  matchLoop os fuel pattern name = Match os pattern name.
Proof. intros Hf. unfold Match. apply matchLoop_fuel; lia. Qed.

End Fuel.

End FilepathFacts.

(** ** The progress bar *)

Module ProgressFacts.
Import Progress.
Local Open Scope list_scope.

(** *** Binary64: digits, exact conversions, the rounded quotient *)

Lemma digits2_pos_bounds (p : positive) :
  2 ^ (Z.pos (digits2_pos p) - 1) <= Z.pos p < 2 ^ Z.pos (digits2_pos p).
Proof.
  induction p as [p IH|p IH|]; cbn [digits2_pos].
  - rewrite Pos2Z.inj_succ.
    replace (Z.succ (Z.pos (digits2_pos p)) - 1) with (Z.succ (Z.pos (digits2_pos p) - 1)) by lia.
    rewrite !Z.pow_succ_r by lia. lia.
  - rewrite Pos2Z.inj_succ.
    replace (Z.succ (Z.pos (digits2_pos p)) - 1) with (Z.succ (Z.pos (digits2_pos p) - 1)) by lia.
    rewrite !Z.pow_succ_r by lia. lia.
  - cbn. lia.
Qed.

Lemma digits2_pos_unique (p : positive) (d : Z) :
  2 ^ (d - 1) <= Z.pos p < 2 ^ d -> Z.pos (digits2_pos p) = d.
Proof.
  intros [Hlo Hhi]. pose proof (digits2_pos_bounds p) as [Hlo' Hhi'].
  set (d' := Z.pos (digits2_pos p)) in *.
  assert (0 < d) by (destruct d; try lia; cbn in Hhi; lia).
  destruct (Z.lt_trichotomy d' d) as [Hlt|[Heq|Hgt]]; [|exact Heq|].
  - assert (2 ^ d' <= 2 ^ (d - 1)) by (apply Z.pow_le_mono_r; lia). lia.
  - assert (2 ^ d <= 2 ^ (d' - 1)) by (apply Z.pow_le_mono_r; lia). lia.
Qed.

Lemma iter_pos_nat {A : Type} (f : A -> A) (p : positive) :
  forall x, iter_pos f p x = Nat.iter (Pos.to_nat p) f x.
Proof.
  induction p as [p IH|p IH|]; intros x; cbn [iter_pos].
  - rewrite !IH, <- Nat.iter_add, <- Nat.iter_succ_r. f_equal. lia.
  - rewrite !IH, <- Nat.iter_add. f_equal. lia.
  - reflexivity.
Qed.

Lemma shr_1_even (z : Z) :
  0 < z -> shr_1 (Build_shr_record (2 * z) false false) = Build_shr_record z false false.
Proof. destruct z; try lia. reflexivity. Qed.

Lemma iter_shr_1_exact (n : nat) :
  forall z, 0 < z ->
    Nat.iter n shr_1 (Build_shr_record (z * 2 ^ Z.of_nat n) false false)
    = Build_shr_record z false false.
Proof.
  induction n as [|n IH]; intros z Hz.
  - cbn [Nat.iter]. now rewrite Z.mul_1_r.
  - rewrite Nat.iter_succ_r.
    rewrite Nat2Z.inj_succ, Z.pow_succ_r by lia.
    replace (z * (2 * 2 ^ Z.of_nat n)) with (2 * (z * 2 ^ Z.of_nat n)) by lia.
    rewrite shr_1_even by (apply Z.mul_pos_pos; [lia | apply Z.pow_pos_nonneg; lia]).
    now apply IH.
Qed.

Lemma shr_exact (z e j : Z) :
  0 < z -> 0 <= j ->
  shr (Build_shr_record (z * 2 ^ j) false false) e j = (Build_shr_record z false false, e + j).
Proof.
  intros Hz Hj. unfold shr. destruct j as [|j|j]; try lia.
  - now rewrite Z.mul_1_r, Z.add_0_r.
  - rewrite iter_pos_nat. rewrite <- (positive_nat_Z j) at 1.
    now rewrite iter_shr_1_exact.
Qed.

Lemma fexp_normal (x : Z) : -1021 <= x -> fexp 53 1024 x = x - 53.
Proof. intros H. unfold fexp, emin. lia. Qed.

Lemma digits_shifted (K M : positive) (j : Z) :
  Z.pos (digits2_pos K) = 53 -> 0 <= j -> Z.pos M = Z.pos K * 2 ^ j ->
  Z.pos (digits2_pos M) = 53 + j.
Proof.
  intros HK Hj HM. apply digits2_pos_unique. rewrite HM.
  pose proof (digits2_pos_bounds K) as [Hlo Hhi]. rewrite HK in Hlo, Hhi.
  replace (53 + j - 1) with (52 + j) by lia.
  rewrite !Z.pow_add_r by lia.
  assert (0 < 2 ^ j) by (apply Z.pow_pos_nonneg; lia).
  change (53 - 1) with 52 in Hlo. nia.
Qed.

(** Rounding a mantissa of 53 digits followed by [j] zero bits is exact. *)
Lemma binary_round_aux_exact (K M : positive) (j e : Z) :
  Z.pos (digits2_pos K) = 53 -> 0 <= j -> Z.pos M = Z.pos K * 2 ^ j ->
  -1074 <= e + j <= 971 ->
  binary_round_aux 53 1024 false (Z.pos M) e loc_Exact = S754_finite false K (e + j).
Proof.
  intros HK Hj HM He.
  pose proof (digits_shifted K M j HK Hj HM) as HdM.
  unfold binary_round_aux, shr_fexp.
  cbn [Zdigits2 shr_record_of_loc]. rewrite HdM.
  rewrite fexp_normal by lia.
  replace (53 + j + e - 53 - e) with j by lia.
  rewrite HM, shr_exact by lia.
  cbn [shr_m loc_of_shr_record round_nearest_even Zdigits2 shr_record_of_loc].
  rewrite HK, fexp_normal by lia.
  replace (53 + (e + j) - 53 - (e + j)) with 0 by lia.
  cbn [shr shr_m].
  destruct (Z.leb_spec (e + j) (1024 - 53)); [reflexivity | lia].
Qed.

(** The conversion of a positive int below 2^53 is exact: a mantissa of 53
    digits and the exponent that goes with it. *)
Lemma float64_of_int_pos (n : positive) :
  Z.pos n < 2 ^ 53 ->
  exists m, float64_of_int (Z.pos n) = S754_finite false m (Z.pos (digits2_pos n) - 53) /\
            Z.pos (digits2_pos m) = 53 /\
            Z.pos m = Z.pos n * 2 ^ (53 - Z.pos (digits2_pos n)).
Proof.
  intros Hn. pose proof (digits2_pos_bounds n) as [Hlo Hhi].
  set (d := Z.pos (digits2_pos n)) in *.
  assert (Hd : 1 <= d <= 53).
  { split; [unfold d; lia|].
    destruct (Z.le_gt_cases d 53) as [|Hgt]; [assumption|].
    assert (2 ^ 53 <= 2 ^ (d - 1)) by (apply Z.pow_le_mono_r; lia). lia. }
  unfold float64_of_int, binary_normalize, binary_round, prec, emax.
  fold d. rewrite Z.add_0_r, fexp_normal by lia.
  unfold shl_align.
  destruct (d - 53 - 0) as [|k|k] eqn:Hk; try lia.
  - exists n. assert (d = 53) by lia.
    rewrite (binary_round_aux_exact n n 0 0); [|unfold d in *; lia|lia|lia|lia].
    replace (d - 53) with 0 by lia. replace (53 - d) with 0 by lia.
    repeat split; [unfold d in *; lia | lia].
  - exists (Pos.iter xO n k).
    assert (Hz : Z.pos (Pos.iter xO n k) = Z.pos n * 2 ^ Z.pos k).
    { clear. induction k as [|k IH] using Pos.peano_ind.
      - cbn. lia.
      - rewrite Pos.iter_succ, Pos2Z.inj_succ, Z.pow_succ_r by lia.
        change (Z.pos (Pos.iter xO n k)~0) with (2 * Z.pos (Pos.iter xO n k)).
        rewrite IH. lia. }
    assert (Hdig : Z.pos (digits2_pos (Pos.iter xO n k)) = 53).
    { apply digits2_pos_unique. rewrite Hz.
      replace (Z.pos k) with (53 - d) by lia.
      assert (E52 : 2 ^ (53 - 1) = 2 ^ (d - 1) * 2 ^ (53 - d))
        by (rewrite <- Z.pow_add_r by lia; f_equal; lia).
      assert (E53 : 2 ^ 53 = 2 ^ d * 2 ^ (53 - d))
        by (rewrite <- Z.pow_add_r by lia; f_equal; lia).
      rewrite E52, E53.
      assert (0 < 2 ^ (53 - d)) by (apply Z.pow_pos_nonneg; lia).
      split; [apply Z.mul_le_mono_nonneg_r; lia | apply Z.mul_lt_mono_pos_r; lia]. }
    rewrite (binary_round_aux_exact (Pos.iter xO n k) (Pos.iter xO n k) 0 (d - 53));
      [|exact Hdig|lia|lia|lia].
    rewrite Z.add_0_r. replace (53 - d) with (Z.pos k) by lia. now repeat split.
Qed.

(** Pure arithmetic: the floor of a quotient survives a rounding of its
    scaled value to the nearest integer, when the scale exceeds half the
    divisor. *)
Lemma floor_of_rounded (A T v m1 : Z) :
  0 <= A -> 0 < T -> 0 <= v -> T < 2 ^ (v + 1) ->
  (m1 = A * 2 ^ v / T \/ (m1 = A * 2 ^ v / T + 1 /\ T <= 2 * ((A * 2 ^ v) mod T))) ->
  m1 / 2 ^ v = A / T.
Proof.
  intros HA HT Hv Hbig Hm.
  rewrite Z.pow_add_r, Z.pow_1_r in Hbig by lia.
  set (P := 2 ^ v) in *. assert (HP : 0 < P) by (apply Z.pow_pos_nonneg; lia).
  pose proof (Z.div_mod A T ltac:(lia)) as HAdec.
  pose proof (Z.mod_pos_bound A T HT) as Hs.
  set (N := A / T) in *. set (s := A mod T) in *.
  pose proof (Z.div_mod (A * P) T ltac:(lia)) as HYdec.
  pose proof (Z.mod_pos_bound (A * P) T HT) as Hrho.
  set (Q := A * P / T) in *. set (rho := (A * P) mod T) in *.
  assert (HQlo : N * P <= Q) by nia.
  assert (HQhi : Q < N * P + P) by nia.
  symmetry. apply (Z.div_unique m1 P N (m1 - N * P)); [|lia].
  left. destruct Hm as [->|[-> Hhalf]]; [lia|].
  split; [lia|].
  assert (Q + 1 <> N * P + P); [|lia].
  intros Hbad. nia.
Qed.

Lemma digits_monotone (a b : positive) :
  Z.pos a <= Z.pos b -> Z.pos (digits2_pos a) <= Z.pos (digits2_pos b).
Proof.
  intros Hab. pose proof (digits2_pos_bounds a) as [Hlo _].
  pose proof (digits2_pos_bounds b) as [_ Hhi].
  destruct (Z.le_gt_cases (Z.pos (digits2_pos a)) (Z.pos (digits2_pos b))) as [|Hgt];
    [assumption|].
  assert (2 ^ Z.pos (digits2_pos b) <= 2 ^ (Z.pos (digits2_pos a) - 1))
    by (apply Z.pow_le_mono_r; lia).
  lia.
Qed.

Lemma digits_below (n : positive) (k : Z) :
  0 <= k -> Z.pos n < 2 ^ k -> Z.pos (digits2_pos n) <= k.
Proof.
  intros Hk Hn. pose proof (digits2_pos_bounds n) as [Hlo _].
  destruct (Z.le_gt_cases (Z.pos (digits2_pos n)) k) as [|Hgt]; [assumption|].
  assert (2 ^ k <= 2 ^ (Z.pos (digits2_pos n) - 1)) by (apply Z.pow_le_mono_r; lia).
  lia.
Qed.

(** [float64(p) * 100] is exact as long as the product is below 2^53. *)
Lemma mul_100_exact (p : positive) :
  Z.pos p * 100 < 2 ^ 53 ->
  mul (float64_of_int (Z.pos p)) (float64_of_int 100) = float64_of_int (Z.pos (p * 100)).
Proof.
  intros Hp.
  destruct (float64_of_int_pos p ltac:(lia)) as [m1 [E1 [D1 V1]]].
  destruct (float64_of_int_pos (p * 100) ltac:(lia)) as [m3 [E3 [D3 V3]]].
  assert (E2 : float64_of_int 100 = S754_finite false 7036874417766400 (-46))
    by (vm_compute; reflexivity).
  rewrite E1, E2, E3. unfold mul, SFmul, prec, emax. cbn [xorb].
  set (dp := Z.pos (digits2_pos p)) in *.
  set (da := Z.pos (digits2_pos (p * 100))) in *.
  assert (Hdp : 1 <= dp) by (unfold dp; lia).
  assert (Hda : dp <= da <= 53).
  { split; [apply digits_monotone; lia | apply digits_below; lia]. }
  rewrite (binary_round_aux_exact m3 (m1 * 7036874417766400) (46 + da - dp)); [| exact D3 | lia | | lia].
  - f_equal. lia.
  - rewrite Pos2Z.inj_mul, V1, V3, Pos2Z.inj_mul.
    change (Z.pos 7036874417766400) with (100 * 2 ^ 46).
    replace (Z.pos p * 100 * 2 ^ (53 - da) * 2 ^ (46 + da - dp))
      with (Z.pos p * 100 * (2 ^ (53 - da) * 2 ^ (46 + da - dp))) by lia.
    rewrite <- Z.pow_add_r by lia.
    replace (Z.pos p * 2 ^ (53 - dp) * (100 * 2 ^ 46))
      with (Z.pos p * 100 * (2 ^ (53 - dp) * 2 ^ 46)) by lia.
    rewrite <- Z.pow_add_r by lia.
    do 2 f_equal. lia.
Qed.

Lemma floorValue_halve (k e : Z) : floorValue (2 * k) e = floorValue k (e + 1).
Proof.
  unfold floorValue.
  destruct (Z.leb_spec 0 e) as [He|He]; destruct (Z.leb_spec 0 (e + 1)) as [He1|He1]; try lia.
  - rewrite Z.pow_add_r, Z.pow_1_r by lia. lia.
  - assert (e = -1) by lia. subst e.
    change (2 ^ (- -1)) with 2. change (2 ^ (-1 + 1)) with 1.
    rewrite Z.mul_1_r, Z.mul_comm. apply Z.div_mul. lia.
  - replace (- e) with (1 + - (e + 1)) by lia.
    rewrite Z.pow_add_r, Z.pow_1_r by lia.
    rewrite Z.div_mul_cancel_l; [reflexivity | | lia].
    apply Z.pow_nonzero; lia.
Qed.

Lemma loc_of_record_of_loc (m : Z) (l : location) :
  loc_of_shr_record (shr_record_of_loc m l) = l.
Proof. destruct l as [|[| |]]; reflexivity. Qed.

(** The rounding of a quotient of 53 or 54 digits: the mantissa is kept,
    or halved, and then possibly incremented, and only on a remainder of
    at least half a unit. *)
Lemma binary_round_aux_quotient (q : positive) (e' : Z) (loc : location) :
  2 ^ 52 <= Z.pos q < 2 ^ 54 -> -1074 <= e' <= 900 ->
  exists m e'' m1 v,
    binary_round_aux 53 1024 false (Z.pos q) e' loc = S754_finite false m e'' /\
    floorValue (Z.pos m) e'' = floorValue m1 v /\
    ((Z.pos q < 2 ^ 53 /\ v = e' /\
      (m1 = Z.pos q \/
       (m1 = Z.pos q + 1 /\ (loc = loc_Inexact Eq \/ loc = loc_Inexact Gt)))) \/
     (2 ^ 53 <= Z.pos q /\ v = e' + 1 /\
      (m1 = Z.pos q / 2 \/ (m1 = Z.pos q / 2 + 1 /\ Z.odd (Z.pos q) = true)))).
Proof.
  intros Hq He.
  (* the second shift and the final packing, for a mantissa in [2^52, 2^53] *)
  assert (Hpack : forall m1 v, 2 ^ 52 <= m1 <= 2 ^ 53 -> -1074 <= v <= 901 ->
            exists m e'',
              (let '(mrs'', e2) := shr_fexp 53 1024 m1 v loc_Exact in
               match shr_m mrs'' with
               | Z0 => S754_zero false
               | Zpos m => if e2 <=? 1024 - 53 then S754_finite false m e2
                           else S754_infinity false
               | Zneg _ => S754_nan
               end) = S754_finite false m e'' /\
              floorValue (Z.pos m) e'' = floorValue m1 v).
  { intros m1 v Hm1 Hv. destruct m1 as [|m1|m1]; try lia.
    destruct (Z.eq_dec (Z.pos m1) (2 ^ 53)) as [Htop|Hnot].
    - exists (4503599627370496%positive), (v + 1).
      injection Htop as ->. unfold shr_fexp. cbn [Zdigits2 shr_record_of_loc].
      change (Z.pos (digits2_pos 9007199254740992)) with 54.
      rewrite fexp_normal by lia. replace (54 + v - 53 - v) with 1 by lia.
      cbn [shr iter_pos shr_1 shr_m orb].
      destruct (Z.leb_spec (v + 1) (1024 - 53)); [|lia].
      split; [reflexivity|].
      change (Z.pos 9007199254740992) with (2 * Z.pos 4503599627370496).
      now rewrite floorValue_halve.
    - exists m1, v. unfold shr_fexp. cbn [Zdigits2 shr_record_of_loc].
      rewrite (digits2_pos_unique m1 53) by (change (53 - 1) with 52; lia).
      rewrite fexp_normal by lia. replace (53 + v - 53 - v) with 0 by lia.
      cbn [shr shr_m].
      destruct (Z.leb_spec v (1024 - 53)); [|lia]. now split. }
  unfold binary_round_aux.
  destruct (Z.lt_ge_cases (Z.pos q) (2 ^ 53)) as [Hsmall|Hbig].
  - (* 53 digits: no shift *)
    unfold shr_fexp at 1. cbn [Zdigits2].
    rewrite (digits2_pos_unique q 53) by (change (53 - 1) with 52; lia).
    rewrite fexp_normal by lia. replace (53 + e' - 53 - e') with 0 by lia.
    cbn [shr]. rewrite loc_of_record_of_loc.
    assert (Hm : shr_m (shr_record_of_loc (Z.pos q) loc) = Z.pos q)
      by (destruct loc as [|[| |]]; reflexivity).
    rewrite Hm.
    set (m1 := round_nearest_even (Z.pos q) loc).
    assert (Hm1 : m1 = Z.pos q \/
                  (m1 = Z.pos q + 1 /\ (loc = loc_Inexact Eq \/ loc = loc_Inexact Gt))).
    { unfold m1, round_nearest_even. destruct loc as [|[| |]]; auto.
      destruct (Z.even (Z.pos q)); auto. }
    destruct (Hpack m1 e' ltac:(lia) ltac:(lia)) as [m [e'' [Hfin Hval]]].
    exists m, e'', m1, e'. split; [exact Hfin|]. split; [exact Hval|]. left. auto.
  - (* 54 digits: one shift *)
    unfold shr_fexp at 1. cbn [Zdigits2].
    rewrite (digits2_pos_unique q 54) by (change (54 - 1) with 53; lia).
    rewrite fexp_normal by lia. replace (54 + e' - 53 - e') with 1 by lia.
    cbn [shr iter_pos].
    set (mrs := shr_1 (shr_record_of_loc (Z.pos q) loc)).
    set (m1 := round_nearest_even (shr_m mrs) (loc_of_shr_record mrs)).
    assert (Hm1 : m1 = Z.pos q / 2 \/ (m1 = Z.pos q / 2 + 1 /\ Z.odd (Z.pos q) = true)).
    { unfold m1, mrs. destruct q as [q'|q'|]; [| |lia].
      - assert (Hh : Z.pos q'~1 / 2 = Z.pos q')
          by (symmetry; apply (Z.div_unique _ 2 _ 1); lia).
        rewrite Hh.
        destruct loc as [|[| |]]; cbn [shr_record_of_loc shr_1 shr_m loc_of_shr_record
                                       round_nearest_even orb];
          try destruct (Z.even (Z.pos q')); auto.
      - assert (Hh : Z.pos q'~0 / 2 = Z.pos q')
          by (symmetry; apply (Z.div_unique _ 2 _ 0); lia).
        rewrite Hh.
        destruct loc as [|[| |]]; cbn [shr_record_of_loc shr_1 shr_m loc_of_shr_record
                                       round_nearest_even orb]; auto. }
    assert (Hhalf : 2 ^ 52 <= Z.pos q / 2 < 2 ^ 53).
    { change (2 ^ 54) with (2 * 2 ^ 53) in Hq. change (2 ^ 53) with (2 * 2 ^ 52) in Hbig.
      split; [apply Z.div_le_lower_bound; lia | apply Z.div_lt_upper_bound; lia]. }
    destruct (Hpack m1 (e' + 1) ltac:(lia) ltac:(lia)) as [m [e'' [Hfin Hval]]].
    exists m, e'', m1, (e' + 1). split; [exact Hfin|]. split; [exact Hval|]. right. auto.
Qed.

Lemma new_location_half (d r : Z) :
  new_location d r = loc_Inexact Eq \/ new_location d r = loc_Inexact Gt -> d <= 2 * r.
Proof.
  unfold new_location, new_location_even, new_location_odd.
  destruct (Z.even d); destruct (Z.eqb r 0).
  - intros [H|H]; discriminate.
  - destruct (Z.compare_spec (2 * r) d); intros [E|E]; try discriminate; lia.
  - intros [H|H]; discriminate.
  - destruct (Z.compare_spec (2 * r + 1) d); intros [E|E]; try discriminate; lia.
Qed.

(** The division of two normal floats is the rounding of the quotient of
    the mantissas, the dividend shifted by 53 bits. *)
Lemma div_normal (mx my : positive) (ex ey : Z) :
  Z.pos (digits2_pos mx) = 53 -> Z.pos (digits2_pos my) = 53 ->
  -60 <= ex <= 60 -> -60 <= ey <= 60 ->
  div (S754_finite false mx ex) (S754_finite false my ey) =
  binary_round_aux 53 1024 false
    (Z.pos mx * 2 ^ 53 / Z.pos my) (ex - ey - 53)
    (new_location (Z.pos my) ((Z.pos mx * 2 ^ 53) mod Z.pos my)).
Proof.
  intros Hx Hy Hex Hey. unfold div, SFdiv, SFdiv_core_binary, prec, emax.
  cbn [Zdigits2 xorb]. rewrite Hx, Hy.
  rewrite fexp_normal by lia.
  replace (Z.min (53 + ex - (53 + ey) - 53) (ex - ey)) with (ex - ey - 53) by lia.
  replace (ex - ey - (ex - ey - 53)) with 53 by lia.
  rewrite Z.shiftl_mul_pow2 by lia.
  unfold Z.div, Z.modulo.
  now destruct (Z.div_eucl (Z.pos mx * 2 ^ 53) (Z.pos my)) as [q r].
Qed.

(** The percentage computed in binary64 is the integer floor. *)
Lemma percentageOf_floor (p t : Z) :
  0 < p -> 0 < t < 2 ^ 53 -> p * 100 < 2 ^ 52 ->
  percentageOf p t = p * 100 / t.
Proof.
  intros Hp Ht Ha. destruct p as [|p|p]; try lia. destruct t as [|t|t]; try lia.
  unfold percentageOf. rewrite mul_100_exact by lia.
  destruct (float64_of_int_pos (p * 100) ltac:(lia)) as [mx [Ex [Dx Vx]]].
  destruct (float64_of_int_pos t ltac:(lia)) as [my [Ey [Dy Vy]]].
  rewrite Ex, Ey.
  set (da := Z.pos (digits2_pos (p * 100))) in *.
  set (dt := Z.pos (digits2_pos t)) in *.
  assert (Hda : 1 <= da <= 52) by (split; [unfold da; lia | apply digits_below; lia]).
  assert (Hdt : 1 <= dt <= 53) by (split; [unfold dt; lia | apply digits_below; lia]).
  rewrite div_normal by (assumption || lia).
  set (A := Z.pos (p * 100)) in *. set (T := Z.pos t) in *.
  set (u := 53 + dt - da).
  set (c := 2 ^ (53 - dt)) in *.
  assert (Hc : 0 < c) by (apply Z.pow_pos_nonneg; lia).
  assert (HY : Z.pos mx * 2 ^ 53 = A * 2 ^ u * c).
  { rewrite Vx. unfold c, u.
    rewrite <- !Z.mul_assoc, <- !Z.pow_add_r by lia. do 2 f_equal. lia. }
  rewrite HY, Vy.
  rewrite Z.div_mul_cancel_r by lia.
  rewrite Z.mul_mod_distr_r by lia.
  set (Y := A * 2 ^ u) in *.
  pose proof (digits2_pos_bounds mx) as Bx. rewrite Dx in Bx. change (53 - 1) with 52 in Bx.
  pose proof (digits2_pos_bounds my) as By. rewrite Dy in By. change (53 - 1) with 52 in By.
  assert (Hq : 2 ^ 52 <= Y / T < 2 ^ 54).
  { rewrite <- (Z.div_mul_cancel_r Y T c) by lia. rewrite <- HY, <- Vy.
    split.
    - apply Z.div_le_lower_bound; [lia|].
      change (2 ^ 53) with (2 * 2 ^ 52). nia.
    - apply Z.div_lt_upper_bound; [lia|].
      change (2 ^ 54) with (2 * 2 ^ 53). change (2 ^ 53) with (2 * 2 ^ 52) at 1. nia. }
  destruct (Y / T) as [|q|q] eqn:HQ; try lia.
  destruct (binary_round_aux_quotient q (da - 53 - (dt - 53) - 53)
              (new_location (T * c) (Y mod T * c)) Hq ltac:(lia))
    as [m [e'' [m1 [v [Hfin [Hval Hcases]]]]]].
  rewrite Hfin. unfold int_of_float64.
  fold (floorValue (Z.pos m) e''). rewrite Hval.
  assert (HT : T < 2 ^ dt) by (unfold T, dt; apply digits2_pos_bounds).
  assert (Hres : floorValue m1 v = A / T).
  { destruct Hcases as [[Hsmall [-> Hm1]]|[Hbig [-> Hm1]]].
    - unfold floorValue.
      destruct (Z.leb_spec 0 (da - 53 - (dt - 53) - 53)); [lia|].
      replace (- (da - 53 - (dt - 53) - 53)) with u by (unfold u; lia).
      apply floor_of_rounded; try lia.
      + assert (2 ^ dt <= 2 ^ (u + 1)) by (apply Z.pow_le_mono_r; unfold u; lia). lia.
      + fold Y. rewrite HQ. destruct Hm1 as [->|[-> Hloc]]; [now left|]. right.
        split; [reflexivity|]. apply new_location_half in Hloc. nia.
    - unfold floorValue.
      destruct (Z.leb_spec 0 (da - 53 - (dt - 53) - 53 + 1)); [lia|].
      replace (- (da - 53 - (dt - 53) - 53 + 1)) with (u - 1) by (unfold u; lia).
      assert (HY' : Y = A * 2 ^ (u - 1) * 2).
      { unfold Y. replace u with ((u - 1) + 1) at 1 by lia.
        rewrite Z.pow_add_r, Z.pow_1_r by (unfold u; lia). lia. }
      set (Y' := A * 2 ^ (u - 1)) in *.
      assert (Hhalf : Z.pos q / 2 = Y' / T).
      { rewrite <- HQ, HY', Z.div_div by lia.
        rewrite Z.div_mul_cancel_r by lia. reflexivity. }
      apply floor_of_rounded; try (unfold u; lia).
      + assert (2 ^ dt <= 2 ^ (u - 1 + 1)) by (apply Z.pow_le_mono_r; unfold u; lia). lia.
      + fold Y'. rewrite <- Hhalf. destruct Hm1 as [->|[-> Hodd]]; [now left|]. right.
        split; [reflexivity|].
        pose proof (Z.div_mod Y' T ltac:(lia)) as HdY'.
        pose proof (Z.mod_pos_bound Y' T ltac:(lia)) as HrY'.
        pose proof (Z.div_mod Y T ltac:(lia)) as HdY.
        pose proof (Z.mod_pos_bound Y T ltac:(lia)) as HrY.
        rewrite HQ in HdY. rewrite <- Hhalf in HdY'.
        rewrite Z.odd_spec in Hodd. destruct Hodd as [k Hk].
        assert (Hk2 : Z.pos q / 2 = k)
          by (rewrite Hk; symmetry; apply (Z.div_unique _ 2 k 1); lia).
        rewrite Hk2 in HdY'. nia. }
  rewrite Hres.
  assert (H0 : 0 <= A / T) by (apply Z.div_pos; lia).
  assert (H1 : A / T <= A) by (apply Z.div_le_upper_bound; nia).
  unfold minInt64.
  destruct (Z.leb_spec (- 2 ^ 63) (A / T)); [|lia].
  destruct (Z.ltb_spec (A / T) (2 ^ 63)); [reflexivity|].
  change (2 ^ 52) with 4503599627370496 in Ha. change (2 ^ 63) with 9223372036854775808 in *. lia.
Qed.

(** One call of the callback: it counts the entry, and draws the new
    percentage only if it is above the last one drawn. *)
Lemma progressCb_step (totalItems : Z) (b : Bar) :
  let pct := percentageOf (processedItems b + 1) totalItems in
  processedItems (progressCb totalItems b) = processedItems b + 1 /\
  (0 < totalItems /\ lastUpdate b < pct ->
   drawn (progressCb totalItems b) = drawn b ++ [pct] /\
   lastUpdate (progressCb totalItems b) = pct) /\
  (~ (0 < totalItems /\ lastUpdate b < pct) ->
   drawn (progressCb totalItems b) = drawn b /\
   lastUpdate (progressCb totalItems b) = lastUpdate b).
Proof.
  intros pct. unfold progressCb. fold pct.
  destruct (Z.gtb_spec totalItems 0) as [Ht|Ht];
    [destruct (Z.gtb_spec pct (lastUpdate b)) as [Hp|Hp]|];
    cbn [processedItems drawn lastUpdate]; repeat split; try reflexivity; intros; lia.
Qed.

Lemma after_processed (totalItems : Z) (n : nat) :
  processedItems (after totalItems n) = Z.of_nat n.
Proof.
  induction n as [|n IH]; [reflexivity|].
  cbn [after]. destruct (progressCb_step totalItems (after totalItems n)) as [Hp _].
  rewrite Hp, IH. lia.
Qed.

(** What has been drawn is increasing, is bounded by [lastUpdate], and is
    made of percentages of entry counts met so far. *)
Lemma after_invariant (totalItems : Z) (n : nat) :
  StronglySorted Z.lt (drawn (after totalItems n)) /\
  -1 <= lastUpdate (after totalItems n) /\
  (forall d, In d (drawn (after totalItems n)) ->
             d <= lastUpdate (after totalItems n) /\
             exists k, (1 <= k <= n)%nat /\ d = percentageOf (Z.of_nat k) totalItems).
Proof.
  induction n as [|n [Hsorted [Hlast Hin]]].
  - cbn. repeat split; [constructor | lia | contradiction | contradiction].
  - cbn [after].
    destruct (progressCb_step totalItems (after totalItems n)) as [_ [Hup Hsame]].
    rewrite after_processed in Hup, Hsame.
    replace (Z.of_nat n + 1) with (Z.of_nat (S n)) in Hup, Hsame by lia.
    set (pct := percentageOf (Z.of_nat (S n)) totalItems) in *.
    destruct (Z_lt_dec 0 totalItems) as [Ht|Ht];
      [destruct (Z_lt_dec (lastUpdate (after totalItems n)) pct) as [Hp|Hp]|].
    + destruct (Hup (conj Ht Hp)) as [-> ->]. split; [|split; [lia|]].
      * clear - Hsorted Hin Hp. induction Hsorted as [|x l Hl IH Hx]; cbn.
        -- repeat constructor.
        -- constructor.
           ++ apply IH. intros d Hd. apply Hin. now right.
           ++ apply Forall_app. split; [exact Hx|]. constructor; [|constructor].
              destruct (Hin x (or_introl eq_refl)) as [Hle _]. lia.
      * intros d Hd. apply in_app_or in Hd as [Hd|[<-|[]]].
        -- destruct (Hin d Hd) as [Hle [k [Hk ->]]]. split; [lia|]. exists k. split; [lia|reflexivity].
        -- split; [lia|]. exists (S n). split; [lia|reflexivity].
    + destruct (Hsame ltac:(tauto)) as [-> ->]. split; [exact Hsorted|]. split; [exact Hlast|].
      intros d Hd. destruct (Hin d Hd) as [Hle [k [Hk ->]]]. split; [lia|].
      exists k. split; [lia|reflexivity].
    + destruct (Hsame ltac:(tauto)) as [-> ->]. split; [exact Hsorted|]. split; [exact Hlast|].
      intros d Hd. destruct (Hin d Hd) as [Hle [k [Hk ->]]]. split; [lia|].
      exists k. split; [lia|reflexivity].
Qed.

Lemma sorted_lt_NoDup (l : list Z) : StronglySorted Z.lt l -> NoDup l.
Proof.
  induction 1 as [|x l Hl IH Hx]; constructor; [|exact IH].
  intros Hin. rewrite Forall_forall in Hx. specialize (Hx x Hin). lia.
Qed.

(** With no more entries processed than counted, a percentage lies
    between 0 and 100. *)
Lemma percentageOf_range (k totalItems : Z) :
  0 < k <= totalItems -> totalItems < 2 ^ 53 -> k * 100 < 2 ^ 52 ->
  0 <= percentageOf k totalItems <= 100.
Proof.
  intros Hk Ht Ha. rewrite percentageOf_floor by lia. split.
  - apply Z.div_pos; lia.
  - apply Z.div_le_upper_bound; lia.
Qed.

(** C8. After each created entry the callback computes
    [int(float64(processed) * 100 / float64(total))], which is the integer
    [floor(processed * 100 / total)] (for counts whose hundredfold is below
    2^52), and draws the bar only when this percentage is strictly above
    the last one drawn.  So the percentages drawn are strictly increasing:
    the display never regresses and never shows a value twice; every one
    of them is the percentage of some count of entries; there are no more
    redraws than distinct percentage values, and at most 101 of them
    however many entries there are. *)
Theorem progress_redraws_are_monotonic (totalItems : Z) (n : nat) :
  let bar := after totalItems n in
  let pct := percentageOf (Z.of_nat n + 1) totalItems in
  processedItems bar = Z.of_nat n /\
  (0 < totalItems /\ lastUpdate bar < pct ->
   drawn (progressCb totalItems bar) = drawn bar ++ [pct] /\
   lastUpdate (progressCb totalItems bar) = pct) /\
  (~ (0 < totalItems /\ lastUpdate bar < pct) ->
   drawn (progressCb totalItems bar) = drawn bar /\
   lastUpdate (progressCb totalItems bar) = lastUpdate bar) /\
  StronglySorted Z.lt (drawn bar) /\
  (forall d, In d (drawn bar) -> d <= lastUpdate bar) /\
  (List.length (drawn bar) <=
   List.length (nodup Z.eq_dec
                  (map (fun k => percentageOf (Z.of_nat k) totalItems) (seq 1 n))))%nat /\
  (0 < totalItems < 2 ^ 53 -> (Z.of_nat n + 1) * 100 < 2 ^ 52 ->
   pct = (Z.of_nat n + 1) * 100 / totalItems) /\
  (totalItems < 2 ^ 53 -> Z.of_nat n * 100 < 2 ^ 52 -> Z.of_nat n <= totalItems ->
   (List.length (drawn bar) <= 101)%nat).
Proof.
  intros bar pct.
  destruct (progressCb_step totalItems bar) as [_ [Hup Hsame]].
  destruct (after_invariant totalItems n) as [Hsorted [_ Hin]].
  fold bar in Hsorted, Hin.
  pose proof (after_processed totalItems n) as Hproc. fold bar in Hproc.
  rewrite Hproc in Hup, Hsame. fold pct in Hup, Hsame.
  split; [exact Hproc|]. split; [exact Hup|]. split; [exact Hsame|].
  split; [exact Hsorted|]. split; [intros d Hd; now apply Hin|]. split; [|split].
  - apply NoDup_incl_length; [now apply sorted_lt_NoDup|].
    intros d Hd. apply nodup_In. destruct (Hin d Hd) as [_ [k [Hk ->]]].
    apply in_map_iff. exists k. split; [reflexivity|]. apply in_seq. lia.
  - intros Ht Ha. unfold pct. apply percentageOf_floor; lia.
  - intros Ht Ha Hn.
    change 101%nat with (List.length (map Z.of_nat (seq 0 101))).
    apply NoDup_incl_length; [now apply sorted_lt_NoDup|].
    intros d Hd. destruct (Hin d Hd) as [_ [k [Hk ->]]].
    assert (Hr : 0 <= percentageOf (Z.of_nat k) totalItems <= 100)
      by (apply percentageOf_range; lia).
    apply in_map_iff. exists (Z.to_nat (percentageOf (Z.of_nat k) totalItems)).
    split; [lia|]. apply in_seq. lia.
Qed.

Lemma progress_redraws_are_monotonic_witness :
  (drawn (progressCb 1000 (after 1000 9)) = drawn (after 1000 9) ++ [percentageOf 10 1000] /\
   lastUpdate (progressCb 1000 (after 1000 9)) = percentageOf 10 1000) /\
  (drawn (progressCb 1000 (after 1000 10)) = drawn (after 1000 10) /\
   lastUpdate (progressCb 1000 (after 1000 10)) = lastUpdate (after 1000 10)) /\
  percentageOf (Z.of_nat 10 + 1) 1000 = (Z.of_nat 10 + 1) * 100 / 1000 /\
  (List.length (drawn (after 7 7)) <= 101)%nat.
Proof.
  split; [|split; [|split]].
  - apply (proj1 (proj2 (progress_redraws_are_monotonic 1000 9))).
    vm_compute. split; reflexivity.
  - apply (proj1 (proj2 (proj2 (progress_redraws_are_monotonic 1000 10)))).
    vm_compute. intros [_ H]. discriminate H.
  - apply (proj1 (proj2 (proj2 (proj2 (proj2 (proj2 (proj2
             (progress_redraws_are_monotonic 1000 10)))))))).
    + vm_compute. split; reflexivity.
    + vm_compute. reflexivity.
  - apply (proj2 (proj2 (proj2 (proj2 (proj2 (proj2 (proj2
             (progress_redraws_are_monotonic 7 7)))))))).
    + vm_compute. reflexivity.
    + vm_compute. reflexivity.
    + vm_compute. discriminate.
Defined.

End ProgressFacts.

Module ValidateFacts.
Import GoStrings Strconv Config Vocabulary StringFacts ConfigFacts FilepathUnix SizeSyntax.

Lemma Base_not_empty (path : string) : Base path <> "".
Proof.
  unfold Base. destruct (String.eqb path ""); [discriminate|].
  match goal with |- context [String.eqb ?p ""] => destruct (String.eqb_spec p "") end;
    [discriminate | assumption].
Qed.

Lemma ContainsByte_get (s : string) (b : ascii) :
  (forall j c, String.get j s = Some c -> Ascii.eqb c b = false) ->
  ContainsByte s b = false.
Proof.
  induction s as [|c s IH]; intros H; [reflexivity|].
  cbn [ContainsByte]. rewrite (H 0%nat c eq_refl). cbn [orb].
  apply IH. intros j d Hj. apply (H (S j) d). exact Hj.
Qed.

Lemma lastElementAt_le (path : string) (n : nat) : (lastElementAt path n <= n)%nat.
Proof.
  induction n as [|i IH]; [apply le_n|]. cbn [lastElementAt].
  destruct (String.get i path) as [c|]; [|apply le_n].
  destruct (IsPathSeparator c); [apply le_n | now apply Nat.le_le_succ_r].
Qed.

(** From where the scan for the last separator stops to where it starts,
    no byte is a separator. *)
Lemma lastElementAt_spec (path : string) (n : nat) :
  forall j c, (lastElementAt path n <= j < n)%nat -> String.get j path = Some c ->
              IsPathSeparator c = false.
Proof.
  induction n as [|i IH]; intros j c Hj Hget; [lia|].
  cbn [lastElementAt] in Hj.
  destruct (String.get i path) as [d|] eqn:Hd; [|lia].
  destruct (IsPathSeparator d) eqn:Hsep; [lia|].
  destruct (Nat.eq_dec j i) as [->|Hne].
  - rewrite Hd in Hget. now injection Hget as <-.
  - apply (IH j c); [lia | exact Hget].
Qed.

(** The last element has no separator in it, unless it is the root. *)
Lemma Base_single_element (path : string) :
  Base path = "/" \/ ContainsByte (Base path) "/" = false.
Proof.
  unfold Base. destruct (String.eqb path ""); [now right|].
  set (q := takeBytes _ path).
  destruct (String.eqb_spec (dropBytes (lastElementAt q (String.length q)) q) "");
    [now left|]. right.
  apply ContainsByte_get. intros j c Hget. unfold dropBytes in Hget.
  pose proof (lastElementAt_le q (String.length q)) as Hle.
  destruct (Nat.lt_ge_cases j (String.length q - lastElementAt q (String.length q)))
    as [Hlt|Hge].
  - rewrite substring_correct1 in Hget by exact Hlt.
    apply (lastElementAt_spec q (String.length q) _ c) in Hget; [exact Hget|].
    split; [lia|]. lia.
  - rewrite substring_correct2 in Hget by exact Hge. discriminate.
Qed.

(** X4. the default destination, with [filepath.Base] as it is on a Unix
    system.  After a successful validation every item has a destination:
    an item that came with one keeps it, an item that came without gets
    the last element of its source path, which is a single name (or the
    root "/"); sources and patterns are untouched, and so are the number
    and the order of the items. *)
Theorem validate_fills_destinations (c c' : Config) :
  validate Base c = (c', None) ->
  BkpDestDir c' = BkpDestDir c /\
  Forall2 (fun it it' =>
             Source it' = Source it /\ Include it' = Include it /\
             Exclude it' = Exclude it /\
             Destination it' <> "" /\
             (Destination it <> "" -> Destination it' = Destination it) /\
             (Destination it = "" ->
              Destination it' = Base (Source it) /\
              (Destination it' = "/" \/ ContainsByte (Destination it') "/" = false)))
          (BkpItems c) (BkpItems c').
Proof.
  unfold validate. cbn [Retention MinFreeSpace BkpItems BkpDestDir].
  destruct (negb _); [discriminate|].
  destruct (parseDiskSize _) as [e|parsed]; [discriminate|].
  intros H. injection H as <-. cbn [BkpItems BkpDestDir]. split; [reflexivity|].
  induction (BkpItems c) as [|it items IH]; cbn [map]; constructor; [|exact IH].
  unfold defaultDestination.
  destruct (String.eqb_spec (Destination it) "") as [Hd|Hd];
    cbn [Source Destination Include Exclude].
  - split; [reflexivity|]. split; [reflexivity|]. split; [reflexivity|].
    split; [apply Base_not_empty|]. split; [intros Hne; contradiction|].
    intros _. split; [reflexivity | apply Base_single_element].
  - split; [reflexivity|]. split; [reflexivity|]. split; [reflexivity|].
    split; [exact Hd|]. split; [reflexivity | intros He; contradiction].
Qed.

Lemma validate_fills_destinations_witness :
  let c := mkConfig "smbkp" (mkRetention 3 "10gb" 0)
             [mkBackupItem "/home/u/docs/" "" ["*.pdf"] [];
              mkBackupItem "/home/u/music" "tunes" [] ["*.tmp"]] in
  let c' := mkConfig "smbkp" (mkRetention 3 "10gb" 10737418240)
             [mkBackupItem "/home/u/docs/" "docs" ["*.pdf"] [];
              mkBackupItem "/home/u/music" "tunes" [] ["*.tmp"]] in
  BkpDestDir c' = BkpDestDir c /\
  Forall2 (fun it it' =>
             Source it' = Source it /\ Include it' = Include it /\
             Exclude it' = Exclude it /\
             Destination it' <> "" /\
             (Destination it <> "" -> Destination it' = Destination it) /\
             (Destination it = "" ->
              Destination it' = Base (Source it) /\
              (Destination it' = "/" \/ ContainsByte (Destination it') "/" = false)))
          (BkpItems c) (BkpItems c').
Proof.
  intros c c'. apply (validate_fills_destinations c c'). vm_compute. reflexivity.
Defined.

(** *** Which sizes validate accepts *)

Lemma dropDigits_decompose (s : string) :
  exists ds, s = ds ++ dropDigits s /\ allDigits ds = true.
Proof.
  induction s as [|c s [ds [Hs Hd]]]; [now exists ""|].
  cbn [dropDigits]. destruct (isDigit c) eqn:Hc.
  - exists (String c ds). cbn. now rewrite Hc, Hd, <- Hs.
  - now exists "".
Qed.

Lemma dropDigits_app (ds rest : string) :
  allDigits ds = true -> dropDigits (ds ++ rest) = dropDigits rest.
Proof.
  induction ds as [|c ds IH]; [reflexivity|]. cbn. intros H.
  apply andb_prop in H as [Hc Hd]. rewrite Hc. now apply IH.
Qed.

(** The regular expression [^\d+(mb|gb)$]. *)
Lemma MinFreeSpacePattern_spec (t : string) :
  MinFreeSpacePattern_MatchString t = true <->
  exists ds, ds <> "" /\ allDigits ds = true /\ (t = ds ++ "mb" \/ t = ds ++ "gb").
Proof.
  unfold MinFreeSpacePattern_MatchString. split.
  - intros H. apply andb_prop in H as [Hlen Hunit].
    destruct (dropDigits_decompose t) as [ds [Ht Hd]].
    exists ds. split; [|split; [exact Hd|]].
    + intros ->. cbn in Ht. rewrite <- Ht in Hlen.
      apply Nat.ltb_lt in Hlen. lia.
    + apply orb_prop in Hunit as [Hu|Hu]; apply String.eqb_eq in Hu;
        rewrite Hu in Ht; auto.
  - intros [ds [Hne [Hd [-> | ->]]]]; rewrite (dropDigits_app ds _ Hd);
      cbn [dropDigits isDigit]; rewrite length_append;
      (apply andb_true_intro; split; [|reflexivity]);
      apply Nat.ltb_lt; destruct ds; [contradiction | cbn; lia | contradiction | cbn; lia].
Qed.

Lemma lowerByte_digit (c : ascii) : isDigit (lowerByte c) = true -> lowerByte c = c.
Proof.
  unfold lowerByte, isUpper.
  destruct (Z.leb_spec 65 (byte c)) as [Hlo|Hlo]; [|reflexivity].
  destruct (Z.leb_spec (byte c) 90) as [Hhi|Hhi]; [|reflexivity].
  cbn [andb]. intros H. apply isDigit_spec in H. rewrite byte_chr in H by lia. lia.
Qed.

Lemma ToLower_digits_inv (x ds : string) :
  ToLower x = ds -> allDigits ds = true -> x = ds.
Proof.
  revert ds. induction x as [|c x IH]; intros ds H Hd; [exact H|].
  cbn in H. subst ds. cbn in Hd. apply andb_prop in Hd as [Hc Hd].
  rewrite (lowerByte_digit c Hc). f_equal. now apply IH.
Qed.

Lemma noSpace_ToLower (s : string) : noSpace (ToLower s) = noSpace s.
Proof.
  induction s as [|c s IH]; [reflexivity|]. cbn. now rewrite asciiSpace_lowerByte, IH.
Qed.

(** A size as the pattern wants it is lower-cased to its digits and its
    unit, and has no white space. *)
Lemma writesSize_normal (s : string) (n mult : Z) :
  writesSize s n mult ->
  exists ds unit,
    ToLower (TrimSpace s) = ds ++ unit /\ ds <> "" /\ allDigits ds = true /\
    decimalValue ds = n /\
    ((unit = "mb" /\ mult = MB) \/ (unit = "gb" /\ mult = GB)).
Proof.
  intros [ds [u [-> [Hne [Hd [Hn Hu]]]]]].
  assert (Hsp : noSpace u = true).
  { rewrite <- noSpace_ToLower. destruct Hu as [[-> _]|[-> _]]; reflexivity. }
  rewrite TrimSpace_noSpace
    by (rewrite noSpace_app, (allDigits_noSpace ds Hd), Hsp; reflexivity).
  rewrite ToLower_app, (ToLower_digits ds Hd).
  exists ds, (ToLower u). split; [reflexivity|]. split; [exact Hne|].
  split; [exact Hd|]. split; [exact Hn|].
  destruct Hu as [[-> ->]|[-> ->]]; auto.
Qed.

(** The pattern accepts exactly the strings that write a size. *)
Lemma pattern_accepts (s : string) :
  MinFreeSpacePattern_MatchString (ToLower s) = true <-> exists n mult, writesSize s n mult.
Proof.
  rewrite MinFreeSpacePattern_spec. split.
  - intros [ds [Hne [Hd Hs]]].
    assert (Hsplit : exists unit, ToLower s = ds ++ unit /\ (unit = "mb" \/ unit = "gb"))
      by (destruct Hs; eauto).
    destruct Hsplit as [unit [Hl Hunit]].
    destruct (ToLower_split ds unit s Hl) as [x [u [-> [Hx Hu]]]].
    apply ToLower_digits_inv in Hx; [subst x | exact Hd].
    exists (decimalValue ds), (if String.eqb unit "mb" then MB else GB), ds, u.
    repeat split; try assumption.
    destruct Hunit as [-> | ->]; [left | right]; now split.
  - intros [n [mult [ds [u [-> [Hne [Hd [_ Hu]]]]]]]].
    exists ds. split; [exact Hne|]. split; [exact Hd|].
    rewrite ToLower_app, (ToLower_digits ds Hd).
    destruct Hu as [[-> _]|[-> _]]; auto.
Qed.

(** Past the largest uint64 the digit loop of ParseUint reports a range
    error. *)
Lemma parseUintLoop_overflow (s : string) :
  forall n, allDigits s = true -> 0 <= n < 2 ^ 64 -> 2 ^ 64 <= decimalFrom n s ->
            parseUintLoop s n = inl ErrRange.
Proof.
  induction s as [|c s IH]; cbn [parseUintLoop decimalFrom allDigits]; intros n H Hn Hbig;
    [lia|].
  apply andb_prop in H as [Hc Hs]. rewrite Hc.
  pose proof (proj1 (isDigit_spec c) Hc) as Hd.
  unfold maxUint64.
  change (2 ^ 64) with 18446744073709551616 in *.
  change ((18446744073709551616 - 1) / 10 + 1) with 1844674407370955162.
  destruct (Z.geb_spec n 1844674407370955162) as [Hcut|Hsmall]; [reflexivity|].
  destruct (Z.lt_ge_cases (n * 10 + (byte c - 48)) 18446744073709551616) as [Hfit|Hwrap].
  - rewrite Z.mod_small by lia.
    destruct (Z.ltb_spec (n * 10 + (byte c - 48)) (n * 10)) as [Hw|_]; [lia|].
    destruct (Z.gtb_spec (n * 10 + (byte c - 48)) (18446744073709551616 - 1)) as [Hw|_];
      [lia|].
    cbn [orb]. apply IH; [exact Hs | lia | exact Hbig].
  - replace ((n * 10 + (byte c - 48)) mod 18446744073709551616)
      with (n * 10 + (byte c - 48) - 18446744073709551616).
    + destruct (Z.ltb_spec (n * 10 + (byte c - 48) - 18446744073709551616) (n * 10))
        as [_|Hw]; [reflexivity | lia].
    + apply Z.mod_unique with (q := 1); lia.
Qed.

(** A decimal numeral of 2^63 or more is out of the range of ParseInt. *)
Lemma ParseInt_out_of_range (ds : string) :
  ds <> "" -> allDigits ds = true -> 2 ^ 63 <= decimalValue ds ->
  ParseInt ds = inl ErrRange.
Proof.
  intros Hne Hd Hbig. destruct ds as [|c s]; [contradiction|].
  unfold ParseInt.
  assert (Hc : isDigit c = true) by (cbn in Hd; now apply andb_prop in Hd as [Hc _]).
  apply isDigit_spec in Hc.
  assert (Hplus : Ascii.eqb c "+" = false).
  { destruct (Ascii.eqb_spec c "+") as [->|_];
      [change (byte "+") with 43 in Hc; lia | reflexivity]. }
  assert (Hminus : Ascii.eqb c "-" = false).
  { destruct (Ascii.eqb_spec c "-") as [->|_];
      [change (byte "-") with 45 in Hc; lia | reflexivity]. }
  rewrite Hplus, Hminus. cbn [orb]. unfold ParseUint.
  destruct (Z.lt_ge_cases (decimalValue (String c s)) (2 ^ 64)) as [Hfit|Hover].
  - rewrite (parseUintLoop_digits (String c s) 0 Hd) by (fold (decimalValue (String c s)); lia).
    fold (decimalValue (String c s)). cbn [negb andb].
    destruct (Z.geb_spec (decimalValue (String c s)) (2 ^ 63)) as [_|Hlt]; [reflexivity | lia].
  - rewrite (parseUintLoop_overflow (String c s) 0 Hd); [reflexivity | lia | exact Hover].
Qed.

(** parseDiskSize on a size as the pattern wants it. *)
Lemma parseDiskSize_written (s : string) (n mult : Z) :
  writesSize s n mult ->
  parseDiskSize s =
  if n <? 2 ^ 63 then inr ((n * mult) mod 2 ^ 64)
  else inl (Wrapf "invalid number value" ErrRange).
Proof.
  intros Hw. destruct (writesSize_normal s n mult Hw)
    as [ds [unit [Hnorm [Hne [Hd [Hn Hunit]]]]]].
  pose proof (decimalValue_nonneg ds Hd) as H0.
  unfold parseDiskSize. rewrite Hnorm.
  assert (Hparse : ParseInt (TrimSpace ds) =
                   if n <? 2 ^ 63 then inr n else inl ErrRange).
  { rewrite (TrimSpace_noSpace ds (allDigits_noSpace ds Hd)).
    destruct (Z.ltb_spec n (2 ^ 63)) as [Hlt|Hge].
    - rewrite <- Hn. apply ParseInt_digits; [exact Hne | exact Hd | now rewrite Hn].
    - apply ParseInt_out_of_range; [exact Hne | exact Hd | now rewrite Hn]. }
  destruct Hunit as [[-> ->]|[-> ->]].
  - rewrite HasSuffix_app, TrimSuffix_app, Hparse.
    destruct (n <? 2 ^ 63) eqn:Hlt; [|reflexivity].
    apply Z.ltb_lt in Hlt. f_equal. unfold MB.
    rewrite (Z.mod_small n) by (change (2 ^ 64) with (2 * 2 ^ 63); lia). reflexivity.
  - rewrite (HasSuffix_app_other ds "gb" "mb" eq_refl) by discriminate.
    rewrite HasSuffix_app, TrimSuffix_app, Hparse.
    destruct (n <? 2 ^ 63) eqn:Hlt; [|reflexivity].
    apply Z.ltb_lt in Hlt. f_equal. unfold GB.
    rewrite (Z.mod_small n) by (change (2 ^ 64) with (2 * 2 ^ 63); lia). reflexivity.
Qed.

(** X5. which sizes validate accepts.  [min_free_space] passes validation
    exactly when it is a decimal numeral below 2^63 followed by "mb" or
    "gb" in either case, with nothing before, between or after; the value
    stored is then the number times the unit, modulo 2^64.  Anything else
    that has this shape is refused with a range error from ParseInt, and
    anything of another shape (the empty string, a sign, a space, a
    fraction) with the format error.  (For ASCII strings: ToLower is
    modelled on ASCII.) *)
Theorem validate_accepts_written_sizes (base : string -> string) (c : Config) :
  let s := MinFreeSpace (Retention c) in
  let verdict := snd (validate base c) in
  let c' := fst (validate base c) in
  isASCII s = true ->
  ((~ exists n mult, writesSize s n mult) ->
   verdict = Some (Errorf "min_free_space value has invalid format")) /\
  (forall n mult, writesSize s n mult -> 2 ^ 63 <= n ->
                  verdict = Some (Wrapf "invalid number value" ErrRange)) /\
  (forall n mult, writesSize s n mult -> n < 2 ^ 63 ->
                  verdict = None /\
                  minFreeSpaceParsed (Retention c') = (n * mult) mod 2 ^ 64) /\
  (verdict = None <-> exists n mult, writesSize s n mult /\ n < 2 ^ 63).
Proof.
  intros s verdict c' _.
  assert (Hwritten : forall n mult, writesSize s n mult ->
            verdict = (if n <? 2 ^ 63 then None
                       else Some (Wrapf "invalid number value" ErrRange)) /\
            (n < 2 ^ 63 -> minFreeSpaceParsed (Retention c') = (n * mult) mod 2 ^ 64)).
  { intros n mult Hw. unfold verdict, c', validate.
    cbn [Retention MinFreeSpace BkpItems BkpDestDir]. fold s.
    assert (Hpat : MinFreeSpacePattern_MatchString (ToLower s) = true)
      by (apply pattern_accepts; eauto).
    rewrite Hpat. cbn [negb]. rewrite (parseDiskSize_written s n mult Hw).
    destruct (Z.ltb_spec n (2 ^ 63)); cbn [fst snd Retention minFreeSpaceParsed];
      (split; [reflexivity | intros; [reflexivity || lia]]). }
  split; [|split; [|split]].
  - intros Hnot. unfold verdict, validate. cbn [Retention MinFreeSpace]. fold s.
    destruct (MinFreeSpacePattern_MatchString (ToLower s)) eqn:Hpat; [|reflexivity].
    apply pattern_accepts in Hpat. contradiction.
  - intros n mult Hw Hbig. rewrite (proj1 (Hwritten n mult Hw)).
    destruct (Z.ltb_spec n (2 ^ 63)); [lia | reflexivity].
  - intros n mult Hw Hlt. destruct (Hwritten n mult Hw) as [-> Hparsed].
    split; [|now apply Hparsed].
    destruct (Z.ltb_spec n (2 ^ 63)); [reflexivity | lia].
  - split.
    + intros Hnone.
      destruct (MinFreeSpacePattern_MatchString (ToLower s)) eqn:Hpat.
      * apply pattern_accepts in Hpat as [n [mult Hw]]. exists n, mult.
        split; [exact Hw|]. rewrite (proj1 (Hwritten n mult Hw)) in Hnone.
        destruct (Z.ltb_spec n (2 ^ 63)); [assumption | discriminate].
      * unfold verdict, validate in Hnone. cbn [Retention MinFreeSpace] in Hnone.
        fold s in Hnone. rewrite Hpat in Hnone. discriminate.
    + intros [n [mult [Hw Hlt]]]. rewrite (proj1 (Hwritten n mult Hw)).
      destruct (Z.ltb_spec n (2 ^ 63)); [reflexivity | lia].
Qed.

Lemma validate_accepts_written_sizes_witness :
  let c := mkConfig "smbkp" (mkRetention 3 "250GB" 0) [] in
  snd (validate Base c) = None <->
  exists n mult, writesSize (MinFreeSpace (Retention c)) n mult /\ n < 2 ^ 63.
Proof.
  intros c.
  exact (proj2 (proj2 (proj2 (validate_accepts_written_sizes Base c eq_refl)))).
Defined.

End ValidateFacts.

Module HelpersFacts.
Import GoStrings Strconv Config Progress Vocabulary StringFacts ConfigFacts SizeSyntax Helpers.
Import ValidateFacts ProgressFacts.

(** *** The decimal numerals of fmt *)

Lemma decimalFrom_app (a b : string) :
  forall n, decimalFrom n (a ++ b) = decimalFrom (decimalFrom n a) b.
Proof. induction a as [|c a IH]; intros n; [reflexivity | apply IH]. Qed.

Lemma allDigits_app (a b : string) : allDigits (a ++ b) = allDigits a && allDigits b.
Proof.
  induction a as [|c a IH]; [reflexivity|]. cbn. now rewrite IH, andb_assoc.
Qed.

Lemma digit_chr (r : Z) :
  0 <= r <= 9 -> isDigit (chr (48 + r)) = true /\ byte (chr (48 + r)) - 48 = r.
Proof.
  intros Hr. split; [apply isDigit_spec|]; rewrite byte_chr by lia; lia.
Qed.

(** The loop writes the digits of [u] in front of the buffer. *)
Lemma fmtIntegerLoop_spec (fuel : nat) :
  forall (u : Z) (buf : string),
    0 <= u < 10 ^ Z.of_nat (S fuel) ->
    exists ds,
      fmtIntegerLoop (S fuel) u buf = ds ++ buf /\ ds <> "" /\ allDigits ds = true /\
      forall acc, decimalFrom acc ds = acc * 10 ^ Z.of_nat (String.length ds) + u.
Proof.
  induction fuel as [|fuel IH]; intros u buf Hu.
  - change (10 ^ Z.of_nat 1) with 10 in Hu. cbn [fmtIntegerLoop].
    destruct (Z.geb_spec u 10) as [Hge|_]; [lia|].
    destruct (digit_chr u ltac:(lia)) as [Hd Hv].
    exists (String (chr (48 + u)) ""). split; [reflexivity|]. split; [discriminate|].
    split; [cbn [allDigits]; now rewrite Hd|]. intros acc. cbn [decimalFrom String.length].
    change (10 ^ Z.of_nat 1) with 10. lia.
  - remember (S fuel) as k eqn:Hk. cbn [fmtIntegerLoop].
    destruct (Z.geb_spec u 10) as [Hge|Hlt].
    + assert (Hpow : 10 ^ Z.of_nat (S k) = 10 * 10 ^ Z.of_nat k).
      { rewrite Nat2Z.inj_succ, Z.pow_succ_r by lia. reflexivity. }
      pose proof (Z.div_mod u 10 ltac:(lia)) as Hdm.
      pose proof (Z.mod_pos_bound u 10 ltac:(lia)) as Hr.
      assert (Hnext : 0 <= u / 10 < 10 ^ Z.of_nat k).
      { split; [apply Z.div_pos; lia|]. apply Z.div_lt_upper_bound; lia. }
      subst k.
      destruct (IH (u / 10) (String (chr (48 + u - u / 10 * 10)) buf) Hnext)
        as [ds [Heq [Hne [Hd Hval]]]].
      replace (48 + u - u / 10 * 10) with (48 + u mod 10) in * by lia.
      destruct (digit_chr (u mod 10) ltac:(lia)) as [Hdc Hvc].
      exists (ds ++ String (chr (48 + u mod 10)) ""). split; [|split; [|split]].
      * rewrite Heq, append_assoc. reflexivity.
      * destruct ds; [contradiction | discriminate].
      * rewrite allDigits_app, Hd. cbn [allDigits andb]. now rewrite Hdc.
      * intros acc. rewrite decimalFrom_app, Hval, length_append.
        cbn [decimalFrom String.length]. rewrite Hvc.
        rewrite Nat2Z.inj_add, Z.pow_add_r by lia. change (10 ^ Z.of_nat 1) with 10. lia.
    + destruct (digit_chr u ltac:(lia)) as [Hd Hv].
      exists (String (chr (48 + u)) ""). split; [reflexivity|]. split; [discriminate|].
      split; [cbn [allDigits]; now rewrite Hd|]. intros acc. cbn [decimalFrom String.length].
      change (10 ^ Z.of_nat 1) with 10. lia.
Qed.

(** [%d] writes a decimal numeral, without a sign or a space, that reads
    back as the number. *)
Lemma fmtInteger_spec (u : Z) :
  0 <= u ->
  fmtInteger u <> "" /\ allDigits (fmtInteger u) = true /\ decimalValue (fmtInteger u) = u.
Proof.
  intros Hu. unfold fmtInteger.
  assert (Hfuel : 0 <= u < 10 ^ Z.of_nat (S (Z.to_nat (Z.log2 u)))).
  { split; [exact Hu|]. rewrite Nat2Z.inj_succ, Z2Nat.id by apply Z.log2_nonneg.
    destruct (Z.eq_dec u 0) as [->|Hne]; [reflexivity|].
    pose proof (Z.log2_spec u ltac:(lia)) as [_ Hhi].
    assert (2 ^ Z.succ (Z.log2 u) <= 10 ^ Z.succ (Z.log2 u)).
    { apply Z.pow_le_mono_l. lia. }
    lia. }
  destruct (fmtIntegerLoop_spec _ u "" Hfuel) as [ds [Heq [Hne [Hd Hval]]]].
  assert (Hds : ds ++ "" = ds) by (clear; induction ds as [|c ds IH]; cbn; congruence).
  rewrite Heq, Hds. split; [exact Hne|]. split; [exact Hd|].
  unfold decimalValue. rewrite Hval. lia.
Qed.

(** X6. sizes below one gibibyte.  formatBytes writes a size below 1 GiB
    as its whole number of mebibytes followed by "mb"; parseDiskSize reads
    that text back as this number of mebibytes, the size rounded down to a
    whole mebibyte: never more than the size, and less than one mebibyte
    under it. *)
Theorem formatBytes_below_a_gibibyte (bytes : Z) :
  0 <= bytes < GB ->
  writesSize (formatBytes bytes) (bytes / MB) MB /\
  parseDiskSize (formatBytes bytes) = inr (bytes / MB * MB) /\
  bytes - MB < bytes / MB * MB <= bytes.
Proof.
  intros Hb. unfold formatBytes.
  destruct (Z.ltb_spec bytes GB) as [_|Hge]; [|lia].
  assert (Hmb : 0 <= bytes / MB < 1024).
  { unfold MB, GB in *. split; [apply Z.div_pos; lia|].
    apply Z.div_lt_upper_bound; lia. }
  destruct (fmtInteger_spec (bytes / MB) ltac:(lia)) as [Hne [Hd Hval]].
  assert (Hw : writesSize (fmtInteger (bytes / MB) ++ "mb") (bytes / MB) MB).
  { exists (fmtInteger (bytes / MB)), "mb". repeat split; try assumption.
    left. now split. }
  split; [exact Hw|]. split.
  - rewrite (parseDiskSize_written _ _ _ Hw).
    destruct (Z.ltb_spec (bytes / MB) (2 ^ 63)) as [_|Hbig];
      [|change (2 ^ 63) with 9223372036854775808 in Hbig; lia].
    rewrite Z.mod_small; [reflexivity|].
    unfold MB in *. change (2 ^ 64) with 18446744073709551616. lia.
  - pose proof (Z.div_mod bytes MB ltac:(unfold MB; lia)) as Hdm.
    pose proof (Z.mod_pos_bound bytes MB ltac:(unfold MB; lia)) as Hr.
    lia.
Qed.

Lemma formatBytes_below_a_gibibyte_witness :
  writesSize (formatBytes 5000000) (5000000 / MB) MB /\
  parseDiskSize (formatBytes 5000000) = inr (5000000 / MB * MB) /\
  5000000 - MB < 5000000 / MB * MB <= 5000000.
Proof. apply (formatBytes_below_a_gibibyte 5000000). unfold GB. lia. Defined.

(** *** Sizes from one gibibyte: the quotient in binary64 and its tenths *)

Lemma roundHalfEven_scale (num den c : Z) :
  0 < den -> 0 < c -> roundHalfEven (num * c) (den * c) = roundHalfEven num den.
Proof.
  intros Hden Hc. unfold roundHalfEven.
  rewrite Z.div_mul_cancel_r, Z.mul_mod_distr_r by lia.
  pose proof (Z.mod_pos_bound num den Hden) as Hr.
  destruct (Z.ltb_spec (2 * (num mod den)) den) as [Hlt|Hge].
  - destruct (Z.ltb_spec (2 * (num mod den * c)) (den * c)); [reflexivity | nia].
  - destruct (Z.ltb_spec (2 * (num mod den * c)) (den * c)); [nia|].
    destruct (Z.ltb_spec den (2 * (num mod den))) as [Hgt|Heq].
    + destruct (Z.ltb_spec (den * c) (2 * (num mod den * c))); [reflexivity | nia].
    + destruct (Z.ltb_spec (den * c) (2 * (num mod den * c))); [nia | reflexivity].
Qed.

(** The rounding is to a nearest integer. *)
Lemma roundHalfEven_near (num den : Z) :
  0 < den -> 2 * Z.abs (roundHalfEven num den * den - num) <= den.
Proof.
  intros Hden. unfold roundHalfEven.
  pose proof (Z.div_mod num den ltac:(lia)) as Hdm.
  pose proof (Z.mod_pos_bound num den Hden) as Hr.
  destruct (Z.ltb_spec (2 * (num mod den)) den) as [Hlt|Hge]; [lia|].
  destruct (Z.ltb_spec den (2 * (num mod den))) as [Hgt|Heq]; [lia|].
  destruct (Z.even (num / den)); lia.
Qed.

(** A size below 2^53 divided by 2^30 in binary64: the quotient is exact. *)
Lemma gibibytes_exact (b : positive) :
  GB <= Z.pos b < 2 ^ 53 ->
  exists m d,
    div (float64_of_int (Z.pos b)) (float64_of_int GB) = S754_finite false m (d - 83) /\
    31 <= d <= 53 /\ Z.pos m = Z.pos b * 2 ^ (53 - d).
Proof.
  intros Hb.
  destruct (float64_of_int_pos b ltac:(lia)) as [m [Eb [Dm Vm]]].
  pose proof (digits2_pos_bounds b) as [Hlo Hhi].
  set (d := Z.pos (digits2_pos b)) in *.
  assert (Hd : 31 <= d <= 53).
  { split.
    - destruct (Z.le_gt_cases 31 d) as [|Hsmall]; [assumption|].
      assert (2 ^ d <= 2 ^ 30) by (apply Z.pow_le_mono_r; lia).
      unfold GB in Hb. change (2 ^ 30) with 1073741824 in *. lia.
    - destruct (Z.le_gt_cases d 53) as [|Hbig]; [assumption|].
      assert (2 ^ 53 <= 2 ^ (d - 1)) by (apply Z.pow_le_mono_r; lia). lia. }
  assert (Eg : float64_of_int GB = S754_finite false 4503599627370496 (-22))
    by (vm_compute; reflexivity).
  exists m, d. split; [|split; [exact Hd | exact Vm]].
  rewrite Eb, Eg.
  rewrite div_normal by (try assumption; try reflexivity; lia).
  change (2 ^ 53) with (2 * 4503599627370496).
  rewrite Z.mul_assoc, Z.div_mul, Z.mod_mul by lia.
  change (new_location 4503599627370496 0) with loc_Exact.
  replace (d - 83) with (d - 53 - -22 - 53 + 1) by lia.
  change (Z.pos m * 2) with (Z.pos (m * 2)).
  apply binary_round_aux_exact; [exact Dm | lia | rewrite Pos2Z.inj_mul; reflexivity | lia].
Qed.

Lemma replaceFirst_after_digits (ds rest : string) (old new : ascii) :
  allDigits ds = true -> isDigit old = false ->
  replaceFirst (ds ++ String old rest) old new = ds ++ String new rest.
Proof.
  intros Hd Hold. induction ds as [|c ds IH].
  - cbn. now rewrite Ascii.eqb_refl.
  - cbn in Hd. apply andb_prop in Hd as [Hc Hd]. cbn [append replaceFirst].
    destruct (Ascii.eqb_spec c old) as [->|_]; [congruence|]. now rewrite IH.
Qed.

(** The digit loop of ParseUint stops with a syntax error at the first
    byte that is not a digit. *)
Lemma parseUintLoop_stops (ds : string) (c : ascii) (rest : string) :
  forall n, allDigits ds = true -> isDigit c = false ->
            0 <= n -> decimalFrom n ds < 2 ^ 64 ->
            parseUintLoop (ds ++ String c rest) n = inl ErrSyntax.
Proof.
  induction ds as [|d ds IH]; intros n Hd Hc Hn Hlt.
  - cbn. now rewrite Hc.
  - cbn in Hd. apply andb_prop in Hd as [Hdd Hds].
    cbn [append parseUintLoop decimalFrom] in *. rewrite Hdd.
    pose proof (proj1 (isDigit_spec d) Hdd) as Hb.
    pose proof (decimalFrom_ge ds (n * 10 + (byte d - 48)) Hds ltac:(lia)) as Hge.
    unfold maxUint64.
    change (2 ^ 64) with 18446744073709551616 in *.
    change ((18446744073709551616 - 1) / 10 + 1) with 1844674407370955162.
    destruct (Z.geb_spec n 1844674407370955162) as [Hbig|Hsmall]; [lia|].
    rewrite Z.mod_small by lia.
    destruct (Z.ltb_spec (n * 10 + (byte d - 48)) (n * 10)) as [Hw|_]; [lia|].
    destruct (Z.gtb_spec (n * 10 + (byte d - 48)) (18446744073709551616 - 1)) as [Hw|_];
      [lia|].
    cbn [orb]. apply IH; [exact Hds | exact Hc | lia | exact Hlt].
Qed.

(** A numeral with a decimal comma is not a size for parseDiskSize. *)
Lemma parseDiskSize_decimal_comma (ds frac : string) :
  ds <> "" -> allDigits ds = true -> allDigits frac = true ->
  decimalValue ds < 2 ^ 64 ->
  parseDiskSize (ds ++ "," ++ frac ++ "gb") = inl (Wrapf "invalid number value" ErrSyntax).
Proof.
  intros Hne Hd Hf Hlt. unfold parseDiskSize.
  assert (Hbody : noSpace (ds ++ "," ++ frac) = true).
  { rewrite !noSpace_app, (allDigits_noSpace ds Hd), (allDigits_noSpace frac Hf).
    reflexivity. }
  assert (Hwhole : ds ++ "," ++ frac ++ "gb" = (ds ++ "," ++ frac) ++ "gb").
  { now rewrite !append_assoc. }
  rewrite Hwhole.
  rewrite TrimSpace_noSpace by (rewrite noSpace_app, Hbody; reflexivity).
  rewrite !ToLower_app, (ToLower_digits ds Hd), (ToLower_digits frac Hf).
  change (ToLower ",") with ",". change (ToLower "gb") with "gb".
  rewrite (HasSuffix_app_other _ "gb" "mb" eq_refl) by discriminate.
  rewrite HasSuffix_app, TrimSuffix_app, (TrimSpace_noSpace _ Hbody).
  destruct ds as [|c ds]; [contradiction|].
  assert (Hc : isDigit c = true) by (cbn in Hd; now apply andb_prop in Hd as [Hc _]).
  apply isDigit_spec in Hc.
  assert (Hplus : Ascii.eqb c "+" = false).
  { destruct (Ascii.eqb_spec c "+") as [->|_];
      [change (byte "+") with 43 in Hc; lia | reflexivity]. }
  assert (Hminus : Ascii.eqb c "-" = false).
  { destruct (Ascii.eqb_spec c "-") as [->|_];
      [change (byte "-") with 45 in Hc; lia | reflexivity]. }
  unfold ParseInt. cbn [append]. rewrite Hplus, Hminus. cbn [orb]. unfold ParseUint.
  change (String c (ds ++ String "," frac)) with (String c ds ++ String "," frac).
  rewrite (parseUintLoop_stops (String c ds) "," frac 0 Hd eq_refl ltac:(lia) Hlt).
  reflexivity.
Qed.

(** X7. sizes from one gibibyte.  formatBytes writes a size from 1 GiB (and
    below 2^53 bytes, where the conversion to float64 is exact) as the
    nearest number of tenths of a gibibyte, a tie going to the even tenth,
    with a comma before the last digit and "gb" after it; and this text is
    not a size for parseDiskSize, which refuses the comma. *)
Theorem formatBytes_from_a_gibibyte (bytes : Z) :
  GB <= bytes < 2 ^ 53 ->
  let t := roundHalfEven (bytes * 10) GB in
  formatBytes bytes = fmtInteger (t / 10) ++ "," ++ fmtInteger (t mod 10) ++ "gb" /\
  2 * Z.abs (t * GB - bytes * 10) <= GB /\
  parseDiskSize (formatBytes bytes) = inl (Wrapf "invalid number value" ErrSyntax).
Proof.
  intros Hb t.
  assert (Hgb : 0 < GB) by (unfold GB; lia).
  assert (Hnear : 2 * Z.abs (t * GB - bytes * 10) <= GB)
    by (apply roundHalfEven_near; exact Hgb).
  assert (Ht : 0 <= t < 2 ^ 53 * 10).
  { change (2 ^ 53) with 9007199254740992 in *. unfold GB in *. lia. }
  destruct (fmtInteger_spec (t / 10) ltac:(apply Z.div_pos; lia)) as [Hne [Hd Hval]].
  pose proof (Z.mod_pos_bound t 10 ltac:(lia)) as Hfrac.
  destruct (fmtInteger_spec (t mod 10) ltac:(lia)) as [_ [Hfd _]].
  assert (Hform : formatBytes bytes =
                  fmtInteger (t / 10) ++ "," ++ fmtInteger (t mod 10) ++ "gb").
  { unfold formatBytes. destruct (Z.ltb_spec bytes GB) as [Hlt|_]; [lia|].
    destruct bytes as [|b|b]; try lia.
    destruct (gibibytes_exact b Hb) as [m [d [Egb [Hdr Vm]]]].
    rewrite Egb. unfold Sprintf_1f, tenths.
    destruct (Z.leb_spec 0 (d - 83)) as [Hpos|_]; [lia|].
    rewrite Vm.
    replace (- (d - 83)) with (30 + (53 - d)) by lia.
    rewrite Z.pow_add_r by lia.
    replace (Z.pos b * 2 ^ (53 - d) * 10) with (Z.pos b * 10 * 2 ^ (53 - d)) by lia.
    rewrite roundHalfEven_scale by (try apply Z.pow_pos_nonneg; lia).
    change (2 ^ 30) with GB. fold t. cbn [append].
    change (fmtInteger (t / 10) ++ String "." (fmtInteger (t mod 10)) ++ "gb")
      with (fmtInteger (t / 10) ++ String "." (fmtInteger (t mod 10) ++ "gb")).
    rewrite append_assoc. cbn [append].
    now rewrite (replaceFirst_after_digits _ _ "." "," Hd eq_refl). }
  split; [exact Hform|]. split; [exact Hnear|].
  rewrite Hform. apply parseDiskSize_decimal_comma; try assumption.
  rewrite Hval.
  assert (t / 10 <= t) by (apply Z.div_le_upper_bound; lia).
  change (2 ^ 53) with 9007199254740992 in *.
  change (2 ^ 64) with 18446744073709551616. lia.
Qed.

Lemma formatBytes_from_a_gibibyte_witness :
  let t := roundHalfEven (1610612736 * 10) GB in
  formatBytes 1610612736 = fmtInteger (t / 10) ++ "," ++ fmtInteger (t mod 10) ++ "gb" /\
  2 * Z.abs (t * GB - 1610612736 * 10) <= GB /\
  parseDiskSize (formatBytes 1610612736) = inl (Wrapf "invalid number value" ErrSyntax).
Proof.
  apply (formatBytes_from_a_gibibyte 1610612736). unfold GB.
  change (2 ^ 53) with 9007199254740992. lia.
Defined.

(** *** What else parseDiskSize reads *)

Lemma trimRight_ends_in_word (x y r : string) :
  y <> "" -> noSpace y = true -> allSpace r = true ->
  trimRight (x ++ y ++ r) = x ++ y.
Proof.
  intros Hne Hy Hr. induction x as [|c x IH].
  - cbn [append]. now apply trimRight_word.
  - cbn [append trimRight]. rewrite IH.
    destruct (x ++ y) eqn:Hxy; [|reflexivity].
    destruct x; [cbn in Hxy; contradiction | discriminate].
Qed.

Lemma spellsUnit_shape (u : string) (mult : Z) :
  spellsUnit u mult ->
  u <> "" /\ noSpace u = true /\
  ((ToLower u = "mb" /\ mult = 1024 * 1024) \/
   (ToLower u = "gb" /\ mult = 1024 * 1024 * 1024)).
Proof.
  intros Hu.
  assert (Hsp : noSpace u = true).
  { rewrite <- noSpace_ToLower. destruct Hu as [[-> _]|[-> _]]; reflexivity. }
  split; [|split; [exact Hsp|]].
  - intros ->. destruct Hu as [[H _]|[H _]]; discriminate.
  - destruct Hu as [[-> ->]|[-> ->]]; auto.
Qed.

(** parseDiskSize once the string is trimmed to a body and a unit. *)
Lemma parseDiskSize_trimmed (s body u : string) (mult : Z) :
  spellsUnit u mult -> TrimSpace s = body ++ u ->
  parseDiskSize s =
  match ParseInt (TrimSpace (ToLower body)) with
  | inl err => inl (Wrapf "invalid number value" err)
  | inr num => inr (((num mod 2 ^ 64) * mult) mod 2 ^ 64)
  end.
Proof.
  intros Hu Htrim. destruct (spellsUnit_shape u mult Hu) as [_ [_ Hunit]].
  unfold parseDiskSize. rewrite Htrim, ToLower_app.
  destruct Hunit as [[-> ->]|[-> ->]].
  - now rewrite HasSuffix_app, TrimSuffix_app.
  - rewrite (HasSuffix_app_other _ "gb" "mb" eq_refl) by discriminate.
    now rewrite HasSuffix_app, TrimSuffix_app.
Qed.

(** X8. what parseDiskSize lets through.  The case of the unit does not
    matter, nor does white space before the number, between the number and
    the unit, or after the unit: the size read is the number times the
    unit, modulo 2^64. *)
Theorem parseDiskSize_ignores_case_and_space (l ds m u r : string) (mult : Z) :
  allSpace l = true -> allSpace m = true -> allSpace r = true ->
  ds <> "" -> allDigits ds = true -> decimalValue ds < 2 ^ 63 ->
  spellsUnit u mult ->
  parseDiskSize (l ++ ds ++ m ++ u ++ r) = inr ((decimalValue ds * mult) mod 2 ^ 64).
Proof.
  intros Hl Hm Hr Hne Hd Hlt Hu.
  destruct (spellsUnit_shape u mult Hu) as [Hune [Hsp _]].
  assert (Htrim : TrimSpace (l ++ ds ++ m ++ u ++ r) = (ds ++ m) ++ u).
  { unfold TrimSpace. rewrite (trimLeft_allSpace l _ Hl).
    destruct ds as [|c ds]; [contradiction|].
    assert (Hc : asciiSpace c = false).
    { apply digit_not_space. cbn in Hd. now apply andb_prop in Hd as [Hc _]. }
    cbn [append]. rewrite trimLeft_noSpace_head by exact Hc.
    change (String c (ds ++ m ++ u ++ r)) with (String c ds ++ m ++ u ++ r).
    rewrite <- (append_assoc (String c ds) m (u ++ r)).
    apply (trimRight_ends_in_word (String c ds ++ m) u r Hune Hsp Hr). }
  rewrite (parseDiskSize_trimmed _ (ds ++ m) u mult Hu Htrim).
  rewrite ToLower_app, (ToLower_digits ds Hd).
  pose proof (TrimSpace_word "" ds (ToLower m) eq_refl) as Hbody.
  cbn [append] in Hbody.
  rewrite Hbody by (rewrite ?allSpace_ToLower; auto using allDigits_noSpace).
  rewrite (ParseInt_digits ds Hne Hd Hlt).
  pose proof (decimalValue_nonneg ds Hd) as H0.
  rewrite (Z.mod_small (decimalValue ds)) by (change (2 ^ 64) with (2 * 2 ^ 63); lia).
  reflexivity.
Qed.

Lemma parseDiskSize_ignores_case_and_space_witness :
  parseDiskSize (" " ++ "10" ++ " " ++ "Gb" ++ "  ") = inr ((decimalValue "10" * GB) mod 2 ^ 64).
Proof.
  apply (parseDiskSize_ignores_case_and_space " " "10" " " "Gb" "  " GB);
    try reflexivity; [discriminate | right; now split].
Defined.

(** X9. a negative size.  parseDiskSize does not refuse a minus sign: the
    number goes through [uint64(num)], and "-N" units are read as 2^64
    bytes less N units, a size near the top of the range.  (Within
    validate the pattern refuses such a string before parseDiskSize sees
    it.) *)
Theorem parseDiskSize_reads_a_negative_size (ds u : string) (mult : Z) :
  ds <> "" -> allDigits ds = true ->
  0 < decimalValue ds -> decimalValue ds * mult < 2 ^ 64 ->
  spellsUnit u mult ->
  parseDiskSize ("-" ++ ds ++ u) = inr (2 ^ 64 - decimalValue ds * mult) /\
  MinFreeSpacePattern_MatchString (ToLower ("-" ++ ds ++ u)) = false.
Proof.
  intros Hne Hd Hpos Hfit Hu.
  destruct (spellsUnit_shape u mult Hu) as [_ [Hsp Hunit]].
  assert (Hmult : 1048576 <= mult) by (destruct Hunit as [[_ ->]|[_ ->]]; lia).
  split.
  - assert (Htrim : TrimSpace ("-" ++ ds ++ u) = ("-" ++ ds) ++ u).
    { rewrite append_assoc. apply TrimSpace_noSpace.
      cbn [append noSpace]. rewrite noSpace_app, (allDigits_noSpace ds Hd), Hsp.
      reflexivity. }
    rewrite (parseDiskSize_trimmed _ ("-" ++ ds) u mult Hu Htrim).
    cbn [append ToLower]. change (lowerByte "-") with "-"%char.
    rewrite (ToLower_digits ds Hd).
    rewrite TrimSpace_noSpace
      by (cbn [noSpace]; now rewrite (allDigits_noSpace ds Hd)).
    unfold ParseInt. cbn [Ascii.eqb Bool.eqb andb orb]. unfold ParseUint.
    destruct ds as [|c ds]; [contradiction|].
    change (2 ^ 64) with 18446744073709551616 in *.
    rewrite (parseUintLoop_digits (String c ds) 0 Hd)
      by (try fold (decimalValue (String c ds));
          change (2 ^ 64) with 18446744073709551616; lia).
    fold (decimalValue (String c ds)). set (n := decimalValue (String c ds)) in *.
    cbn [negb andb].
    destruct (Z.gtb_spec n (2 ^ 63)) as [Hbig|_];
      [change (2 ^ 63) with 9223372036854775808 in Hbig; lia|].
    f_equal. change (2 ^ 64) with 18446744073709551616.
    rewrite Z.mul_mod_idemp_l by lia.
    symmetry. apply Z.mod_unique with (q := -1); lia.
  - cbn [append ToLower]. change (lowerByte "-") with "-"%char.
    unfold MinFreeSpacePattern_MatchString. cbn [dropDigits].
    change (isDigit "-") with false. cbv iota.
    now rewrite Nat.ltb_irrefl.
Qed.

Lemma parseDiskSize_reads_a_negative_size_witness :
  parseDiskSize ("-" ++ "1" ++ "mb") = inr (2 ^ 64 - decimalValue "1" * MB) /\
  MinFreeSpacePattern_MatchString (ToLower ("-" ++ "1" ++ "mb")) = false.
Proof.
  apply (parseDiskSize_reads_a_negative_size "1" "mb" MB);
    try reflexivity; [discriminate | left; now split].
Defined.

End HelpersFacts.

Module AnnounceFacts.
Import GoStrings Strconv Filepath Vocabulary StringFacts FilepathFacts Config Helpers HelpersFacts
  Utf8 Announce.


(** *** Bit operations as arithmetic *)

Lemma lor_add (a x k : Z) :
  0 <= k -> 0 <= x < 2 ^ k -> Z.lor (a * 2 ^ k) x = a * 2 ^ k + x.
Proof.
  intros Hk Hx.
  rewrite <- Z.lxor_lor, <- Z.add_nocarry_lxor; try reflexivity.
  - apply Z.bits_inj'. intros n Hn.
    rewrite Z.land_spec, Z.bits_0.
    destruct (Z.lt_ge_cases n k) as [Hlt | Hge].
    + now rewrite Z.mul_pow2_bits_low.
    + rewrite <- (Z.mod_small x (2 ^ k)) by lia.
      rewrite (Z.mod_pow2_bits_high x k n) by lia.
      apply andb_false_r.
  - apply Z.bits_inj'. intros n Hn.
    rewrite Z.land_spec, Z.bits_0.
    destruct (Z.lt_ge_cases n k) as [Hlt | Hge].
    + now rewrite Z.mul_pow2_bits_low.
    + rewrite <- (Z.mod_small x (2 ^ k)) by lia.
      rewrite (Z.mod_pow2_bits_high x k n) by lia.
      apply andb_false_r.
Qed.

Lemma land_63 (x : Z) : Z.land x 63 = x mod 64.
Proof. change 63 with (Z.ones 6). now rewrite Z.land_ones by lia. Qed.

Lemma land_31 (x : Z) : Z.land x 31 = x mod 32.
Proof. change 31 with (Z.ones 5). now rewrite Z.land_ones by lia. Qed.

Lemma land_15 (x : Z) : Z.land x 15 = x mod 16.
Proof. change 15 with (Z.ones 4). now rewrite Z.land_ones by lia. Qed.

Lemma land_7 (x : Z) : Z.land x 7 = x mod 8.
Proof. change 7 with (Z.ones 3). now rewrite Z.land_ones by lia. Qed.

Lemma lor_128 (x : Z) : 0 <= x < 64 -> Z.lor 128 x = 128 + x.
Proof. intros H. apply (lor_add 2 x 6); [lia | exact H]. Qed.

Lemma lor_192 (x : Z) : 0 <= x < 32 -> Z.lor 192 x = 192 + x.
Proof. intros H. apply (lor_add 3 x 6); [lia | change (2 ^ 6) with 64; lia]. Qed.

Lemma lor_224 (x : Z) : 0 <= x < 16 -> Z.lor 224 x = 224 + x.
Proof. intros H. apply (lor_add 7 x 5); [lia | change (2 ^ 5) with 32; lia]. Qed.

Lemma lor_240 (x : Z) : 0 <= x < 8 -> Z.lor 240 x = 240 + x.
Proof. intros H. apply (lor_add 15 x 4); [lia | change (2 ^ 4) with 16; lia]. Qed.

Lemma byte_byteOf (z : Z) : 0 <= z < 256 -> byte (byteOf z) = z.
Proof.
  intros H. unfold byteOf. rewrite Z.mod_small by exact H. now apply byte_chr.
Qed.


(** *** Decoding an encoded rune *)

Ltac decide_tests :=
  repeat match goal with
         | |- context [?a <? ?b] => destruct (Z.ltb_spec a b); try lia
         | |- context [?a <=? ?b] => destruct (Z.leb_spec a b); try lia
         | |- context [?a =? ?b] => destruct (Z.eqb_spec a b); try lia
         end.

Lemma decode_one (c0 : ascii) (rest : string) :
  byte c0 < 128 ->
  DecodeRuneInString (String c0 rest) = (byte c0, 1%nat).
Proof.
  intros H0. unfold DecodeRuneInString.
  assert (Hf : first (byte c0) = None).
  { unfold first. decide_tests; reflexivity. }
  rewrite Hf. unfold RuneSelf.
  destruct (Z.ltb_spec (byte c0) 128); [reflexivity | lia].
Qed.

Lemma decode_two (c0 c1 : ascii) (rest : string) :
  194 <= byte c0 < 224 -> 128 <= byte c1 <= 191 ->
  exists r, DecodeRuneInString (String c0 (String c1 rest)) = (r, 2%nat).
Proof.
  intros H0 H1. unfold DecodeRuneInString.
  assert (Hf : first (byte c0) = Some (2%nat, 128, 191)).
  { unfold first. decide_tests; reflexivity. }
  rewrite Hf. cbn [String.length Nat.ltb Nat.leb].
  destruct (Z.ltb_spec (byte c1) 128); [lia|].
  destruct (Z.ltb_spec 191 (byte c1)); [lia|].
  cbn [orb]. eexists. reflexivity.
Qed.

Lemma cont_spec (b : Z) : 128 <= b <= 191 -> cont b = true.
Proof. intros H. unfold cont. decide_tests; reflexivity. Qed.

Lemma decode_three (c0 c1 c2 : ascii) (rest : string) :
  224 <= byte c0 < 240 ->
  (if byte c0 =? 224 then 160 else 128) <= byte c1 <=
    (if byte c0 =? 237 then 159 else 191) ->
  128 <= byte c2 <= 191 ->
  exists r, DecodeRuneInString (String c0 (String c1 (String c2 rest))) = (r, 3%nat).
Proof.
  intros H0 H1 H2. unfold DecodeRuneInString.
  assert (Hf : exists lo hi,
             first (byte c0) = Some (3%nat, lo, hi) /\ lo <= byte c1 <= hi).
  { unfold first. revert H1. decide_tests; intros Hc1; eexists _, _;
      (split; [reflexivity | lia]). }
  destruct Hf as [lo [hi [Hf Hr]]]. rewrite Hf. cbn [String.length Nat.ltb Nat.leb].
  destruct (Z.ltb_spec (byte c1) lo); [lia|].
  destruct (Z.ltb_spec hi (byte c1)); [lia|].
  cbn [orb]. rewrite (cont_spec _ H2). cbn [negb].
  eexists. reflexivity.
Qed.

Lemma decode_four (c0 c1 c2 c3 : ascii) (rest : string) :
  240 <= byte c0 < 245 ->
  (if byte c0 =? 240 then 144 else 128) <= byte c1 <=
    (if byte c0 =? 244 then 143 else 191) ->
  128 <= byte c2 <= 191 ->
  128 <= byte c3 <= 191 ->
  exists r,
    DecodeRuneInString (String c0 (String c1 (String c2 (String c3 rest)))) = (r, 4%nat).
Proof.
  intros H0 H1 H2 H3. unfold DecodeRuneInString.
  assert (Hf : exists lo hi,
             first (byte c0) = Some (4%nat, lo, hi) /\ lo <= byte c1 <= hi).
  { unfold first. revert H1. decide_tests; intros Hc1; eexists _, _;
      (split; [reflexivity | lia]). }
  destruct Hf as [lo [hi [Hf Hr]]]. rewrite Hf. cbn [String.length Nat.ltb Nat.leb].
  destruct (Z.ltb_spec (byte c1) lo); [lia|].
  destruct (Z.ltb_spec hi (byte c1)); [lia|].
  cbn [orb]. rewrite (cont_spec _ H2), (cont_spec _ H3). cbn [negb].
  eexists. reflexivity.
Qed.

Lemma shiftr_6 (r : Z) : Z.shiftr r 6 = r / 64.
Proof. now rewrite Z.shiftr_div_pow2 by lia. Qed.

Lemma shiftr_12 (r : Z) : Z.shiftr r 12 = r / 4096.
Proof. now rewrite Z.shiftr_div_pow2 by lia. Qed.

Lemma shiftr_18 (r : Z) : Z.shiftr r 18 = r / 262144.
Proof. now rewrite Z.shiftr_div_pow2 by lia. Qed.

Lemma continuation (x : Z) :
  byte (byteOf (Z.lor 128 (Z.land x 63))) = 128 + x mod 64.
Proof.
  rewrite land_63.
  pose proof (Z.mod_pos_bound x 64 ltac:(lia)).
  rewrite lor_128 by lia. apply byte_byteOf. lia.
Qed.

Lemma decode_two_bytes (r : Z) (rest : string) :
  128 <= r <= 2047 ->
  exists r',
    DecodeRuneInString
      (String (byteOf (Z.lor 192 (Z.shiftr r 6)))
         (String (byteOf (Z.lor 128 (Z.land r 63))) rest)) = (r', 2%nat).
Proof.
  intros Hr. apply decode_two.
  - rewrite shiftr_6. 
    assert (2 <= r / 64 < 32) by (Z.div_mod_to_equations; lia).
    rewrite lor_192 by lia. rewrite byte_byteOf; lia.
  - rewrite continuation. pose proof (Z.mod_pos_bound r 64 ltac:(lia)). lia.
Qed.

Lemma decode_three_bytes (r : Z) (rest : string) :
  2048 <= r <= 65535 -> ~ (55296 <= r <= 57343) ->
  exists r',
    DecodeRuneInString
      (String (byteOf (Z.lor 224 (Z.shiftr r 12)))
         (String (byteOf (Z.lor 128 (Z.land (Z.shiftr r 6) 63)))
            (String (byteOf (Z.lor 128 (Z.land r 63))) rest))) = (r', 3%nat).
Proof.
  intros Hr Hs.
  assert (H0 : byte (byteOf (Z.lor 224 (Z.shiftr r 12))) = 224 + r / 4096).
  { rewrite shiftr_12.
    assert (0 <= r / 4096 < 16) by (Z.div_mod_to_equations; lia).
    rewrite lor_224 by lia. rewrite byte_byteOf; lia. }
  apply decode_three.
  - rewrite H0. Z.div_mod_to_equations; lia.
  - rewrite H0, continuation, shiftr_6.
    destruct (Z.eqb_spec (224 + r / 4096) 224);
      destruct (Z.eqb_spec (224 + r / 4096) 237);
      Z.div_mod_to_equations; lia.
  - rewrite continuation. pose proof (Z.mod_pos_bound r 64 ltac:(lia)). lia.
Qed.

Lemma decode_four_bytes (r : Z) (rest : string) :
  65536 <= r <= 1114111 ->
  exists r',
    DecodeRuneInString
      (String (byteOf (Z.lor 240 (Z.shiftr r 18)))
         (String (byteOf (Z.lor 128 (Z.land (Z.shiftr r 12) 63)))
            (String (byteOf (Z.lor 128 (Z.land (Z.shiftr r 6) 63)))
               (String (byteOf (Z.lor 128 (Z.land r 63))) rest)))) = (r', 4%nat).
Proof.
  intros Hr.
  assert (H0 : byte (byteOf (Z.lor 240 (Z.shiftr r 18))) = 240 + r / 262144).
  { rewrite shiftr_18.
    assert (0 <= r / 262144 < 8) by (Z.div_mod_to_equations; lia).
    rewrite lor_240 by lia. rewrite byte_byteOf; lia. }
  apply decode_four.
  - rewrite H0. Z.div_mod_to_equations; lia.
  - rewrite H0, continuation, shiftr_12.
    destruct (Z.eqb_spec (240 + r / 262144) 240);
      destruct (Z.eqb_spec (240 + r / 262144) 244);
      Z.div_mod_to_equations; lia.
  - rewrite continuation, shiftr_6.
    pose proof (Z.mod_pos_bound (r / 64) 64 ltac:(lia)). lia.
  - rewrite continuation. pose proof (Z.mod_pos_bound r 64 ltac:(lia)). lia.
Qed.

(** An encoded rune is read back as one rune of the same width. *)
Lemma decode_encoderune (r : Z) (rest : string) :
  exists r',
    DecodeRuneInString (encoderune r ++ rest) = (r', String.length (encoderune r)) /\
    (1 <= String.length (encoderune r))%nat.
Proof.
  unfold encoderune, rune1Max, rune2Max, rune3Max, MaxRune, surrogateMin, surrogateMax.
  cbv zeta.
  destruct (Z.leb_spec 0 r) as [H0 | H0]; cbn [andb orb].
  - destruct (Z.leb_spec r 127) as [H1 | H1].
    + exists r. cbn [append String.length]. split; [|lia].
      assert (E : byte (byteOf r) = r) by (apply byte_byteOf; lia).
      rewrite <- E at 2. apply decode_one. lia.
    + destruct (Z.leb_spec r 2047) as [H2 | H2].
      * destruct (decode_two_bytes r rest ltac:(lia)) as [r' Hd].
        exists r'. cbn [append String.length]. split; [exact Hd | lia].
      * destruct (Z.ltb_spec r 0) as [? | _]; [lia|]. cbn [orb].
        destruct (Z.ltb_spec 1114111 r) as [H3 | H3]; cbn [orb].
        { destruct (decode_three_bytes RuneError rest) as [r' Hd];
            [unfold RuneError; lia | unfold RuneError; lia |].
          exists r'. cbn [append String.length]. split; [exact Hd | lia]. }
        destruct (Z.leb_spec 55296 r) as [H4 | H4]; cbn [andb].
        { destruct (Z.leb_spec r 57343) as [H5 | H5].
          - destruct (decode_three_bytes RuneError rest) as [r' Hd];
              [unfold RuneError; lia | unfold RuneError; lia |].
            exists r'. cbn [append String.length]. split; [exact Hd | lia].
          - destruct (Z.leb_spec r 65535) as [H6 | H6].
            + destruct (decode_three_bytes r rest) as [r' Hd]; [lia | lia |].
              exists r'. cbn [append String.length]. split; [exact Hd | lia].
            + destruct (decode_four_bytes r rest) as [r' Hd]; [lia|].
              exists r'. cbn [append String.length]. split; [exact Hd | lia]. }
        destruct (Z.leb_spec r 65535) as [H6 | H6]; [|lia].
        destruct (decode_three_bytes r rest) as [r' Hd]; [lia | lia |].
        exists r'. cbn [append String.length]. split; [exact Hd | lia].
  - destruct (Z.ltb_spec r 0) as [_ | ?]; [|lia]. cbn [orb].
    destruct (decode_three_bytes RuneError rest) as [r' Hd];
      [unfold RuneError; lia | unfold RuneError; lia |].
    exists r'. cbn [append String.length]. split; [exact Hd | lia].
Qed.


(** *** The conversion to runes *)

Lemma skipBytes_app (a b : string) : skipBytes (String.length a) (a ++ b) = b.
Proof. induction a as [|c a IH]; [reflexivity | exact IH]. Qed.

(** The loop has fuel to spare with one round for each byte. *)
Lemma runesLoop_fuel (fuel : nat) :
  forall s, (String.length s <= fuel)%nat ->
            runesLoop fuel s = runesLoop (String.length s) s.
Proof.
  induction fuel as [fuel IH] using lt_wf_ind. intros s Hs.
  destruct s as [|c s]; [now destruct fuel|].
  destruct fuel as [|fuel]; [cbn in Hs; lia|].
  cbn [String.length runesLoop].
  pose proof (DecodeRuneInString_width (String c s) ltac:(discriminate)) as Hw.
  destruct (DecodeRuneInString (String c s)) as [r size]. cbn [snd] in Hw.
  f_equal.
  assert (Hd : (String.length (skipBytes size (String c s)) <= String.length s)%nat).
  { rewrite length_skipBytes. cbn [String.length]. lia. }
  cbn [String.length] in Hs.
  transitivity (runesLoop (String.length (skipBytes size (String c s)))
                          (skipBytes size (String c s))).
  - apply IH; lia.
  - symmetry. apply IH; lia.
Qed.

(** The runes of a string that starts with an encoded rune. *)
Lemma runes_encoded_head (r : Z) (rest : string) :
  exists r', runes (encoderune r ++ rest) = r' :: runes rest.
Proof.
  destruct (decode_encoderune r rest) as [r' [Hd Hlen]].
  exists r'. unfold runes at 1.
  destruct (encoderune r ++ rest) as [|c s] eqn:Hs.
  { apply (f_equal String.length) in Hs. rewrite length_append in Hs.
    cbn [String.length] in Hs. lia. }
  cbn [String.length runesLoop]. rewrite Hd. f_equal.
  rewrite <- Hs, skipBytes_app.
  apply runesLoop_fuel.
  apply (f_equal String.length) in Hs. rewrite length_append in Hs.
  cbn [String.length] in Hs. lia.
Qed.

(** A string made from runes has as many runes as it was made from. *)
Lemma runes_of_encoded (rs : list Z) (rest : string) :
  List.length (runes (stringOfRunes rs ++ rest)) =
  (List.length rs + List.length (runes rest))%nat.
Proof.
  induction rs as [|r rs IH]; [reflexivity|].
  cbn [stringOfRunes List.length]. rewrite append_assoc.
  destruct (runes_encoded_head r (stringOfRunes rs ++ rest)) as [r' ->].
  cbn [List.length]. now rewrite IH.
Qed.

(** The runes of a string that starts with an ASCII byte. *)
Lemma runes_ascii_head (c : ascii) (s : string) :
  byte c < 128 -> runes (String c s) = byte c :: runes s.
Proof.
  intros Hc. unfold runes at 1. cbn [String.length runesLoop].
  rewrite (decode_one c s Hc). reflexivity.
Qed.

Lemma runes_ascii_prefix (a b : string) :
  isASCII a = true ->
  (String.length a <= List.length (runes (a ++ b)))%nat.
Proof.
  induction a as [|c a IH]; intros Ha; [cbn; lia|].
  cbn [isASCII] in Ha. apply andb_prop in Ha as [Hc Ha].
  apply Z.ltb_lt in Hc. unfold RuneSelf in Hc.
  cbn [append]. rewrite (runes_ascii_head c (a ++ b) Hc).
  cbn [String.length List.length]. specialize (IH Ha). lia.
Qed.


Lemma isASCII_app (a b : string) : isASCII (a ++ b) = isASCII a && isASCII b.
Proof.
  induction a as [|c a IH]; [reflexivity|].
  cbn [append isASCII]. now rewrite IH, andb_assoc.
Qed.

Lemma allDigits_isASCII (ds : string) : allDigits ds = true -> isASCII ds = true.
Proof.
  induction ds as [|c ds IH]; [reflexivity|].
  cbn [allDigits isASCII]. intros H. apply andb_prop in H as [Hc Hds].
  apply isDigit_spec in Hc. rewrite (IH Hds), andb_true_r.
  apply Z.ltb_lt. unfold RuneSelf. lia.
Qed.

(** The message starts with its number and "Backing up", which are ASCII:
    it has more than six runes. *)
Lemma message_runes (i total : nat) (item : BackupItem) :
  (6 <= List.length (runes (message i total item)))%nat.
Proof.
  set (head := LF ++ "[" ++ fmtInteger (Z.of_nat i + 1) ++ "/"
                  ++ fmtInteger (Z.of_nat total) ++ "] Backing up: ").
  assert (Hhead : isASCII head = true).
  { subst head.
    destruct (fmtInteger_spec (Z.of_nat i + 1) ltac:(lia)) as [_ [Hi _]].
    destruct (fmtInteger_spec (Z.of_nat total) ltac:(lia)) as [_ [Ht _]].
    rewrite !isASCII_app, (allDigits_isASCII _ Hi), (allDigits_isASCII _ Ht).
    reflexivity. }
  assert (Hlen : (6 <= String.length head)%nat).
  { subst head. rewrite !length_append. cbn [String.length LF]. lia. }
  assert (Hmsg : exists rest, message i total item = head ++ rest).
  { unfold message. subst head.
    destruct (Include item); eexists; rewrite !append_assoc; reflexivity. }
  destruct Hmsg as [rest ->].
  pose proof (runes_ascii_prefix head rest Hhead). lia.
Qed.

(** The announcement is shown on a terminal of six columns or more, and
    panics on a narrower one. *)
Lemma announcement_cases (width : Z) (i total : nat) (item : BackupItem) :
  (6 <= width /\ exists shown, announcement width i total item = Shown shown) \/
  (width < 6 /\ announcement width i total item = Panics).
Proof.
  unfold announcement, fit.
  pose proof (message_runes i total item) as Hlen.
  rewrite Z.geb_leb.
  destruct (Z.lt_ge_cases width 6) as [Hnarrow | Hwide].
  - right. split; [exact Hnarrow|].
    destruct (Z.leb_spec width (Z.of_nat (List.length (runes (message i total item)))));
      [|lia].
    destruct (Z.ltb_spec (width - 6) 0); [reflexivity | lia].
  - left. split; [exact Hwide|].
    destruct (Z.leb_spec width (Z.of_nat (List.length (runes (message i total item)))));
      [|now eexists].
    destruct (Z.ltb_spec (width - 6) 0); [lia | now eexists].
Qed.

(** X21. on a terminal at least six columns wide the announcement of an
    item never has more runes than the terminal has columns.  A message
    with fewer runes than that is shown as it is; any other is cut to its
    first [width - 6] runes and ended with "... )" and a newline, which
    makes exactly [width] runes, the newline at its start and the one at
    its end included. *)
Theorem announcement_fits_the_terminal (width : Z) (i total : nat) (item : BackupItem) :
  6 <= width ->
  let msg := message i total item in
  exists shown,
    announcement width i total item = Shown shown /\
    Z.of_nat (List.length (runes shown)) <= width /\
    (Z.of_nat (List.length (runes msg)) < width -> shown = msg) /\
    (width <= Z.of_nat (List.length (runes msg)) ->
     shown = stringOfRunes (firstn (Z.to_nat (width - 6)) (runes msg)) ++ "... )" ++ LF /\
     Z.of_nat (List.length (runes shown)) = width).
Proof.
  intros Hw msg. unfold announcement, fit. fold msg.
  rewrite Z.geb_leb.
  destruct (Z.leb_spec width (Z.of_nat (List.length (runes msg)))) as [Hlong | Hshort].
  - destruct (Z.ltb_spec (width - 6) 0) as [? | _]; [lia|].
    eexists. split; [reflexivity|].
    assert (Hcount :
      Z.of_nat (List.length
        (runes (stringOfRunes (firstn (Z.to_nat (width - 6)) (runes msg)) ++ "... )" ++ LF)))
      = width).
    { rewrite runes_of_encoded, length_firstn.
      change (List.length (runes ("... )" ++ LF))) with 6%nat. lia. }
    repeat split; try lia.
  - eexists. split; [reflexivity|].
    repeat split; try lia.
Qed.

Lemma announcement_fits_the_terminal_witness :
  announcement 30 2 3 (mkBackupItem "/home/u" "" [] ["x"; "y"]) =
    Shown (LF ++ "[3/3] Backing up: /home... )" ++ LF) /\
  announcement 80 2 3 (mkBackupItem "/home/u" "" [] ["x"; "y"]) =
    Shown (LF ++ "[3/3] Backing up: /home/u  (Exclude: x, y)" ++ LF).
Proof.
  pose (item := mkBackupItem "/home/u" "" [] ["x"; "y"]).
  destruct (announcement_fits_the_terminal 30 2 3 item ltac:(lia))
    as [shown [Hshown [_ [_ Hcut]]]].
  destruct (announcement_fits_the_terminal 80 2 3 item ltac:(lia))
    as [shown' [Hshown' [_ [Hwhole _]]]].
  split.
  - fold item. rewrite Hshown. f_equal.
    apply Hcut. vm_compute. discriminate.
  - fold item. rewrite Hshown'. f_equal.
    apply Hwhole. vm_compute. reflexivity.
Defined.

(** X22. on a terminal less than six columns wide the announcement of any
    item panics: the message is at least as long as the width, and the
    slice that cuts it has a negative end. *)
Theorem a_narrow_terminal_stops_the_backup (width : Z) (i total : nat) (item : BackupItem) :
  width < 6 ->
  announcement width i total item = Panics.
Proof.
  intros Hw. unfold announcement, fit.
  pose proof (message_runes i total item) as Hlen.
  rewrite Z.geb_leb.
  destruct (Z.leb_spec width (Z.of_nat (List.length (runes (message i total item)))));
    [|lia].
  destruct (Z.ltb_spec (width - 6) 0); [reflexivity | lia].
Qed.

Lemma a_narrow_terminal_stops_the_backup_witness :
  announcement 0 0 1 (mkBackupItem "/home/u" "" [] []) = Panics.
Proof.
  apply (a_narrow_terminal_stops_the_backup 0 0 1 (mkBackupItem "/home/u" "" [] [])).
  lia.
Defined.

End AnnounceFacts.

(** ** The orchestrator *)

Module RunFacts.
Import GoStrings Config Helpers Announce Run Vocabulary StringFacts ValidateFacts AnnounceFacts.
Local Open Scope list_scope.

Lemma stdin_emit (e : event) (io : Io) : stdin (emit e io) = stdin io.
Proof. reflexivity. Qed.

Lemma trace_emit (e : event) (io : Io) : trace (emit e io) = trace io ++ [e].
Proof. reflexivity. Qed.

Lemma ask_spec (p : prompt) (io : Io) :
  ask p io =
  (TrimSpace (ToLower (hd EmptyString (stdin io))),
   mkIo (tl (stdin io)) (trace io ++ [EvPrompt p (hd EmptyString (stdin io))])).
Proof. reflexivity. Qed.

Lemma scan_spec (p : prompt) (io : Io) :
  scan p io =
  (TrimSpace (ToLower (fst (Scanln (hd EmptyString (stdin io))))),
   mkIo (afterScanln (hd EmptyString (stdin io)) (tl (stdin io)))
        (trace io ++ [EvPrompt p (hd EmptyString (stdin io))])).
Proof.
  unfold scan, afterScanln.
  replace (match stdin io with [] => EmptyString | r :: _ => r end)
    with (hd EmptyString (stdin io)) by now destruct (stdin io).
  destruct (Scanln (hd EmptyString (stdin io))) as [response unread].
  now destruct unread.
Qed.

(** *** What Scanln stores *)






Section Loop.

Variable w : World.
Variable app : BackupApp.

(** Without exit-on-error the halt never stops the loop. *)
Lemma haltOnError_off (m1 m2 : string) (e : error) (io : Io) :
  exitOnError app = false -> haltOnError app m1 m2 e io = (None, io).
Proof. unfold haltOnError. now intros ->. Qed.

(** With exit-on-error and no operator the halt stops the loop at once. *)
Lemma haltOnError_unattended (m1 m2 : string) (e : error) (io : Io) :
  exitOnError app = true -> nonInteractive app = true ->
  haltOnError app m1 m2 e io = (Some (Wrapf m2 e), io).
Proof. unfold haltOnError. now intros -> ->. Qed.


(** When [getTerminalWidth()] returns less than 6 at an item, the turn on
    that item panics once [totalCount] has been stepped, before the item
    is counted. *)
Lemma backupLoop_panics (i : nat) (item : BackupItem) (rest : list BackupItem)
                        (t : Tally) (io : Io) :
  getTerminalWidth w i < 6 ->
  backupLoop w app i (item :: rest) t io =
  (mkTally (results t) (failedCount t) (successCount t) (totalCount t + 1),
   Some Panicked, io).
Proof.
  intros Hnarrow. cbn [backupLoop].
  destruct (announcement_cases (getTerminalWidth w i) i
              (List.length (BkpItems (BkpConfig app))) item)
    as [[Hwide _] | [_ ->]]; [lia | reflexivity].
Qed.

(** One turn on an item that succeeds. *)
Lemma backupLoop_success (i : nat) (item : BackupItem) (rest : list BackupItem)
                         (t : Tally) (io : Io) :
  6 <= getTerminalWidth w i ->
  itemFails w i item = false ->
  backupLoop w app i (item :: rest) t io =
  backupLoop w app (S i) rest
    (mkTally (results t ++ [mkBackupResult item true None (elapsed w i)])
             (failedCount t) (successCount t + 1) (totalCount t + 1))
    (mkIo (stdin io) (trace io ++ attemptsFrom w i [item])).
Proof.
  intros Hwide.
  unfold itemFails, itemError. cbn [backupLoop attemptsFrom].
  destruct (announcement_cases (getTerminalWidth w i) i
              (List.length (BkpItems (BkpConfig app))) item)
    as [[_ [shown ->]] | [Hnarrow _]]; [|lia].
  destruct (countTotalItems w i item) as [e|n]; [discriminate|].
  destruct (backupItem w i item) as [e|]; [discriminate|].
  intros _. unfold emit. cbn [stdin trace].
  rewrite app_nil_r, <- app_assoc. reflexivity.
Qed.

(** One turn on an item that fails: the result is recorded, then the halt
    is considered. *)
Lemma backupLoop_failure (i : nat) (item : BackupItem) (rest : list BackupItem)
                         (t : Tally) (io : Io) (e : error) :
  6 <= getTerminalWidth w i ->
  itemError w i item = Some e ->
  exists m1 m2,
    backupLoop w app i (item :: rest) t io =
    match haltOnError app m1 m2 e
            (mkIo (stdin io) (trace io ++ attemptsFrom w i [item])) with
    | (Some e', io') => (failedTally w i item e t, Some (Failed e'), io')
    | (None, io') => backupLoop w app (S i) rest (failedTally w i item e t) io'
    end.
Proof.
  intros Hwide.
  unfold itemError, failedTally. cbn [backupLoop attemptsFrom].
  destruct (announcement_cases (getTerminalWidth w i) i
              (List.length (BkpItems (BkpConfig app))) item)
    as [[_ [shown ->]] | [Hnarrow _]]; [|lia].
  destruct (countTotalItems w i item) as [e0|n].
  - intros [= ->]. do 2 eexists. unfold emit. cbn [stdin trace].
    rewrite app_nil_r. reflexivity.
  - intros ->. do 2 eexists. unfold emit. cbn [stdin trace].
    rewrite app_nil_r, <- app_assoc. reflexivity.
Qed.

Lemma attemptsFrom_cons (i : nat) (item : BackupItem) (items : list BackupItem) :
  attemptsFrom w i (item :: items) = attemptsFrom w i [item] ++ attemptsFrom w (S i) items.
Proof. cbn [attemptsFrom]. now rewrite app_nil_r. Qed.

Lemma wideFrom_head (i j : nat) :
  (i < j)%nat -> wideFrom w i j -> 6 <= getTerminalWidth w i /\ wideFrom w (S i) j.
Proof.
  intros Hij Hw. split; [apply Hw; lia|]. intros k Hk. apply Hw. lia.
Qed.

(** A stretch of items that all succeed is gone through without a stop,
    a prompt or a failure recorded. *)
Lemma backupLoop_successes (pre : list BackupItem) :
  forall (i : nat) (t : Tally) (io : Io) (rest : list BackupItem),
    wideFrom w i (i + List.length pre) ->
    allSucceedFrom w i pre = true ->
    exists t',
      backupLoop w app i (pre ++ rest) t io =
      backupLoop w app (i + List.length pre) rest t'
                 (mkIo (stdin io) (trace io ++ attemptsFrom w i pre)) /\
      map Item (results t') = map Item (results t) ++ pre /\
      map Success (results t') = map Success (results t) ++ map (fun _ => true) pre /\
      failedCount t' = failedCount t.
Proof.
  induction pre as [|item pre IH]; intros i t io rest Hwide Hall.
  - exists t. cbn [List.app List.length attemptsFrom map].
    rewrite Nat.add_0_r, !app_nil_r. destruct io; repeat split; reflexivity.
  - cbn [allSucceedFrom] in Hall. apply andb_prop in Hall as [Hit Hall].
    apply negb_true_iff in Hit.
    cbn [List.length] in Hwide.
    destruct (wideFrom_head i (i + S (List.length pre)) ltac:(lia) Hwide) as [Hwi Hwrest].
    cbn [List.app]. rewrite (backupLoop_success i item (pre ++ rest) t io Hwi Hit).
    edestruct (IH (S i)) as [t' [Heq [Hitems [Hflags Hfailed]]]];
      [replace (S i + List.length pre)%nat with (i + S (List.length pre))%nat by lia;
       exact Hwrest | exact Hall |].
    exists t'. rewrite Heq. cbn [stdin trace results failedCount] in *.
    rewrite !map_app in Hitems, Hflags. cbn [map Item Success] in Hitems, Hflags.
    rewrite <- !app_assoc in Hitems, Hflags. cbn [List.app] in Hitems, Hflags.
    repeat split; try assumption.
    f_equal; [cbn [List.length]; lia|].
    f_equal. rewrite <- app_assoc. f_equal.
    symmetry. apply attemptsFrom_cons.
Qed.

(** Without exit-on-error every item is gone through and recorded. *)
Lemma backupLoop_keeps_going (items : list BackupItem) :
  exitOnError app = false ->
  forall (i : nat) (t : Tally) (io : Io),
    wideFrom w i (i + List.length items) ->
    exists t',
      backupLoop w app i items t io =
      (t', None, mkIo (stdin io) (trace io ++ attemptsFrom w i items)) /\
      map Item (results t') = map Item (results t) ++ items /\
      map Success (results t') = map Success (results t) ++ verdictsFrom w i items /\
      failedCount t' = failedCount t + failuresFrom w i items.
Proof.
  intros Hoff. induction items as [|item items IH]; intros i t io Hwide.
  - exists t. cbn [backupLoop attemptsFrom verdictsFrom failuresFrom].
    rewrite !app_nil_r, Z.add_0_r. destruct io; repeat split; reflexivity.
  - cbn [verdictsFrom failuresFrom]. cbn [List.length] in Hwide.
    destruct (wideFrom_head i (i + S (List.length items)) ltac:(lia) Hwide) as [Hwi Hwrest].
    replace (i + S (List.length items))%nat with (S i + List.length items)%nat
      in Hwrest by lia.
    destruct (itemError w i item) as [e|] eqn:Herr.
    + destruct (backupLoop_failure i item items t io e Hwi Herr) as [m1 [m2 Hstep]].
      rewrite haltOnError_off in Hstep by assumption.
      edestruct (IH (S i)) as [t' [Heq [Hitems [Hflags Hfailed]]]]; [exact Hwrest|].
      exists t'. rewrite Hstep, Heq.
      unfold itemFails. rewrite Herr.
      cbn [stdin trace results failedCount failedTally] in *.
      rewrite !map_app in Hitems, Hflags. cbn [map Item Success] in Hitems, Hflags.
      rewrite <- !app_assoc in Hitems, Hflags. cbn [List.app negb] in *.
      repeat split; try assumption; try lia.
      f_equal. f_equal. rewrite <- app_assoc. f_equal.
      symmetry. apply attemptsFrom_cons.
    + assert (Hok : itemFails w i item = false) by (unfold itemFails; now rewrite Herr).
      rewrite (backupLoop_success i item items t io Hwi Hok).
      edestruct (IH (S i)) as [t' [Heq [Hitems [Hflags Hfailed]]]]; [exact Hwrest|].
      exists t'. rewrite Heq. rewrite Hok.
      cbn [stdin trace results failedCount] in *.
      rewrite !map_app in Hitems, Hflags. cbn [map Item Success] in Hitems, Hflags.
      rewrite <- !app_assoc in Hitems, Hflags. cbn [List.app negb] in *.
      repeat split; try assumption; try lia.
      f_equal. f_equal. rewrite <- app_assoc. f_equal.
      symmetry. apply attemptsFrom_cons.
Qed.

(** A loop that runs to its end has announced every item: the terminal
    was wide enough each time. *)
Lemma backupLoop_done_wide (items : list BackupItem) :
  forall (i : nat) (t : Tally) (io : Io) (t' : Tally) (io' : Io),
    backupLoop w app i items t io = (t', None, io') ->
    wideFrom w i (i + List.length items).
Proof.
  induction items as [|item items IH]; intros i t io t' io' Hrun k Hk;
    cbn [List.length] in Hk; [lia|].
  destruct (Z.lt_ge_cases (getTerminalWidth w i) 6) as [Hnarrow | Hwide].
  { rewrite (backupLoop_panics i item items t io Hnarrow) in Hrun. discriminate. }
  destruct (Nat.eq_dec k i) as [-> | Hne]; [exact Hwide|].
  assert (Hnext : exists t1 io1, backupLoop w app (S i) items t1 io1 = (t', None, io')).
  { destruct (itemError w i item) as [e|] eqn:Herr.
    - destruct (backupLoop_failure i item items t io e Hwide Herr) as [m1 [m2 Hstep]].
      rewrite Hstep in Hrun.
      destruct (haltOnError app m1 m2 e _) as [[e'|] io1]; [discriminate|].
      do 2 eexists; exact Hrun.
    - assert (Hok : itemFails w i item = false) by (unfold itemFails; now rewrite Herr).
      rewrite (backupLoop_success i item items t io Hwide Hok) in Hrun.
      do 2 eexists; exact Hrun. }
  destruct Hnext as [t1 [io1 Hnext]].
  apply (IH (S i) t1 io1 t' io' Hnext). lia.
Qed.

(** Whenever the loop runs to its end, [failedCount] has counted the items
    that failed. *)
Lemma backupLoop_failedCount (items : list BackupItem) :
  forall (i : nat) (t : Tally) (io : Io) (t' : Tally) (io' : Io),
    backupLoop w app i items t io = (t', None, io') ->
    failedCount t' = failedCount t + failuresFrom w i items.
Proof.
  induction items as [|item items IH]; intros i t io t' io' Hrun.
  - cbn in Hrun. injection Hrun as <- _. cbn. lia.
  - destruct (Z.lt_ge_cases (getTerminalWidth w i) 6) as [Hnarrow | Hwide].
    { rewrite (backupLoop_panics i item items t io Hnarrow) in Hrun. discriminate. }
    cbn [failuresFrom]. destruct (itemError w i item) as [e|] eqn:Herr.
    + destruct (backupLoop_failure i item items t io e Hwide Herr) as [m1 [m2 Hstep]].
      rewrite Hstep in Hrun. unfold itemFails. rewrite Herr.
      destruct (haltOnError app m1 m2 e _) as [[e'|] io1]; [discriminate|].
      apply IH in Hrun. cbn [failedTally failedCount] in Hrun. lia.
    + assert (Hok : itemFails w i item = false) by (unfold itemFails; now rewrite Herr).
      rewrite (backupLoop_success i item items t io Hwide Hok) in Hrun. rewrite Hok.
      apply IH in Hrun. cbn [failedCount] in Hrun. lia.
Qed.

Lemma failuresFrom_nonneg (items : list BackupItem) :
  forall i, 0 <= failuresFrom w i items.
Proof.
  induction items as [|item items IH]; intros i; cbn [failuresFrom]; [lia|].
  specialize (IH (S i)). destruct (itemFails w i item); lia.
Qed.

(** The attempts of a stretch of items bear its indices, and nothing else. *)
Lemma attemptsFrom_indices (items : list BackupItem) :
  forall (i : nat) (ev : event),
    In ev (attemptsFrom w i items) ->
    exists j, (i <= j < i + List.length items)%nat /\ (ev = EvCount j \/ ev = EvBackup j).
Proof.
  induction items as [|item items IH]; intros i ev Hin; [contradiction|].
  cbn [attemptsFrom] in Hin. apply in_app_or in Hin as [Hin|Hin].
  - exists i. cbn [List.length]. split; [lia|].
    destruct Hin as [<-|Hin]; [now left|].
    destruct (countTotalItems w i item); [contradiction|].
    destruct Hin as [<-|[]]. now right.
  - destruct (IH (S i) ev Hin) as [j [Hj Hev]]. exists j.
    cbn [List.length]. split; [lia | assumption].
Qed.

Lemma attemptsFrom_counts (items : list BackupItem) :
  forall (i j : nat),
    (i <= j < i + List.length items)%nat -> In (EvCount j) (attemptsFrom w i items).
Proof.
  induction items as [|item items IH]; intros i j Hj; cbn [List.length] in Hj; [lia|].
  cbn [attemptsFrom]. apply in_or_app.
  destruct (Nat.eq_dec i j) as [->|Hne]; [left; now left|].
  right. apply IH. lia.
Qed.

Lemma attemptsFrom_loopEvents (items : list BackupItem) :
  forall i, Forall (fun ev => loopEvent ev = true) (attemptsFrom w i items).
Proof.
  intros i. apply Forall_forall. intros ev Hin.
  destruct (attemptsFrom_indices items i ev Hin) as [j [_ [-> | ->]]]; reflexivity.
Qed.

Lemma haltOnError_trace (m1 m2 : string) (e : error) (io : Io) :
  exists evs,
    trace (snd (haltOnError app m1 m2 e io)) = trace io ++ evs /\
    Forall (fun ev => loopEvent ev = true) evs.
Proof.
  unfold haltOnError.
  destruct (exitOnError app); [|exists []; now rewrite app_nil_r].
  destruct (nonInteractive app); cbn [negb]; [exists []; now rewrite app_nil_r|].
  unfold ask. eexists.
  destruct (negb _); cbn [snd trace]; (split; [reflexivity | now repeat constructor]).
Qed.

(** In every mode the loop only counts, copies and asks whether to exit. *)
Lemma backupLoop_trace (items : list BackupItem) :
  forall (i : nat) (t : Tally) (io : Io),
    exists evs,
      trace (snd (backupLoop w app i items t io)) = trace io ++ evs /\
      Forall (fun ev => loopEvent ev = true) evs.
Proof.
  induction items as [|item items IH]; intros i t io.
  - exists []. cbn. now rewrite app_nil_r.
  - destruct (Z.lt_ge_cases (getTerminalWidth w i) 6) as [Hnarrow | Hwide].
    { rewrite (backupLoop_panics i item items t io Hnarrow). cbn [snd].
      exists []. now rewrite app_nil_r. }
    destruct (itemError w i item) as [e|] eqn:Herr.
    + destruct (backupLoop_failure i item items t io e Hwide Herr) as [m1 [m2 Hstep]].
      rewrite Hstep.
      destruct (haltOnError_trace m1 m2 e
                  (mkIo (stdin io) (trace io ++ attemptsFrom w i [item])))
        as [evs [Hevs Hall]].
      destruct (haltOnError app m1 m2 e _) as [[e'|] io1]; cbn [snd trace] in *.
      * exists (attemptsFrom w i [item] ++ evs). rewrite Hevs, app_assoc.
        split; [reflexivity|]. apply Forall_app. split; [apply attemptsFrom_loopEvents | exact Hall].
      * destruct (IH (S i) (failedTally w i item e t) io1) as [evs' [Hevs' Hall']].
        exists (attemptsFrom w i [item] ++ evs ++ evs').
        rewrite Hevs', Hevs, <- !app_assoc. split; [reflexivity|].
        apply Forall_app. split; [apply attemptsFrom_loopEvents|].
        apply Forall_app. now split.
    + assert (Hok : itemFails w i item = false) by (unfold itemFails; now rewrite Herr).
      rewrite (backupLoop_success i item items t io Hwide Hok).
      edestruct (IH (S i)) as [evs' [Hevs' Hall']]. rewrite Hevs'. cbn [trace].
      exists (attemptsFrom w i [item] ++ evs'). rewrite app_assoc. split; [reflexivity|].
      apply Forall_app. split; [apply attemptsFrom_loopEvents | exact Hall'].
Qed.

(** What a run that stops at the item after [pre] has asked for. *)
Lemma stopped_events (d : string) (pre : list BackupItem) (x : BackupItem) (ev : event) :
  In ev ([EvMkdirAll d] ++ attemptsFrom w 0 pre ++ attemptsFrom w (List.length pre) [x]) ->
  ev = EvMkdirAll d \/
  exists j, (j <= List.length pre)%nat /\ (ev = EvCount j \/ ev = EvBackup j).
Proof.
  intros Hin. apply in_app_or in Hin as [[<-|[]]|Hin]; [now left|]. right.
  apply in_app_or in Hin as [Hin|Hin];
    apply attemptsFrom_indices in Hin as [j [Hj Hev]];
    exists j; cbn [List.length] in Hj; (split; [lia | exact Hev]).
Qed.

(** The end of runBackup once the loop has run through: the cleanup
    decision, then the verdict. *)
Lemma runBackup_after_loop (io : Io) (t : Tally) (io1 : Io) :
  os_MkdirAll w (runDir w app) = None ->
  backupLoop w app 0 (BkpItems (BkpConfig app)) (mkTally [] 0 0 0)
             (emit (EvMkdirAll (runDir w app)) io) = (t, None, io1) ->
  runBackup w app io =
    (t,
     if failedCount t >? 0
     then Some (Failed (Errorf ("backup completed with "
                                  ++ fmtInteger (failedCount t) ++ " failures")))
     else None,
     if failedCount t =? 0 then emit EvCleanup io1
     else if nonInteractive app then io1
     else if String.eqb (fst (ask AskCleanup io1)) "yes"
          then emit EvCleanup (snd (ask AskCleanup io1))
          else snd (ask AskCleanup io1)).
Proof.
  intros Hmk Hloop. unfold runBackup. fold (runDir w app). rewrite Hmk, Hloop.
  destruct (failedCount t =? 0); [now destruct (failedCount t >? 0)|].
  destruct (nonInteractive app); [now destruct (failedCount t >? 0)|].
  destruct (ask AskCleanup io1) as [response io2]. cbn [fst snd].
  now destruct (failedCount t >? 0).
Qed.

(** The end of runBackup when the loop stops early. *)
Lemma runBackup_stopped (io : Io) (t : Tally) (s : stop) (io1 : Io) :
  os_MkdirAll w (runDir w app) = None ->
  backupLoop w app 0 (BkpItems (BkpConfig app)) (mkTally [] 0 0 0)
             (emit (EvMkdirAll (runDir w app)) io) = (t, Some s, io1) ->
  runBackup w app io = (t, Some s, io1).
Proof.
  intros Hmk Hloop. unfold runBackup. fold (runDir w app). now rewrite Hmk, Hloop.
Qed.

End Loop.

End RunFacts.

(** ** The failure policy, the cleanup policy and the prompts *)

Module Policy.
Import GoStrings Config Helpers Announce Run Vocabulary StringFacts ConfigFacts RunFacts Scenario.
Local Open Scope list_scope.

(** C4. [getTerminalWidth()], whose declaration is not among the sources,
    is taken to return at least 6 at every item: the announcement of an
    item panics otherwise.  Exit-on-error, non-interactive: the first item
    that fails, in the count or in the copy, ends the run at once;
    runBackup returns an error that wraps the error of that item; the
    items before it and the failed one are in [results], in order, and
    nothing after it is counted or copied, nor is the cleanup run.
    Without exit-on-error every item is attempted and [results] has one
    entry per item, in the order of the configuration, marked failed
    exactly where the item failed. *)
Theorem exit_on_error_policy (w : World) (app : BackupApp) (io : Io) :
  wideFrom w 0 (List.length (BkpItems (BkpConfig app))) ->
  os_MkdirAll w (runDir w app) = None ->
  (exitOnError app = true -> nonInteractive app = true ->
   forall (pre : list BackupItem) (x : BackupItem) (post : list BackupItem) (e : error),
     BkpItems (BkpConfig app) = pre ++ x :: post ->
     allSucceedFrom w 0 pre = true ->
     itemError w (List.length pre) x = Some e ->
     exists t msg evs,
       runBackup w app io =
         (t, Some (Failed (Wrapf msg e)), mkIo (stdin io) (trace io ++ evs)) /\
       map Item (results t) = pre ++ [x] /\
       map Success (results t) = map (fun _ => true) pre ++ [false] /\
       List.length (results t) = S (List.length pre) /\
       (forall j, (List.length pre < j)%nat ->
                  ~ In (EvCount j) evs /\ ~ In (EvBackup j) evs) /\
       ~ In EvCleanup evs) /\
  (exitOnError app = false ->
   exists t r io',
     runBackup w app io = (t, r, io') /\
     r <> Some Panicked /\
     map Item (results t) = BkpItems (BkpConfig app) /\
     map Success (results t) = verdictsFrom w 0 (BkpItems (BkpConfig app)) /\
     List.length (results t) = List.length (BkpItems (BkpConfig app)) /\
     (forall i, (i < List.length (BkpItems (BkpConfig app)))%nat ->
                In (EvCount i) (trace io'))).
Proof.
  intros Hwide Hmk. split.
  - intros Hexit Hnon pre x post e Hitems Hpre Hx.
    set (io0 := emit (EvMkdirAll (runDir w app)) io).
    rewrite Hitems, List.length_app in Hwide. cbn [List.length] in Hwide.
    assert (Hwpre : wideFrom w 0 (0 + List.length pre))
      by (intros k Hk; apply Hwide; lia).
    assert (Hwx : 6 <= getTerminalWidth w (List.length pre)) by (apply Hwide; lia).
    destruct (backupLoop_successes w app pre 0 (mkTally [] 0 0 0) io0 (x :: post) Hwpre Hpre)
      as [t1 [Hloop [Hit [Hfl _]]]].
    cbn [Nat.add] in Hloop.
    destruct (backupLoop_failure w app (List.length pre) x post t1
                (mkIo (stdin io0) (trace io0 ++ attemptsFrom w 0 pre)) e Hwx Hx)
      as [m1 [m2 Hstep]].
    rewrite haltOnError_unattended in Hstep by assumption.
    rewrite Hstep in Hloop. rewrite <- Hitems in Hloop.
    exists (failedTally w (List.length pre) x e t1), m2,
           ([EvMkdirAll (runDir w app)] ++ attemptsFrom w 0 pre
              ++ attemptsFrom w (List.length pre) [x]).
    assert (Hmap : map Item (results (failedTally w (List.length pre) x e t1)) = pre ++ [x]).
    { cbn [failedTally results]. rewrite map_app, Hit. reflexivity. }
    split; [|split; [exact Hmap | split; [|split; [|split]]]].
    + rewrite (runBackup_stopped w app io _ _ _ Hmk Hloop).
      cbn [stdin trace io0 emit]. now rewrite <- !app_assoc.
    + cbn [failedTally results]. rewrite map_app, Hfl. reflexivity.
    + rewrite <- (length_map Item), Hmap, List.length_app. cbn [List.length]. lia.
    + intros j Hj. split; intros Hin;
        apply stopped_events in Hin as [Hev|[k [Hk [Hev|Hev]]]];
        try discriminate; injection Hev as ->; lia.
    + intros Hin.
      apply stopped_events in Hin as [Hev|[k [_ [Hev|Hev]]]]; discriminate.
  - intros Hoff.
    set (io0 := emit (EvMkdirAll (runDir w app)) io).
    destruct (backupLoop_keeps_going w app (BkpItems (BkpConfig app)) Hoff 0
                (mkTally [] 0 0 0) io0 Hwide) as [t [Hloop [Hit [Hfl _]]]].
    rewrite (runBackup_after_loop w app io _ _ Hmk Hloop).
    do 3 eexists. split; [reflexivity|].
    split; [now destruct (failedCount t >? 0)|].
    split; [exact Hit|]. split; [exact Hfl|].
    split; [now rewrite <- (length_map Item), Hit|].
    intros i Hi.
    assert (Hin : In (EvCount i)
                    (trace (mkIo (stdin io0)
                                 (trace io0 ++ attemptsFrom w 0 (BkpItems (BkpConfig app)))))).
    { cbn [trace]. apply in_or_app. right. apply attemptsFrom_counts. lia. }
    destruct (failedCount t =? 0); [apply in_or_app; now left|].
    destruct (nonInteractive app); [exact Hin|].
    unfold ask. cbn [fst snd stdin trace emit].
    destruct (String.eqb _ "yes"); cbn [trace].
    + apply in_or_app. left. apply in_or_app. left. exact Hin.
    + apply in_or_app. left. exact Hin.
Qed.

Lemma exit_on_error_policy_witness :
  (exists t msg evs,
     runBackup secondFails (appWith "10mb" 10485760 true true) (console []) =
       (t, Some (Failed (Wrapf msg (ErrIO "read error"))), mkIo [] ([] ++ evs)) /\
     map Item (results t) = [itemA] ++ [itemB] /\
     map Success (results t) = map (fun _ => true) [itemA] ++ [false] /\
     List.length (results t) = 2%nat /\
     (forall j, (1 < j)%nat -> ~ In (EvCount j) evs /\ ~ In (EvBackup j) evs) /\
     ~ In EvCleanup evs) /\
  (exists t r io',
     runBackup secondFails (appWith "10mb" 10485760 false true) (console []) = (t, r, io') /\
     r <> Some Panicked /\
     map Item (results t) = [itemA; itemB; itemC] /\
     map Success (results t) = [true; false; true] /\
     List.length (results t) = 3%nat /\
     (forall i, (i < 3)%nat -> In (EvCount i) (trace io'))).
Proof.
  assert (Hwide : wideFrom secondFails 0 3) by (intros k _; cbn; lia).
  split.
  - exact (proj1 (exit_on_error_policy secondFails (appWith "10mb" 10485760 true true)
                    (console []) Hwide eq_refl)
                 eq_refl eq_refl [itemA] itemB [itemC] (ErrIO "read error")
                 eq_refl eq_refl eq_refl).
  - exact (proj2 (exit_on_error_policy secondFails (appWith "10mb" 10485760 false true)
                    (console []) Hwide eq_refl)
                 eq_refl).
Defined.

(** What is taken of [getTerminalWidth()] is needed: were it to return 0,
    the run would panic at the announcement of the first item; without
    exit-on-error, and with a run directory that could be made, none of
    the three items would be attempted and [results] would be empty. *)
Lemma narrow_terminal_attempts_no_item :
  ~ (forall (w : World) (app : BackupApp) (io : Io),
       os_MkdirAll w (runDir w app) = None ->
       exitOnError app = false ->
       exists t r io',
         runBackup w app io = (t, r, io') /\
         List.length (results t) = List.length (BkpItems (BkpConfig app)) /\
         (forall i, (i < List.length (BkpItems (BkpConfig app)))%nat ->
                    In (EvCount i) (trace io'))).
Proof.
  intros H.
  destruct (H narrowTerminal (appWith "10mb" 10485760 false true) (console [])
              eq_refl eq_refl) as [t [r [io' [Hrun [Hlen _]]]]].
  assert (Hpanic : runBackup narrowTerminal (appWith "10mb" 10485760 false true) (console [])
                   = (mkTally [] 0 0 1, Some Panicked,
                      mkIo [] [EvMkdirAll "/mnt/bk/smbkp/smbkp-20240105-210000"]))
    by (vm_compute; reflexivity).
  rewrite Hpanic in Hrun. injection Hrun as <- _ _. discriminate Hlen.
Qed.

(** C5. Once every item has been processed: when no item failed the
    cleanup runs, unasked; when some item failed and the run is
    non-interactive the cleanup is skipped, and nothing is asked; when
    some item failed and the run is interactive the operator is asked, and
    the cleanup runs only if the answer spells "yes".  The loop itself
    never runs the cleanup. *)
Theorem cleanup_policy (w : World) (app : BackupApp) (io : Io) (t : Tally) (io1 : Io) :
  os_MkdirAll w (runDir w app) = None ->
  backupLoop w app 0 (BkpItems (BkpConfig app)) (mkTally [] 0 0 0)
             (emit (EvMkdirAll (runDir w app)) io) = (t, None, io1) ->
  let failures := failuresFrom w 0 (BkpItems (BkpConfig app)) in
  let io' := snd (runBackup w app io) in
  (exists evs, trace io1 = trace io ++ EvMkdirAll (runDir w app) :: evs /\
               ~ In EvCleanup evs) /\
  (failures = 0 -> io' = emit EvCleanup io1) /\
  (failures <> 0 -> nonInteractive app = true -> io' = io1) /\
  (failures <> 0 -> nonInteractive app = false ->
   let raw := hd EmptyString (stdin io1) in
   let asked := mkIo (tl (stdin io1)) (trace io1 ++ [EvPrompt AskCleanup raw]) in
   isASCII raw = true ->
   (spells "yes" raw -> io' = emit EvCleanup asked) /\
   (~ spells "yes" raw -> io' = asked)).
Proof.
  intros Hmk Hloop failures io'.
  pose proof (backupLoop_failedCount w app _ _ _ _ _ _ Hloop) as Hcount.
  cbn [failedCount] in Hcount. fold failures in Hcount.
  assert (Hio' : io' =
            if failedCount t =? 0 then emit EvCleanup io1
            else if nonInteractive app then io1
            else if String.eqb (fst (ask AskCleanup io1)) "yes"
                 then emit EvCleanup (snd (ask AskCleanup io1))
                 else snd (ask AskCleanup io1)).
  { unfold io'. now rewrite (runBackup_after_loop w app io t io1 Hmk Hloop). }
  split; [|split; [|split]].
  - destruct (backupLoop_trace w app (BkpItems (BkpConfig app)) 0 (mkTally [] 0 0 0)
                (emit (EvMkdirAll (runDir w app)) io)) as [evs [Hevs Hall]].
    rewrite Hloop in Hevs. cbn [snd trace emit] in Hevs.
    exists evs. split; [now rewrite Hevs, <- app_assoc|].
    intros Hin. rewrite Forall_forall in Hall. now apply Hall in Hin.
  - intros H0. rewrite Hio'. destruct (Z.eqb_spec (failedCount t) 0); [reflexivity | lia].
  - intros Hf Hnon. rewrite Hio', Hnon.
    destruct (Z.eqb_spec (failedCount t) 0); [lia | reflexivity].
  - intros Hf Hint raw asked _. rewrite Hio', Hint.
    destruct (Z.eqb_spec (failedCount t) 0) as [|_]; [lia|].
    rewrite ask_spec. cbn [fst snd]. fold raw. fold asked.
    pose proof (normalised_spells "yes" raw eq_refl) as Hsp.
    destruct (String.eqb_spec (TrimSpace (ToLower raw)) "yes") as [Hy|Hn]; split; intros H.
    + reflexivity.
    + now apply Hsp in Hy.
    + now apply Hsp in H.
    + reflexivity.
Qed.

Lemma cleanup_policy_witness :
  let w := secondFails in
  let app := appWith "10mb" 10485760 false false in
  let io := console ["Yes "] in
  let run := backupLoop w app 0 [itemA; itemB; itemC] (mkTally [] 0 0 0)
               (emit (EvMkdirAll (runDir w app)) io) in
  let io1 := snd run in
  let asked := mkIo [] (trace io1 ++ [EvPrompt AskCleanup "Yes "]) in
  (spells "yes" "Yes " -> snd (runBackup w app io) = emit EvCleanup asked) /\
  (~ spells "yes" "Yes " -> snd (runBackup w app io) = asked).
Proof.
  intros w app io run io1 asked.
  refine (proj2 (proj2 (proj2
            (cleanup_policy w app io (fst (fst run)) io1 eq_refl eq_refl))) _ eq_refl eq_refl).
  vm_compute. discriminate.
Defined.




(** C9 (as amended). parseDiskSize maps "10gb" to 10737418240; it maps
    "<N>mb" to N*1048576 and "<N>gb" to N*1073741824 for every decimal
    numeral N whose product fits in a uint64; and when the probe reports
    fewer bytes than [minFreeSpaceParsed], reviewBackupConfig returns an
    error and the process exits with code 1 having only probed the free
    space: no directory is made, no item is counted or copied, no cleanup
    is run. *)
Theorem parse_and_free_space_gate :
  parseDiskSize "10gb" = inr 10737418240 /\
  (forall ds, ds <> EmptyString -> allDigits ds = true ->
              decimalValue ds * 1048576 < 2 ^ 64 ->
              parseDiskSize (ds ++ "mb") = inr (decimalValue ds * 1048576)) /\
  (forall ds, ds <> EmptyString -> allDigits ds = true ->
              decimalValue ds * 1073741824 < 2 ^ 64 ->
              parseDiskSize (ds ++ "gb") = inr (decimalValue ds * 1073741824)) /\
  (forall (w : World) (app : BackupApp) (io : Io) (avail : Z),
     getFreeSpace w (bkpDest app) = inr avail ->
     avail < minFreeSpaceParsed (Retention (BkpConfig app)) ->
     (exists e, fst (reviewBackupConfig w app io) = Returns (Some e)) /\
     fst (main w app io) = 1 /\
     trace (snd (main w app io)) = trace io ++ [EvGetFreeSpace (bkpDest app)]).
Proof.
  split; [reflexivity|]. split; [exact parseDiskSize_mb|]. split; [exact parseDiskSize_gb|].
  intros w app io avail Hfree Hlow.
  assert (Hrev : reviewBackupConfig w app io =
                 (Returns (Some (Errorf "available free space is less than required minimum")),
                  emit (EvGetFreeSpace (bkpDest app)) io)).
  { unfold reviewBackupConfig. rewrite Hfree.
    destruct (Z.ltb_spec avail (minFreeSpaceParsed (Retention (BkpConfig app))));
      [reflexivity | lia]. }
  split; [|split].
  - rewrite Hrev. now eexists.
  - unfold main. now rewrite Hrev.
  - unfold main. now rewrite Hrev.
Qed.

Lemma parse_and_free_space_gate_witness :
  parseDiskSize ("512" ++ "mb") = inr (decimalValue "512" * 1048576) /\
  parseDiskSize ("10" ++ "gb") = inr (decimalValue "10" * 1073741824) /\
  fst (main secondFails (appWith "10gb" 10737418240 false true) (console [])) = 1 /\
  trace (snd (main secondFails (appWith "10gb" 10737418240 false true) (console []))) =
    [] ++ [EvGetFreeSpace "/mnt/bk"].
Proof.
  split; [|split; [|split]].
  - apply (proj1 (proj2 parse_and_free_space_gate) "512"%string);
      [discriminate | reflexivity | vm_compute; reflexivity].
  - apply (proj1 (proj2 (proj2 parse_and_free_space_gate)) "10"%string);
      [discriminate | reflexivity | vm_compute; reflexivity].
  - apply (proj2 (proj2 (proj2 (proj2 parse_and_free_space_gate)) secondFails
              (appWith "10gb" 10737418240 false true) (console []) 5000000000
              eq_refl eq_refl)).
  - apply (proj2 (proj2 (proj2 (proj2 parse_and_free_space_gate)) secondFails
              (appWith "10gb" 10737418240 false true) (console []) 5000000000
              eq_refl eq_refl)).
Defined.

(** C9, the claim as written fails: 17592186044416 mebibytes are 2^64
    bytes, and the uint64 product wraps around to 0. *)
Lemma parseDiskSize_wraps_around :
  ~ (forall ds, ds <> EmptyString -> allDigits ds = true ->
                parseDiskSize (ds ++ "mb") = inr (decimalValue ds * 1048576)).
Proof.
  intros H. specialize (H "17592186044416"%string).
  assert (Hv : parseDiskSize ("17592186044416" ++ "mb") = inr 0) by (vm_compute; reflexivity).
  rewrite Hv in H. specialize (H ltac:(discriminate) eq_refl).
  vm_compute in H. discriminate H.
Qed.

End Policy.

(** ** The filter and the copy *)

Module CopyFacts.
Import GoStrings Filepath Filter Tree Vocabulary StringFacts Scenario.
Local Open Scope list_scope.

Section Filter.

Variable os : GOOS.

(** A pattern of the exclude list that hits the path rejects it. *)
Lemma passesExclude_hit (exclude : list string) (q path : string) :
  In q exclude -> hits os q path = true -> passesExclude os exclude path = false.
Proof.
  induction exclude as [|p exclude IH]; intros Hin Hhit; [contradiction|].
  cbn [passesExclude]. destruct Hin as [->|Hin]; [now rewrite Hhit|].
  destruct (hits os p path); [reflexivity | now apply IH].
Qed.

Lemma shouldInclude_excluded (path : string) (include exclude : list string) (q : string) :
  In q exclude -> hits os q path = true -> shouldInclude os path include exclude = false.
Proof.
  intros Hin Hhit. unfold shouldInclude.
  destruct (_ && _); [reflexivity | now apply (passesExclude_hit exclude q)].
Qed.

Lemma HasPrefix_app (a b : string) : HasPrefix (a ++ b)%string a = true.
Proof.
  induction a as [|c a IH]; [destruct b; reflexivity|].
  cbn. now rewrite Ascii.eqb_refl, IH.
Qed.

(** A path under the directory that an include pattern names, letter for
    letter, is within the include list. *)
Lemma includedBy_named_directory (include : list string) (p rest : string) :
  In p include -> includedBy os include (p ++ sep os ++ rest)%string = true.
Proof.
  induction include as [|x include IH]; intros Hin; [contradiction|].
  cbn [includedBy]. destruct Hin as [->|Hin].
  - unfold hits. destruct (matched os p _); [reflexivity|].
    rewrite <- (append_assoc p (sep os) rest).
    now rewrite HasPrefix_app.
  - destruct (hits os x _); [reflexivity | now apply IH].
Qed.

End Filter.

(** Induction over a source tree, with the hypothesis for every entry of a
    directory. *)
Lemma node_induction (P : node -> Prop) :
  (forall m, P (File m)) ->
  (forall m, P (SymlinkToFile m)) ->
  (forall t, P (SymlinkToDir t)) ->
  (forall e, P (SymlinkBroken e)) ->
  (forall e, P (Inaccessible e)) ->
  (forall m es, Forall (fun e => P (snd e)) es -> P (Dir m es)) ->
  forall n, P n.
Proof.
  intros HF HSF HSD HSB HI HD.
  refine (fix IH (n : node) : P n :=
            match n with
            | File m => HF m
            | SymlinkToFile m => HSF m
            | SymlinkToDir t => HSD t
            | SymlinkBroken e => HSB e
            | Inaccessible e => HI e
            | Dir m es =>
                HD m es
                   ((fix go (l : list (string * node)) : Forall (fun e => P (snd e)) l :=
                       match l with
                       | [] => Forall_nil _
                       | (name, child) :: l' =>
                           Forall_cons (name, child) (IH child) (go l')
                       end) es)
            end).
Qed.

Lemma walk_Dir (St : Type) (fn : list string -> node -> option error -> St -> walkRet * St)
               (ns : list string) (m : Z) (es : list (string * node)) (st : St) :
  walk St fn ns (Dir m es) st =
  match fn ns (Dir m es) None st with
  | (WalkNil, st1) => walkNames St fn ns es st1
  | other => other
  end.
Proof. reflexivity. Qed.

Lemma proper_prefix (ns : list string) (name : string) (ds rest : list string) :
  ns ++ [name] = ds ++ rest -> rest <> [] -> exists rest', ns = ds ++ rest'.
Proof.
  intros Heq Hne. destruct (exists_last Hne) as [rest' [x ->]].
  rewrite app_assoc in Heq. apply app_inj_tail in Heq as [-> _]. now exists rest'.
Qed.

Section Copy.

Variable os : GOOS.
Variable cw : CopyWorld.
Variables include exclude : list string.


(** What one call of the callback makes: nothing, or the entry it was
    called on, and then the entry passes the filter; and a directory it
    lets the walk enter passes the filter. *)
Lemma copyWalkFn_spec (ns : list string) (info : node) (err : option error)
                      (st : CopyState) (r : walkRet) (st' : CopyState) :
  (copyWalkFn os cw include exclude) ns info err st = (r, st') ->
  (created st' = created st \/
   (created st' = created st ++ [ns] /\ passes os include exclude ns = true)) /\
  (r = WalkNil -> err = None -> IsDir info = true -> passes os include exclude ns = true).
Proof.
  unfold copyWalkFn, passes.
  destruct err as [e|].
  { destruct (isWindowsProtectedPath cw ns e); intros [= <- <-]; split;
      try (now left); discriminate. }
  destruct (String.eqb (relPath os ns) ".") eqn:Hroot.
  { intros [= <- <-]. split; [now left | reflexivity]. }
  destruct (shouldInclude os (relPath os ns) include exclude) eqn:Hinc; cbn [negb orb].
  2:{ intros [= <- <-]. split; [now left|]. intros Hr _ Hdir.
      rewrite Hdir in Hr. discriminate Hr. }
  intros H. split; [|reflexivity].
  unfold ofError, copyFile in H.
  destruct info;
    try match type of H with context [copyFileEnd cw ns] => destruct (copyFileEnd cw ns) end;
    try match type of H with context [os_MkdirAll cw ns] => destruct (os_MkdirAll cw ns) end;
    try match type of H with context [os_Symlink cw ns] => destruct (os_Symlink cw ns) end;
    injection H as <- <-; cbn [created make progressCb]; auto.
Qed.

Lemma extend_fine (ns : list string) :
  (forall ds rest, ns = ds ++ rest -> rest <> [] -> passes os include exclude ds = true) ->
  passes os include exclude ns = true -> (passesAllTheWay os include exclude) ns.
Proof.
  intros Habove Hns ds rest Heq. destruct rest as [|x rest].
  - rewrite app_nil_r in Heq. now subst ds.
  - apply (Habove ds (x :: rest) Heq). discriminate.
Qed.

Lemma callback_keeps_filter (ns : list string) (info : node) (err : option error)
                            (st : CopyState) (r : walkRet) (st' : CopyState) :
  (forall ds rest, ns = ds ++ rest -> rest <> [] -> passes os include exclude ds = true) ->
  Forall (passesAllTheWay os include exclude) (created st) ->
  (copyWalkFn os cw include exclude) ns info err st = (r, st') ->
  Forall (passesAllTheWay os include exclude) (created st').
Proof.
  intros Habove Hst Hfn. apply copyWalkFn_spec in Hfn as [[->|[-> Hns]] _]; [exact Hst|].
  apply Forall_app. split; [exact Hst|]. constructor; [|constructor].
  now apply extend_fine.
Qed.

(** Whatever the walk makes lies on a path that passes the filter all the
    way from the root. *)
Lemma walk_keeps_filter (n : node) :
  forall (ns : list string) (st : CopyState) (r : walkRet) (st' : CopyState),
    (forall ds rest, ns = ds ++ rest -> rest <> [] -> passes os include exclude ds = true) ->
    Forall (passesAllTheWay os include exclude) (created st) ->
    walk CopyState (copyWalkFn os cw include exclude) ns n st = (r, st') ->
    Forall (passesAllTheWay os include exclude) (created st').
Proof.
  induction n as [m|m|t|e|e|m es IHes] using node_induction;
    intros ns st r st' Habove Hst Hwalk;
    try (cbn [walk] in Hwalk; now apply (callback_keeps_filter _ _ _ _ _ _ Habove Hst Hwalk)).
  rewrite walk_Dir in Hwalk.
  destruct ((copyWalkFn os cw include exclude) ns (Dir m es) None st) as [r1 st1] eqn:Hfn.
  pose proof (callback_keeps_filter _ _ _ _ _ _ Habove Hst Hfn) as Hst1.
  destruct r1; try (injection Hwalk as <- <-; exact Hst1).
  apply copyWalkFn_spec in Hfn as [_ Hns]. specialize (Hns eq_refl eq_refl eq_refl).
  assert (Hchild : forall name ds rest,
             ns ++ [name] = ds ++ rest -> rest <> [] ->
             passes os include exclude ds = true).
  { intros name ds rest Heq Hne.
    destruct (proper_prefix ns name ds rest Heq Hne) as [rest' Hpre].
    now apply (extend_fine ns Habove Hns ds rest'). }
  clear Hst Habove Hns st. revert st1 r st' Hst1 Hwalk.
  induction IHes as [|[name child] es IHchild _ IHrest]; intros st1 r st' Hst1 Hwalk.
  - cbn in Hwalk. now injection Hwalk as <- <-.
  - cbn [walkNames] in Hwalk. cbn [snd] in IHchild.
    destruct (walk CopyState (copyWalkFn os cw include exclude) (ns ++ [name]) child st1) as [r2 st2] eqn:Hc.
    pose proof (IHchild _ _ _ _ (Hchild name) Hst1 Hc) as Hst2.
    destruct child; destruct r2;
      try (injection Hwalk as <- <-; exact Hst2);
      try (now apply (IHrest st2 r st' Hst2 Hwalk)).
Qed.

(** Whatever copyDirectory makes lies on a path that passes the filter all
    the way from the root of the source. *)
Lemma copyDirectory_keeps_filter (src : node) (ns : list string) :
  In ns (created (snd (copyDirectory os cw src include exclude (mkCopyState [] 0)))) ->
  (passesAllTheWay os include exclude) ns.
Proof.
  unfold copyDirectory, Walk.
  destruct (walk CopyState (copyWalkFn os cw include exclude) [] src (mkCopyState [] 0))
    as [r st'] eqn:Hwalk.
  assert (Hall : Forall (passesAllTheWay os include exclude) (created st')).
  { apply (walk_keeps_filter src [] (mkCopyState [] 0) r st'); [| constructor | exact Hwalk].
    intros ds rest Heq Hne. symmetry in Heq. apply app_eq_nil in Heq as [_ ->].
    contradiction. }
  rewrite Forall_forall in Hall. intros Hin. apply Hall. now destruct r.
Qed.

End Copy.

(** C7. Exclude overrides include: a path that an exclude pattern matches
    as a glob over the whole path, or that starts with the pattern and a
    separator, is refused by shouldInclude whatever the include list; and
    below a directory (other than the root of the walk, which is never
    filtered) whose relative path an exclude pattern matches, nothing is
    made by copyDirectory: not the directory, not any descendant, whatever
    the include list and whatever the operating system answers. *)
Theorem exclude_overrides_include (os : GOOS) (include exclude : list string) (q : string) :
  In q exclude ->
  (forall path,
     matched os q path = true \/ HasPrefix path (q ++ sep os)%string = true ->
     shouldInclude os path include exclude = false) /\
  (forall (cw : CopyWorld) (src : node) (ds ns : list string),
     relPath os ds <> "."%string ->
     matched os q (relPath os ds) = true \/
       HasPrefix (relPath os ds) (q ++ sep os)%string = true ->
     ~ In (ds ++ ns)
          (created (snd (copyDirectory os cw src include exclude (mkCopyState [] 0))))).
Proof.
  intros Hq.
  assert (Hhits : forall path,
             matched os q path = true \/ HasPrefix path (q ++ sep os)%string = true ->
             hits os q path = true).
  { intros path [H|H]; unfold hits; [now rewrite H|].
    now destruct (matched os q path). }
  split.
  - intros path H. apply (shouldInclude_excluded os path include exclude q Hq (Hhits _ H)).
  - intros cw src ds ns Hroot H Hin.
    apply copyDirectory_keeps_filter in Hin.
    specialize (Hin ds ns eq_refl). unfold passes in Hin.
    rewrite (shouldInclude_excluded os _ include exclude q Hq (Hhits _ H)) in Hin.
    rewrite orb_false_r in Hin. now apply String.eqb_eq in Hin.
Qed.

Lemma exclude_overrides_include_witness :
  shouldInclude Unix "tempdir" ["*.pdf"; "tempdir"] ["temp*"] = false /\
  ~ In (["tempdir"] ++ ["x.pdf"])
       (created (snd (copyDirectory Unix quiet papers ["*.pdf"; "tempdir"] ["temp*"]
                                    (mkCopyState [] 0)))).
Proof.
  pose proof (exclude_overrides_include Unix ["*.pdf"; "tempdir"] ["temp*"] "temp*"
                (or_introl eq_refl)) as [Hpath Hcopy].
  split.
  - apply Hpath. left. reflexivity.
  - apply Hcopy; [discriminate | left; reflexivity].
Defined.

(** C2 (the code at the failing input). With the include list ["Doc*"]
    the directory "Documents" matches and is made, but its entry
    "Documents/a.txt" is refused by shouldInclude, and copyDirectory leaves
    the directory empty: the glob does not match across the separator and
    the prefix test compares with the pattern letter for letter. *)
Theorem glob_matched_directory_is_copied_empty (os : GOOS) :
  matched os "Doc*" (relPath os ["Documents"]) = true /\
  shouldInclude os (relPath os ["Documents"]) ["Doc*"] [] = true /\
  shouldInclude os (relPath os ["Documents"; "a.txt"]) ["Doc*"] [] = false /\
  copyDirectory os quiet documents ["Doc*"] [] fresh = (None, mkCopyState [["Documents"]] 1) /\
  copyDirectory os quiet documents ["Documents"] [] fresh =
    (None, mkCopyState [["Documents"]; ["Documents"; "a.txt"];
                        ["Documents"; "sub"]; ["Documents"; "sub"; "b.txt"]] 4).
Proof. destruct os; vm_compute; repeat split. Qed.

End CopyFacts.

(** ** Retention *)

Module RetentionFacts.
Import GoStrings Config Retention.
Local Open Scope list_scope.

(** *** The byte-wise order of names *)

Lemma compare_trans_not_gt (a : string) :
  forall b c, String.compare a b <> Gt -> String.compare b c <> Gt ->
              String.compare a c <> Gt.
Proof.
  induction a as [|x a IH]; intros [|y b] [|z c]; cbn [String.compare];
    try congruence.
  unfold Ascii.compare.
  destruct (N.compare_spec (N_of_ascii x) (N_of_ascii y)) as [E1|L1|G1];
    destruct (N.compare_spec (N_of_ascii y) (N_of_ascii z)) as [E2|L2|G2];
    intros H1 H2; try congruence.
  - rewrite E1, E2, N.compare_refl. now apply (IH b c).
  - assert (H : N.compare (N_of_ascii x) (N_of_ascii z) = Lt)
      by (apply N.compare_lt_iff; lia).
    rewrite H. discriminate.
  - assert (H : N.compare (N_of_ascii x) (N_of_ascii z) = Lt)
      by (apply N.compare_lt_iff; lia).
    rewrite H. discriminate.
  - assert (H : N.compare (N_of_ascii x) (N_of_ascii z) = Lt)
      by (apply N.compare_lt_iff; lia).
    rewrite H. discriminate.
Qed.

Lemma leb_not_gt (a b : string) : String.leb a b = true <-> String.compare a b <> Gt.
Proof. unfold String.leb. destruct (String.compare a b); split; congruence. Qed.

Lemma leb_trans (a b c : string) :
  String.leb a b = true -> String.leb b c = true -> String.leb a c = true.
Proof. rewrite !leb_not_gt. apply compare_trans_not_gt. Qed.

Lemma nameLe_trans (a b c : DirEntry) : nameLe a b -> nameLe b c -> nameLe a c.
Proof. apply leb_trans. Qed.

Lemma nameLe_total (a b : DirEntry) : nameLe a b \/ nameLe b a.
Proof. apply String.leb_total. Qed.

(** *** The sort of os.ReadDir *)

Lemma insertByName_perm (e : DirEntry) (l : list DirEntry) :
  Permutation (insertByName e l) (e :: l).
Proof.
  induction l as [|x l IH]; cbn [insertByName]; [reflexivity|].
  destruct (nameLeb e x); [reflexivity|].
  rewrite IH. apply perm_swap.
Qed.

Lemma sortByName_perm (l : list DirEntry) : Permutation (sortByName l) l.
Proof.
  induction l as [|e l IH]; cbn [sortByName]; [reflexivity|].
  rewrite insertByName_perm. now constructor.
Qed.

Lemma insertByName_sorted (e : DirEntry) (l : list DirEntry) :
  StronglySorted nameLe l -> StronglySorted nameLe (insertByName e l).
Proof.
  induction l as [|x l IH]; intros Hs; cbn [insertByName].
  - repeat constructor.
  - inversion Hs as [|? ? Hl Hx]; subst.
    destruct (nameLeb e x) eqn:Hex.
    + constructor; [exact Hs|]. constructor; [exact Hex|].
      rewrite Forall_forall in *. intros y Hy. apply (nameLe_trans e x y Hex (Hx y Hy)).
    + constructor; [now apply IH|].
      rewrite Forall_forall in *. intros y Hy.
      apply (Permutation_in _ (insertByName_perm e l)) in Hy as [<-|Hy]; [|now apply Hx].
      destruct (nameLe_total e x) as [H|H]; [unfold nameLe in H; congruence | exact H].
Qed.

Lemma sortByName_sorted (l : list DirEntry) : StronglySorted nameLe (sortByName l).
Proof.
  induction l as [|e l IH]; cbn [sortByName]; [constructor|].
  now apply insertByName_sorted.
Qed.

Lemma filter_sorted (f : DirEntry -> bool) (l : list DirEntry) :
  StronglySorted nameLe l -> StronglySorted nameLe (filter f l).
Proof.
  induction 1 as [|x l Hl IH Hx]; cbn [filter]; [constructor|].
  destruct (f x); [|exact IH]. constructor; [exact IH|].
  rewrite Forall_forall in *. intros y Hy. apply filter_In in Hy as [Hy _]. now apply Hx.
Qed.

(** In a sorted list whatever comes first is below whatever comes after. *)
Lemma sorted_firstn_skipn (l : list DirEntry) :
  StronglySorted nameLe l ->
  forall n a b, In a (firstn n l) -> In b (skipn n l) -> nameLe a b.
Proof.
  induction 1 as [|x l Hl IH Hx]; intros [|n] a b Ha Hb; cbn in Ha, Hb; try contradiction.
  destruct Ha as [<-|Ha].
  - rewrite Forall_forall in Hx. apply Hx.
    rewrite <- (firstn_skipn n l). apply in_or_app. now right.
  - now apply (IH n).
Qed.

(** *** Paths *)

Lemma stripPrefix_spec (dir : path) :
  forall q rest, stripPrefix dir q = Some rest <-> q = dir ++ rest.
Proof.
  induction dir as [|d dir IH]; intros q rest; cbn [stripPrefix List.app].
  - split; [now intros [= ->] | now intros ->].
  - destruct q as [|n q]; [split; discriminate|].
    destruct (String.eqb_spec d n) as [->|Hne].
    + rewrite IH. split; [now intros -> | now intros [= ->]].
    + split; [discriminate | intros [= <- _]; contradiction].
Qed.

Lemma under_spec (dir q : path) : under dir q = true <-> exists rest, q = dir ++ rest.
Proof.
  unfold under. destruct (stripPrefix dir q) as [rest|] eqn:H.
  - apply stripPrefix_spec in H. split; [now exists rest | reflexivity].
  - split; [discriminate|]. intros [rest Hq]. apply stripPrefix_spec in Hq. congruence.
Qed.

Lemma under_child_injective (root q : path) (a b : string) :
  under (root ++ [a]) q = true -> under (root ++ [b]) q = true -> a = b.
Proof.
  rewrite !under_spec. intros [r1 ->] [r2 H].
  rewrite <- !app_assoc in H. apply app_inv_head in H. now injection H.
Qed.

Lemma not_under_outside (root q : path) (name : string) :
  under root q = false -> under (root ++ [name]) q = false.
Proof.
  intros H. destruct (under (root ++ [name]) q) eqn:Hu; [|reflexivity].
  apply under_spec in Hu as [rest ->]. rewrite <- app_assoc in H.
  assert (Ht : under root (root ++ [name] ++ rest) = true) by (apply under_spec; now eexists).
  congruence.
Qed.

Lemma childrenOf_In (dir : path) (fs : fileSystem) (name : string) (d : bool) :
  In (name, d) (childrenOf dir fs) <-> In (dir ++ [name], d) fs.
Proof.
  induction fs as [|[q d'] fs IH]; cbn [childrenOf]; [tauto|].
  destruct (stripPrefix dir q) as [rest|] eqn:Hs.
  - apply stripPrefix_spec in Hs. subst q.
    assert (Heq : (dir ++ rest, d') = (dir ++ [name], d) <-> rest = [name] /\ d' = d).
    { split; [intros [= H1 H2]; apply app_inv_head in H1; auto | now intros [-> ->]]. }
    destruct rest as [|n [|n' rest]]; cbn [In]; rewrite IH, Heq.
    + assert (~ (@nil string = [name] /\ d' = d)) by (intros [? _]; discriminate). tauto.
    + assert ((n, d') = (name, d) <-> [n] = [name] /\ d' = d)
        by (split; [now intros [= -> ->] | now intros [[= ->] ->]]).
      tauto.
    + assert (~ (n :: n' :: rest = [name] /\ d' = d)) by (intros [? _]; discriminate). tauto.
  - cbn [In]. rewrite IH. split; [now right|]. intros [H|H]; [|exact H].
    injection H as -> _.
    assert (Hq : stripPrefix dir (dir ++ [name]) = Some [name]) by now apply stripPrefix_spec.
    congruence.
Qed.

Lemma childrenOf_names_NoDup (dir : path) (fs : fileSystem) :
  NoDup (map fst fs) -> NoDup (map Name (childrenOf dir fs)).
Proof.
  induction fs as [|[q d] fs IH]; intros Hnd; cbn [childrenOf]; [constructor|].
  cbn [map fst] in Hnd. inversion Hnd as [|? ? Hq Hfs]; subst.
  destruct (stripPrefix dir q) as [[|n [|n' rest]]|] eqn:Hs; try now apply IH.
  cbn [map Name fst]. constructor; [|now apply IH].
  intros Hin. apply in_map_iff in Hin as [[n0 d0] [Hn Hin]]. cbn [Name fst] in Hn. subst n0.
  apply childrenOf_In in Hin. apply stripPrefix_spec in Hs. subst q.
  apply Hq. apply in_map_iff. now exists (dir ++ [n], d0).
Qed.

Lemma filter_names_NoDup (f : DirEntry -> bool) (l : list DirEntry) :
  NoDup (map Name l) -> NoDup (map Name (filter f l)).
Proof.
  induction l as [|x l IH]; intros Hnd; cbn [filter]; [constructor|].
  cbn [map] in Hnd. inversion Hnd as [|? ? Hx Hl]; subst.
  destruct (f x); [|now apply IH]. cbn [map]. constructor; [|now apply IH].
  intros Hin. apply Hx. apply in_map_iff in Hin as [y [Hy Hin]].
  apply filter_In in Hin as [Hin _]. apply in_map_iff. now exists y.
Qed.

Lemma firstn_skipn_names (l : list DirEntry) :
  NoDup (map Name l) ->
  forall n a b, In a (firstn n l) -> In b (skipn n l) -> Name a <> Name b.
Proof.
  induction l as [|x l IH]; intros Hnd [|n] a b Ha Hb; cbn in Ha, Hb; try contradiction.
  cbn [map] in Hnd. inversion Hnd as [|? ? Hx Hl]; subst.
  destruct Ha as [<-|Ha]; [|now apply (IH Hl n)].
  intros Heq. apply Hx. rewrite Heq. apply in_map.
  rewrite <- (firstn_skipn n l). apply in_or_app. now right.
Qed.

(** The backup directories among the sorted entries of the root: sorted,
    and with distinct names when the paths of the file system are. *)
Lemma backupDirs_sorted (root : path) (fs : fileSystem) :
  StronglySorted nameLe (filter isBackupDir (sortByName (childrenOf root fs))).
Proof. apply filter_sorted, sortByName_sorted. Qed.

Lemma backupDirs_names_NoDup (root : path) (fs : fileSystem) :
  NoDup (map fst fs) ->
  NoDup (map Name (filter isBackupDir (sortByName (childrenOf root fs)))).
Proof.
  intros Hnd. apply filter_names_NoDup.
  apply (Permutation_NoDup (l := map Name (childrenOf root fs))).
  - apply Permutation_map. symmetry. apply sortByName_perm.
  - now apply childrenOf_names_NoDup.
Qed.

(** Every backup directory is a directory entry of the root whose name
    starts with "smbkp-". *)
Lemma backupDirs_In (root : path) (fs : fileSystem) (d : DirEntry) :
  In d (filter isBackupDir (sortByName (childrenOf root fs))) ->
  In (root ++ [Name d], true) fs /\ HasPrefix (Name d) "smbkp-" = true.
Proof.
  intros Hin. apply filter_In in Hin as [Hin Hb].
  apply (Permutation_in _ (sortByName_perm _)) in Hin.
  unfold isBackupDir in Hb. apply andb_prop in Hb as [Hdir Hpre].
  destruct d as [name isdir]. cbn [Name IsDir fst snd] in *. subst isdir.
  split; [now apply childrenOf_In | exact Hpre].
Qed.

(** *** os.RemoveAll and the loop over the oldest *)

Section Cleanup.

Variable w : World.

Lemma RemoveAll_subset (p : path) (fs : fileSystem) (e : path * bool) :
  In e (snd (RemoveAll w p fs)) -> In e fs.
Proof.
  unfold RemoveAll. destruct (os_RemoveAll w p); cbn [snd];
    intros H; now apply filter_In in H.
Qed.

Lemma RemoveAll_keeps (p : path) (fs : fileSystem) (e : path * bool) :
  In e fs -> under p (fst e) = false -> In e (snd (RemoveAll w p fs)).
Proof.
  intros Hin Hu. unfold RemoveAll. destruct (os_RemoveAll w p); cbn [snd];
    apply filter_In; (split; [exact Hin | now rewrite Hu]).
Qed.

Lemma RemoveAll_removed (p : path) (fs : fileSystem) :
  os_RemoveAll w p = Removed ->
  RemoveAll w p fs = (None, filter (fun e => negb (under p (fst e))) fs).
Proof. unfold RemoveAll. now intros ->. Qed.

Lemma removalsOf_app (a b : list logged) : removalsOf (a ++ b) = removalsOf a ++ removalsOf b.
Proof.
  induction a as [|x a IH]; [reflexivity|].
  destruct x; cbn [List.app removalsOf]; now rewrite IH.
Qed.

Lemma filter_filter (f g : path * bool -> bool) (l : fileSystem) :
  filter g (filter f l) = filter (fun e => f e && g e) l.
Proof.
  induction l as [|x l IH]; [reflexivity|]. cbn [filter].
  destruct (f x); cbn [filter andb]; [destruct (g x)|]; now rewrite IH.
Qed.

(** The loop asks for the removal of each of the directories it is given,
    in order, whether the removals succeed or not; it removes nothing that
    is not under one of them. *)
Lemma removeOldest_spec (root : path) (dirs : list DirEntry) :
  forall (fs : fileSystem) (log : list logged),
    let fs' := fst (removeOldest w root dirs fs log) in
    let log' := snd (removeOldest w root dirs fs log) in
    removalsOf log' = removalsOf log ++ map (fun d => root ++ [Name d]) dirs /\
    (forall e, In e fs' -> In e fs) /\
    (forall e, In e fs ->
               (forall d, In d dirs -> under (root ++ [Name d]) (fst e) = false) ->
               In e fs') /\
    ((forall d, In d dirs -> os_RemoveAll w (root ++ [Name d]) = Removed) ->
     fs' = filter (fun e => negb (existsb (fun d => under (root ++ [Name d]) (fst e)) dirs))
                  fs).
Proof.
  induction dirs as [|d dirs IH]; intros fs log; cbn [removeOldest fst snd map existsb].
  - rewrite app_nil_r. repeat split; auto.
    intros _. induction fs as [|x fs IHfs]; [reflexivity|].
    cbn [filter negb]. now f_equal.
  - set (dirPath := root ++ [Name d]).
    pose proof (RemoveAll_subset dirPath fs) as Hsub.
    pose proof (RemoveAll_keeps dirPath fs) as Hkeep.
    pose proof (RemoveAll_removed dirPath fs) as Hgone.
    destruct (RemoveAll w dirPath fs) as [[err|] fs1];
      cbn [snd] in Hsub, Hkeep;
      [ specialize (IH fs1 ((log ++ [LogRemoving dirPath]) ++ [LogRemoveFailed dirPath]))
      | specialize (IH fs1 (log ++ [LogRemoving dirPath])) ];
      cbn zeta in IH; destruct IH as [IHlog [IHsub [IHkeep IHall]]];
      (split; [|split; [|split]]).
    + rewrite IHlog, !removalsOf_app. cbn [removalsOf].
      now rewrite ?app_nil_r, <- ?app_assoc.
    + intros e He. apply Hsub, IHsub, He.
    + intros e He Hu. apply IHkeep.
      * apply Hkeep; [exact He | apply Hu; now left].
      * intros d' Hd'. apply Hu. now right.
    + intros Hok. specialize (Hgone (Hok d (or_introl eq_refl))). discriminate Hgone.
    + rewrite IHlog, !removalsOf_app. cbn [removalsOf].
      now rewrite ?app_nil_r, <- ?app_assoc.
    + intros e He. apply Hsub, IHsub, He.
    + intros e He Hu. apply IHkeep.
      * apply Hkeep; [exact He | apply Hu; now left].
      * intros d' Hd'. apply Hu. now right.
    + intros Hok. rewrite IHall by (intros d' Hd'; apply Hok; now right).
      specialize (Hgone (Hok d (or_introl eq_refl))). injection Hgone as ->.
      rewrite filter_filter. apply filter_ext.
      intros e. fold dirPath. now rewrite negb_orb.
Qed.

(** The three ways cleanupOldBackups goes. *)
Lemma cleanup_cases (root : path) (keep : Z) (fs : fileSystem) :
  let backupDirs := filter isBackupDir (sortByName (childrenOf root fs)) in
  let count := Z.of_nat (List.length backupDirs) in
  let doomed := firstn (Z.to_nat (count - keep)) backupDirs in
  (forall err, readDirError w root = Some err ->
               cleanupOldBackups w root keep fs = (None, fs, [LogCleanupFailed err])) /\
  (readDirError w root = None -> count <= keep ->
   cleanupOldBackups w root keep fs = (None, fs, [])) /\
  (readDirError w root = None -> keep < count ->
   cleanupOldBackups w root keep fs =
   (None, fst (removeOldest w root doomed fs []), snd (removeOldest w root doomed fs []))).
Proof.
  intros backupDirs count doomed. unfold cleanupOldBackups, os_ReadDir.
  split; [|split].
  - now intros err ->.
  - intros -> Hle. fold backupDirs. fold count.
    destruct (Z.leb_spec count keep); [reflexivity | lia].
  - intros -> Hlt. fold backupDirs. fold count. fold doomed.
    destruct (Z.leb_spec count keep); [lia|].
    now destruct (removeOldest w root doomed fs []).
Qed.

End Cleanup.

(** C6. cleanupOldBackups always returns a nil error.  When the listing of
    the backup root fails nothing is removed.  Otherwise, with [count] the
    number of directories of the root whose names start with "smbkp-": if
    [count <= keep] nothing is asked for and nothing changes; if not,
    os.RemoveAll is asked for exactly the [count - keep] of them that come
    first in the order of names, one after the other whether the removals
    succeed or fail; the [keep] others have greater names and nothing in
    them is lost; and when every removal succeeds the file system is left
    with exactly what was not under the removed ones. *)
Theorem cleanup_removes_the_oldest (w : World) (root : path) (keep : Z) (fs : fileSystem) :
  0 <= keep ->
  NoDup (map fst fs) ->
  let backupDirs := filter isBackupDir (sortByName (childrenOf root fs)) in
  let count := Z.of_nat (List.length backupDirs) in
  let doomed := firstn (Z.to_nat (count - keep)) backupDirs in
  let kept := skipn (Z.to_nat (count - keep)) backupDirs in
  let result := cleanupOldBackups w root keep fs in
  let fs' := snd (fst result) in
  let log := snd result in
  fst (fst result) = None /\
  (forall err, readDirError w root = Some err -> fs' = fs /\ removalsOf log = []) /\
  (readDirError w root = None ->
   (count <= keep -> fs' = fs /\ log = []) /\
   (keep < count ->
    removalsOf log = map (fun d => root ++ [Name d]) doomed /\
    Z.of_nat (List.length doomed) = count - keep /\
    Z.of_nat (List.length kept) = keep /\
    (forall a b, In a doomed -> In b kept ->
                 String.leb (Name a) (Name b) = true /\ Name a <> Name b) /\
    (forall b e, In b kept -> In e fs -> under (root ++ [Name b]) (fst e) = true ->
                 In e fs') /\
    ((forall d, In d doomed -> os_RemoveAll w (root ++ [Name d]) = Removed) ->
     fs' = filter (fun e => negb (existsb (fun d => under (root ++ [Name d]) (fst e)) doomed))
                  fs))).
Proof.
  intros Hkeep Hnd backupDirs count doomed kept result fs' log.
  destruct (cleanup_cases w root keep fs) as [Hfail [Hfew Hmany]].
  fold backupDirs in Hfail, Hfew, Hmany. fold count in Hfew, Hmany. fold doomed in Hmany.
  split; [|split].
  - unfold result. destruct (readDirError w root) as [err|] eqn:Hrd.
    + now rewrite (Hfail err eq_refl).
    + destruct (Z.le_gt_cases count keep) as [Hle|Hgt].
      * now rewrite (Hfew eq_refl Hle).
      * now rewrite (Hmany eq_refl Hgt).
  - intros err Herr. unfold fs', log, result. now rewrite (Hfail err Herr).
  - intros Hrd. split.
    + intros Hle. unfold fs', log, result. now rewrite (Hfew Hrd Hle).
    + intros Hgt. unfold fs', log, result. rewrite (Hmany Hrd Hgt). cbn [fst snd].
      destruct (removeOldest_spec w root doomed fs []) as [Hlog [_ [Hstay Hall]]].
      assert (Hlen : Z.of_nat (List.length doomed) = count - keep).
      { unfold doomed. rewrite length_firstn. unfold count in *. lia. }
      split; [exact Hlog|]. split; [exact Hlen|]. split; [|split; [|split]].
      * unfold kept. rewrite length_skipn. unfold count in *. lia.
      * intros a b Ha Hb. split.
        -- apply (sorted_firstn_skipn backupDirs (backupDirs_sorted root fs) _ a b Ha Hb).
        -- apply (firstn_skipn_names backupDirs (backupDirs_names_NoDup root fs Hnd) _ a b Ha Hb).
      * intros b e Hb He Hu. apply Hstay; [exact He|].
        intros d Hd. destruct (under (root ++ [Name d]) (fst e)) eqn:Hud; [|reflexivity].
        exfalso.
        apply (firstn_skipn_names backupDirs (backupDirs_names_NoDup root fs Hnd) _ d b Hd Hb).
        apply (under_child_injective root (fst e) _ _ Hud Hu).
      * exact Hall.
Qed.

Lemma fiveRuns_paths_distinct : NoDup (map fst Scenario.fiveRuns).
Proof.
  assert (H : nodup (list_eq_dec string_dec) (map fst Scenario.fiveRuns)
              = map fst Scenario.fiveRuns) by (vm_compute; reflexivity).
  rewrite <- H. apply NoDup_nodup.
Qed.

Lemma cleanup_removes_the_oldest_witness :
  let result := cleanupOldBackups Scenario.obliging ["bk"] 3 Scenario.fiveRuns in
  fst (fst result) = None /\
  removalsOf (snd result) =
    [["bk"; "smbkp-20240101-210000"]; ["bk"; "smbkp-20240102-210000"]] /\
  snd (fst result) =
    [ (["bk"], true);
      (["bk"; "smbkp-20240103-210000"], true);
      (["bk"; "smbkp-20240105-210000"], true);
      (["bk"; "smbkp-20240105-210000"; "a"], false);
      (["bk"; "smbkp-20240104-210000"], true);
      (["bk"; "smbkp-notes.txt"], false);
      (["bk"; "other"], true);
      (["home"; "smbkp-20230101-000000"], true) ].
Proof.
  pose proof (cleanup_removes_the_oldest Scenario.obliging ["bk"] 3 Scenario.fiveRuns
                ltac:(discriminate) fiveRuns_paths_distinct) as H.
  cbv zeta in H. destruct H as [Herr [_ H]].
  destruct (H eq_refl) as [_ Hmany].
  destruct (Hmany eq_refl) as [Hlog [_ [_ [_ [_ Hall]]]]].
  cbv zeta. split; [exact Herr|]. split; [exact Hlog|].
  exact (Hall (fun _ _ => eq_refl)).
Defined.

(** A removal that fails is logged and the next one is still asked for;
    the error returned is nil all the same. *)
Lemma cleanup_goes_on_after_a_failure :
  cleanupOldBackups Scenario.stubborn ["bk"] 3 Scenario.fiveRuns =
  (None,
   [ (["bk"], true);
     (["bk"; "smbkp-20240103-210000"], true);
     (["bk"; "smbkp-20240101-210000"], true);
     (["bk"; "smbkp-20240101-210000"; "a"], false);
     (["bk"; "smbkp-20240105-210000"], true);
     (["bk"; "smbkp-20240105-210000"; "a"], false);
     (["bk"; "smbkp-20240104-210000"], true);
     (["bk"; "smbkp-notes.txt"], false);
     (["bk"; "other"], true);
     (["home"; "smbkp-20230101-000000"], true) ],
   [ LogRemoving ["bk"; "smbkp-20240101-210000"];
     LogRemoveFailed ["bk"; "smbkp-20240101-210000"];
     LogRemoving ["bk"; "smbkp-20240102-210000"] ]).
Proof. vm_compute. reflexivity. Qed.

(** C10. Whatever the state of the file system, the retention count and
    the answers of the operating system, cleanupOldBackups asks os.RemoveAll
    only for entries directly in the backup root that are directories and
    whose names start with "smbkp-"; it adds nothing; whatever it removes
    lies at or under such a directory; so everything outside the backup
    root stays, and so does (paths being distinct) everything at or under
    an entry of the root that is not a directory or whose name does not
    start with "smbkp-". *)
Theorem cleanup_only_removes_backup_directories
    (w : World) (root : path) (keep : Z) (fs : fileSystem) :
  let result := cleanupOldBackups w root keep fs in
  let fs' := snd (fst result) in
  let log := snd result in
  (forall p, In p (removalsOf log) ->
             exists name, p = root ++ [name] /\ HasPrefix name "smbkp-" = true /\
                          In (root ++ [name], true) fs) /\
  (forall e, In e fs' -> In e fs) /\
  (forall e, In e fs -> ~ In e fs' ->
             exists name, under (root ++ [name]) (fst e) = true /\
                          HasPrefix name "smbkp-" = true /\
                          In (root ++ [name], true) fs) /\
  (forall e, In e fs -> under root (fst e) = false -> In e fs') /\
  (NoDup (map fst fs) ->
   forall e name rest,
     In e fs -> fst e = root ++ name :: rest ->
     In (root ++ [name], false) fs \/ HasPrefix name "smbkp-" = false ->
     In e fs').
Proof.
  intros result fs' log.
  set (backupDirs := filter isBackupDir (sortByName (childrenOf root fs))).
  set (doomed := firstn (Z.to_nat (Z.of_nat (List.length backupDirs) - keep)) backupDirs).
  assert (Hdoomed : forall d, In d doomed ->
                      In (root ++ [Name d], true) fs /\ HasPrefix (Name d) "smbkp-" = true).
  { intros d Hd. apply backupDirs_In. fold backupDirs.
    rewrite <- (firstn_skipn (Z.to_nat (Z.of_nat (List.length backupDirs) - keep)) backupDirs).
    apply in_or_app. now left. }
  assert (Hshape : (fs' = fs /\ removalsOf log = []) \/
                   (fs' = fst (removeOldest w root doomed fs []) /\
                    log = snd (removeOldest w root doomed fs []))).
  { destruct (cleanup_cases w root keep fs) as [Hfail [Hfew Hmany]].
    fold backupDirs in Hfew, Hmany. fold doomed in Hmany.
    unfold fs', log, result.
    destruct (readDirError w root) as [err|] eqn:Hrd.
    - left. now rewrite (Hfail err eq_refl).
    - destruct (Z.le_gt_cases (Z.of_nat (List.length backupDirs)) keep) as [Hle|Hgt].
      + left. now rewrite (Hfew eq_refl Hle).
      + right. now rewrite (Hmany eq_refl Hgt). }
  assert (Hremoved : forall e, In e fs -> ~ In e fs' ->
                       exists name, under (root ++ [name]) (fst e) = true /\
                                    HasPrefix name "smbkp-" = true /\
                                    In (root ++ [name], true) fs).
  { intros e He Hgone. destruct Hshape as [[Hfs _]|[Hfs _]]; [now rewrite Hfs in Hgone|].
    destruct (removeOldest_spec w root doomed fs []) as [_ [_ [Hstay _]]].
    destruct (existsb (fun d => under (root ++ [Name d]) (fst e)) doomed) eqn:Hex.
    - apply existsb_exists in Hex as [d [Hd Hu]]. exists (Name d).
      destruct (Hdoomed d Hd) as [Hin Hpre]. now repeat split.
    - exfalso. apply Hgone. rewrite Hfs. apply Hstay; [exact He|].
      intros d Hd. destruct (under (root ++ [Name d]) (fst e)) eqn:Hu; [|reflexivity].
      assert (Ht : existsb (fun d => under (root ++ [Name d]) (fst e)) doomed = true)
        by (apply existsb_exists; now exists d).
      congruence. }
  assert (Hdec : forall e, In e fs' \/ ~ In e fs').
  { intros e. destruct (in_dec (fun a b : path * bool =>
                                  ltac:(decide equality; [apply Bool.bool_dec |
                                        apply (list_eq_dec string_dec)])) e fs'); auto. }
  split; [|split; [|split; [exact Hremoved|split]]].
  - intros p Hp. destruct Hshape as [[_ Hlog]|[_ Hlog]]; [now rewrite Hlog in Hp|].
    destruct (removeOldest_spec w root doomed fs []) as [Hrm _].
    rewrite Hlog, Hrm in Hp. cbn [removalsOf List.app] in Hp.
    apply in_map_iff in Hp as [d [<- Hd]]. exists (Name d).
    destruct (Hdoomed d Hd) as [Hin Hpre]. now repeat split.
  - intros e He. destruct Hshape as [[Hfs _]|[Hfs _]]; rewrite Hfs in He; [exact He|].
    destruct (removeOldest_spec w root doomed fs []) as [_ [Hsub _]]. now apply Hsub.
  - intros e He Hout. destruct (Hdec e) as [Hin|Hgone]; [exact Hin|].
    destruct (Hremoved e He Hgone) as [name [Hu _]].
    rewrite (not_under_outside root (fst e) name Hout) in Hu. discriminate.
  - intros Hnd e name rest He Hpath Hwhy. destruct (Hdec e) as [Hin|Hgone]; [exact Hin|].
    destruct (Hremoved e He Hgone) as [name' [Hu [Hpre Hdir]]].
    assert (Hu' : under (root ++ [name]) (fst e) = true).
    { apply under_spec. exists rest. rewrite Hpath, <- app_assoc. reflexivity. }
    pose proof (under_child_injective root (fst e) name' name Hu Hu') as ->.
    destruct Hwhy as [Hfile|Hnopre]; [|congruence].
    exfalso. clear - Hnd Hfile Hdir.
    induction fs as [|[q d] fs0 IH]; [contradiction|].
    cbn [map fst] in Hnd. inversion Hnd as [|? ? Hq Hrest]; subst.
    destruct Hfile as [Hf|Hf]; destruct Hdir as [Hd|Hd].
    + congruence.
    + injection Hf as -> _. apply Hq. apply in_map_iff. now exists (root ++ [name], true).
    + injection Hd as -> _. apply Hq. apply in_map_iff. now exists (root ++ [name], false).
    + now apply IH.
Qed.

Lemma cleanup_only_removes_backup_directories_witness :
  In (["bk"; "smbkp-notes.txt"], false)
     (snd (fst (cleanupOldBackups Scenario.obliging ["bk"] 0 Scenario.fiveRuns))) /\
  In (["home"; "smbkp-20230101-000000"], true)
     (snd (fst (cleanupOldBackups Scenario.obliging ["bk"] 0 Scenario.fiveRuns))).
Proof.
  pose proof (cleanup_only_removes_backup_directories
                Scenario.obliging ["bk"] 0 Scenario.fiveRuns) as H.
  cbv zeta in H. destruct H as [_ [_ [_ [Hout Hin]]]]. split.
  - apply (Hin fiveRuns_paths_distinct _ "smbkp-notes.txt"%string []).
    + cbn. tauto.
    + reflexivity.
    + left. cbn. tauto.
  - apply Hout; [cbn; tauto | reflexivity].
Defined.

End RetentionFacts.

Module SummaryFacts.
Import GoStrings Config Helpers Announce Run Vocabulary StringFacts RunFacts Summary Scenario.
Local Open Scope list_scope.

Section Loop.

Variable w : World.
Variable app : BackupApp.

Lemma agrees_failed (t : Tally) (item : BackupItem) (e : error) (d : Z) :
  agrees t ->
  agrees (mkTally (results t ++ [mkBackupResult item false (Some e) d])
                  (failedCount t + 1) (successCount t) (totalCount t + 1)).
Proof.
  intros [Ht [Hs [Hf Hall]]]. unfold agrees, successes, failures in *.
  cbn [results failedCount successCount totalCount].
  rewrite !filter_app, !List.length_app. cbn [filter List.length Success negb].
  repeat split; try lia.
  apply Forall_app. split; [exact Hall|]. constructor; [|constructor].
  cbn. split; discriminate.
Qed.

Lemma agrees_succeeded (t : Tally) (item : BackupItem) (d : Z) :
  agrees t ->
  agrees (mkTally (results t ++ [mkBackupResult item true None d])
                  (failedCount t) (successCount t + 1) (totalCount t + 1)).
Proof.
  intros [Ht [Hs [Hf Hall]]]. unfold agrees, successes, failures in *.
  cbn [results failedCount successCount totalCount].
  rewrite !filter_app, !List.length_app. cbn [filter List.length Success negb].
  repeat split; try lia.
  apply Forall_app. split; [exact Hall|]. constructor; [|constructor].
  cbn. now split.
Qed.

Lemma agrees_before_panic (t : Tally) :
  agrees t ->
  agrees (mkTally (results t) (failedCount t) (successCount t) (totalCount t + 1 - 1)).
Proof.
  replace (totalCount t + 1 - 1) with (totalCount t) by lia. now destruct t.
Qed.

(** The loop keeps the counters and the results in step, takes the items
    in order, and stops only after a failed item, or at an item whose
    announcement panics, [totalCount] then being one ahead. *)
Lemma backupLoop_agrees (items : list BackupItem) :
  forall (i : nat) (t : Tally) (io : Io),
    agrees t ->
    let '(t', r, io') := backupLoop w app i items t io in
    (exists done post,
       items = done ++ post /\
       map Item (results t') = map Item (results t) ++ done /\
       wideFrom w i (i + List.length done) /\
       (r = None -> post = []) /\
       (r = Some Panicked ->
        post <> [] /\ getTerminalWidth w (i + List.length done) < 6)) /\
    (r <> Some Panicked -> agrees t') /\
    (r = Some Panicked ->
     agrees (mkTally (results t') (failedCount t') (successCount t') (totalCount t' - 1))) /\
    (forall e, r = Some (Failed e) -> failedCount t < failedCount t').
Proof.
  assert (Hcons : forall (i : nat) (item : BackupItem) (done : list BackupItem),
             6 <= getTerminalWidth w i ->
             wideFrom w (S i) (S i + List.length done) ->
             wideFrom w i (i + List.length (item :: done))).
  { intros i item done Hwi Hw k Hk. cbn [List.length] in Hk.
    destruct (Nat.eq_dec k i) as [-> | Hne]; [exact Hwi | apply Hw; lia]. }
  assert (Hone : forall (i : nat) (item : BackupItem), 6 <= getTerminalWidth w i ->
                                wideFrom w i (i + List.length [item])).
  { intros i item Hwi k Hk. cbn [List.length] in Hk.
    replace k with i by lia. exact Hwi. }
  assert (Hnext : forall i t t1 io1 item items,
             6 <= getTerminalWidth w i ->
             failedCount t <= failedCount t1 ->
             map Item (results t1) = map Item (results t) ++ [item] ->
             (let '(t', r, io') := backupLoop w app (S i) items t1 io1 in
              (exists done post,
                 items = done ++ post /\
                 map Item (results t') = map Item (results t1) ++ done /\
                 wideFrom w (S i) (S i + List.length done) /\
                 (r = None -> post = []) /\
                 (r = Some Panicked ->
                  post <> [] /\ getTerminalWidth w (S i + List.length done) < 6)) /\
              (r <> Some Panicked -> agrees t') /\
              (r = Some Panicked ->
               agrees (mkTally (results t') (failedCount t') (successCount t')
                               (totalCount t' - 1))) /\
              (forall e, r = Some (Failed e) -> failedCount t1 < failedCount t')) ->
             (let '(t', r, io') := backupLoop w app (S i) items t1 io1 in
              (exists done post,
                 item :: items = done ++ post /\
                 map Item (results t') = map Item (results t) ++ done /\
                 wideFrom w i (i + List.length done) /\
                 (r = None -> post = []) /\
                 (r = Some Panicked ->
                  post <> [] /\ getTerminalWidth w (i + List.length done) < 6)) /\
              (r <> Some Panicked -> agrees t') /\
              (r = Some Panicked ->
               agrees (mkTally (results t') (failedCount t') (successCount t')
                               (totalCount t' - 1))) /\
              (forall e, r = Some (Failed e) -> failedCount t < failedCount t'))).
  { intros i t t1 io1 item its Hwi Hle Hmap1 IH.
    destruct (backupLoop w app (S i) its t1 io1) as [[t' r] io'].
    destruct IH as [[done [post [-> [Hmap [Hw [Hpost Hpanic]]]]]] [Hag' [Hagp Hfail]]].
    split; [|split; [exact Hag' | split; [exact Hagp|]]].
    - exists (item :: done), post. split; [reflexivity|].
      split; [rewrite Hmap, Hmap1, <- app_assoc; reflexivity|].
      split; [now apply Hcons|]. split; [exact Hpost|].
      cbn [List.length].
      replace (i + S (List.length done))%nat with (S i + List.length done)%nat by lia.
      exact Hpanic.
    - intros e Hr. specialize (Hfail e Hr). lia. }
  induction items as [|item items IH]; intros i t io Hag.
  - cbn [backupLoop]. split; [|split; [now intros _ | split; discriminate]].
    exists [], []. rewrite !app_nil_r. cbn [List.length].
    repeat split; try discriminate. intros k Hk. lia.
  - assert (Hfc : 0 <= failedCount t).
    { destruct Hag as [_ [_ [-> _]]]. lia. }
    cbn [backupLoop].
    destruct (AnnounceFacts.announcement_cases (getTerminalWidth w i) i
                (List.length (BkpItems (BkpConfig app))) item)
      as [[Hwi [shown ->]] | [Hnarrow ->]].
    2: { cbn [results failedCount successCount totalCount].
         split; [|split; [congruence | split; [|discriminate]]].
         - exists [], (item :: items). rewrite app_nil_r. cbn [List.length List.app].
           rewrite Nat.add_0_r. repeat split; try discriminate; try assumption.
           intros k Hk. lia.
         - intros _. now apply agrees_before_panic. }
    destruct (countTotalItems w i item) as [e|n].
    + set (t1 := mkTally _ _ _ _).
      assert (Hag1 : agrees t1) by now apply agrees_failed.
      assert (Hmap1 : map Item (results t1) = map Item (results t) ++ [item])
        by (cbn [results t1]; now rewrite map_app).
      destruct (haltOnError app _ _ e _) as [[e'|] io1].
      * split; [|split; [now intros _ | split; [discriminate | intros _ _; cbn; lia]]].
        exists [item], items. repeat split; try discriminate; try assumption.
        now apply Hone.
      * apply (Hnext i t t1 io1 item items Hwi); [cbn; lia | exact Hmap1 |].
        apply IH, Hag1.
    + destruct (backupItem w i item) as [e|].
      * set (t1 := mkTally _ _ _ _).
        assert (Hag1 : agrees t1) by now apply agrees_failed.
        assert (Hmap1 : map Item (results t1) = map Item (results t) ++ [item])
          by (cbn [results t1]; now rewrite map_app).
        destruct (haltOnError app _ _ e _) as [[e'|] io1].
        -- split; [|split; [now intros _ | split; [discriminate | intros _ _; cbn; lia]]].
           exists [item], items. repeat split; try discriminate; try assumption.
           now apply Hone.
        -- apply (Hnext i t t1 io1 item items Hwi); [cbn; lia | exact Hmap1 |].
           apply IH, Hag1.
      * set (t1 := mkTally _ _ _ _).
        assert (Hag1 : agrees t1) by now apply agrees_succeeded.
        assert (Hmap1 : map Item (results t1) = map Item (results t) ++ [item])
          by (cbn [results t1]; now rewrite map_app).
        apply (Hnext i t t1 _ item items Hwi); [cbn; lia | exact Hmap1 |].
        apply IH, Hag1.
Qed.

Lemma haltOnError_silent (m1 m2 : string) (e : error) (io : Io) :
  nonInteractive app = true -> snd (haltOnError app m1 m2 e io) = io.
Proof. unfold haltOnError. intros ->. now destruct (exitOnError app). Qed.

Lemma attemptsFrom_no_prompt (items : list BackupItem) (i : nat) :
  Forall (fun ev => isPrompt ev = false) (attemptsFrom w i items).
Proof.
  apply Forall_forall. intros ev Hin.
  destruct (attemptsFrom_indices w items i ev Hin) as [j [_ [-> | ->]]]; reflexivity.
Qed.

(** Unattended, the loop reads nothing from the terminal and asks nothing. *)
Lemma backupLoop_unattended (items : list BackupItem) :
  nonInteractive app = true ->
  forall (i : nat) (t : Tally) (io : Io),
    let io' := snd (backupLoop w app i items t io) in
    stdin io' = stdin io /\
    exists evs, trace io' = trace io ++ evs /\
                Forall (fun ev => isPrompt ev = false) evs.
Proof.
  intros Hnon. induction items as [|item items IH]; intros i t io; cbv zeta.
  - cbn [backupLoop snd]. split; [reflexivity|]. exists []. now rewrite app_nil_r.
  - destruct (Z.lt_ge_cases (getTerminalWidth w i) 6) as [Hnarrow | Hwide].
    { rewrite (backupLoop_panics w app i item items t io Hnarrow). cbn [snd].
      split; [reflexivity|]. exists []. now rewrite app_nil_r. }
    destruct (itemError w i item) as [e|] eqn:Herr.
    + destruct (backupLoop_failure w app i item items t io e Hwide Herr) as [m1 [m2 Hstep]].
      rewrite Hstep.
      pose proof (haltOnError_silent m1 m2 e
                    (mkIo (stdin io) (trace io ++ attemptsFrom w i [item])) Hnon) as Hio.
      destruct (haltOnError app m1 m2 e _) as [[e'|] io1]; cbn [snd] in Hio; subst io1.
      * cbn [snd stdin trace]. split; [reflexivity|].
        exists (attemptsFrom w i [item]). split; [reflexivity | apply attemptsFrom_no_prompt].
      * destruct (IH (S i) (failedTally w i item e t)
                     (mkIo (stdin io) (trace io ++ attemptsFrom w i [item])))
          as [Hin [evs [Hevs Hall]]].
        rewrite Hin, Hevs. cbn [stdin trace]. split; [reflexivity|].
        exists (attemptsFrom w i [item] ++ evs). rewrite app_assoc. split; [reflexivity|].
        apply Forall_app. split; [apply attemptsFrom_no_prompt | exact Hall].
    + assert (Hok : itemFails w i item = false) by (unfold itemFails; now rewrite Herr).
      rewrite (backupLoop_success w app i item items t io Hwide Hok).
      edestruct (IH (S i)) as [Hin [evs [Hevs Hall]]].
      rewrite Hin, Hevs. cbn [stdin trace]. split; [reflexivity|].
      exists (attemptsFrom w i [item] ++ evs). rewrite app_assoc. split; [reflexivity|].
      apply Forall_app. split; [apply attemptsFrom_no_prompt | exact Hall].
Qed.

Lemma failuresFrom_zero (items : list BackupItem) :
  forall i, failuresFrom w i items = 0 -> allSucceedFrom w i items = true.
Proof.
  induction items as [|item items IH]; intros i H; [reflexivity|].
  cbn [failuresFrom allSucceedFrom] in *.
  pose proof (failuresFrom_nonneg w items (S i)) as Hge.
  destruct (itemFails w i item); [lia|]. cbn [negb andb]. apply IH. lia.
Qed.

End Loop.

Lemma partition_length (rs : list BackupResult) :
  (List.length (successes rs) + List.length (failures rs) = List.length rs)%nat.
Proof.
  unfold successes, failures. induction rs as [|r rs IH]; [reflexivity|].
  cbn [filter]. destruct (Success r); cbn [negb List.length]; lia.
Qed.

Lemma agrees_start : agrees (mkTally [] 0 0 0).
Proof. unfold agrees. cbn. repeat split; constructor. Qed.

(** X1. the summary of runBackup.  Whatever the items, the answers of the
    operating system and of the operator: the results are always those of
    the first items of the configuration, in order.  The run panics only
    after the run directory was made, at the announcement of the item that
    follows the ones recorded, for which [getTerminalWidth()] returns less
    than 6, having returned at least 6 for the items before it; the
    counters then agree with the results but for [totalCount], which is
    one ahead.  The run does not panic when [getTerminalWidth()] returns
    at least 6 at every item.  In every run that does not panic, stopped
    early or not, [totalCount] is the number of results recorded,
    [successCount] and [failedCount] are the numbers of results marked as
    a success and as a failure, and they add up to [totalCount]; a result
    is marked as a success exactly when it carries no error.  runBackup
    returns nil exactly when the run directory could be made, no failure
    was counted and [getTerminalWidth()] returned at least 6 at every
    item, in which case every item has a result, all of them marked as
    successes. *)
Theorem summary_agrees_with_results (w : World) (app : BackupApp) (io : Io) :
  let t := fst (fst (runBackup w app io)) in
  let r := snd (fst (runBackup w app io)) in
  let items := BkpItems (BkpConfig app) in
  let recorded := List.length (results t) in
  (exists post, items = map Item (results t) ++ post) /\
  (r = Some Panicked ->
   os_MkdirAll w (runDir w app) = None /\
   (recorded < List.length items)%nat /\
   getTerminalWidth w recorded < 6 /\
   wideFrom w 0 recorded /\
   agrees (mkTally (results t) (failedCount t) (successCount t) (totalCount t - 1)) /\
   successCount t + failedCount t = totalCount t - 1) /\
  (wideFrom w 0 (List.length items) -> r <> Some Panicked) /\
  (r <> Some Panicked ->
   agrees t /\ successCount t + failedCount t = totalCount t) /\
  (r = None <->
   os_MkdirAll w (runDir w app) = None /\ failedCount t = 0 /\
   wideFrom w 0 (List.length items)) /\
  (r = None ->
   map Item (results t) = items /\
   Forall (fun x => Success x = true) (results t)).
Proof.
  intros t r items recorded.
  assert (Hsum : forall t0, agrees t0 -> successCount t0 + failedCount t0 = totalCount t0).
  { intros t0 [Ht [Hs [Hf _]]]. rewrite Ht, Hs, Hf.
    pose proof (partition_length (results t0)). lia. }
  assert (Hall : forall t0, agrees t0 -> failedCount t0 = 0 ->
                            Forall (fun x => Success x = true) (results t0)).
  { intros t0 [_ [_ [Hf _]]] H0. rewrite H0 in Hf. unfold failures in Hf.
    apply Forall_forall. intros x Hx.
    destruct (Success x) eqn:Hsx; [reflexivity|].
    assert (Hin : In x (filter (fun r0 => negb (Success r0)) (results t0)))
      by (apply filter_In; split; [exact Hx | now rewrite Hsx]).
    destruct (filter _ (results t0)); [contradiction | discriminate]. }
  unfold recorded, t, r, items, runBackup. fold (runDir w app).
  destruct (os_MkdirAll w (runDir w app)) as [err|] eqn:Hmk.
  { cbn [fst snd]. split; [now exists (BkpItems (BkpConfig app))|].
    split; [discriminate|]. split; [discriminate|].
    split; [intros _; split; [apply agrees_start | reflexivity]|].
    split; [split; [discriminate | now intros [H _]] | discriminate]. }
  pose proof (backupLoop_agrees w app (BkpItems (BkpConfig app)) 0 (mkTally [] 0 0 0)
                (emit (EvMkdirAll (runDir w app)) io) agrees_start) as Hloop.
  pose proof (backupLoop_done_wide w app (BkpItems (BkpConfig app)) 0 (mkTally [] 0 0 0)
                (emit (EvMkdirAll (runDir w app)) io)) as Hdw.
  destruct (backupLoop w app 0 _ _ _) as [[t1 r1] io1].
  destruct Hloop as [[done [post [Hdone [Hmap [Hw [Hpost Hpanic]]]]]] [Hag [Hagp Hfail]]].
  cbn [results map List.app failedCount Nat.add] in Hmap, Hfail, Hw, Hpanic.
  assert (Hlen : List.length (results t1) = List.length done)
    by now rewrite <- (length_map Item), Hmap.
  assert (Hnopanic : wideFrom w 0 (List.length (BkpItems (BkpConfig app))) ->
                     r1 <> Some Panicked).
  { intros Hwide Hr. destruct (Hpanic Hr) as [Hne Hnarrow].
    assert (6 <= getTerminalWidth w (List.length done)); [|lia].
    apply Hwide. rewrite Hdone, List.length_app.
    destruct post; [contradiction | cbn [List.length]; lia]. }
  destruct r1 as [s|].
  - cbn [fst snd]. split; [exists post; now rewrite Hmap|].
    split.
    { intros Hs. specialize (Hagp Hs). destruct (Hpanic Hs) as [Hne Hnarrow].
      rewrite Hlen. split; [reflexivity|]. split.
      - rewrite Hdone, List.length_app.
        destruct post; [contradiction | cbn [List.length]; lia].
      - split; [exact Hnarrow|]. split; [exact Hw|]. split; [exact Hagp|].
        apply (Hsum _ Hagp). }
    split; [exact Hnopanic|].
    split; [intros Hs; split; [now apply Hag | now apply Hsum, Hag]|].
    split; [|discriminate].
    split; [discriminate|]. intros [_ [H0 Hwide]].
    destruct s as [e|]; [specialize (Hfail e eq_refl); lia | now destruct (Hnopanic Hwide)].
  - specialize (Hpost eq_refl). subst post. rewrite app_nil_r in Hdone.
    specialize (Hag ltac:(discriminate)).
    specialize (Hdw t1 io1 eq_refl). cbn [Nat.add] in Hdw.
    assert (H0 : 0 <= failedCount t1) by (destruct Hag as [_ [_ [-> _]]]; lia).
    destruct (Z.gtb_spec (failedCount t1) 0) as [Hpos|Hzero]; cbn [fst snd].
    + split; [exists []; now rewrite app_nil_r, Hmap|].
      split; [discriminate|]. split; [discriminate|].
      split; [intros _; split; [exact Hag | now apply Hsum]|].
      split; [|discriminate]. split; [discriminate | intros [_ [Hz _]]; lia].
    + assert (Hz : failedCount t1 = 0) by lia.
      split; [exists []; now rewrite app_nil_r, Hmap|].
      split; [discriminate|]. split; [discriminate|].
      split; [intros _; split; [exact Hag | now apply Hsum]|].
      split; [split; [intros _; repeat split; [exact Hz | exact Hdw] | reflexivity]|].
      intros _. split; [now rewrite Hmap, Hdone | now apply Hall].
Qed.

Lemma review_trace (w : World) (app : BackupApp) (io : Io) :
  let io' := snd (reviewBackupConfig w app io) in
  exists evs,
    trace io' = trace io ++ EvGetFreeSpace (bkpDest app) :: evs /\
    Forall (fun ev => isMkdirAll ev = false) evs /\
    (nonInteractive app = true -> evs = [] /\ stdin io' = stdin io).
Proof.
  unfold reviewBackupConfig.
  destruct (getFreeSpace w (bkpDest app)) as [err|avail];
    [exists []; cbn; now repeat split|].
  destruct (avail <? _); [exists []; cbn; now repeat split|].
  destruct (BkpItems (BkpConfig app)); [exists []; cbn; now repeat split|].
  destruct (nonInteractive app); [exists []; cbn; now repeat split|].
  rewrite scan_spec. cbn [trace stdin emit].
  eexists [_]. destruct (negb _); cbn [snd trace]; rewrite <- app_assoc;
    (split; [reflexivity | split; [now repeat constructor | discriminate]]).
Qed.

(** X2. unattended, the program never waits for the operator.  With
    [--non-interactive], from the review of the configuration to the end
    of the run, nothing is read from the terminal and no question is
    asked, whatever fails. *)
Theorem non_interactive_never_prompts (w : World) (app : BackupApp) (io : Io) :
  nonInteractive app = true ->
  stdin (snd (main w app io)) = stdin io /\
  exists evs,
    trace (snd (main w app io)) = trace io ++ evs /\
    Forall (fun ev => isPrompt ev = false) evs.
Proof.
  intros Hnon. unfold main.
  destruct (review_trace w app io) as [evs0 [Htr [_ Hquiet]]].
  destruct (Hquiet Hnon) as [-> Hin]. clear Hquiet.
  destruct (reviewBackupConfig w app io) as [[[e|]|code] io0]; cbn [snd] in Htr, Hin;
    try (cbn [snd]; split; [exact Hin|]; exists [EvGetFreeSpace (bkpDest app)];
         split; [exact Htr | now repeat constructor]).
  unfold runBackup. fold (runDir w app).
  destruct (os_MkdirAll w (runDir w app)) as [err|].
  { cbn [snd stdin trace emit]. split; [exact Hin|].
    exists [EvGetFreeSpace (bkpDest app); EvMkdirAll (runDir w app)].
    rewrite Htr, <- app_assoc. split; [reflexivity | now repeat constructor]. }
  destruct (backupLoop_unattended w app (BkpItems (BkpConfig app)) Hnon 0
              (mkTally [] 0 0 0) (emit (EvMkdirAll (runDir w app)) io0))
    as [Hin1 [evs [Hevs Hall]]].
  destruct (backupLoop w app 0 _ _ _) as [[t [s|]] io1]; cbn [snd] in Hin1, Hevs.
  - assert (Hsnd : snd (match s with
                        | Failed _ => (exitApp (nonInteractive app) 2, io1)
                        | Panicked => (2, io1)
                        end) = io1) by now destruct s.
    rewrite Hsnd, Hin1. split; [exact Hin|].
    exists ([EvGetFreeSpace (bkpDest app); EvMkdirAll (runDir w app)] ++ evs).
    rewrite Hevs. cbn [trace emit]. rewrite Htr, <- !app_assoc.
    split; [reflexivity|]. now repeat constructor.
  - rewrite Hnon.
    assert (Hend : forall io2,
               (stdin io2 = stdin io1 /\
                (trace io2 = trace io1 \/ trace io2 = trace io1 ++ [EvCleanup])) ->
               stdin io2 = stdin io /\
               exists evs2, trace io2 = trace io ++ evs2 /\
                            Forall (fun ev => isPrompt ev = false) evs2).
    { intros io2 [Hs Ht]. split; [now rewrite Hs, Hin1|].
      cbn [trace emit] in Hevs. rewrite Htr, <- !app_assoc in Hevs.
      destruct Ht as [-> | ->]; rewrite Hevs.
      - eexists. split; [reflexivity|]. now repeat constructor.
      - rewrite <- !app_assoc. eexists. split; [reflexivity|].
        repeat constructor. apply Forall_app. split; [exact Hall | now repeat constructor]. }
    destruct (failedCount t =? 0); destruct (failedCount t >? 0); cbn [snd];
      apply Hend; cbn; auto.
Qed.

Lemma non_interactive_never_prompts_witness :
  stdin (snd (main secondFails (appWith "10mb" 10485760 true true) (console ["yes"])))
    = ["yes"%string] /\
  exists evs,
    trace (snd (main secondFails (appWith "10mb" 10485760 true true) (console ["yes"])))
      = [] ++ evs /\
    Forall (fun ev => isPrompt ev = false) evs.
Proof.
  exact (non_interactive_never_prompts secondFails (appWith "10mb" 10485760 true true)
           (console ["yes"%string]) eq_refl).
Defined.

Lemma no_mkdir (evs : list event) :
  Forall (fun ev => isMkdirAll ev = false) evs -> existsb isMkdirAll evs = false.
Proof.
  induction 1 as [|ev evs Hev _ IH]; [reflexivity|]. cbn [existsb]. now rewrite Hev, IH.
Qed.

(** When every item succeeds, and the terminal is wide enough for their
    announcements, the loop runs to its end with no failure counted. *)
Lemma backupLoop_all_succeed (w : World) (app : BackupApp) (io : Io) :
  wideFrom w 0 (List.length (BkpItems (BkpConfig app))) ->
  allSucceedFrom w 0 (BkpItems (BkpConfig app)) = true ->
  exists t io1,
    backupLoop w app 0 (BkpItems (BkpConfig app)) (mkTally [] 0 0 0) io = (t, None, io1) /\
    failedCount t = 0.
Proof.
  intros Hwide Hall.
  destruct (backupLoop_successes w app (BkpItems (BkpConfig app)) 0
              (mkTally [] 0 0 0) io [] Hwide Hall) as [t [Hloop [_ [_ Hf]]]].
  rewrite app_nil_r in Hloop. cbn [backupLoop] in Hloop.
  exists t. eexists. split; [exact Hloop | exact Hf].
Qed.

(** Either the terminal is wide enough for the first [n] announcements,
    or one of them panics. *)
Lemma wide_or_narrow (w : World) (n : nat) :
  wideFrom w 0 n \/ exists j, (j < n)%nat /\ getTerminalWidth w j < 6.
Proof.
  induction n as [|n [IH | [j [Hj Hn]]]].
  - left. intros k Hk. lia.
  - destruct (Z.lt_ge_cases (getTerminalWidth w n) 6) as [Hnarrow | Hwide].
    + right. exists n. split; [lia | exact Hnarrow].
    + left. intros k Hk. destruct (Nat.eq_dec k n) as [-> | Hne];
        [exact Hwide | apply IH; lia].
  - right. exists j. split; [lia | exact Hn].
Qed.

(** X3. the exit code.  The process exits with 0, 1 or 2.  It is 1 exactly
    when the review of the configuration returns an error (the free-space
    probe fails or reports too little), and then nothing but the probe was
    asked of the operating system.  It is 2 only when the run was started
    (the run directory was asked for) and that directory could not be
    made, or some item failed, or [getTerminalWidth()] returned less than
    6 at some item, where the announcement panics.  It is 0 only when the
    run was never started (no item, or the operator did not confirm), or
    every item succeeded and the retention cleanup was run. *)
Theorem exit_code_tells_the_outcome (w : World) (app : BackupApp) (io : Io) :
  let code := fst (main w app io) in
  let items := BkpItems (BkpConfig app) in
  exists evs,
    trace (snd (main w app io)) = trace io ++ evs /\
    (code = 0 \/ code = 1 \/ code = 2) /\
    (code = 1 <-> exists e, fst (reviewBackupConfig w app io) = Returns (Some e)) /\
    (code = 1 -> evs = [EvGetFreeSpace (bkpDest app)]) /\
    (code = 2 ->
     In (EvMkdirAll (runDir w app)) evs /\
     (os_MkdirAll w (runDir w app) <> None \/
      allSucceedFrom w 0 items = false \/
      (exists j, (j < List.length items)%nat /\ getTerminalWidth w j < 6))) /\
    (code = 0 ->
     existsb isMkdirAll evs = false \/
     (allSucceedFrom w 0 items = true /\ In EvCleanup evs)).
Proof.
  intros code items. subst code items. unfold main.
  destruct (review_trace w app io) as [evs0 [Htr [Hnomk _]]].
  assert (Hrev1 : forall e, fst (reviewBackupConfig w app io) = Returns (Some e) ->
                            evs0 = []).
  { unfold reviewBackupConfig in *.
    destruct (getFreeSpace w (bkpDest app)) as [err|avail].
    - intros _ _. cbn [snd trace emit] in Htr.
      apply app_inv_head in Htr. now injection Htr.
    - destruct (avail <? _).
      + intros _ _. cbn [snd trace emit] in Htr.
        apply app_inv_head in Htr. now injection Htr.
      + destruct (BkpItems (BkpConfig app)); [discriminate|].
        destruct (nonInteractive app); [discriminate|].
        destruct (scan AskProceed _) as [resp io2]. now destruct (negb _). }
  destruct (reviewBackupConfig w app io) as [[[e|]|c] io0] eqn:Hrev;
    cbn [fst snd] in *.
  - (* the review returns an error *)
    exists (EvGetFreeSpace (bkpDest app) :: evs0). split; [exact Htr|].
    rewrite (Hrev1 e eq_refl). unfold exitApp.
    split; [auto|]. split; [split; [now exists e | reflexivity]|].
    split; [reflexivity|]. split; discriminate.
  - (* the run *)
    unfold runBackup. fold (runDir w app).
    destruct (os_MkdirAll w (runDir w app)) as [err|] eqn:Hmk.
    { cbn [fst snd trace emit]. unfold exitApp.
      exists ((EvGetFreeSpace (bkpDest app) :: evs0) ++ [EvMkdirAll (runDir w app)]).
      rewrite Htr, <- app_assoc. split; [reflexivity|]. split; [auto|].
      split; [split; [discriminate | intros [e0 He0]; discriminate]|].
      split; [discriminate|]. split; [|discriminate].
      intros _. split; [apply in_or_app; right; now left | left; discriminate]. }
    destruct (wide_or_narrow w (List.length (BkpItems (BkpConfig app))))
      as [Hruns | Hnarrow].
    2: { (* some announcement would panic: the loop does not run to its end *)
      destruct (backupLoop_trace w app (BkpItems (BkpConfig app)) 0 (mkTally [] 0 0 0)
                  (emit (EvMkdirAll (runDir w app)) io0)) as [evs [Hevs _]].
      pose proof (backupLoop_done_wide w app (BkpItems (BkpConfig app)) 0
                    (mkTally [] 0 0 0) (emit (EvMkdirAll (runDir w app)) io0)) as Hdw.
      destruct (backupLoop w app 0 _ _ _) as [[t [s|]] io1]; cbn [snd] in Hevs.
      2: { exfalso. destruct Hnarrow as [j [Hj Hn]].
           specialize (Hdw t io1 eq_refl j ltac:(lia)). lia. }
      assert (Hend : (match s with
                      | Failed _ => (exitApp (nonInteractive app) 2, io1)
                      | Panicked => (2, io1)
                      end) = (2, io1)) by now destruct s.
      rewrite Hend. cbn [fst snd].
      exists ((EvGetFreeSpace (bkpDest app) :: evs0) ++ [EvMkdirAll (runDir w app)] ++ evs).
      rewrite Hevs. cbn [trace emit]. rewrite Htr, <- !app_assoc.
      split; [reflexivity|]. split; [auto|].
      split; [split; [discriminate | intros [e0 He0]; discriminate]|].
      split; [discriminate|]. split; [|discriminate].
      intros _. split; [|right; right; exact Hnarrow].
      apply in_or_app. right. apply in_or_app. left. now left. }
    destruct (allSucceedFrom w 0 (BkpItems (BkpConfig app))) eqn:Hall.
    + destruct (backupLoop_all_succeed w app (emit (EvMkdirAll (runDir w app)) io0)
                  Hruns Hall) as [t [io1 [Hloop Hf]]].
      destruct (backupLoop_trace w app (BkpItems (BkpConfig app)) 0 (mkTally [] 0 0 0)
                  (emit (EvMkdirAll (runDir w app)) io0)) as [evs [Hevs _]].
      rewrite Hloop in *. cbn [snd] in Hevs. rewrite Hf.
      cbn [Z.eqb Z.gtb Z.compare fst snd trace emit]. unfold exitApp.
      exists ((EvGetFreeSpace (bkpDest app) :: evs0)
                ++ [EvMkdirAll (runDir w app)] ++ evs ++ [EvCleanup]).
      rewrite Hevs. cbn [trace emit]. rewrite Htr, <- !app_assoc.
      split; [reflexivity|]. split; [auto|].
      split; [split; [discriminate | intros [e0 He0]; discriminate]|].
      split; [discriminate|]. split; [discriminate|].
      intros _. right. split; [reflexivity|].
      cbn [List.app]. right. apply in_or_app. right. right.
      apply in_or_app. right. now left.
    + destruct (backupLoop_trace w app (BkpItems (BkpConfig app)) 0 (mkTally [] 0 0 0)
                  (emit (EvMkdirAll (runDir w app)) io0)) as [evs [Hevs _]].
      assert (Hstarted : forall io2 evs2,
                 trace io2 = trace (snd (backupLoop w app 0 (BkpItems (BkpConfig app))
                                           (mkTally [] 0 0 0)
                                           (emit (EvMkdirAll (runDir w app)) io0)))
                               ++ evs2 ->
                 exists evs3,
                   trace io2 = trace io ++ evs3 /\
                   In (EvMkdirAll (runDir w app)) evs3).
      { intros io2 evs2 ->. rewrite Hevs. cbn [trace emit]. rewrite Htr, <- !app_assoc.
        eexists. split; [reflexivity|].
        cbn [List.app]. right. apply in_or_app. right. now left. }
      destruct (backupLoop w app 0 _ _ _) as [[t [s|]] io1] eqn:Hloop; cbn [snd] in *.
      * destruct (Hstarted io1 [] ltac:(now rewrite app_nil_r)) as [evs3 [Hevs3 Hin3]].
        assert (Hend : (match s with
                        | Failed _ => (exitApp (nonInteractive app) 2, io1)
                        | Panicked => (2, io1)
                        end) = (2, io1)) by now destruct s.
        rewrite Hend. cbn [fst snd]. exists evs3. split; [exact Hevs3|].
        split; [auto|]. split; [split; [discriminate | intros [e0 He0]; discriminate]|].
        split; [discriminate|]. split; [|discriminate].
        intros _. split; [exact Hin3 | right; now left].
      * pose proof (backupLoop_failedCount w app _ _ _ _ _ _ Hloop) as Hcount.
        cbn [failedCount] in Hcount.
        assert (Hpos : 0 < failedCount t).
        { pose proof (failuresFrom_nonneg w (BkpItems (BkpConfig app)) 0) as Hge.
          destruct (Z.eq_dec (failuresFrom w 0 (BkpItems (BkpConfig app))) 0) as [Hz|Hnz];
            [|lia].
          apply failuresFrom_zero in Hz. congruence. }
        destruct (Z.eqb_spec (failedCount t) 0) as [Hz|_]; [lia|].
        destruct (Z.gtb_spec (failedCount t) 0) as [_|Hle]; [|lia].
        assert (Hio : exists evs2,
                   trace (if nonInteractive app then io1
                          else let (response, io2) := ask AskCleanup io1 in
                               if String.eqb response "yes" then emit EvCleanup io2 else io2)
                   = trace io1 ++ evs2).
        { destruct (nonInteractive app); [exists []; now rewrite app_nil_r|].
          rewrite ask_spec. destruct (String.eqb _ "yes"); cbn [trace emit].
          - rewrite <- app_assoc. now eexists.
          - now eexists. }
        destruct Hio as [evs2 Hio].
        destruct (Hstarted _ evs2 Hio) as [evs3 [Hevs3 Hin3]].
        cbn [fst snd]. unfold exitApp. exists evs3. split; [exact Hevs3|].
        split; [auto|]. split; [split; [discriminate | intros [e0 He0]; discriminate]|].
        split; [discriminate|]. split; [|discriminate].
        intros _. split; [exact Hin3 | right; now left].
  - (* the review ends the process *)
    exists (EvGetFreeSpace (bkpDest app) :: evs0). split; [exact Htr|].
    assert (Hc : c = 0).
    { unfold reviewBackupConfig in Hrev.
      destruct (getFreeSpace w (bkpDest app)) as [err|avail]; [discriminate|].
      destruct (avail <? _); [discriminate|].
      destruct (BkpItems (BkpConfig app)); [now injection Hrev as <- _|].
      destruct (nonInteractive app); [discriminate|].
      destruct (scan AskProceed _) as [resp io2].
      destruct (negb _); [now injection Hrev as <- _ | discriminate]. }
    subst c. split; [auto|].
    split; [split; [discriminate | intros [e0 He0]; discriminate]|].
    split; [discriminate|]. split; [discriminate|].
    intros _. left. cbn [existsb isMkdirAll orb]. now apply no_mkdir.
Qed.

End SummaryFacts.

Module ItemFacts.
Import GoStrings Filepath Filter Tree Vocabulary StringFacts Scenario CopyFacts ItemCopy.
Local Open Scope list_scope.

Section Count.

Variable os : GOOS.
Variable cw : CopyWorld.
Variables include exclude : list string.

(** The callback of countTotalItems counts the entry, or leaves the count. *)
Lemma countWalkFn_step (ns : list string) (info : node) (err : option error) (c : nat) :
  (c <= snd (countWalkFn os cw include exclude ns info err c))%nat.
Proof.
  unfold countWalkFn. destruct err as [e|].
  - destruct (isWindowsProtectedPath cw ns e); apply le_n.
  - destruct (String.eqb _ "."); [apply le_n|].
    destruct (negb _); cbn [snd]; lia.
Qed.

Lemma count_walkNames_grows (ns : list string) (es : list (string * node)) :
  Forall (fun e => forall ns c,
            (c <= snd (walk nat (countWalkFn os cw include exclude) ns (snd e) c))%nat) es ->
  forall c, (c <= snd (walkNames nat (countWalkFn os cw include exclude) ns es c))%nat.
Proof.
  induction 1 as [|[name child] es Hchild _ IH]; intros c; [apply le_n|].
  cbn [walkNames]. cbn [snd] in Hchild. specialize (Hchild (ns ++ [name]) c).
  destruct (walk nat (countWalkFn os cw include exclude) (ns ++ [name]) child c)
    as [r c1]. cbn [snd] in Hchild.
  destruct child; destruct r; cbn [IsDir snd]; try exact Hchild;
    (etransitivity; [exact Hchild | apply IH]).
Qed.

(** The count never goes down during the walk. *)
Lemma count_walk_grows (n : node) :
  forall ns c, (c <= snd (walk nat (countWalkFn os cw include exclude) ns n c))%nat.
Proof.
  induction n as [m|m|t|e|e|m es IHes] using node_induction; intros ns c;
    try (cbn [walk]; apply countWalkFn_step).
  rewrite walk_Dir.
  pose proof (countWalkFn_step ns (Dir m es) None c) as Hstep.
  destruct (countWalkFn os cw include exclude ns (Dir m es) None c) as [r c1].
  cbn [snd] in Hstep.
  destruct r; cbn [snd]; try exact Hstep.
  etransitivity; [exact Hstep | now apply count_walkNames_grows].
Qed.

Lemma callbacks_agree (ns : list string) (info : node) (err : option error)
                      (st : CopyState) (c : nat) :
  within st c ->
  within (snd (copyWalkFn os cw include exclude ns info err st))
         (snd (countWalkFn os cw include exclude ns info err c)) /\
  follows (fst (copyWalkFn os cw include exclude ns info err st))
          (fst (countWalkFn os cw include exclude ns info err c)).
Proof.
  unfold within, copyWalkFn, countWalkFn, follows. intros Hin.
  destruct err as [e|].
  { destruct (isWindowsProtectedPath cw ns e); cbn [fst snd]; auto. }
  destruct (String.eqb _ "."); [cbn [fst snd]; auto|].
  destruct (negb _); [cbn [fst snd]; split; [exact Hin | now destruct (IsDir info)]|].
  unfold ofError, copyFile.
  destruct info;
    try destruct (copyFileEnd cw ns);
    try destruct (os_MkdirAll cw ns);
    try destruct (os_Symlink cw ns);
    cbn [fst snd created processed make progressCb];
    rewrite ?List.length_app; cbn [List.length]; split; auto; lia.
Qed.

Lemma walkNames_follows (ns : list string) (es : list (string * node)) :
  Forall (fun e => forall ns c,
            (c <= snd (walk nat (countWalkFn os cw include exclude) ns (snd e) c))%nat) es ->
  Forall (fun e => forall ns st c,
            within st c ->
            within (snd (walk CopyState (copyWalkFn os cw include exclude) ns (snd e) st))
                   (snd (walk nat (countWalkFn os cw include exclude) ns (snd e) c)) /\
            follows (fst (walk CopyState (copyWalkFn os cw include exclude) ns (snd e) st))
                    (fst (walk nat (countWalkFn os cw include exclude) ns (snd e) c))) es ->
  forall st c,
    within st c ->
    within (snd (walkNames CopyState (copyWalkFn os cw include exclude) ns es st))
           (snd (walkNames nat (countWalkFn os cw include exclude) ns es c)) /\
    follows (fst (walkNames CopyState (copyWalkFn os cw include exclude) ns es st))
            (fst (walkNames nat (countWalkFn os cw include exclude) ns es c)).
Proof.
  intros Hgrow Hsim. induction Hsim as [|[name child] es Hchild _ IH]; intros st c Hin.
  - cbn. auto.
  - apply Forall_inv_tail in Hgrow as Hgrow'.
    specialize (IH Hgrow'). cbn [snd] in Hchild.
    pose proof (count_walkNames_grows (ns) es Hgrow') as Hrest.
    cbn [walkNames].
    destruct (Hchild (ns ++ [name]) st c Hin) as [Hin1 Hfol].
    destruct (walk CopyState (copyWalkFn os cw include exclude) (ns ++ [name]) child st)
      as [r1 st1].
    destruct (walk nat (countWalkFn os cw include exclude) (ns ++ [name]) child c)
      as [r2 c1].
    cbn [fst snd] in Hin1, Hfol.
    assert (Hlater : forall c2, (c1 <= c2)%nat -> within st1 c2)
      by (intros c2 Hc2; unfold within in *; lia).
    destruct r1 as [| |e1]; cbn [follows] in Hfol; subst;
      destruct child; cbn [IsDir fst snd];
      try (apply IH; exact Hin1);
      try (split; [exact Hin1 | reflexivity]);
      try (destruct r2; cbn [fst snd]; split;
           try exact I; apply Hlater; try apply le_n; apply Hrest).
Qed.

(** The copy stays within the count, as an invariant of the two walks
    over the same tree. *)
Lemma walk_follows (n : node) :
  forall ns st c,
    within st c ->
    within (snd (walk CopyState (copyWalkFn os cw include exclude) ns n st))
           (snd (walk nat (countWalkFn os cw include exclude) ns n c)) /\
    follows (fst (walk CopyState (copyWalkFn os cw include exclude) ns n st))
            (fst (walk nat (countWalkFn os cw include exclude) ns n c)).
Proof.
  induction n as [m|m|t|e|e|m es IHes] using node_induction; intros ns st c Hin;
    try (cbn [walk]; now apply callbacks_agree).
  rewrite !walk_Dir.
  destruct (callbacks_agree ns (Dir m es) None st c Hin) as [Hin1 Hfol].
  assert (Hgrow : Forall (fun e => forall ns c,
                     (c <= snd (walk nat (countWalkFn os cw include exclude) ns (snd e) c))%nat)
                    es).
  { apply Forall_forall. intros e _ ns0 c0. apply count_walk_grows. }
  pose proof (count_walkNames_grows ns es Hgrow) as Hrest.
  destruct (copyWalkFn os cw include exclude ns (Dir m es) None st) as [r1 st1].
  destruct (countWalkFn os cw include exclude ns (Dir m es) None c) as [r2 c1].
  cbn [fst snd] in Hin1, Hfol.
  destruct r1 as [| |e1]; cbn [follows] in Hfol; subst; cbn [fst snd].
  - now apply walkNames_follows.
  - now split.
  - split; [|exact I].
    destruct r2; cbn [snd]; try exact Hin1.
    specialize (Hrest c1). unfold within in *. lia.
Qed.

End Count.

(** The copy of a directory stays within the count of its entries. *)
Lemma copyDirectory_within_count
    (os : GOOS) (cw : CopyWorld) (src : node) (include exclude : list string) :
  let st := snd (copyDirectory os cw src include exclude (mkCopyState [] 0)) in
  let totalItems := snd (Tree.countTotalItems os cw src include exclude) in
  (processed st <= List.length (created st))%nat /\
  (List.length (created st) <= totalItems)%nat.
Proof.
  intros st totalItems. unfold st, totalItems, copyDirectory, Tree.countTotalItems, Walk.
  destruct (walk_follows os cw include exclude src [] (mkCopyState [] 0) 0%nat) as [Hin _].
  { unfold within. cbn. lia. }
  destruct (walk CopyState _ [] src _) as [r1 st1].
  destruct (walk nat _ [] src _) as [r2 c1].
  cbn [snd] in Hin. unfold within in Hin.
  destruct r1; destruct r2; cbn [snd]; lia.
Qed.

Section Complete.

Variable os : GOOS.
Variable cw : CopyWorld.
Variables include exclude : list string.
Hypothesis Hcw : cooperative cw.
Variable links : bool.

Lemma callbacks_in_step (ns : list string) (info : node) (st : CopyState) (c : nat) :
  healthy info = true ->
  (links = true -> noDirLinks info = true) ->
  inStep links st c ->
  inStep links (snd (copyWalkFn os cw include exclude ns info None st))
               (snd (countWalkFn os cw include exclude ns info None c)) /\
  fst (copyWalkFn os cw include exclude ns info None st) =
  fst (countWalkFn os cw include exclude ns info None c) /\
  (forall e, fst (copyWalkFn os cw include exclude ns info None st) <> WalkErr e).
Proof.
  destruct Hcw as [Hmk [Hln Hcp]].
  unfold inStep, copyWalkFn, countWalkFn. intros Hh Hl [Hc Hp].
  destruct (String.eqb _ "."); [cbn [fst snd]; repeat split; auto; discriminate|].
  destruct (negb _);
    [cbn [fst snd]; repeat split; auto; destruct (IsDir info); discriminate|].
  unfold ofError, copyFile.
  destruct info; try discriminate Hh;
    rewrite ?Hcp, ?Hmk, ?Hln;
    cbn [fst snd created processed make progressCb noDirLinks] in *;
    rewrite ?List.length_app; cbn [List.length];
    repeat split; try discriminate; try lia;
    intros Hlt; specialize (Hp Hlt); specialize (Hl Hlt); try discriminate Hl; lia.
Qed.

Lemma walkNames_in_step (ns : list string) (es : list (string * node)) :
  Forall (fun e => healthy (snd e) = true /\ (links = true -> noDirLinks (snd e) = true) /\
            forall ns st c,
              inStep links st c ->
              inStep links
                (snd (walk CopyState (copyWalkFn os cw include exclude) ns (snd e) st))
                (snd (walk nat (countWalkFn os cw include exclude) ns (snd e) c)) /\
              fst (walk CopyState (copyWalkFn os cw include exclude) ns (snd e) st) =
              fst (walk nat (countWalkFn os cw include exclude) ns (snd e) c) /\
              (forall e0, fst (walk CopyState (copyWalkFn os cw include exclude) ns (snd e) st)
                          <> WalkErr e0)) es ->
  forall st c,
    inStep links st c ->
    inStep links (snd (walkNames CopyState (copyWalkFn os cw include exclude) ns es st))
                 (snd (walkNames nat (countWalkFn os cw include exclude) ns es c)) /\
    fst (walkNames CopyState (copyWalkFn os cw include exclude) ns es st) =
    fst (walkNames nat (countWalkFn os cw include exclude) ns es c) /\
    (forall e0, fst (walkNames CopyState (copyWalkFn os cw include exclude) ns es st)
                <> WalkErr e0).
Proof.
  induction 1 as [|[name child] es [Hh [Hl Hchild]] _ IH]; intros st c Hin.
  - cbn. repeat split; try apply Hin. discriminate.
  - cbn [snd] in Hh, Hl, Hchild. cbn [walkNames].
    destruct (Hchild (ns ++ [name]) st c Hin) as [Hin1 [Heq Hne]].
    destruct (walk CopyState (copyWalkFn os cw include exclude) (ns ++ [name]) child st)
      as [r1 st1].
    destruct (walk nat (countWalkFn os cw include exclude) (ns ++ [name]) child c)
      as [r2 c1].
    cbn [fst snd] in Hin1, Heq, Hne. subst r2.
    destruct r1 as [| |e1]; [| |now destruct (Hne e1)];
      destruct child; try discriminate Hh; cbn [IsDir fst snd];
      try (apply IH; exact Hin1);
      (split; [exact Hin1 | split; [reflexivity | discriminate]]).
Qed.

Lemma walk_in_step (n : node) :
  healthy n = true -> (links = true -> noDirLinks n = true) ->
  forall ns st c,
    inStep links st c ->
    inStep links (snd (walk CopyState (copyWalkFn os cw include exclude) ns n st))
                 (snd (walk nat (countWalkFn os cw include exclude) ns n c)) /\
    fst (walk CopyState (copyWalkFn os cw include exclude) ns n st) =
    fst (walk nat (countWalkFn os cw include exclude) ns n c) /\
    (forall e0, fst (walk CopyState (copyWalkFn os cw include exclude) ns n st)
                <> WalkErr e0).
Proof.
  induction n as [m|m|t|e|e|m es IHes] using node_induction; intros Hh Hl ns st c Hin;
    try discriminate Hh;
    try (cbn [walk]; now apply callbacks_in_step).
  rewrite !walk_Dir.
  destruct (callbacks_in_step ns (Dir m es) st c Hh Hl Hin) as [Hin1 [Heq Hne]].
  destruct (copyWalkFn os cw include exclude ns (Dir m es) None st) as [r1 st1].
  destruct (countWalkFn os cw include exclude ns (Dir m es) None c) as [r2 c1].
  cbn [fst snd] in Hin1, Heq, Hne. subst r2.
  destruct r1 as [| |e1]; [| |now destruct (Hne e1)].
  - apply walkNames_in_step; [|exact Hin1].
    cbn [healthy noDirLinks] in Hh, Hl. rewrite forallb_forall in Hh.
    rewrite Forall_forall in IHes. apply Forall_forall. intros x Hx.
    split; [now apply Hh|]. split.
    + intros Hlt. specialize (Hl Hlt). rewrite forallb_forall in Hl. now apply Hl.
    + intros ns0 st0 c0. apply IHes; [exact Hx | now apply Hh |].
      intros Hlt. specialize (Hl Hlt). rewrite forallb_forall in Hl. now apply Hl.
  - cbn [fst snd]. split; [exact Hin1 | split; [reflexivity | discriminate]].
Qed.

End Complete.

(** When nothing fails the copy of a directory makes what was counted. *)
Lemma copyDirectory_makes_what_was_counted
    (os : GOOS) (cw : CopyWorld) (src : node) (include exclude : list string) :
  cooperative cw -> healthy src = true ->
  let copy := copyDirectory os cw src include exclude (mkCopyState [] 0) in
  let count := Tree.countTotalItems os cw src include exclude in
  fst copy = None /\ fst count = None /\
  List.length (created (snd copy)) = snd count /\
  (noDirLinks src = true -> processed (snd copy) = snd count).
Proof.
  intros Hcw Hh copy count. unfold copy, count, copyDirectory, Tree.countTotalItems, Walk.
  destruct (walk_in_step os cw include exclude Hcw (noDirLinks src) src Hh (fun H => H)
              [] (mkCopyState [] 0) 0%nat) as [[Hlen Hproc] [Heq Hne]].
  { unfold inStep. cbn. auto. }
  destruct (walk CopyState _ [] src _) as [r1 st1].
  destruct (walk nat _ [] src _) as [r2 c1].
  cbn [fst snd] in *. subst r2.
  destruct r1 as [| |e1]; [| |now destruct (Hne e1)]; cbn [fst snd]; auto.
Qed.

(** X10. the progress never runs past the count.  For one item, with the
    same patterns, when the copy is given of the source what the count was
    given -- the same answer of [os.Stat], the same entries on the walk:
    the source has not changed in between and the copy does not write into
    it -- and whatever else the operating system answers during the copy:
    when countTotalItems returns a count, the number of calls of
    [progressCb] that backupItem makes is at most the number of entries it
    has made, which is at most that count.  So [processedItems] does not
    exceed [totalItems], and the percentage does not exceed 100. *)
Theorem progress_stays_within_the_count
    (os : GOOS) (cw : CopyWorld) (statAtCount statAtCopy : error + bool)
    (seenAtCount seenAtCopy : node) (include exclude : list string) (totalItems : nat) :
  statAtCopy = statAtCount -> seenAtCopy = seenAtCount ->
  countTotalItems os cw statAtCount seenAtCount include exclude = inr totalItems ->
  let st := snd (backupItem os cw statAtCopy seenAtCopy include exclude
                            (mkCopyState [] 0)) in
  (processed st <= List.length (created st))%nat /\
  (List.length (created st) <= totalItems)%nat.
Proof.
  intros -> ->. unfold countTotalItems, backupItem. intros Hcount.
  destruct statAtCount as [err|[|]].
  - discriminate.
  - pose proof (copyDirectory_within_count os cw seenAtCount include exclude) as Hdir.
    cbv zeta in Hdir.
    destruct (Tree.countTotalItems os cw seenAtCount include exclude) as [[e|] c];
      [discriminate|]. injection Hcount as <-. cbn [snd] in Hdir.
    destruct (os_MkdirAll cw []); [cbn; lia | exact Hdir].
  - injection Hcount as <-. unfold copyFile.
    destruct (copyFileEnd cw []); cbn; lia.
Qed.

Lemma progress_stays_within_the_count_witness :
  let st := snd (backupItem Unix quiet (inr true) documents ["Doc*"] [] (mkCopyState [] 0)) in
  (processed st <= List.length (created st))%nat /\
  (List.length (created st) <= 1)%nat.
Proof.
  apply (progress_stays_within_the_count Unix quiet (inr true) (inr true)
           documents documents ["Doc*"] [] 1 eq_refl eq_refl).
  reflexivity.
Defined.

(** Without that the bound fails: a source that has gained an entry
    between the count and the copy is copied with more calls of
    [progressCb] than were counted. *)
Lemma a_changed_source_passes_the_count :
  countTotalItems Unix quiet (inr true) documents [] [] = inr 5%nat /\
  processed (snd (backupItem Unix quiet (inr true) documentsLater [] []
                             (mkCopyState [] 0))) = 6%nat.
Proof. split; reflexivity. Qed.

(** X11. when nothing fails, the item is copied whole and the bar is
    filled.  For a source that [os.Stat] can read, with no broken link and
    no unreadable entry, the same at the count and at the copy, on an
    operating system on which every operation of the copy succeeds:
    countTotalItems returns a count, backupItem returns nil and makes
    exactly that many entries; it reports one step of progress for each,
    so that [processedItems] ends equal to [totalItems], unless the source
    holds links to directories, which are made without a call of
    [progressCb]. *)
Theorem copy_makes_what_was_counted
    (os : GOOS) (cw : CopyWorld) (isDir : bool)
    (src : node) (include exclude : list string) :
  cooperative cw -> healthy src = true ->
  let copy := backupItem os cw (inr isDir) src include exclude (mkCopyState [] 0) in
  exists totalItems,
    countTotalItems os cw (inr isDir) src include exclude = inr totalItems /\
    fst copy = None /\
    List.length (created (snd copy)) = totalItems /\
    (noDirLinks src = true -> processed (snd copy) = totalItems).
Proof.
  intros Hcw Hh. unfold countTotalItems, backupItem.
  pose proof (copyDirectory_makes_what_was_counted os cw src include exclude Hcw Hh) as Hdir.
  cbv zeta in Hdir. destruct Hdir as [Hcopy [Hcount [Hlen Hproc]]].
  destruct Hcw as [Hmk [_ Hcp]].
  destruct isDir.
  - exists (snd (Tree.countTotalItems os cw src include exclude)).
    rewrite Hmk. destruct (Tree.countTotalItems os cw src include exclude) as [[e|] c];
      [discriminate|]. now repeat split.
  - exists 1%nat. unfold copyFile. rewrite Hcp. cbn. now repeat split.
Qed.

Lemma copy_makes_what_was_counted_witness :
  let copy := backupItem Unix quiet (inr true) documents ["Documents"] []
                         (mkCopyState [] 0) in
  exists totalItems,
    countTotalItems Unix quiet (inr true) documents ["Documents"] [] = inr totalItems /\
    fst copy = None /\
    List.length (created (snd copy)) = totalItems /\
    (noDirLinks documents = true -> processed (snd copy) = totalItems).
Proof.
  apply (copy_makes_what_was_counted Unix quiet true documents ["Documents"] []).
  - repeat split.
  - reflexivity.
Defined.

End ItemFacts.

Module ProgressBarFacts.
Import Progress ProgressFacts ProgressBar.
Local Open Scope list_scope.

Lemma percentage_grows (n T : Z) :
  0 < T -> 0 <= n -> n * 100 / T <= (n + 1) * 100 / T.
Proof. intros HT Hn. apply Z.div_le_mono; lia. Qed.

(** After at least one entry, the last percentage drawn is the current
    one. *)
Lemma after_current (T : Z) (n : nat) :
  0 < T -> Z.of_nat (S n) <= T -> T * 100 < 2 ^ 52 ->
  lastUpdate (after T (S n)) = Z.of_nat (S n) * 100 / T /\
  last (drawn (after T (S n))) (-1) = Z.of_nat (S n) * 100 / T.
Proof.
  intros HT Hn Hsmall.
  assert (H53 : T < 2 ^ 53).
  { change (2 ^ 53) with (2 * 2 ^ 52). lia. }
  induction n as [|n IH].
  - cbn [after]. unfold progressCb, start. cbn [processedItems lastUpdate drawn].
    destruct (Z.gtb_spec T 0) as [_|Hle]; [|lia].
    rewrite percentageOf_floor by lia. change (Z.of_nat 1) with 1. change (0 + 1) with 1.
    assert (0 <= 1 * 100 / T) by (apply Z.div_pos; lia).
    destruct (Z.gtb_spec (1 * 100 / T) (-1)) as [_|Hle]; [|lia].
    cbn. split; reflexivity.
  - destruct IH as [IHlast IHdrawn]; [lia|].
    remember (S n) as k eqn:Hk. cbn [after].
    destruct (progressCb_step T (after T k)) as [_ [Hup Hsame]].
    rewrite after_processed in Hup, Hsame.
    rewrite percentageOf_floor in Hup, Hsame by lia.
    replace (Z.of_nat k + 1) with (Z.of_nat (S k)) in Hup, Hsame by lia.
    pose proof (percentage_grows (Z.of_nat k) T HT ltac:(lia)) as Hgrow.
    replace (Z.of_nat k + 1) with (Z.of_nat (S k)) in Hgrow by lia.
    destruct (Z_lt_dec (lastUpdate (after T k)) (Z.of_nat (S k) * 100 / T)) as [Hlt|Hge].
    + destruct (Hup (conj HT Hlt)) as [-> ->]. split; [reflexivity|].
      now rewrite last_last.
    + destruct (Hsame ltac:(tauto)) as [-> ->]. split; [lia|]. rewrite IHdrawn. lia.
Qed.

(** X13. the percentage on display.  While an item of [totalItems] entries
    (at most 2^52 / 100) is copied, after each of the first [totalItems]
    calls of [progressCb] the last bar drawn is that of the current
    percentage, [floor(processed * 100 / totalItems)]: the display is never
    behind.  After the [totalItems]-th call it shows 100. *)
Theorem bar_shows_the_current_percentage (totalItems : Z) (n : nat) :
  (1 <= n)%nat -> Z.of_nat n <= totalItems -> totalItems * 100 < 2 ^ 52 ->
  lastUpdate (after totalItems n) = Z.of_nat n * 100 / totalItems /\
  last (drawn (after totalItems n)) (-1) = Z.of_nat n * 100 / totalItems /\
  (Z.of_nat n = totalItems -> last (drawn (after totalItems n)) (-1) = 100).
Proof.
  intros Hn Hle Hsmall. destruct n as [|n]; [lia|].
  destruct (after_current totalItems n ltac:(lia) Hle Hsmall) as [Hlast Hdrawn].
  split; [exact Hlast|]. split; [exact Hdrawn|].
  intros Heq. rewrite Hdrawn, Heq, Z.mul_comm. apply Z.div_mul. lia.
Qed.

Lemma bar_shows_the_current_percentage_witness :
  lastUpdate (after 7 3) = Z.of_nat 3 * 100 / 7 /\
  last (drawn (after 7 3)) (-1) = Z.of_nat 3 * 100 / 7 /\
  (Z.of_nat 3 = 7 -> last (drawn (after 7 3)) (-1) = 100).
Proof.
  apply (bar_shows_the_current_percentage 7 3); [lia | lia | reflexivity].
Defined.

(** *** The bar that is printed *)

(** The cells filled at a percentage: half the percentage, except at 58,
    where [float64(58) / 100.0 * 50] falls just under 29 in binary64. *)
Lemma completedOf_table :
  forallb (fun p => completedOf p =? (if p =? 58 then 28 else p / 2))
          (map Z.of_nat (seq 0 101)) = true.
Proof. vm_compute. reflexivity. Qed.

Lemma percentage_listed (p : Z) : 0 <= p <= 100 -> In p (map Z.of_nat (seq 0 101)).
Proof.
  intros Hp. apply in_map_iff. exists (Z.to_nat p). split; [lia|].
  apply in_seq. lia.
Qed.

Lemma Repeat_iter (s : string) (n : Z) :
  0 <= n -> Repeat s n = Some (Nat.iter (Z.to_nat n) (fun acc => (s ++ acc)%string) ""%string).
Proof.
  intros Hn. unfold Repeat. destruct (Z.ltb_spec n 0); [lia | reflexivity].
Qed.

(** X14. the bar that is drawn.  For every percentage from 0 to 100 the bar
    is drawn without a panic of strings.Repeat and is 50 cells wide: the
    first [floor(percentage / 2)] of them are filled, the others are dots
    -- except at 58 percent, where the binary64 product
    [float64(58) / 100.0 * 50] is just under 29 and 28 cells are filled, as
    at 57 percent.  The bar is empty at 0 and full at 100, and the clamp of
    [remaining] at 0 is never needed. *)
Theorem the_bar_is_fifty_cells_wide (percentage : Z) :
  0 <= percentage <= 100 ->
  let completed := if percentage =? 58 then 28 else percentage / 2 in
  completedOf percentage = completed /\
  0 <= completed <= progressBarLength /\
  progressBar percentage = Some (barOf completed).
Proof.
  intros Hp completed.
  assert (Hc : completedOf percentage = completed).
  { pose proof completedOf_table as Htab. rewrite forallb_forall in Htab.
    apply Z.eqb_eq, Htab, percentage_listed, Hp. }
  assert (Hrange : 0 <= completed <= 50).
  { unfold completed. destruct (percentage =? 58); [lia|].
    split; [apply Z.div_pos; lia | apply Z.div_le_upper_bound; lia]. }
  split; [exact Hc|]. split; [exact Hrange|].
  unfold progressBar, progressBarLength. rewrite Hc.
  destruct (Z.ltb_spec (50 - completed) 0) as [Hneg|_]; [lia|].
  rewrite !Repeat_iter by lia. reflexivity.
Qed.

Lemma the_bar_is_fifty_cells_wide_witness :
  completedOf 58 = 28 /\ 0 <= 28 <= progressBarLength /\
  progressBar 58 = Some (barOf 28).
Proof. apply (the_bar_is_fifty_cells_wide 58). lia. Defined.

End ProgressBarFacts.

Module RetentionMore.
Import GoStrings Config Retention RetentionFacts RetentionTerms.
Local Open Scope list_scope.

Lemma filter_paths_NoDup (g : path * bool -> bool) (fs : fileSystem) :
  NoDup (map fst fs) -> NoDup (map fst (filter g fs)).
Proof.
  induction fs as [|x fs IH]; intros Hnd; [constructor|].
  cbn [map] in Hnd. inversion Hnd as [|? ? Hx Hfs]; subst. cbn [filter].
  destruct (g x); [|now apply IH]. cbn [map]. constructor; [|now apply IH].
  intros Hin. apply Hx. apply in_map_iff in Hin as [y [Hy Hin]].
  apply filter_In in Hin as [Hin _]. apply in_map_iff. now exists y.
Qed.

Lemma names_NoDup (l : list DirEntry) : NoDup (map Name l) -> NoDup l.
Proof. apply NoDup_map_inv. Qed.

Lemma under_sibling (root : path) (a b : string) :
  under (root ++ [a]) (root ++ [b]) = true <-> a = b.
Proof.
  rewrite under_spec. split.
  - intros [rest H]. rewrite <- app_assoc in H. apply app_inv_head in H.
    now injection H.
  - intros ->. exists []. now rewrite app_nil_r.
Qed.

(** An entry of the root is under one of the directories exactly when it
    bears the name of one. *)
Lemma under_one_of (root : path) (name : string) (dirs : list DirEntry) :
  existsb (fun d => under (root ++ [Name d]) (root ++ [name])) dirs = true <->
  In name (map Name dirs).
Proof.
  rewrite existsb_exists, in_map_iff. split.
  - intros [d [Hd Hu]]. apply under_sibling in Hu. now exists d.
  - intros [d [Hn Hd]]. exists d. split; [exact Hd | now apply under_sibling].
Qed.

Lemma backupDirsOf_In (root : path) (fs : fileSystem) (x : DirEntry) :
  In x (backupDirsOf root fs) <->
  isBackupDir x = true /\ In (root ++ [Name x], IsDir x) fs.
Proof.
  unfold backupDirsOf. rewrite filter_In. destruct x as [name d]. cbn [Name IsDir fst snd].
  rewrite <- childrenOf_In. split; intros [H1 H2]; split; try assumption.
  - apply (Permutation_in _ (sortByName_perm _)). exact H1.
  - apply (Permutation_in _ (Permutation_sym (sortByName_perm _))). exact H2.
Qed.

(** X15. what a cleanup leaves.  When the listing and every removal succeed
    (and the paths of the file system are distinct), the backup
    directories left in the root after cleanupOldBackups are the last
    [keep] of those that were there, in the order of names -- all of them
    if there were no more than [keep] --, so there are [min count keep] of
    them; and a second cleanup on what is left finds nothing to remove. *)
Theorem cleanup_leaves_the_newest (w : World) (root : path) (keep : Z) (fs : fileSystem) :
  0 <= keep -> NoDup (map fst fs) -> reliable w ->
  let count := Z.of_nat (List.length (backupDirsOf root fs)) in
  let fs' := snd (fst (cleanupOldBackups w root keep fs)) in
  Permutation (backupDirsOf root fs')
              (skipn (Z.to_nat (count - keep)) (backupDirsOf root fs)) /\
  Z.of_nat (List.length (backupDirsOf root fs')) = Z.min count keep /\
  cleanupOldBackups w root keep fs' = (None, fs', []).
Proof.
  intros Hkeep Hnd [Hread Hrm] count fs'.
  destruct (cleanup_cases w root keep fs) as [_ [Hfew Hmany]].
  fold (backupDirsOf root fs) in Hfew, Hmany. fold count in Hfew, Hmany.
  assert (Hidem : forall fs0,
             Z.of_nat (List.length (backupDirsOf root fs0)) <= keep ->
             cleanupOldBackups w root keep fs0 = (None, fs0, [])).
  { intros fs0 Hle. destruct (cleanup_cases w root keep fs0) as [_ [Hfew0 _]].
    apply Hfew0; [apply Hread | exact Hle]. }
  destruct (Z.le_gt_cases count keep) as [Hle|Hgt].
  - (* nothing to remove *)
    assert (Hfs : fs' = fs) by (unfold fs'; now rewrite (Hfew (Hread root) Hle)).
    rewrite Hfs. replace (Z.to_nat (count - keep)) with 0%nat by lia. cbn [skipn].
    split; [reflexivity|]. split; [fold count; lia | now apply Hidem].
  - (* the oldest are removed *)
    set (B := backupDirsOf root fs) in *.
    set (k := Z.to_nat (count - keep)) in *.
    assert (Hfs : fs' = filter (fun e => negb (existsb (fun d => under (root ++ [Name d]) (fst e))
                                                      (firstn k B))) fs).
    { unfold fs'. rewrite (Hmany (Hread root) Hgt). cbn [fst snd].
      destruct (removeOldest_spec w root (firstn k B) fs []) as [_ [_ [_ Hall]]].
      apply Hall. intros d _. apply Hrm. }
    assert (HndB : NoDup (map Name B)) by (apply backupDirs_names_NoDup; exact Hnd).
    assert (Hperm : Permutation (backupDirsOf root fs') (skipn k B)).
    { apply NoDup_Permutation.
      - apply names_NoDup, backupDirs_names_NoDup. rewrite Hfs.
        now apply filter_paths_NoDup.
      - apply names_NoDup in HndB. rewrite <- (firstn_skipn k B) in HndB.
        now apply NoDup_app_remove_l in HndB.
      - intros x. rewrite backupDirsOf_In, Hfs, filter_In. cbn [fst].
        rewrite negb_true_iff.
        split.
        + intros [Hb [Hin Hnot]].
          assert (HxB : In x B) by (apply backupDirsOf_In; now split).
          rewrite <- (firstn_skipn k B) in HxB. apply in_app_or in HxB as [Hd|Hk];
            [|exact Hk].
          exfalso. assert (Hyes : existsb (fun d => under (root ++ [Name d])
                                                          (root ++ [Name x])) (firstn k B) = true).
          { apply under_one_of. now apply in_map. }
          congruence.
        + intros Hk.
          assert (HxB : In x B).
          { rewrite <- (firstn_skipn k B). apply in_or_app. now right. }
          apply backupDirsOf_In in HxB as [Hb Hin]. split; [exact Hb|]. split; [exact Hin|].
          destruct (existsb _ (firstn k B)) eqn:Hex; [|reflexivity]. exfalso.
          apply under_one_of in Hex. apply in_map_iff in Hex as [d [Hn Hd]].
          apply (firstn_skipn_names B HndB k d x Hd Hk). exact Hn. }
    assert (Hlen : Z.of_nat (List.length (backupDirsOf root fs')) = keep).
    { rewrite (Permutation_length Hperm), length_skipn. unfold k, count in *. lia. }
    split; [exact Hperm|]. split; [lia|]. apply Hidem. lia.
Qed.

Lemma cleanup_leaves_the_newest_witness :
  let fs' := snd (fst (cleanupOldBackups Scenario.obliging ["bk"] 3 Scenario.fiveRuns)) in
  Permutation (backupDirsOf ["bk"] fs')
              (skipn (Z.to_nat (Z.of_nat (List.length (backupDirsOf ["bk"] Scenario.fiveRuns)) - 3))
                     (backupDirsOf ["bk"] Scenario.fiveRuns)) /\
  Z.of_nat (List.length (backupDirsOf ["bk"] fs')) =
    Z.min (Z.of_nat (List.length (backupDirsOf ["bk"] Scenario.fiveRuns))) 3 /\
  cleanupOldBackups Scenario.obliging ["bk"] 3 fs' = (None, fs', []).
Proof.
  apply (cleanup_leaves_the_newest Scenario.obliging ["bk"] 3 Scenario.fiveRuns).
  - lia.
  - exact fiveRuns_paths_distinct.
  - split; reflexivity.
Defined.

End RetentionMore.

Module PatternFacts.
Import GoStrings Filepath Filter StringFacts FilepathFacts PatternTerms.
Local Open Scope list_scope.

Section Literal.

Variable os : GOOS.

Lemma literalByte_cases (c : ascii) :
  literalByte os c = true ->
  Ascii.eqb c "*" = false /\ Ascii.eqb c "?" = false /\ Ascii.eqb c "[" = false /\
  Ascii.eqb c "\" && negb (isWindows os) = false.
Proof.
  unfold literalByte. rewrite negb_true_iff.
  destruct (Ascii.eqb c "*"), (Ascii.eqb c "?"), (Ascii.eqb c "["),
    (Ascii.eqb c "\" && negb (isWindows os)); cbn; intros H; try discriminate H; auto.
Qed.

(** The scan for the end of the chunk takes the whole of a literal
    pattern. *)
Lemma scanLoop_literal (p : string) :
  literal os p = true -> scanLoop os p false = (p, EmptyString).
Proof.
  induction p as [|c p IH]; [reflexivity|]. cbn [literal]. intros H.
  apply andb_prop in H as [Hc Hp].
  destruct (literalByte_cases c Hc) as [Hstar [_ [Hbr Hesc]]].
  cbn [scanLoop]. rewrite Hesc, Hstar, Hbr. cbn [andb].
  destruct (Ascii.eqb c "]"); now rewrite (IH Hp).
Qed.

Lemma scanChunk_literal (c : ascii) (p : string) :
  literal os (String c p) = true ->
  scanChunk os (String c p) = (false, String c p, EmptyString).
Proof.
  intros H. unfold scanChunk.
  assert (Hc : Ascii.eqb c "*" = false).
  { cbn [literal] in H. apply andb_prop in H as [Hc _].
    now destruct (literalByte_cases c Hc). }
  cbn [dropStars HasPrefix]. rewrite Hc. cbn [andb].
  now rewrite (scanLoop_literal _ H).
Qed.

(** On a literal chunk matchChunk compares byte by byte. *)
Lemma matchChunkLoop_literal (chunk : string) :
  literal os chunk = true ->
  forall (fuel : nat) (s : string) (failed : bool),
    (String.length chunk <= fuel)%nat ->
    matchChunkLoop os fuel chunk s failed =
    if failed then NoMatch
    else match afterPrefix chunk s with
         | Some t => Matched t
         | None => NoMatch
         end.
Proof.
  induction chunk as [|c chunk IH]; intros Hlit fuel s failed Hfuel.
  - destruct fuel; reflexivity.
  - cbn [literal] in Hlit. apply andb_prop in Hlit as [Hc Hrest].
    destruct (literalByte_cases c Hc) as [_ [Hq [Hbr Hesc]]].
    destruct fuel as [|fuel]; [cbn in Hfuel; lia|].
    cbn [String.length] in Hfuel.
    cbn [matchChunkLoop]. rewrite Hbr, Hq, Hesc.
    destruct failed; cbn [orb].
    + now rewrite (IH Hrest) by lia.
    + destruct s as [|c0 s']; cbn [String.length Nat.eqb afterPrefix].
      * now rewrite (IH Hrest) by lia.
      * rewrite (IH Hrest) by lia. now destruct (Ascii.eqb c c0).
Qed.

Lemma afterPrefix_eqb (p s : string) :
  String.eqb p s = match afterPrefix p s with
                   | Some EmptyString => true
                   | _ => false
                   end.
Proof.
  revert s. induction p as [|a p IH]; intros [|b s]; cbn [String.eqb afterPrefix];
    try reflexivity.
  destruct (Ascii.eqb a b); [apply IH | reflexivity].
Qed.

(** A literal pattern matches its own text and nothing else, and is never
    malformed. *)
Lemma Match_literal (p name : string) :
  literal os p = true -> Match os p name = inr (String.eqb p name).
Proof.
  intros Hlit. unfold Match. destruct p as [|c p].
  - cbn. now destruct name.
  - cbn [String.length matchLoop]. rewrite (scanChunk_literal c p Hlit).
    cbn [andb String.length Nat.eqb]. unfold matchChunk.
    rewrite (matchChunkLoop_literal _ Hlit) by apply le_n.
    rewrite afterPrefix_eqb.
    destruct (afterPrefix (String c p) name) as [[|d t]|]; cbn [String.length Nat.eqb orb negb].
    + now destruct (String.length p).
    + now destruct (String.length p).
    + now destruct (String.length p).
Qed.

Lemma hits_literal (p path : string) :
  literal os p = true ->
  (hits os p path = true <-> atOrUnder os p path).
Proof.
  intros Hlit. unfold hits, matched, atOrUnder. rewrite (Match_literal p path Hlit).
  destruct (String.eqb_spec p path) as [->|Hne].
  - split; auto.
  - split; [auto|]. intros [H|H]; [congruence | exact H].
Qed.

Lemma includedBy_literal (include : list string) (path : string) :
  forallb (literal os) include = true ->
  (includedBy os include path = true <-> exists p, In p include /\ atOrUnder os p path).
Proof.
  induction include as [|x include IH]; cbn [forallb includedBy]; intros Hall.
  - split; [discriminate | intros [p [[] _]]].
  - apply andb_prop in Hall as [Hx Hall]. specialize (IH Hall).
    pose proof (hits_literal x path Hx) as Hhit.
    destruct (hits os x path).
    + split; [|reflexivity]. intros _. exists x. split; [now left | now apply Hhit].
    + rewrite IH. split.
      * intros [p [Hin Hp]]. exists p. split; [now right | exact Hp].
      * intros [p [[->|Hin] Hp]]; [apply Hhit in Hp; discriminate | now exists p].
Qed.

Lemma passesExclude_literal (exclude : list string) (path : string) :
  forallb (literal os) exclude = true ->
  (passesExclude os exclude path = true <-> forall q, In q exclude -> ~ atOrUnder os q path).
Proof.
  induction exclude as [|x exclude IH]; cbn [forallb passesExclude]; intros Hall.
  - split; [intros _ q [] | reflexivity].
  - apply andb_prop in Hall as [Hx Hall]. specialize (IH Hall).
    pose proof (hits_literal x path Hx) as Hhit.
    destruct (hits os x path).
    + split; [discriminate|]. intros H. exfalso. apply (H x); [now left | now apply Hhit].
    + rewrite IH. split.
      * intros H q [->|Hin]; [intros Hq; apply Hhit in Hq; discriminate | now apply H].
      * intros H q Hin. apply H. now right.
Qed.

End Literal.

(** X16. patterns that are plain names.  When no pattern of the two lists
    has a glob character in it, shouldInclude keeps a path exactly when
    the include list is empty or names the path or a directory above it,
    and the exclude list names neither the path nor a directory above
    it. *)
Theorem literal_patterns_select_subtrees
    (os : GOOS) (path : string) (include exclude : list string) :
  forallb (literal os) include = true -> forallb (literal os) exclude = true ->
  (shouldInclude os path include exclude = true <->
   (include = [] \/ exists p, In p include /\ atOrUnder os p path) /\
   (forall q, In q exclude -> ~ atOrUnder os q path)).
Proof.
  intros Hinc Hexc. unfold shouldInclude.
  pose proof (includedBy_literal os include path Hinc) as Hi.
  pose proof (passesExclude_literal os exclude path Hexc) as He.
  destruct include as [|x include].
  - cbn [List.length Nat.ltb Nat.leb andb]. rewrite He. split; [auto | now intros [_ H]].
  - change (0 <? List.length (x :: include))%nat with true. cbn [andb].
    destruct (includedBy os (x :: include) path); cbn [negb].
    + rewrite He. split; [intros H; split; [right; now apply Hi | exact H] | now intros [_ H]].
    + split; [discriminate|]. intros [[Hnil|Hp] _]; [discriminate|].
      apply Hi in Hp. discriminate.
Qed.

Lemma literal_patterns_select_subtrees_witness :
  shouldInclude Unix "Documents/sub/b.txt" ["Documents"] ["Documents/tmp"] = true <->
  (["Documents"] = [] \/
   exists p, In p ["Documents"] /\ atOrUnder Unix p "Documents/sub/b.txt") /\
  (forall q, In q ["Documents/tmp"] -> ~ atOrUnder Unix q "Documents/sub/b.txt").
Proof.
  apply (literal_patterns_select_subtrees Unix "Documents/sub/b.txt"
           ["Documents"] ["Documents/tmp"]); reflexivity.
Defined.

End PatternFacts.

Module InitFacts.
Import GoStrings Config Run ConfigFacts Init.
Local Open Scope list_scope.

Lemma filesRead_app (a b : list event) : filesRead (a ++ b) = filesRead a ++ filesRead b.
Proof.
  induction a as [|ev a IH]; [reflexivity|]. destruct ev; cbn [List.app filesRead]; congruence.
Qed.

Section Init.

Variable w : World.

(** loadConfig reads the file once; when it returns nil the file was read,
    parsed over the configuration in place and validated, and the fields
    of the application other than the configuration and its file name are
    as before. *)
Lemma loadConfig_spec (app : BackupApp) (f : string) (tr : list event) :
  snd (loadConfig w app f tr) = tr ++ [EvReadFile f] /\
  forall app',
    fst (loadConfig w app f tr) = inr app' ->
    Run.configFile app' = f /\ Run.bkpDest app' = Run.bkpDest app /\
    bkpDestFullPath app' = bkpDestFullPath app /\
    exitOnError app' = exitOnError app /\ nonInteractive app' = nonInteractive app /\
    exists data c,
      os_ReadFile w f = inr data /\
      yaml_Unmarshal w data (BkpConfig app) = (c, None) /\
      validate (filepath_Base w) c = (BkpConfig app', None).
Proof.
  unfold loadConfig, bind, ReadFile, fail, ret.
  destruct (os_ReadFile w f) as [[p e|e]|data]; cbn [fst snd];
    try (split; [reflexivity | discriminate]).
  destruct (yaml_Unmarshal w data (BkpConfig app)) as [c [e|]] eqn:Hy; cbn [fst snd];
    try (split; [reflexivity | discriminate]).
  destruct (validate (filepath_Base w) c) as [c' [e|]] eqn:Hv; cbn [fst snd];
    try (split; [reflexivity | discriminate]).
  split; [reflexivity|]. intros app' [= <-]. cbn. repeat split. now exists data, c.
Qed.

Lemma windowsDrives_spec (letters : list ascii) :
  forall drives tr,
    exists found tr',
      windowsDrives w letters drives tr = (inr found, tr') /\
      filesRead tr' = filesRead tr /\
      (Forall (fun d => d <> "") drives -> Forall (fun d => d <> "") found).
Proof.
  induction letters as [|c letters IH]; intros drives tr.
  - exists drives, tr. now repeat split.
  - cbn [windowsDrives]. unfold bind, Stat. cbn [fst snd].
    destruct (os_Stat w (String c ":\")).
    + destruct (IH drives (tr ++ [EvStat (String c ":\")])) as [found [tr' [Heq [Hr Hne]]]].
      exists found, tr'. rewrite Heq. split; [reflexivity|]. split; [|exact Hne].
      rewrite Hr, filesRead_app. cbn. apply app_nil_r.
    + destruct (IH (drives ++ [String c ":\"]) (tr ++ [EvStat (String c ":\")]))
        as [found [tr' [Heq [Hr Hne]]]].
      exists found, tr'. rewrite Heq. split; [reflexivity|]. split.
      * rewrite Hr, filesRead_app. cbn. apply app_nil_r.
      * intros Hd. apply Hne. apply Forall_app. split; [exact Hd|].
        constructor; [discriminate | constructor].
Qed.

Lemma mounted_spec (mountPoint : string) (entries : list (string * bool)) :
  (forall a b, a <> "" \/ b <> "" -> filepath_Join w a b <> "") ->
  mountPoint <> "" ->
  forall drives, Forall (fun d => d <> "") drives ->
                 Forall (fun d => d <> "") (mounted w mountPoint entries drives).
Proof.
  intros Hjoin Hp. induction entries as [|[name isDir] entries IH]; intros drives Hd;
    [exact Hd|].
  cbn [mounted]. destruct isDir; apply IH; [|exact Hd].
  apply Forall_app. split; [exact Hd|].
  constructor; [apply Hjoin; now left | constructor].
Qed.

Lemma mountPoints_spec (points : list string) :
  forall drives tr,
    exists found tr',
      mountPoints w points drives tr = (inr found, tr') /\
      filesRead tr' = filesRead tr /\
      ((forall a b, a <> "" \/ b <> "" -> filepath_Join w a b <> "") ->
       Forall (fun p => p <> "") points ->
       Forall (fun d => d <> "") drives -> Forall (fun d => d <> "") found).
Proof.
  induction points as [|p points IH]; intros drives tr.
  - exists drives, tr. now repeat split.
  - cbn [mountPoints]. unfold bind, ReadDir. cbn [fst snd].
    destruct (os_ReadDir w p) as [entries|].
    + destruct (IH (mounted w p entries drives) (tr ++ [EvReadDir p]))
        as [found [tr' [Heq [Hr Hne]]]].
      exists found, tr'. rewrite Heq. split; [reflexivity|]. split.
      * rewrite Hr, filesRead_app. cbn. apply app_nil_r.
      * intros Hjoin Hp Hd. inversion Hp as [|? ? Hp1 Hp2]; subst.
        apply Hne; [exact Hjoin | exact Hp2 | now apply mounted_spec].
    + destruct (IH drives (tr ++ [EvReadDir p])) as [found [tr' [Heq [Hr Hne]]]].
      exists found, tr'. rewrite Heq. split; [reflexivity|]. split.
      * rewrite Hr, filesRead_app. cbn. apply app_nil_r.
      * intros Hjoin Hp Hd. inversion Hp as [|? ? Hp1 Hp2]; subst.
        now apply Hne.
Qed.

(** getAvailableDrives never fails and reads no file. *)
Lemma getAvailableDrives_spec (tr : list event) :
  exists drives tr',
    getAvailableDrives w tr = (inr drives, tr') /\
    filesRead tr' = filesRead tr /\
    ((forall a b, a <> "" \/ b <> "" -> filepath_Join w a b <> "") ->
     Forall (fun d => d <> "") drives).
Proof.
  unfold getAvailableDrives.
  destruct (String.eqb (GOOS w) "windows").
  - destruct (windowsDrives_spec driveLetters [] tr) as [found [tr' [Heq [Hr Hne]]]].
    exists found, tr'. split; [exact Heq|]. split; [exact Hr|]. intros _. now apply Hne.
  - destruct (_ || _).
    + destruct (mountPoints_spec ["/mnt"; "/media"; "/Volumes"] [] tr)
        as [found [tr' [Heq [Hr Hne]]]].
      exists found, tr'. split; [exact Heq|]. split; [exact Hr|]. intros Hj.
      apply Hne; [exact Hj | | constructor].
      repeat (constructor; [discriminate|]). constructor.
    + exists [], tr. now repeat split.
Qed.

(** The search reads the configuration of the first drive that holds one,
    and of no other. *)
Lemma searchDrives_spec (app : BackupApp) (drives : list string) :
  forall tr,
    match find (holdsConfig w) drives with
    | None =>
        fst (searchDrives w app drives tr) = inr app /\
        filesRead (snd (searchDrives w app drives tr)) = filesRead tr
    | Some d =>
        filesRead (snd (searchDrives w app drives tr)) =
          filesRead tr ++ [filepath_Join w d ConfigFileDefault] /\
        forall app',
          fst (searchDrives w app drives tr) = inr app' ->
          exists loaded tr0,
            fst (loadConfig w app (filepath_Join w d ConfigFileDefault) tr0) = inr loaded /\
            app' = withBkpDest loaded d
    end.
Proof.
  induction drives as [|drive drives IH]; intros tr; cbn [find].
  - now split.
  - unfold holdsConfig at 1. cbn [searchDrives]. unfold bind at 1, Stat. cbn [fst snd].
    destruct (os_Stat w (filepath_Join w drive ConfigFileDefault)) as [err|] eqn:Hst.
    + specialize (IH (tr ++ [EvStat (filepath_Join w drive ConfigFileDefault)])).
      destruct (find (holdsConfig w) drives) as [d|];
        rewrite filesRead_app in IH; cbn [filesRead] in IH; rewrite app_nil_r in IH;
        exact IH.
    + unfold bind, ret.
      destruct (loadConfig_spec app (filepath_Join w drive ConfigFileDefault)
                  (tr ++ [EvStat (filepath_Join w drive ConfigFileDefault)])) as [Htr Hok].
      destruct (loadConfig w app _ _) as [[e|loaded] tr1] eqn:Hload; cbn [fst snd] in *.
      * split; [|discriminate]. rewrite Htr, !filesRead_app. cbn. now rewrite app_nil_r.
      * split; [rewrite Htr, !filesRead_app; cbn; now rewrite app_nil_r|].
        intros app' [= <-]. exists loaded, (tr ++ [EvStat (filepath_Join w drive ConfigFileDefault)]).
        rewrite Hload. now split.
Qed.

End Init.

(** X17. one configuration, read once.  [filepath.Join] gives an empty
    path only when its elements are empty.  Whenever NewBackupApp returns
    an application, it has a backup destination, the one asked for when
    one was; a configuration file was
    given only together with a destination; exactly one configuration file
    was read, once -- the one asked for, or else ".smbkp.yaml" in the
    destination --; the configuration is what yaml.Unmarshal made of it
    over the defaults, after a successful validation, so that
    [backups_to_keep] is at least 1; the full destination path is the
    destination joined with [bkp_dest_dir]; and the two switches are those
    of the command line. *)
Theorem initialisation_loads_one_configuration
    (w : World) (dest file : string) (exitOnErr nonInter : bool)
    (app : BackupApp) (tr : list event) :
  (forall a b, a <> "" \/ b <> "" -> filepath_Join w a b <> "") ->
  NewBackupApp w dest file exitOnErr nonInter [] = (inr app, tr) ->
  bkpDest app <> "" /\
  (dest <> "" -> bkpDest app = dest) /\
  (file <> "" -> configFile app = file /\ dest <> "") /\
  (file = "" -> configFile app = filepath_Join w (bkpDest app) ConfigFileDefault) /\
  filesRead tr = [configFile app] /\
  (exists data c,
     os_ReadFile w (configFile app) = inr data /\
     yaml_Unmarshal w data NewConfig = (c, None) /\
     validate (filepath_Base w) c = (BkpConfig app, None)) /\
  LimitMinBackupsToKeep <= BackupsToKeep (Retention (BkpConfig app)) /\
  bkpDestFullPath app = filepath_Join w (bkpDest app) (BkpDestDir (BkpConfig app)) /\
  exitOnError app = exitOnErr /\ nonInteractive app = nonInter.
Proof.
  intros Hjoin. unfold NewBackupApp.
  set (app0 := mkBackupApp "" NewConfig dest "" exitOnErr nonInter).
  assert (Hgoal : forall loaded f tr0 tr1,
             fst (loadConfig w app0 f tr0) = inr loaded ->
             forall d, (dest <> "" -> d = dest) -> d <> "" ->
             (file <> "" -> f = file /\ dest <> "") ->
             (file = "" -> f = filepath_Join w d ConfigFileDefault) ->
             filesRead tr1 = [f] ->
             let app1 := withBkpDest loaded d in
             let app2 := withFullPath app1
                           (filepath_Join w (bkpDest app1) (BkpDestDir (BkpConfig app1))) in
             bkpDest app2 <> "" /\
             (dest <> "" -> bkpDest app2 = dest) /\
             (file <> "" -> configFile app2 = file /\ dest <> "") /\
             (file = "" -> configFile app2 = filepath_Join w (bkpDest app2) ConfigFileDefault) /\
             filesRead tr1 = [configFile app2] /\
             (exists data c,
                os_ReadFile w (configFile app2) = inr data /\
                yaml_Unmarshal w data NewConfig = (c, None) /\
                validate (filepath_Base w) c = (BkpConfig app2, None)) /\
             LimitMinBackupsToKeep <= BackupsToKeep (Retention (BkpConfig app2)) /\
             bkpDestFullPath app2 =
               filepath_Join w (bkpDest app2) (BkpDestDir (BkpConfig app2)) /\
             exitOnError app2 = exitOnErr /\ nonInteractive app2 = nonInter).
  { intros loaded f tr0 tr1 Hload d Hd Hne Hfile Hnofile Hread.
    destruct (loadConfig_spec w app0 f tr0) as [_ Hok].
    destruct (Hok loaded Hload) as [Hcf [_ [_ [He [Hn [data [c [Hrf [Hy Hv]]]]]]]]].
    cbn [withBkpDest withFullPath bkpDest configFile BkpConfig bkpDestFullPath
         exitOnError nonInteractive].
    rewrite Hcf. repeat split; try assumption.
    - now apply Hfile.
    - now apply Hfile.
    - now exists data, c.
    - apply (validate_backups_to_keep (filepath_Base w) c _ Hv). }
  unfold bind at 1.
  destruct (String.eqb_spec dest "") as [Hd|Hd]; cbn [negb].
  - (* no destination asked for *)
    unfold ret at 1. unfold bind at 1.
    destruct (String.eqb_spec file "") as [Hf|Hf]; cbn [negb].
    + (* nor a configuration file: the drives are searched *)
      unfold ret at 1. unfold bind at 1.
      assert (Hb0 : bkpDest app0 = "") by exact Hd. rewrite Hb0. cbn [String.eqb].
      unfold bind at 1.
      destruct (getAvailableDrives_spec w []) as [drives [tr1 [Hdr [Hr1 Hne]]]].
      rewrite Hdr. unfold bind at 1.
      pose proof (searchDrives_spec w app0 drives tr1) as Hsearch.
      destruct (searchDrives w app0 drives tr1) as [[e|app1] tr2] eqn:Hs; [discriminate|].
      cbn [fst snd] in Hsearch.
      destruct (find (holdsConfig w) drives) as [d|] eqn:Hfind.
      * destruct Hsearch as [Hr2 Hok]. destruct (Hok app1 eq_refl) as [loaded [tr0 [Hload ->]]].
        cbn [withBkpDest bkpDest].
        assert (Hdne : d <> "").
        { apply find_some in Hfind as [Hin _]. specialize (Hne Hjoin).
          rewrite Forall_forall in Hne. now apply Hne. }
        destruct (String.eqb_spec d "") as [|_]; [contradiction|].
        unfold ret at 1. unfold bind at 1. cbn [configFile withBkpDest].
        destruct (loadConfig_spec w app0 (filepath_Join w d ConfigFileDefault) tr0) as [_ Hl].
        destruct (Hl loaded Hload) as [Hcf _]. rewrite Hcf.
        destruct (String.eqb_spec (filepath_Join w d ConfigFileDefault) "") as [Hbad|_];
          [destruct (Hjoin d ConfigFileDefault); [right; discriminate | exact Hbad]|].
        unfold ret. intros [= <- <-].
        apply (Hgoal loaded (filepath_Join w d ConfigFileDefault) tr0 tr2 Hload d);
          try assumption; try contradiction; try reflexivity.
        rewrite Hr2, Hr1. reflexivity.
      * destruct Hsearch as [Happ _]. injection Happ as ->.
        rewrite Hb0. cbn [String.eqb]. unfold fail. discriminate.
    + (* a configuration file without a destination *)
      assert (Hb0 : bkpDest app0 = "") by exact Hd. rewrite Hb0. cbn [String.eqb].
      unfold fail. discriminate.
  - (* a destination is asked for *)
    unfold bind at 1, Stat. cbn [fst snd List.app].
    destruct (os_Stat w dest) as [[p e|e]|]; try (unfold fail; discriminate).
    unfold ret at 1. unfold bind at 1.
    assert (Happ0 : withBkpDest app0 dest = app0) by reflexivity. rewrite Happ0.
    assert (Hb0 : bkpDest app0 = dest) by reflexivity.
    destruct (String.eqb_spec file "") as [Hf|Hf]; cbn [negb].
    + (* the default file of the destination *)
      unfold ret at 1. unfold bind at 1. rewrite Hb0.
      destruct (String.eqb_spec dest "") as [|_]; [contradiction|].
      unfold ret at 1. unfold bind at 1. change (configFile app0) with "". cbn [String.eqb].
      destruct (loadConfig_spec w app0 (filepath_Join w dest ConfigFileDefault) [EvStat dest])
        as [Htr Hok].
      destruct (loadConfig w app0 _ _) as [[e|loaded] tr1] eqn:Hload; [discriminate|].
      cbn [fst snd] in Htr, Hok. destruct (Hok loaded eq_refl) as [Hcf [Hbd _]].
      unfold ret. intros [= <- <-].
      assert (Hsame : loaded = withBkpDest loaded dest).
      { clear - Hbd. destruct loaded. cbn [bkpDest] in Hbd. unfold withBkpDest.
        cbn [configFile BkpConfig bkpDest bkpDestFullPath exitOnError nonInteractive].
        rewrite Hbd. reflexivity. }
      rewrite Hsame.
      apply (Hgoal loaded (filepath_Join w dest ConfigFileDefault) [EvStat dest] tr1);
        try assumption; try contradiction; try reflexivity.
      * now rewrite Hload.
      * rewrite Htr. reflexivity.
    + (* the file asked for *)
      rewrite Hb0. destruct (String.eqb_spec dest "") as [|_]; [contradiction|].
      destruct (loadConfig_spec w app0 file [EvStat dest]) as [Htr Hok].
      destruct (loadConfig w app0 file [EvStat dest]) as [[e|loaded] tr1] eqn:Hload;
        [discriminate|].
      cbn [fst snd] in Htr, Hok. destruct (Hok loaded eq_refl) as [Hcf [Hbd _]].
      unfold bind at 1. rewrite Hbd, Hb0.
      destruct (String.eqb_spec dest "") as [|_]; [contradiction|].
      unfold ret at 1. unfold bind at 1. rewrite Hcf.
      destruct (String.eqb_spec file "") as [|_]; [contradiction|].
      unfold ret. intros [= <- <-].
      assert (Hsame : loaded = withBkpDest loaded dest).
      { clear - Hbd. destruct loaded. cbn [bkpDest] in Hbd. unfold withBkpDest.
        cbn [configFile BkpConfig bkpDest bkpDestFullPath exitOnError nonInteractive].
        rewrite Hbd. reflexivity. }
      rewrite Hsame.
      apply (Hgoal loaded file [EvStat dest] tr1);
        try assumption; try contradiction; try reflexivity.
      * now rewrite Hload.
      * now split.
      * rewrite Htr. reflexivity.
Qed.

Lemma mediaHost_joins (a b : string) :
  a <> "" \/ b <> "" -> filepath_Join mediaHost a b <> "".
Proof. intros _. cbn. destruct a; discriminate. Qed.

Lemma initialisation_loads_one_configuration_witness :
  NewBackupApp mediaHost "/media/b" "" true false [] =
    (inr mediaApp, [EvStat "/media/b"; EvReadFile "/media/b/.smbkp.yaml"]) /\
  bkpDest mediaApp <> "" /\
  ("/media/b" <> "" -> bkpDest mediaApp = "/media/b") /\
  ("" <> "" -> configFile mediaApp = "" /\ "/media/b" <> "") /\
  ("" = "" ->
   configFile mediaApp = filepath_Join mediaHost (bkpDest mediaApp) ConfigFileDefault) /\
  filesRead [EvStat "/media/b"; EvReadFile "/media/b/.smbkp.yaml"] = [configFile mediaApp] /\
  (exists data c,
     os_ReadFile mediaHost (configFile mediaApp) = inr data /\
     yaml_Unmarshal mediaHost data NewConfig = (c, None) /\
     validate (filepath_Base mediaHost) c = (BkpConfig mediaApp, None)) /\
  LimitMinBackupsToKeep <= BackupsToKeep (Retention (BkpConfig mediaApp)) /\
  bkpDestFullPath mediaApp =
    filepath_Join mediaHost (bkpDest mediaApp) (BkpDestDir (BkpConfig mediaApp)) /\
  exitOnError mediaApp = true /\ nonInteractive mediaApp = false.
Proof.
  split; [vm_compute; reflexivity|].
  apply (initialisation_loads_one_configuration mediaHost "/media/b" "" true false mediaApp
           [EvStat "/media/b"; EvReadFile "/media/b/.smbkp.yaml"] mediaHost_joins).
  vm_compute. reflexivity.
Defined.

(** X18. the search for a destination.  [filepath.Join] gives an empty
    path only when its elements are empty.  With neither [-bkp-dest] nor
    [-config], NewBackupApp goes through the drives that
    getAvailableDrives gives, in order, and stops at the first one that
    holds ".smbkp.yaml": only that file is read, that drive becomes the
    destination, and when its configuration cannot be loaded the
    initialisation fails without a look at the later drives.  When no
    drive holds the file nothing is read and the initialisation fails for
    want of a destination. *)
Theorem discovery_takes_the_first_drive (w : World) (exitOnErr nonInter : bool) :
  (forall a b, a <> "" \/ b <> "" -> filepath_Join w a b <> "") ->
  exists drives tr0,
    getAvailableDrives w [] = (inr drives, tr0) /\
    let result := NewBackupApp w "" "" exitOnErr nonInter [] in
    match find (holdsConfig w) drives with
    | None =>
        fst result = inl errNoDestination /\
        filesRead (snd result) = []
    | Some d =>
        filesRead (snd result) = [filepath_Join w d ConfigFileDefault] /\
        forall app, fst result = inr app ->
                    bkpDest app = d /\
                    configFile app = filepath_Join w d ConfigFileDefault
    end.
Proof.
  intros Hjoin.
  destruct (getAvailableDrives_spec w []) as [drives [tr1 [Hdr [Hr1 Hne]]]].
  exists drives, tr1. split; [exact Hdr|].
  set (app0 := mkBackupApp "" NewConfig "" "" exitOnErr nonInter).
  assert (Hres : NewBackupApp w "" "" exitOnErr nonInter [] =
            match searchDrives w app0 drives tr1 with
            | (inl e, tr2) => (inl e, tr2)
            | (inr app1, tr2) =>
                if String.eqb (bkpDest app1) ""
                then (inl errNoDestination, tr2)
                else
                  match (if String.eqb (configFile app1) ""
                         then loadConfig w app1
                                (filepath_Join w (bkpDest app1) ConfigFileDefault)
                         else ret app1) tr2 with
                  | (inl e, tr3) => (inl e, tr3)
                  | (inr app2, tr3) =>
                      (inr (withFullPath app2
                              (filepath_Join w (bkpDest app2) (BkpDestDir (BkpConfig app2)))),
                       tr3)
                  end
            end).
  { unfold NewBackupApp. fold app0. cbn [String.eqb negb].
    unfold bind at 1. unfold ret at 1. unfold bind at 1. unfold ret at 1.
    unfold bind at 1. change (bkpDest app0) with "". cbn [String.eqb].
    unfold bind at 1. rewrite Hdr. unfold bind at 1.
    destruct (searchDrives w app0 drives tr1) as [[e|app1] tr2]; [reflexivity|].
    destruct (String.eqb (bkpDest app1) ""); [reflexivity|].
    unfold ret at 1. unfold bind at 1. reflexivity. }
  rewrite Hres. clear Hres. cbv zeta.
  pose proof (searchDrives_spec w app0 drives tr1) as Hsearch.
  destruct (find (holdsConfig w) drives) as [d|] eqn:Hfind.
  - destruct Hsearch as [Hr2 Hok].
    destruct (searchDrives w app0 drives tr1) as [[e|app1] tr2] eqn:Hs; cbn [fst snd] in *.
    + split; [now rewrite Hr2, Hr1 | discriminate].
    + destruct (Hok app1 eq_refl) as [loaded [tr0 [Hload ->]]].
      cbn [withBkpDest bkpDest configFile].
      assert (Hdne : d <> "").
      { apply find_some in Hfind as [Hin _]. specialize (Hne Hjoin).
        rewrite Forall_forall in Hne. now apply Hne. }
      destruct (String.eqb_spec d "") as [|_]; [contradiction|].
      destruct (loadConfig_spec w app0 (filepath_Join w d ConfigFileDefault) tr0) as [_ Hl].
      destruct (Hl loaded Hload) as [Hcf _]. rewrite Hcf.
      destruct (String.eqb_spec (filepath_Join w d ConfigFileDefault) "") as [Hbad|_];
        [destruct (Hjoin d ConfigFileDefault); [right; discriminate | exact Hbad]|].
      unfold ret. cbn [fst snd]. split; [now rewrite Hr2, Hr1|].
      intros app [= <-]. cbn. split; [reflexivity | exact Hcf].
  - destruct Hsearch as [Happ Hr2].
    destruct (searchDrives w app0 drives tr1) as [r tr2]. cbn [fst snd] in *. subst r.
    change (bkpDest app0) with "". cbn [String.eqb fst snd].
    split; [reflexivity | now rewrite Hr2, Hr1].
Qed.

Lemma discovery_takes_the_first_drive_witness :
  exists drives tr0,
    getAvailableDrives mediaHost [] = (inr drives, tr0) /\
    let result := NewBackupApp mediaHost "" "" false true [] in
    match find (holdsConfig mediaHost) drives with
    | None =>
        fst result = inl errNoDestination /\
        filesRead (snd result) = []
    | Some d =>
        filesRead (snd result) = [filepath_Join mediaHost d ConfigFileDefault] /\
        forall app, fst result = inr app ->
                    bkpDest app = d /\
                    configFile app = filepath_Join mediaHost d ConfigFileDefault
    end.
Proof. exact (discovery_takes_the_first_drive mediaHost false true mediaHost_joins). Defined.

End InitFacts.

Module StyleFacts.
Import GoStrings StringFacts Style.


Lemma Bold_is_not_NoLabel : Bold <> NoLabel.
Proof.
  intros H.
  assert (E : bold (Bold (mkOptions false false)) = bold (NoLabel (mkOptions false false)))
    by now rewrite H.
  discriminate E.
Qed.

(** What the options of the package leave in the configuration. *)
Lemma options_applied (opts : list Option) :
  Forall known opts ->
  forall cfg,
    let cfg' := fold_left (fun cfg opt => opt cfg) opts cfg in
    (bold cfg' = true <-> bold cfg = true \/ In Bold opts) /\
    (noLabel cfg' = true <-> noLabel cfg = true \/ In NoLabel opts).
Proof.
  induction 1 as [|opt opts Hk _ IH]; intros cfg; cbn [fold_left In].
  - split; split; intros H; try (now left); now destruct H.
  - destruct (IH (opt cfg)) as [IHb IHn].
    destruct Hk as [-> | ->]; cbn [bold noLabel Bold NoLabel] in *.
    + split.
      * rewrite IHb. split; intros _; [right; now left | now left].
      * rewrite IHn. split; intros [H | H]; auto.
        destruct H as [H | H]; [|auto].
        now destruct Bold_is_not_NoLabel.
    + split.
      * rewrite IHb. split; intros [H | H]; auto.
        destruct H as [H | H]; [|auto].
        now destruct Bold_is_not_NoLabel.
      * rewrite IHn. split; intros _; [right; now left | now left].
Qed.

Lemma bool_agree (a b : bool) : (a = true <-> b = true) -> a = b.
Proof.
  destruct a, b; intros [H1 H2]; auto.
  symmetry. now apply H1.
Qed.

Lemma TrimLeftNewlines_spec (text : string) :
  afterNewlines text (TrimLeftNewlines text).
Proof.
  induction text as [|c t IH].
  - exists 0%nat. split; [reflexivity | discriminate].
  - cbn [TrimLeftNewlines].
    destruct (Ascii.eqb c newline) eqn:Hc.
    + apply Ascii.eqb_eq in Hc. subst c.
      destruct IH as [n [Ht Hrest]].
      exists (S n). split; [|exact Hrest].
      change (String newline t =
              String newline (Nat.iter n (String newline) (TrimLeftNewlines t))).
      now f_equal.
    + exists 0%nat. split; [reflexivity|].
      intros t' E. injection E as E _.
      rewrite E, Ascii.eqb_refl in Hc. discriminate.
Qed.

(** X19. what a call prints and logs, by the options it is given.  The
    text is the message, with the label and a space before it when there
    is a label and [NoLabel] is not among the options.  On the screen the
    text comes after the colour, with the bold sequence before the colour
    when [Bold] is among the options, and whenever either is written the
    reset sequence follows the text; with no colour and no [Bold] the
    text is written as it is.  The logger gets the text without the
    escape sequences and without its leading newlines. *)
Theorem print_resets_the_style (msg color label : string) (opts : list Option) :
  Forall known opts ->
  exists p text prefix,
    print false msg color label opts = Some p /\
    (In NoLabel opts \/ label = "" -> text = msg) /\
    (~ In NoLabel opts -> label <> "" -> text = label ++ " " ++ msg) /\
    (In Bold opts -> prefix = ansiBold ++ color) /\
    (~ In Bold opts -> prefix = color) /\
    screen p = prefix ++ text ++ (if String.eqb prefix "" then "" else ansiReset) /\
    afterNewlines text (logged p).
Proof.
  intros Hk.
  pose proof (options_applied opts Hk (mkOptions false false)) as [Hb Hn].
  cbn zeta in Hb, Hn. cbn [bold noLabel] in Hb, Hn.
  unfold print.
  set (cfg := fold_left (fun cfg opt => opt cfg) opts (mkOptions false false)) in *.
  set (text := if negb (String.eqb label "") && negb (noLabel cfg)
               then label ++ " " ++ msg else msg).
  assert (Hplain : In NoLabel opts \/ label = "" -> text = msg).
  { intros [Hin | ->]; subst text; [|reflexivity].
    assert (E : noLabel cfg = true) by (apply Hn; now right).
    rewrite E. now rewrite andb_false_r. }
  assert (Hlabel : ~ In NoLabel opts -> label <> "" -> text = label ++ " " ++ msg).
  { intros Hnot Hl. subst text.
    destruct (String.eqb_spec label "") as [|_]; [contradiction|].
    destruct (noLabel cfg) eqn:E; [|reflexivity].
    destruct (proj1 Hn eq_refl) as [? | ?]; [discriminate | contradiction]. }
  assert (Hbold : bold cfg = true <-> In Bold opts).
  { rewrite Hb. split; [intros [? | ?]; [discriminate | assumption] | now right]. }
  destruct (String.eqb color "") eqn:Hc; cbn [negb];
    destruct (bold cfg) eqn:Hbc.
  - apply String.eqb_eq in Hc. subst color.
    eexists _, text, (ansiBold ++ "").
    repeat split; auto using TrimLeftNewlines_spec.
    intros Hnot. destruct Hnot. now apply Hbold.
  - apply String.eqb_eq in Hc. subst color.
    eexists _, text, "".
    repeat split; auto using TrimLeftNewlines_spec.
    intros Hin. apply Hbold in Hin. discriminate.
  - eexists _, text, (ansiBold ++ color).
    repeat split; auto using TrimLeftNewlines_spec.
    intros Hnot. destruct Hnot. now apply Hbold.
  - eexists _, text, color.
    repeat split; auto using TrimLeftNewlines_spec.
    + intros Hin. apply Hbold in Hin. discriminate.
    + cbn [screen]. now rewrite Hc.
Qed.

Lemma print_resets_the_style_witness :
  exists p text prefix,
    Warn "disk almost full" [NoLabel; Bold] = Some p /\
    (In NoLabel [NoLabel; Bold] \/ "[WARNING]" = "" -> text = "disk almost full") /\
    (~ In NoLabel [NoLabel; Bold] -> "[WARNING]" <> "" ->
     text = "[WARNING]" ++ " " ++ "disk almost full") /\
    (In Bold [NoLabel; Bold] -> prefix = ansiBold ++ ansiFgYellow) /\
    (~ In Bold [NoLabel; Bold] -> prefix = ansiFgYellow) /\
    screen p = prefix ++ text ++ (if String.eqb prefix "" then "" else ansiReset) /\
    afterNewlines text (logged p).
Proof.
  apply (print_resets_the_style "disk almost full" ansiFgYellow "[WARNING]" [NoLabel; Bold]).
  repeat (apply Forall_cons; [unfold known; auto|]). apply Forall_nil.
Defined.

(** X20. the options of a call may be given in any order and any number of
    times: two calls whose option lists hold the same options print and
    log the same. *)
Theorem options_in_any_order (isNil : bool) (msg color label : string)
    (opts opts' : list Option) :
  Forall known opts -> Forall known opts' ->
  (forall opt, In opt opts <-> In opt opts') ->
  print isNil msg color label opts = print isNil msg color label opts'.
Proof.
  intros Hk Hk' Hsame.
  pose proof (options_applied opts Hk (mkOptions false false)) as [Hb Hn].
  pose proof (options_applied opts' Hk' (mkOptions false false)) as [Hb' Hn'].
  cbn zeta in Hb, Hn, Hb', Hn'. cbn [bold noLabel] in Hb, Hn, Hb', Hn'.
  unfold print.
  set (cfg := fold_left (fun cfg opt => opt cfg) opts (mkOptions false false)) in *.
  set (cfg' := fold_left (fun cfg opt => opt cfg) opts' (mkOptions false false)) in *.
  assert (Eb : bold cfg = bold cfg').
  { apply bool_agree. rewrite Hb, Hb', (Hsame Bold). reflexivity. }
  assert (En : noLabel cfg = noLabel cfg').
  { apply bool_agree. rewrite Hn, Hn', (Hsame NoLabel). reflexivity. }
  now rewrite Eb, En.
Qed.

Lemma options_in_any_order_witness :
  Info "done" [Bold; NoLabel; Bold] = Info "done" [NoLabel; Bold] /\
  Info "done" [NoLabel; Bold] =
    Some (mkPrinted (ansiBold ++ ansiFgCyan ++ "done" ++ ansiReset) "done").
Proof.
  split; [|reflexivity].
  apply (options_in_any_order false "done" ansiFgCyan "[INFO]"
           [Bold; NoLabel; Bold] [NoLabel; Bold]).
  - repeat (apply Forall_cons; [unfold known; auto|]). apply Forall_nil.
  - repeat (apply Forall_cons; [unfold known; auto|]). apply Forall_nil.
  - intros opt. cbn [In]. tauto.
Defined.

End StyleFacts.
